(** * Haplotype resolution passes of the repeat graph

    A shallow embedding of [src/repeat_graph/haplotype_resolver.cpp]:
    [HaplotypeResolver::collapseHeterozygousBulges],
    [HaplotypeResolver::collapseHeterozygousLoops] and
    [HaplotypeResolver::findComplexHaplotypes].

    The graph is an arena: nodes and edges live in two vectors and a pointer
    is an index into its vector.  Reading or writing through a pointer that
    is outside its arena, [front()] or [back()] of an empty vector, an
    out-of-range [operator[]] and a null [UnbranchingPath*] are undefined
    behaviour in the source; here every such access yields [None] and the
    whole pass yields [None]. *)

From Stdlib Require Import ZArith QArith Lia Lqa.
From stdpp Require Import base option list gmap sorting.

Local Open Scope Z_scope.

(** ** Sequence identifiers *)

Module FastaRecord.

(** Modelled from the spec: [FastaRecord::Id] is declared outside this file.
    An id carries a numeric identity and a strand bit, [rc] yields the
    reverse-complement twin and [strand] the canonical-strand predicate. *)
Record Id := mkId { num : N; fwd : bool }.

Definition rc (i : Id) : Id := mkId (num i) (negb (fwd i)).

Definition strand (i : Id) : bool := fwd i.

(** [signedId] as the log lines print it. *)
Definition signedId (i : Id) : Z :=
  if fwd i then Z.of_N (num i) else - Z.of_N (num i).

#[global] Instance Id_eq_dec : EqDecision Id.
Proof. solve_decision. Defined.

#[global] Instance Id_countable : Countable Id :=
  inj_countable' (fun i => (num i, fwd i)) (fun p => mkId p.1 p.2)
    (fun i => match i with mkId _ _ => eq_refl end).

End FastaRecord.

(** ** Coverage arithmetic *)

(** Modelled from the spec: [meanCoverage] is a [float] whose declaration is
    outside this file.  The passes only add coverages, multiply by the
    constant 1.5, divide by 4 and compare, so the carrier is kept abstract
    behind exactly these operations. *)
Class Coverage (C : Type) := {
  cadd : C -> C -> C;
  cmul : C -> C -> C;
  cdiv : C -> C -> C;
  cltb : C -> C -> bool;
  c1_5 : C;
  c4 : C
}.

(** [std::min] as the standard library defines it; [std::max] on the integer
    lengths is [Z.max]. *)
Definition cmin `{Coverage C} (a b : C) : C := if cltb b a then b else a.

(** What the order has to satisfy for the tests to read as inequalities on
    numbers: [a <= b < c] gives [a < c], and scaling by 1.5 is monotone. *)
Class CoverageOrder (C : Type) `{Coverage C} := {
  cltb_le_lt : forall a b c, cltb b a = false -> cltb b c = true -> cltb a c = true;
  cmul_mono : forall a b, cltb b a = false -> cltb (cmul b c1_5) (cmul a c1_5) = false
}.

(** Exact rational arithmetic as one carrier. *)
#[global] Instance Q_Coverage : Coverage Q := {
  cadd := Qplus;
  cmul := Qmult;
  cdiv := Qdiv;
  cltb := fun a b => negb (Qle_bool b a);
  c1_5 := (3 # 2)%Q;
  c4 := (4 # 1)%Q
}.

(** ** Graph model *)

Abbreviation node_ptr := nat (only parsing).
Abbreviation edge_ptr := nat (only parsing).

Record GraphNode := mkNode {
  inEdges : list edge_ptr;
  outEdges : list edge_ptr
}.

(** Modelled from the spec: [GraphEdge] is declared outside this file.  The
    fields are the ones the passes touch; [seqLength] is the edge length the
    path extractor sums, and [twin] is the edge [complementEdge] returns. *)
Record GraphEdge (C : Type) := mkEdge {
  nodeLeft : node_ptr;
  nodeRight : node_ptr;
  edgeId : FastaRecord.Id;
  seqLength : Z;
  meanCoverage : C;
  altHaplotype : bool;
  selfComplement : bool;
  twin : edge_ptr
}.
Arguments mkEdge {C}.
Arguments nodeLeft {C}.
Arguments nodeRight {C}.
Arguments edgeId {C}.
Arguments seqLength {C}.
Arguments meanCoverage {C}.
Arguments altHaplotype {C}.
Arguments selfComplement {C}.
Arguments twin {C}.

Record RepeatGraph (C : Type) := mkGraph {
  graphNodes : list GraphNode;
  graphEdges : list (GraphEdge C)
}.
Arguments mkGraph {C}.
Arguments graphNodes {C}.
Arguments graphEdges {C}.

(** Modelled from the spec: [UnbranchingPath] is declared outside this file.
    [path] is the edge sequence; [id], [length] and [meanCoverage] are
    computed by the extractor and stored. *)
Module UnbranchingPath.
Record t (C : Type) := mk {
  path : list edge_ptr;
  id : FastaRecord.Id;
  length : Z;
  meanCoverage : C
}.
Arguments mk {C}.
Arguments path {C}.
Arguments id {C}.
Arguments length {C}.
Arguments meanCoverage {C}.
End UnbranchingPath.

(** Monadic left fold: a [for] loop whose body may fail. *)
Fixpoint foldM {A S : Type} (f : S -> A -> option S) (s : S) (l : list A) : option S :=
  match l with
  | [] => Some s
  | x :: l' => match f s x with
               | Some s' => foldM f s' l'
               | None => None
               end
  end.

Section Graph.
Context {C : Type} `{Coverage C}.

Definition setAltHaplotype (b : bool) (e : GraphEdge C) : GraphEdge C :=
  mkEdge (nodeLeft e) (nodeRight e) (edgeId e) (seqLength e) (meanCoverage e)
         b (selfComplement e) (twin e).

Definition addMeanCoverage (c : C) (e : GraphEdge C) : GraphEdge C :=
  mkEdge (nodeLeft e) (nodeRight e) (edgeId e) (seqLength e)
         (cadd (meanCoverage e) c) (altHaplotype e) (selfComplement e) (twin e).

Definition setNodeLeft (n : node_ptr) (e : GraphEdge C) : GraphEdge C :=
  mkEdge n (nodeRight e) (edgeId e) (seqLength e) (meanCoverage e)
         (altHaplotype e) (selfComplement e) (twin e).

Definition setNodeRight (n : node_ptr) (e : GraphEdge C) : GraphEdge C :=
  mkEdge (nodeLeft e) n (edgeId e) (seqLength e) (meanCoverage e)
         (altHaplotype e) (selfComplement e) (twin e).

(** [edge->field = ...]: a write through an edge pointer. *)
Definition updateEdge (f : GraphEdge C -> GraphEdge C) (g : RepeatGraph C)
    (e : edge_ptr) : option (RepeatGraph C) :=
  match graphEdges g !! e with
  | Some ed => Some (mkGraph (graphNodes g) (<[e := f ed]> (graphEdges g)))
  | None => None
  end.

(** [node->field = ...]: a write through a node pointer. *)
Definition updateNode (f : GraphNode -> GraphNode) (g : RepeatGraph C)
    (n : node_ptr) : option (RepeatGraph C) :=
  match graphNodes g !! n with
  | Some nd => Some (mkGraph (<[n := f nd]> (graphNodes g)) (graphEdges g))
  | None => None
  end.

(** Modelled from the spec: [RepeatGraph::complementEdge] returns the twin
    of [e]. *)
Definition complementEdge (g : RepeatGraph C) (e : edge_ptr) : option edge_ptr :=
  match graphEdges g !! e with
  | Some ed => Some (twin ed)
  | None => None
  end.

(** Modelled from the spec: [RepeatGraph::addNode] allocates a fresh node
    with empty adjacency. *)
Definition addNode (g : RepeatGraph C) : RepeatGraph C * node_ptr :=
  (mkGraph (graphNodes g ++ [mkNode [] []]) (graphEdges g),
   List.length (graphNodes g)).

(** Modelled from the spec: [vecRemove] removes the first matching entry. *)
Fixpoint vecRemove (v : list edge_ptr) (x : edge_ptr) : list edge_ptr :=
  match v with
  | [] => []
  | y :: v' => if Nat.eqb y x then v' else y :: vecRemove v' x
  end.

Definition removeOutEdge (x : edge_ptr) (nd : GraphNode) : GraphNode :=
  mkNode (inEdges nd) (vecRemove (outEdges nd) x).

Definition removeInEdge (x : edge_ptr) (nd : GraphNode) : GraphNode :=
  mkNode (vecRemove (inEdges nd) x) (outEdges nd).

Definition pushOutEdge (x : edge_ptr) (nd : GraphNode) : GraphNode :=
  mkNode (inEdges nd) (outEdges nd ++ [x]).

Definition pushInEdge (x : edge_ptr) (nd : GraphNode) : GraphNode :=
  mkNode (inEdges nd ++ [x]) (outEdges nd).

(** Modelled from the spec: [path.nodeLeft()] is the source of the first
    edge and [path.nodeRight()] the target of the last one, both read from
    (and, when assigned, written to) the edges themselves. *)
Definition pathFront (p : UnbranchingPath.t C) : option edge_ptr :=
  head (UnbranchingPath.path p).

Definition pathBack (p : UnbranchingPath.t C) : option edge_ptr :=
  last (UnbranchingPath.path p).

Definition pathNodeLeft (g : RepeatGraph C) (p : UnbranchingPath.t C) : option node_ptr :=
  match pathFront p with
  | Some e => match graphEdges g !! e with
              | Some ed => Some (nodeLeft ed)
              | None => None
              end
  | None => None
  end.

Definition pathNodeRight (g : RepeatGraph C) (p : UnbranchingPath.t C) : option node_ptr :=
  match pathBack p with
  | Some e => match graphEdges g !! e with
              | Some ed => Some (nodeRight ed)
              | None => None
              end
  | None => None
  end.

(** Modelled from the spec: [isLooped] holds when [nodeLeft == nodeRight]. *)
Definition isLooped (g : RepeatGraph C) (p : UnbranchingPath.t C) : option bool :=
  match pathNodeLeft g p, pathNodeRight g p with
  | Some l, Some r => Some (Nat.eqb l r)
  | _, _ => None
  end.

Definition frontAltHaplotype (g : RepeatGraph C) (p : UnbranchingPath.t C) : option bool :=
  match pathFront p with
  | Some e => match graphEdges g !! e with
              | Some ed => Some (altHaplotype ed)
              | None => None
              end
  | None => None
  end.

(** [edge->field = ...; _graph.complementEdge(edge)->field = ...;]: the same
    write on an edge and then on its twin. *)
Definition updateBothStrands (f : GraphEdge C -> GraphEdge C) (g : RepeatGraph C)
    (e : edge_ptr) : option (RepeatGraph C) :=
  match updateEdge f g e with
  | Some g1 => match complementEdge g1 e with
               | Some c => updateEdge f g1 c
               | None => None
               end
  | None => None
  end.

(** [edge->altHaplotype = b; _graph.complementEdge(edge)->altHaplotype = b;] *)
Definition markEdge (b : bool) (g : RepeatGraph C) (e : edge_ptr) : option (RepeatGraph C) :=
  updateBothStrands (setAltHaplotype b) g e.

(** [for (auto& edge : p->path) { ... altHaplotype = b ... }] *)
Definition markPath (b : bool) (g : RepeatGraph C) (p : UnbranchingPath.t C) :
    option (RepeatGraph C) :=
  foldM (markEdge b) g (UnbranchingPath.path p).

End Graph.

(** ** [collapseHeterozygousBulges] *)

Fixpoint filterM {A : Type} (f : A -> option bool) (l : list A) : option (list A) :=
  match l with
  | [] => Some []
  | x :: l' => match f x with
               | Some b => match filterM f l' with
                           | Some r => Some (if b then x :: r else r)
                           | None => None
                           end
               | None => None
               end
  end.

Record BulgeState (C : Type) := mkBulgeState {
  bulgeGraph : RepeatGraph C;
  toSeparate : gset FastaRecord.Id;
  bulgeMasked : Z
}.
Arguments mkBulgeState {C}.
Arguments bulgeGraph {C}.
Arguments toSeparate {C}.
Arguments bulgeMasked {C}.

(** A candidate bubble: the two branches and the result of the entrance and
    exit lookups ([None] is the null pointer). *)
Record BulgeCandidate (C : Type) := mkBulgeCandidate {
  branch0 : UnbranchingPath.t C;
  branch1 : UnbranchingPath.t C;
  bulgeEntrance : option (UnbranchingPath.t C);
  bulgeExit : option (UnbranchingPath.t C)
}.
Arguments mkBulgeCandidate {C}.
Arguments branch0 {C}.
Arguments branch1 {C}.
Arguments bulgeEntrance {C}.
Arguments bulgeExit {C}.

Section Bulges.
Context {C : Type} `{Coverage C}.

(** Configuration key [max_bubble_length]. *)
Variable MAX_BUBBLE_LEN : Z.

(** [candEdge.nodeLeft() == l && candEdge.nodeRight() == r] *)
Definition sameEnds (g : RepeatGraph C) (l r : node_ptr) (cand : UnbranchingPath.t C) :
    option bool :=
  match pathNodeLeft g cand with
  | Some cl =>
      if Nat.eqb cl l then
        match pathNodeRight g cand with
        | Some cr => Some (Nat.eqb cr r)
        | None => None
        end
      else Some false
  | None => None
  end.

(** Lines 46-53: the last path ending at [l] and the last path starting at [r]. *)
Definition bulgeLookupStep (g : RepeatGraph C) (l r : node_ptr)
    (acc : option (UnbranchingPath.t C) * option (UnbranchingPath.t C))
    (cand : UnbranchingPath.t C) :
    option (option (UnbranchingPath.t C) * option (UnbranchingPath.t C)) :=
  match pathNodeRight g cand, pathNodeLeft g cand with
  | Some cr, Some cl =>
      Some (if Nat.eqb cr l then Some cand else fst acc,
            if Nat.eqb cl r then Some cand else snd acc)
  | _, _ => None
  end.

Definition bulgeLookup (g : RepeatGraph C) (l r : node_ptr)
    (paths : list (UnbranchingPath.t C)) :
    option (option (UnbranchingPath.t C) * option (UnbranchingPath.t C)) :=
  foldM (bulgeLookupStep g l r) (None, None) paths.

(** Lines 41-44. *)
Definition bulgeDegreesOk (nl nr : GraphNode) : bool :=
  Nat.eqb (List.length (inEdges nl)) 1 && Nat.eqb (List.length (outEdges nl)) 2 &&
  Nat.eqb (List.length (outEdges nr)) 1 && Nat.eqb (List.length (inEdges nr)) 2.

(** Lines 24-53: the structural part of the loop body.  [Some None] is
    [continue]. *)
Definition bulgeCandidate (paths : list (UnbranchingPath.t C)) (st : BulgeState C)
    (p : UnbranchingPath.t C) : option (option (BulgeCandidate C)) :=
  let g := bulgeGraph st in
  match isLooped g p with
  | None => None
  | Some true => Some None
  | Some false =>
    match pathNodeLeft g p, pathNodeRight g p with
    | Some l, Some r =>
      match filterM (sameEnds g l r) paths with
      | None => None
      | Some [a; b] =>
        if decide (UnbranchingPath.id a = FastaRecord.rc (UnbranchingPath.id b))
        then Some None
        else if decide (UnbranchingPath.id a ∈ toSeparate st) then Some None
        else if decide (UnbranchingPath.id b ∈ toSeparate st) then Some None
        else
          match graphNodes g !! l with
          | None => None
          | Some nl =>
            if negb (Nat.eqb (List.length (inEdges nl)) 1 &&
                     Nat.eqb (List.length (outEdges nl)) 2)
            then Some None
            else
              match graphNodes g !! r with
              | None => None
              | Some nr =>
                if negb (bulgeDegreesOk nl nr) then Some None
                else
                  match bulgeLookup g l r paths with
                  | Some (en, ex) => Some (Some (mkBulgeCandidate a b en ex))
                  | None => None
                  end
              end
          end
      | Some _ => Some None
      end
    | _, _ => None
    end
  end.

Definition bulgeMaxLen (c : BulgeCandidate C) : Z :=
  Z.max (UnbranchingPath.length (branch0 c)) (UnbranchingPath.length (branch1 c)).

(** Line 61. *)
Definition covSum (c : BulgeCandidate C) : C :=
  cadd (UnbranchingPath.meanCoverage (branch0 c)) (UnbranchingPath.meanCoverage (branch1 c)).

(** Lines 62-63: [covSum > std::min(entrance * MAX_COV_VAR, exit * MAX_COV_VAR)]. *)
Definition bulgeCoverageRejects (c : BulgeCandidate C) (en ex : UnbranchingPath.t C) : bool :=
  cltb (cmin (cmul (UnbranchingPath.meanCoverage en) c1_5)
             (cmul (UnbranchingPath.meanCoverage ex) c1_5))
       (covSum c).

(** Lines 68-69. *)
Definition bulgeLengthRejects (c : BulgeCandidate C) (en ex : UnbranchingPath.t C) : bool :=
  Z.max (UnbranchingPath.length en) (UnbranchingPath.length ex) <? bulgeMaxLen c.

(** Lines 56-69: [Some true] when the candidate is accepted, [Some false] is
    [continue], [None] a null entrance or exit being dereferenced. *)
Definition bulgeTests (c : BulgeCandidate C) : option bool :=
  if MAX_BUBBLE_LEN <? bulgeMaxLen c then Some false
  else
    match bulgeEntrance c, bulgeExit c with
    | Some en, Some ex =>
        if bulgeCoverageRejects c en ex then Some false
        else if bulgeLengthRejects c en ex then Some false
        else Some true
    | _, _ => None
    end.

(** Lines 71-74: the branch with the lower coverage comes first. *)
Definition bulgeOrder (c : BulgeCandidate C) : UnbranchingPath.t C * UnbranchingPath.t C :=
  if cltb (UnbranchingPath.meanCoverage (branch1 c)) (UnbranchingPath.meanCoverage (branch0 c))
  then (branch1 c, branch0 c)
  else (branch0 c, branch1 c).

(** Lines 76-77: [!alt(first of a) || !alt(first of b)], left to right. *)
Definition bulgeNewlyMasked (g : RepeatGraph C) (a b : UnbranchingPath.t C) : option bool :=
  match frontAltHaplotype g a with
  | Some false => Some true
  | Some true =>
      match frontAltHaplotype g b with
      | Some fb => Some (negb fb)
      | None => None
      end
  | None => None
  end.

(** Lines 94-97, for one edge of the retained branch. *)
Definition foldCoverageEdge (c : C) (g : RepeatGraph C) (e : edge_ptr) :
    option (RepeatGraph C) :=
  match updateBothStrands (addMeanCoverage c) g e with
  | Some g1 => markEdge false g1 e
  | None => None
  end.

(** Lines 71-99. *)
Definition bulgeApply (removeAlternatives : bool) (st : BulgeState C)
    (c : BulgeCandidate C) : option (BulgeState C) :=
  let '(a, b) := bulgeOrder c in
  let g := bulgeGraph st in
  match bulgeNewlyMasked g a b with
  | None => None
  | Some fresh =>
    let masked := if fresh then bulgeMasked st + 1 else bulgeMasked st in
    match markPath true g a with
    | None => None
    | Some g1 =>
      match markPath true g1 b with
      | None => None
      | Some g2 =>
        if removeAlternatives then
          match foldM (foldCoverageEdge (UnbranchingPath.meanCoverage a)) g2
                      (UnbranchingPath.path b) with
          | Some g3 =>
              Some (mkBulgeState g3
                      ({[FastaRecord.rc (UnbranchingPath.id a)]} ∪
                       ({[UnbranchingPath.id a]} ∪ toSeparate st))
                      masked)
          | None => None
          end
        else Some (mkBulgeState g2 (toSeparate st) masked)
      end
    end
  end.

(** Lines 22-100: one iteration of the detection loop. *)
Definition bulgeIter (removeAlternatives : bool) (paths : list (UnbranchingPath.t C))
    (st : BulgeState C) (p : UnbranchingPath.t C) : option (BulgeState C) :=
  match bulgeCandidate paths st p with
  | None => None
  | Some None => Some st
  | Some (Some c) =>
    match bulgeTests c with
    | None => None
    | Some false => Some st
    | Some true => bulgeApply removeAlternatives st c
    end
  end.

(** Lines 110-117: detach one staged path onto two fresh nodes. *)
Definition separatePath (g : RepeatGraph C) (p : UnbranchingPath.t C) :
    option (RepeatGraph C) :=
  let '(g1, newLeft) := addNode g in
  let '(g2, newRight) := addNode g1 in
  match pathFront p, pathBack p with
  | Some front, Some back =>
    match pathNodeLeft g2 p with
    | None => None
    | Some l =>
      match updateNode (removeOutEdge front) g2 l with
      | None => None
      | Some g3 =>
        match pathNodeRight g3 p with
        | None => None
        | Some r =>
          match updateNode (removeInEdge back) g3 r with
          | None => None
          | Some g4 =>
            match updateEdge (setNodeLeft newLeft) g4 front with
            | None => None
            | Some g5 =>
              match updateEdge (setNodeRight newRight) g5 back with
              | None => None
              | Some g6 =>
                match updateNode (pushOutEdge front) g6 newLeft with
                | None => None
                | Some g7 => updateNode (pushInEdge back) g7 newRight
                end
              end
            end
          end
        end
      end
    end
  | _, _ => None
  end.

(** Lines 104-119. *)
Definition separateIter (staged : gset FastaRecord.Id) (g : RepeatGraph C)
    (p : UnbranchingPath.t C) : option (RepeatGraph C) :=
  if decide (UnbranchingPath.id p ∈ staged) then separatePath g p else Some g.

(** The whole pass on the path list [getUnbranchingPaths] returned.
    [_aligner.updateAlignments()] belongs to a collaborator and does not
    touch the graph. *)
Definition collapseHeterozygousBulges (removeAlternatives : bool)
    (paths : list (UnbranchingPath.t C)) (g : RepeatGraph C) :
    option (RepeatGraph C * Z) :=
  match foldM (bulgeIter removeAlternatives paths) (mkBulgeState g ∅ 0) paths with
  | None => None
  | Some st =>
    if removeAlternatives then
      match foldM (separateIter (toSeparate st)) (bulgeGraph st) paths with
      | Some g' => Some (g', Z.of_nat (size (toSeparate st) / 2))
      | None => None
      end
    else Some (bulgeGraph st, bulgeMasked st)
  end.

End Bulges.

(** ** [collapseHeterozygousLoops] *)

Record LoopState (C : Type) := mkLoopState {
  loopGraph : RepeatGraph C;
  toUnroll : gset FastaRecord.Id;
  toRemove : gset FastaRecord.Id;
  loopMasked : Z
}.
Arguments mkLoopState {C}.
Arguments loopGraph {C}.
Arguments toUnroll {C}.
Arguments toRemove {C}.
Arguments loopMasked {C}.

Section Loops.
Context {C : Type} `{Coverage C}.

Definition frontSelfComplement (g : RepeatGraph C) (p : UnbranchingPath.t C) : option bool :=
  match pathFront p with
  | Some e => match graphEdges g !! e with
              | Some ed => Some (selfComplement ed)
              | None => None
              end
  | None => None
  end.

(** Lines 159-167: the last path, other than the loop, that ends at [node]
    and the last one that starts there. *)
Definition loopLookupStep (g : RepeatGraph C) (node : node_ptr) (loop : UnbranchingPath.t C)
    (acc : option (UnbranchingPath.t C) * option (UnbranchingPath.t C))
    (cand : UnbranchingPath.t C) :
    option (option (UnbranchingPath.t C) * option (UnbranchingPath.t C)) :=
  match pathNodeRight g cand, pathNodeLeft g cand with
  | Some cr, Some cl =>
      let other := negb (bool_decide (UnbranchingPath.id loop = UnbranchingPath.id cand)) in
      Some (if Nat.eqb cr node && other then Some cand else fst acc,
            if Nat.eqb cl node && other then Some cand else snd acc)
  | _, _ => None
  end.

Definition loopLookup (g : RepeatGraph C) (node : node_ptr) (loop : UnbranchingPath.t C)
    (paths : list (UnbranchingPath.t C)) :
    option (option (UnbranchingPath.t C) * option (UnbranchingPath.t C)) :=
  foldM (loopLookupStep g node loop) (None, None) paths.

(** Lines 151-167: [Some None] is [continue]; otherwise the results of the
    entrance and exit lookups. *)
Definition loopCandidate (paths : list (UnbranchingPath.t C)) (g : RepeatGraph C)
    (loop : UnbranchingPath.t C) :
    option (option (option (UnbranchingPath.t C) * option (UnbranchingPath.t C))) :=
  if negb (FastaRecord.strand (UnbranchingPath.id loop)) then Some None
  else
    match isLooped g loop with
    | None => None
    | Some false => Some None
    | Some true =>
      match frontSelfComplement g loop with
      | None => None
      | Some true => Some None
      | Some false =>
        match pathNodeLeft g loop with
        | None => None
        | Some node =>
          match graphNodes g !! node with
          | None => None
          | Some nd =>
            if negb (Nat.eqb (List.length (inEdges nd)) 2 &&
                     Nat.eqb (List.length (outEdges nd)) 2)
            then Some None
            else
              match loopLookup g node loop paths with
              | Some r => Some (Some r)
              | None => None
              end
          end
        end
      end
    end.

(** Lines 173-175: [loop > COV_MULT * std::min(entrance, entrance)]. *)
Definition loopCoverageRejects (loop en : UnbranchingPath.t C) : bool :=
  cltb (cmul c1_5 (cmin (UnbranchingPath.meanCoverage en) (UnbranchingPath.meanCoverage en)))
       (UnbranchingPath.meanCoverage loop).

(** Lines 178-179. *)
Definition loopLengthRejects (loop en ex : UnbranchingPath.t C) : bool :=
  Z.max (UnbranchingPath.length en) (UnbranchingPath.length ex) <? UnbranchingPath.length loop.

(** Lines 169-179 on the looked-up pointers: [Some (Some (en, ex))] when the
    loop is accepted, [Some None] is [continue], [None] a null dereference. *)
Definition loopTests (g : RepeatGraph C) (loop : UnbranchingPath.t C)
    (r : option (UnbranchingPath.t C) * option (UnbranchingPath.t C)) :
    option (option (UnbranchingPath.t C * UnbranchingPath.t C)) :=
  match fst r with
  | None => None
  | Some en =>
    match isLooped g en with
    | None => None
    | Some true => Some None
    | Some false =>
      match snd r with
      | None => None
      | Some ex =>
        if decide (UnbranchingPath.id en = FastaRecord.rc (UnbranchingPath.id ex))
        then Some None
        else if loopCoverageRejects loop en then Some None
        else if loopLengthRejects loop en ex then Some None
        else Some (Some (en, ex))
      end
    end
  end.

(** Lines 188-189: [loop < (entrance + exit) / 4]. *)
Definition loopIsRemoved (loop en ex : UnbranchingPath.t C) : bool :=
  cltb (UnbranchingPath.meanCoverage loop)
       (cdiv (cadd (UnbranchingPath.meanCoverage en) (UnbranchingPath.meanCoverage ex)) c4).

Definition stageBoth (i : FastaRecord.Id) (s : gset FastaRecord.Id) : gset FastaRecord.Id :=
  {[FastaRecord.rc i]} ∪ ({[i]} ∪ s).

(** Lines 181-198. *)
Definition loopApply (st : LoopState C) (loop en ex : UnbranchingPath.t C) :
    option (LoopState C) :=
  let g := loopGraph st in
  match frontAltHaplotype g loop with
  | None => None
  | Some alt =>
    let masked := if alt then loopMasked st else loopMasked st + 1 in
    match markPath true g loop with
    | None => None
    | Some g1 =>
      if loopIsRemoved loop en ex
      then Some (mkLoopState g1 (toUnroll st)
                   (stageBoth (UnbranchingPath.id loop) (toRemove st)) masked)
      else Some (mkLoopState g1
                   (stageBoth (UnbranchingPath.id loop) (toUnroll st))
                   (toRemove st) masked)
    end
  end.

(** Lines 149-199: one iteration of the detection loop. *)
Definition loopIter (paths : list (UnbranchingPath.t C)) (st : LoopState C)
    (loop : UnbranchingPath.t C) : option (LoopState C) :=
  match loopCandidate paths (loopGraph st) loop with
  | None => None
  | Some None => Some st
  | Some (Some r) =>
    match loopTests (loopGraph st) loop r with
    | None => None
    | Some None => Some st
    | Some (Some (en, ex)) => loopApply st loop en ex
    end
  end.

(** Lines 209-218: break the cycle by moving the loop's first edge and the
    other incoming edge onto a fresh node. *)
Definition unrollPath (g : RepeatGraph C) (p : UnbranchingPath.t C) :
    option (RepeatGraph C) :=
  let '(g1, newNode) := addNode g in
  match pathFront p, pathBack p with
  | Some front, Some back =>
    match pathNodeLeft g1 p with
    | None => None
    | Some l =>
      match graphNodes g1 !! l with
      | None => None
      | Some nd =>
        match inEdges nd !! 0%nat with
        | None => None
        | Some e0 =>
          match inEdges nd !! (if Nat.eqb e0 back then 1%nat else 0%nat) with
          | None => None
          | Some prevEdge =>
            match updateNode (removeOutEdge front) g1 l with
            | None => None
            | Some g2 =>
              match updateNode (removeInEdge prevEdge) g2 l with
              | None => None
              | Some g3 =>
                match updateEdge (setNodeLeft newNode) g3 front with
                | None => None
                | Some g4 =>
                  match updateNode (pushOutEdge front) g4 newNode with
                  | None => None
                  | Some g5 =>
                    match updateEdge (setNodeRight newNode) g5 prevEdge with
                    | None => None
                    | Some g6 => updateNode (pushInEdge prevEdge) g6 newNode
                    end
                  end
                end
              end
            end
          end
        end
      end
    end
  | _, _ => None
  end.

(** Lines 224-232: detach the loop onto two fresh nodes. *)
Definition removePath (g : RepeatGraph C) (p : UnbranchingPath.t C) :
    option (RepeatGraph C) :=
  let '(g1, newLeft) := addNode g in
  let '(g2, newRight) := addNode g1 in
  match pathFront p, pathBack p with
  | Some front, Some back =>
    match pathNodeLeft g2 p with
    | None => None
    | Some l =>
      match updateNode (removeOutEdge front) g2 l with
      | None => None
      | Some g3 =>
        match updateNode (removeInEdge back) g3 l with
        | None => None
        | Some g4 =>
          match updateEdge (setNodeLeft newLeft) g4 front with
          | None => None
          | Some g5 =>
            match updateNode (pushInEdge back) g5 newRight with
            | None => None
            | Some g6 =>
              match updateEdge (setNodeRight newRight) g6 back with
              | None => None
              | Some g7 => updateNode (pushOutEdge front) g7 newLeft
              end
            end
          end
        end
      end
    end
  | _, _ => None
  end.

(** Lines 203-234. *)
Definition loopEditIter (unroll remove : gset FastaRecord.Id) (g : RepeatGraph C)
    (p : UnbranchingPath.t C) : option (RepeatGraph C) :=
  match (if decide (UnbranchingPath.id p ∈ unroll) then unrollPath g p else Some g) with
  | None => None
  | Some g1 =>
    if decide (UnbranchingPath.id p ∈ remove) then removePath g1 p else Some g1
  end.

Definition collapseHeterozygousLoops (removeAlternatives : bool)
    (paths : list (UnbranchingPath.t C)) (g : RepeatGraph C) :
    option (RepeatGraph C * Z) :=
  match foldM (loopIter paths) (mkLoopState g ∅ ∅ 0) paths with
  | None => None
  | Some st =>
    if removeAlternatives then
      match foldM (loopEditIter (toUnroll st) (toRemove st)) (loopGraph st) paths with
      | Some g' =>
          Some (g', Z.of_nat ((size (toRemove st) + size (toUnroll st)) / 2))
      | None => None
      end
    else Some (loopGraph st, loopMasked st)
  end.

End Loops.

(** ** [findComplexHaplotypes] *)

(** Modelled from the spec: an [EdgeAlignment] references an edge and
    carries an overlap whose [curEnd] is the read-coordinate end. *)
Record EdgeAlignment := mkAln {
  edge : edge_ptr;
  curEnd : Z
}.

Abbreviation GraphAlignment := (list EdgeAlignment) (only parsing).

(** Lines 309-313. *)
Record PathWithScore := mkPws {
  pwsPath : list EdgeAlignment;
  score : Z
}.

(** What the debug lines of one reported bubble print. *)
Record BubbleReport := mkReport {
  repStart : Z;
  repOutPaths : nat;
  repGroups : list (list Z * Z);
  repBranches : list (list Z * Z);
  repBoundaries : Z * Z
}.

Definition alnEdges (aln : list EdgeAlignment) : list edge_ptr := map edge aln.

(** Lines 252-265: [alnIndex[edge].push_back(aln)] for every distinct edge
    of every alignment longer than one. *)
Definition indexAlignment (idx : gmap nat (list (list EdgeAlignment)))
    (aln : list EdgeAlignment) : gmap nat (list (list EdgeAlignment)) :=
  if (1 <? List.length aln)%nat then
    foldr (fun e m => <[e := default [] (m !! e) ++ [aln]]> m) idx
          (elements (list_to_set (alnEdges aln) : gset nat))
  else idx.

Definition buildAlnIndex (alignments : list (list EdgeAlignment)) :
    gmap nat (list (list EdgeAlignment)) :=
  fold_left indexAlignment alignments ∅.

(** Lines 291-299: the suffix from the first occurrence of [startEdge]. *)
Fixpoint suffixFrom (startEdge : edge_ptr) (aln : list EdgeAlignment) :
    option (list EdgeAlignment) :=
  match aln with
  | [] => None
  | x :: rest => if Nat.eqb (edge x) startEdge then Some aln else suffixFrom startEdge rest
  end.

Definition extractOutPaths (startEdge : edge_ptr) (alns : list (list EdgeAlignment)) :
    list (list EdgeAlignment) :=
  omap (suffixFrom startEdge) alns.

(** Lines 304-305: [back().curEnd - front().curEnd]. *)
Definition alnSpan (aln : list EdgeAlignment) : Z :=
  match head aln, last aln with
  | Some f, Some b => curEnd b - curEnd f
  | _, _ => 0
  end.

(** Lines 302-305.  [std::sort] leaves the relative order of paths with
    equal span unspecified; the model keeps them in their original order. *)
Fixpoint insertBySpan (a : list EdgeAlignment) (l : list (list EdgeAlignment)) :
    list (list EdgeAlignment) :=
  match l with
  | [] => [a]
  | b :: l' => if alnSpan a <? alnSpan b then b :: insertBySpan a l' else a :: l
  end.

Definition sortBySpan (l : list (list EdgeAlignment)) : list (list EdgeAlignment) :=
  foldr insertBySpan [] l.

(** Lines 321-330: the edges agree on the common prefix. *)
Fixpoint contained (trg ref : list EdgeAlignment) : bool :=
  match trg, ref with
  | x :: trg', y :: ref' => if Nat.eqb (edge x) (edge y) then contained trg' ref' else false
  | _, _ => true
  end.

(** Lines 318-341. *)
Fixpoint addToGroups (trg : list EdgeAlignment) (groups : list PathWithScore) :
    list PathWithScore :=
  match groups with
  | [] => [mkPws trg 1]
  | r :: rest =>
      if contained trg (pwsPath r) then mkPws (pwsPath r) (score r + 1) :: rest
      else r :: addToGroups trg rest
  end.

Definition groupPaths (outPaths : list (list EdgeAlignment)) : list PathWithScore :=
  fold_left (fun groups trg => addToGroups trg groups) outPaths [].

(** Line 314. *)
Definition minScore (nOut : nat) : Z := Z.of_nat (Nat.max 2 (nOut / 10)).

(** Lines 343-345. *)
Definition dropWeakGroups (minS : Z) (groups : list PathWithScore) : list PathWithScore :=
  filter (fun p => ¬ (score p < minS)) groups.

(** Lines 352-360, for one group. *)
Definition groupRepeats (aln : list EdgeAlignment) (repeats : gset nat) : gset nat :=
  snd (fold_left (fun '(seen, rep) x =>
                    ((({[edge x]} : gset nat) ∪ seen),
                     if decide (edge x ∈ seen) then {[edge x]} ∪ rep else rep))
                 aln ((∅ : gset nat), repeats)).

(** Lines 349-361. *)
Definition findRepeats (groups : list PathWithScore) : gset nat :=
  fold_left (fun rep gr => groupRepeats (pwsPath gr) rep) groups ∅.

(** Lines 366-386. *)
Definition convergence (loopedEdges repeats : gset nat) (ref : PathWithScore)
    (others : list PathWithScore) : gset nat :=
  fold_left
    (fun conv gr =>
       list_to_set (filter (fun e => e ∈ conv) (alnEdges (pwsPath gr))))
    others
    (list_to_set (filter (fun e => (e ∉ loopedEdges) ∧ (e ∉ repeats))
                         (alnEdges (pwsPath ref))) : gset nat).

(** Lines 393-403: one evaluation of the agreement test at [bubbleStartId].
    [None] is an out-of-range [operator[]]. *)
Fixpoint agreement (conv : gset nat) (ref : list EdgeAlignment)
    (others : list PathWithScore) (bubbleStartId : nat) : option bool :=
  match others with
  | [] => Some true
  | gr :: rest =>
      if (List.length (pwsPath gr) <=? bubbleStartId + 1)%nat then Some false
      else
        match ref !! (bubbleStartId + 1)%nat, pwsPath gr !! (bubbleStartId + 1)%nat with
        | Some r, Some x =>
            if decide (edge r ∈ conv) then
              if Nat.eqb (edge x) (edge r) then agreement conv ref rest bubbleStartId
              else Some false
            else Some false
        | _, _ => None
        end
  end.

(** Lines 389-406.  Each round that agrees moves one position further into
    every other group, so [fuel] rounds are enough when [fuel] is the length
    of the first of them. *)
Fixpoint findBubbleStart (fuel : nat) (conv : gset nat) (ref : list EdgeAlignment)
    (others : list PathWithScore) (bubbleStartId : nat) : option nat :=
  match agreement conv ref others bubbleStartId with
  | None => None
  | Some false => Some bubbleStartId
  | Some true =>
      match fuel with
      | O => None
      | S fuel' => findBubbleStart fuel' conv ref others (S bubbleStartId)
      end
  end.

(** Lines 409-419: the first index from [i] on whose edge is a convergence
    edge; [rest] is the reference path from index [i]. *)
Fixpoint findBubbleEnd (conv : gset nat) (rest : list EdgeAlignment) (i : nat) : option nat :=
  match rest with
  | [] => None
  | x :: rest' => if decide (edge x ∈ conv) then Some i else findBubbleEnd conv rest' (S i)
  end.

(** Lines 425-434: every match overwrites the index found so far. *)
Definition scanBounds (startE endE : edge_ptr) (aln : list EdgeAlignment) : nat * nat :=
  fst (fold_left
         (fun '(gs, ge, i) x =>
            (if Nat.eqb (edge x) startE then i else gs,
             if Nat.eqb (edge x) endE then i else ge,
             S i))
         aln (0%nat, 0%nat, 0%nat)).

(** Lines 435-436: the vector built from the iterator range
    [begin + groupStart, begin + groupEnd + 1); an inverted range or one
    past the end is undefined. *)
Definition subPath (aln : list EdgeAlignment) (groupStart groupEnd : nat) :
    option (list EdgeAlignment) :=
  if (groupStart <=? groupEnd + 1)%nat && (groupEnd + 1 <=? List.length aln)%nat
  then Some (take (groupEnd + 1 - groupStart) (drop groupStart aln))
  else None.

Definition trimGroup (startE endE : edge_ptr) (gr : PathWithScore) : option PathWithScore :=
  let '(groupStart, groupEnd) := scanBounds startE endE (pwsPath gr) in
  match subPath (pwsPath gr) groupStart groupEnd with
  | Some p => Some (mkPws p (score gr))
  | None => None
  end.

Definition sameEdges (a b : list EdgeAlignment) : bool :=
  bool_decide (alnEdges a = alnEdges b).

(** Lines 439-453. *)
Definition addBranch (branches : list PathWithScore) (newBranch : PathWithScore) :
    list PathWithScore :=
  if existsb (fun b => sameEdges (pwsPath newBranch) (pwsPath b)) branches
  then map (fun b => if sameEdges (pwsPath newBranch) (pwsPath b)
                     then mkPws (pwsPath b) (score b + score newBranch) else b)
           branches
  else branches ++ [newBranch].

(** Lines 422-454. *)
Definition trimGroups (startE endE : edge_ptr) (groups : list PathWithScore) :
    option (list PathWithScore) :=
  foldM (fun branches gr =>
           match trimGroup startE endE gr with
           | Some b => Some (addBranch branches b)
           | None => None
           end)
        [] groups.

Section Complex.
Context {C : Type} `{Coverage C}.

(** Lines 269-276. *)
Definition findLoopedEdges (g : RepeatGraph C) (paths : list (UnbranchingPath.t C)) :
    option (gset nat) :=
  foldM (fun acc p =>
           match isLooped g p with
           | Some true => Some (list_to_set (UnbranchingPath.path p) ∪ acc)
           | Some false => Some acc
           | None => None
           end)
        ∅ paths.

Definition edgeSignedId (g : RepeatGraph C) (e : edge_ptr) : option Z :=
  match graphEdges g !! e with
  | Some ed => Some (FastaRecord.signedId (edgeId ed))
  | None => None
  end.

Definition reportLine (g : RepeatGraph C) (p : PathWithScore) : option (list Z * Z) :=
  match mapM (edgeSignedId g) (alnEdges (pwsPath p)) with
  | Some ids => Some (ids, score p)
  | None => None
  end.

(** Lines 301-488 for one start edge with its outgoing paths: [Some None] is
    [continue], [Some (Some r)] the bubble the debug lines describe. *)
Definition analyseStart (g : RepeatGraph C) (loopedEdges : gset nat)
    (startEdge : edge_ptr) (outPaths0 : list (list EdgeAlignment)) :
    option (option BubbleReport) :=
  match outPaths0 with
  | [] => Some None
  | _ =>
    let outPaths := sortBySpan outPaths0 in
    let pathGroups := dropWeakGroups (minScore (List.length outPaths)) (groupPaths outPaths) in
    match pathGroups with
    | refPath :: others =>
     match others with
     | [] => Some None
     | other :: _ =>
      let repeats := findRepeats pathGroups in
      let conv := convergence loopedEdges repeats refPath others in
      match findBubbleStart (List.length (pwsPath other)) conv (pwsPath refPath) others 0 with
      | None => None
      | Some bubbleStartId =>
        match findBubbleEnd conv (drop (S bubbleStartId) (pwsPath refPath)) (S bubbleStartId) with
        | None => Some None
        | Some bubbleEndId =>
          match pwsPath refPath !! bubbleStartId, pwsPath refPath !! bubbleEndId with
          | Some sa, Some ea =>
            match trimGroups (edge sa) (edge ea) pathGroups with
            | None => None
            | Some bubbleBranches =>
              if (List.length bubbleBranches <? 2)%nat then Some None
              else
                match edgeSignedId g startEdge, mapM (reportLine g) pathGroups,
                      mapM (reportLine g) bubbleBranches,
                      edgeSignedId g (edge sa), edgeSignedId g (edge ea) with
                | Some s, Some gl, Some bl, Some b1, Some b2 =>
                    Some (Some (mkReport s (List.length outPaths) gl bl (b1, b2)))
                | _, _, _, _, _ => None
                end
            end
          | _, _ => None
          end
        end
      end
     end
    | [] => Some None
    end
  end.

(** Lines 278-489: one iteration of the loop over start paths. *)
Definition complexIter (g : RepeatGraph C) (alnIndex : gmap nat (list (list EdgeAlignment)))
    (loopedEdges : gset nat) (log : list BubbleReport) (startPath : UnbranchingPath.t C) :
    option (list BubbleReport) :=
  if negb (FastaRecord.strand (UnbranchingPath.id startPath)) then Some log
  else
    match pathNodeRight g startPath with
    | None => None
    | Some r =>
      match graphNodes g !! r with
      | None => None
      | Some nd =>
        if (List.length (outEdges nd) <? 2)%nat then Some log
        else
          match pathBack startPath with
          | None => None
          | Some startEdge =>
            if decide (startEdge ∈ loopedEdges) then Some log
            else
              match analyseStart g loopedEdges startEdge
                      (extractOutPaths startEdge (default [] (alnIndex !! startEdge))) with
              | None => None
              | Some None => Some log
              | Some (Some r) => Some (log ++ [r])
              end
          end
      end
    end.

(** The whole diagnostic pass: the graph it leaves, the value it returns and
    the bubbles it logged. *)
Definition findComplexHaplotypes (alignments : list (list EdgeAlignment))
    (paths : list (UnbranchingPath.t C)) (g : RepeatGraph C) :
    option (RepeatGraph C * Z * list BubbleReport) :=
  let alnIndex := buildAlnIndex alignments in
  match findLoopedEdges g paths with
  | None => None
  | Some loopedEdges =>
    match foldM (complexIter g alnIndex loopedEdges) [] paths with
    | Some log => Some (g, 0, log)
    | None => None
    end
  end.

End Complex.

(** ** The path extractor *)

Section Extractor.
Context {C : Type} `{Coverage C}.

Definition nonBranching (g : RepeatGraph C) (n : node_ptr) : bool :=
  match graphNodes g !! n with
  | Some nd => Nat.eqb (List.length (inEdges nd)) 1 && Nat.eqb (List.length (outEdges nd)) 1
  | None => false
  end.

(** The walk from [e] through nodes of in-degree and out-degree one, until
    a branching node or the edge [start] is reached again. *)
Fixpoint walkFrom (g : RepeatGraph C) (fuel : nat) (start e : edge_ptr) : list edge_ptr :=
  e :: match fuel with
       | O => []
       | S fuel' =>
         match graphEdges g !! e with
         | Some ed =>
           if nonBranching g (nodeRight ed) then
             match graphNodes g !! nodeRight ed with
             | Some nd =>
               match outEdges nd with
               | [e'] => if Nat.eqb e' start then [] else walkFrom g fuel' start e'
               | _ => []
               end
             | None => []
             end
           else []
         | None => []
         end
       end.

Definition startsPath (g : RepeatGraph C) (e : edge_ptr) : bool :=
  match graphEdges g !! e with
  | Some ed => negb (nonBranching g (nodeLeft ed))
  | None => false
  end.

(** The edge sequences of all maximal unbranching paths: first the ones
    that leave a branching node, then the cycles without one. *)
Definition unbranchingWalks (g : RepeatGraph C) : list (list edge_ptr) :=
  let n := List.length (graphEdges g) in
  let linear := map (fun e => walkFrom g n e e) (filter (fun e => startsPath g e = true) (seq 0 n)) in
  fold_left (fun acc e => if bool_decide (e ∈ concat acc) then acc else acc ++ [walkFrom g n e e])
            (seq 0 n) linear.

End Extractor.

Definition pathSeqLength (g : RepeatGraph Q) (es : list edge_ptr) : Z :=
  foldr (fun e acc => match graphEdges g !! e with
                      | Some ed => seqLength ed + acc
                      | None => acc
                      end) 0 es.

Definition pathWeightedCoverage (g : RepeatGraph Q) (es : list edge_ptr) : Q :=
  foldr (fun e acc => match graphEdges g !! e with
                      | Some ed => (inject_Z (seqLength ed) * meanCoverage ed + acc)%Q
                      | None => acc
                      end) (0 # 1)%Q es.

Definition pathOfWalk (g : RepeatGraph Q) (es : list edge_ptr) : UnbranchingPath.t Q :=
  UnbranchingPath.mk es
    (match head es with
     | Some e => match graphEdges g !! e with
                 | Some ed => edgeId ed
                 | None => FastaRecord.mkId 0 true
                 end
     | None => FastaRecord.mkId 0 true
     end)
    (pathSeqLength g es)
    (Qred (pathWeightedCoverage g es / inject_Z (pathSeqLength g es))%Q).

(** Modelled from the spec: [GraphProcessor::getUnbranchingPaths] is outside
    this file.  It returns all maximal paths whose interior nodes have
    in-degree 1 and out-degree 1, singleton edges included, both strands;
    [length] is the sum of the edge lengths, [meanCoverage] the
    length-weighted mean of the edge coverages and [id] the id of the first
    edge. *)
Definition getUnbranchingPaths (g : RepeatGraph Q) : list (UnbranchingPath.t Q) :=
  map (pathOfWalk g) (unbranchingWalks g).

(** ** Well-formedness of the inputs *)

Section WellFormed.
Context {C : Type} `{Coverage C}.

(** Twins: [complementEdge] is an involution on the edges of the graph. *)
Definition twinsInvolutive (g : RepeatGraph C) : Prop :=
  forall e ed, graphEdges g !! e = Some ed ->
    exists ed', graphEdges g !! twin ed = Some ed' /\ twin ed' = e.

(** Twins carry the same [altHaplotype] and the same [meanCoverage]. *)
Definition twinsEqual (g : RepeatGraph C) : Prop :=
  forall e ed ed', graphEdges g !! e = Some ed -> graphEdges g !! twin ed = Some ed' ->
    altHaplotype ed' = altHaplotype ed /\ meanCoverage ed' = meanCoverage ed.

Definition twinsInvolutiveb (g : RepeatGraph C) : bool :=
  forallb (fun e => match graphEdges g !! e with
                    | Some ed => match graphEdges g !! twin ed with
                                 | Some ed' => Nat.eqb (twin ed') e
                                 | None => false
                                 end
                    | None => true
                    end)
          (seq 0 (List.length (graphEdges g))).

(** Every entry of an adjacency list is an edge of the graph attached to
    that node, and no list has an entry twice. *)
Definition nodeCoherentb (g : RepeatGraph C) (n : node_ptr) (nd : GraphNode) : bool :=
  forallb (fun e => match graphEdges g !! e with
                    | Some ed => Nat.eqb (nodeRight ed) n
                    | None => false
                    end) (inEdges nd) &&
  forallb (fun e => match graphEdges g !! e with
                    | Some ed => Nat.eqb (nodeLeft ed) n
                    | None => false
                    end) (outEdges nd) &&
  bool_decide (NoDup (inEdges nd)) && bool_decide (NoDup (outEdges nd)).

Definition listsCoherentb (g : RepeatGraph C) : bool :=
  forallb (fun n => match graphNodes g !! n with
                    | Some nd => nodeCoherentb g n nd
                    | None => true
                    end)
          (seq 0 (List.length (graphNodes g))).

(** Every edge is listed by the nodes it is attached to. *)
Definition edgeListedb (g : RepeatGraph C) (e : edge_ptr) (ed : GraphEdge C) : bool :=
  match graphNodes g !! nodeLeft ed, graphNodes g !! nodeRight ed with
  | Some nl, Some nr => bool_decide (e ∈ outEdges nl) && bool_decide (e ∈ inEdges nr)
  | _, _ => false
  end.

Definition edgesListedb (g : RepeatGraph C) : bool :=
  forallb (fun e => match graphEdges g !! e with
                    | Some ed => edgeListedb g e ed
                    | None => true
                    end)
          (seq 0 (List.length (graphEdges g))).

Definition adjacencyCoherent (g : RepeatGraph C) : Prop :=
  listsCoherentb g = true /\ edgesListedb g = true.

(** Consecutive edges of a path meet in a node of in-degree and out-degree
    one. *)
Fixpoint chainb (g : RepeatGraph C) (es : list edge_ptr) : bool :=
  match es with
  | e :: ((e' :: _) as rest) =>
      match graphEdges g !! e, graphEdges g !! e' with
      | Some ed, Some ed' =>
          Nat.eqb (nodeRight ed) (nodeLeft ed') && nonBranching g (nodeRight ed) &&
          chainb g rest
      | _, _ => false
      end
  | _ => true
  end.

(** A listed path is a non-empty sequence of edges of the graph. *)
Definition pathValidb (g : RepeatGraph C) (p : UnbranchingPath.t C) : bool :=
  match UnbranchingPath.path p with
  | [] => false
  | es => forallb (fun e => match graphEdges g !! e with
                            | Some _ => true
                            | None => false
                            end) es
  end.

(** The contract of the extractor the passes rely on: every edge of the
    graph lies on a listed path, every listed path is a non-empty chain of
    edges of the graph through unbranching nodes, and distinct listed paths
    carry distinct ids. *)
Definition unbranchingCoverb (g : RepeatGraph C) (paths : list (UnbranchingPath.t C)) : bool :=
  forallb (fun e => existsb (fun p => bool_decide (e ∈ UnbranchingPath.path p)) paths)
          (seq 0 (List.length (graphEdges g))) &&
  forallb (fun p => pathValidb g p && chainb g (UnbranchingPath.path p)) paths &&
  forallb (fun p =>
             forallb (fun q =>
                        negb (bool_decide (UnbranchingPath.id p = UnbranchingPath.id q)) ||
                        bool_decide (UnbranchingPath.path p = UnbranchingPath.path q))
                     paths)
          paths.

Definition unbranchingCover (g : RepeatGraph C) (paths : list (UnbranchingPath.t C)) : Prop :=
  unbranchingCoverb g paths = true.

End WellFormed.

(** ** Example graphs *)

(** One strand of an edge: source, target, length, coverage, flag. *)
Record EdgeSpec := mkSpec {
  esFrom : nat;
  esTo : nat;
  esLen : Z;
  esCov : Q;
  esAlt : bool
}.

(** The graph with both strands: edge [i] of the list becomes the edges
    [2i] (forward, from [esFrom] to [esTo]) and [2i + 1] (its twin, from the
    mirror of [esTo] to the mirror of [esFrom]); node [x] of [n] has the
    mirror [x + n]. *)
Definition twinEdges (n : nat) (es : list EdgeSpec) : list (GraphEdge Q) :=
  concat (imap (fun i s =>
                  [mkEdge (esFrom s) (esTo s) (FastaRecord.mkId (N.of_nat (S i)) true)
                          (esLen s) (esCov s) (esAlt s) false (2 * i + 1)%nat;
                   mkEdge (esTo s + n)%nat (esFrom s + n)%nat
                          (FastaRecord.mkId (N.of_nat (S i)) false)
                          (esLen s) (esCov s) (esAlt s) false (2 * i)%nat])
               es).

Definition edgesWhere (f : EdgeSpec -> nat) (x : nat) (strand : nat) (es : list EdgeSpec) :
    list edge_ptr :=
  omap (fun '(i, s) => if Nat.eqb (f s) x then Some (2 * i + strand)%nat else None)
       (imap (fun i s => (i, s)) es).

Definition twinGraph (n : nat) (es : list EdgeSpec) : RepeatGraph Q :=
  mkGraph
    (map (fun x => mkNode (edgesWhere esTo x 0 es) (edgesWhere esFrom x 0 es)) (seq 0 n) ++
     map (fun x => mkNode (edgesWhere esFrom x 1 es) (edgesWhere esTo x 1 es)) (seq 0 n))
    (twinEdges n es).

(** Scenario 1 of the spec: [E(1000, 30) -> [A(500, 10) | B(500, 20)] -> X(1000, 30)]. *)
Definition simpleBulge : RepeatGraph Q :=
  twinGraph 4 [mkSpec 0 1 1000 (30 # 1) false;
               mkSpec 1 2 500 (10 # 1) false;
               mkSpec 1 2 500 (20 # 1) false;
               mkSpec 2 3 1000 (30 # 1) false].

(** Scenario 3 of the spec: the branches carry more coverage than the
    flanks, [E(10) -> [A(20) | B(20)] -> X(10)]. *)
Definition coverageRejectedBulge : RepeatGraph Q :=
  twinGraph 4 [mkSpec 0 1 1000 (10 # 1) false;
               mkSpec 1 2 500 (20 # 1) false;
               mkSpec 1 2 500 (20 # 1) false;
               mkSpec 2 3 1000 (10 # 1) false].

(** Scenario 1 again, with the branch [A] flagged by an earlier pass and
    [B] not. *)
Definition flaggedBulge : RepeatGraph Q :=
  twinGraph 4 [mkSpec 0 1 1000 (30 # 1) false;
               mkSpec 1 2 500 (10 # 1) true;
               mkSpec 1 2 500 (20 # 1) false;
               mkSpec 2 3 1000 (30 # 1) false].

(** The forward branches of the three bulge graphs, as the extractor
    returns them. *)
Definition branchA (cov : Q) : UnbranchingPath.t Q :=
  UnbranchingPath.mk [2%nat] (FastaRecord.mkId 2 true) 500 cov.

Definition branchB (cov : Q) : UnbranchingPath.t Q :=
  UnbranchingPath.mk [4%nat] (FastaRecord.mkId 3 true) 500 cov.

Definition flankE (cov : Q) : UnbranchingPath.t Q :=
  UnbranchingPath.mk [0%nat] (FastaRecord.mkId 1 true) 1000 cov.

Definition flankX (cov : Q) : UnbranchingPath.t Q :=
  UnbranchingPath.mk [6%nat] (FastaRecord.mkId 4 true) 1000 cov.

(** Scenarios 5 and 6 of the spec: a self-loop [L] at the node between
    [Entrance(20)] and [Exit(20)]. *)
Definition loopGraphWith (loopCov : Q) : RepeatGraph Q :=
  twinGraph 3 [mkSpec 0 1 1000 (20 # 1) false;
               mkSpec 1 1 500 loopCov false;
               mkSpec 1 2 1000 (20 # 1) false].

Definition loopL (cov : Q) : UnbranchingPath.t Q :=
  UnbranchingPath.mk [2%nat] (FastaRecord.mkId 2 true) 500 cov.

Definition loopEntrance : UnbranchingPath.t Q :=
  UnbranchingPath.mk [0%nat] (FastaRecord.mkId 1 true) 1000 (20 # 1).

Definition loopExit : UnbranchingPath.t Q :=
  UnbranchingPath.mk [4%nat] (FastaRecord.mkId 3 true) 1000 (20 # 1).

(** Scenario 1 after the mask-mode pass: both branches are flagged. *)
Definition maskedSimpleBulge : RepeatGraph Q :=
  twinGraph 4 [mkSpec 0 1 1000 (30 # 1) false;
               mkSpec 1 2 500 (10 # 1) true;
               mkSpec 1 2 500 (20 # 1) true;
               mkSpec 2 3 1000 (30 # 1) false].

(** Scenario 1 after the collapse-mode pass: [A] hangs between fresh nodes
    and [B] carries the coverage of both. *)
Definition collapsedSimpleBulge : RepeatGraph Q :=
  mkGraph
    [mkNode [] [0%nat]; mkNode [0%nat] [4%nat]; mkNode [4%nat] [6%nat]; mkNode [6%nat] [];
     mkNode [1%nat] []; mkNode [5%nat] [1%nat]; mkNode [7%nat] [5%nat]; mkNode [] [7%nat];
     mkNode [] [2%nat]; mkNode [2%nat] []; mkNode [] [3%nat]; mkNode [3%nat] []]
    [mkEdge 0 1 (FastaRecord.mkId 1 true) 1000 (30 # 1) false false 1;
     mkEdge 5 4 (FastaRecord.mkId 1 false) 1000 (30 # 1) false false 0;
     mkEdge 8 9 (FastaRecord.mkId 2 true) 500 (10 # 1) true false 3;
     mkEdge 10 11 (FastaRecord.mkId 2 false) 500 (10 # 1) true false 2;
     mkEdge 1 2 (FastaRecord.mkId 3 true) 500 (30 # 1) false false 5;
     mkEdge 6 5 (FastaRecord.mkId 3 false) 500 (30 # 1) false false 4;
     mkEdge 2 3 (FastaRecord.mkId 4 true) 1000 (30 # 1) false false 7;
     mkEdge 7 6 (FastaRecord.mkId 4 false) 1000 (30 # 1) false false 6].

(** ** Occurrences of an edge in an alignment *)

Fixpoint firstOccurrence (e : edge_ptr) (aln : list EdgeAlignment) : option nat :=
  match aln with
  | [] => None
  | x :: rest =>
      if Nat.eqb (edge x) e then Some 0%nat
      else match firstOccurrence e rest with
           | Some i => Some (S i)
           | None => None
           end
  end.

Fixpoint lastOccurrence (e : edge_ptr) (aln : list EdgeAlignment) : option nat :=
  match aln with
  | [] => None
  | x :: rest =>
      match lastOccurrence e rest with
      | Some i => Some (S i)
      | None => if Nat.eqb (edge x) e then Some 0%nat else None
      end
  end.

Definition occurrences (e : edge_ptr) (aln : list EdgeAlignment) : nat :=
  List.length (filter (fun x => edge x = e) aln).


(** A start edge [s] that reads cross twice:
    [x : 4 -> 0], [s : 0 -> 1], [a : 1 -> 0], [b : 1 -> 2], [e : 2 -> 3];
    forward edges are [x = 0], [s = 2], [a = 4], [b = 6], [e = 8]. *)
Definition revisitGraph : RepeatGraph Q :=
  twinGraph 5 [mkSpec 4 0 1000 (30 # 1) false;
               mkSpec 0 1 1000 (30 # 1) false;
               mkSpec 1 0 500 (15 # 1) false;
               mkSpec 1 2 500 (15 # 1) false;
               mkSpec 2 3 1000 (15 # 1) false].

Definition alnOf (es : list edge_ptr) (step : Z) : list EdgeAlignment :=
  imap (fun i e => mkAln e (100 + step * Z.of_nat i)) es.


(** A circular molecule with one bubble:
    [s : 0 -> 1], [a : 1 -> 2], [b : 1 -> 2], [e : 2 -> 3], [y : 3 -> 0];
    forward edges are [s = 0], [a = 2], [b = 4], [e = 6], [y = 8]. *)
Definition circularGraph : RepeatGraph Q :=
  twinGraph 4 [mkSpec 0 1 1000 (30 # 1) false;
               mkSpec 1 2 500 (15 # 1) false;
               mkSpec 1 2 500 (15 # 1) false;
               mkSpec 2 3 1000 (30 # 1) false;
               mkSpec 3 0 1000 (30 # 1) false].

(** Two reads go once around through [a], the longer one reaching [s]
    again; two go [s b e]. *)
Definition circularAlignments : list (list EdgeAlignment) :=
  [alnOf [0; 2; 6; 8; 0]%nat 100; alnOf [0; 2; 6; 8]%nat 90;
   alnOf [0; 4; 6]%nat 80; alnOf [0; 4; 6]%nat 70].

(** Two bulges in a row: [E -> [A | B] -> M -> [C | D] -> X], with the
    middle path [M] and the exit [X] shorter than the branches [C] and [D]. *)
Definition chainedBulges : RepeatGraph Q :=
  twinGraph 6 [mkSpec 0 1 1000 (30 # 1) false;
               mkSpec 1 2 500 (10 # 1) false;
               mkSpec 1 2 500 (20 # 1) false;
               mkSpec 2 3 100 (30 # 1) false;
               mkSpec 3 4 500 (10 # 1) false;
               mkSpec 3 4 500 (20 # 1) false;
               mkSpec 4 5 100 (30 # 1) false].

(** Collapse mode on the paths the extractor finds in the graph. *)
Definition collapseBulges (g : RepeatGraph Q) : option (RepeatGraph Q * Z) :=
  collapseHeterozygousBulges 50000 true (getUnbranchingPaths g) g.

Section Detached.
Context {C : Type} `{Coverage C}.

(** The incoming edges of the node an edge leaves. *)
Definition leftInEdges (g : RepeatGraph C) (e : edge_ptr) : option (list edge_ptr) :=
  match graphEdges g !! e with
  | Some ed => match graphNodes g !! nodeLeft ed with
               | Some nd => Some (inEdges nd)
               | None => None
               end
  | None => None
  end.

(** The edge leaves a node that nothing enters. *)
Definition detachedLeft (g : RepeatGraph C) (e : edge_ptr) : Prop :=
  leftInEdges g e = Some [].

End Detached.

(** Scenario 1 when the detection loop of collapse mode is through: [A] is
    flagged and staged on both strands, [B] carries the coverage of both. *)
Definition stagedSimpleBulge : BulgeState Q :=
  mkBulgeState
    (twinGraph 4 [mkSpec 0 1 1000 (30 # 1) false;
                  mkSpec 1 2 500 (10 # 1) true;
                  mkSpec 1 2 500 (30 # 1) false;
                  mkSpec 2 3 1000 (30 # 1) false])
    ({[FastaRecord.mkId 2 false]} ∪ ({[FastaRecord.mkId 2 true]} ∪ ∅))
    1.

(** ** Relations between graphs *)

Section GraphRelations.
Context {C : Type} `{Coverage C}.

(** Two edges that differ at most in [altHaplotype]. *)
Definition sameButAlt (ed ed' : GraphEdge C) : Prop :=
  ed' = setAltHaplotype (altHaplotype ed') ed.

(** Same nodes with the same adjacency lists, same edges up to the flag. *)
Definition maskFrame (g g' : RepeatGraph C) : Prop :=
  graphNodes g' = graphNodes g /\ Forall2 sameButAlt (graphEdges g) (graphEdges g').

(** What the twin discipline is about: flag, coverage and twin pointer. *)
Definition strandView (g : RepeatGraph C) (e : edge_ptr) : option (bool * C * nat) :=
  match graphEdges g !! e with
  | Some ed => Some (altHaplotype ed, meanCoverage ed, twin ed)
  | None => None
  end.

Definition viewEq (g g' : RepeatGraph C) : Prop :=
  forall e, strandView g' e = strandView g e.

(** An edge with flag [a] and coverage [c] and its twin with [a2] and [c2],
    before and after: the flags end up equal unless neither was touched, and
    coverages that were equal stay equal. *)
Definition pairLockstep (a a2 a' a2' : bool) (c c2 c' c2' : C) : Prop :=
  (a' = a2' \/ (a' = a /\ a2' = a2)) /\ (c = c2 -> c' = c2').

Definition lockstep (g g' : RepeatGraph C) : Prop :=
  (forall e, strandView g e = None -> strandView g' e = None) /\
  (forall e a c t, strandView g e = Some (a, c, t) ->
     exists a' c', strandView g' e = Some (a', c', t)) /\
  (forall e a c t a2 c2 t2 a' c' a2' c2',
     strandView g e = Some (a, c, t) -> strandView g t = Some (a2, c2, t2) ->
     strandView g' e = Some (a', c', t) -> strandView g' t = Some (a2', c2', t2) ->
     pairLockstep a a2 a' a2' c c2 c' c2').

Definition viewInvolutive (g : RepeatGraph C) : Prop :=
  forall e a c t, strandView g e = Some (a, c, t) ->
    exists a2 c2, strandView g t = Some (a2, c2, e).

(** A write that acts on the flag and on the coverage the same way whatever
    the edge, and leaves the twin pointer alone. *)
Definition uniformWrite (f : GraphEdge C -> GraphEdge C) : Prop :=
  exists (fa : bool -> bool) (fc : C -> C),
    (forall ed, altHaplotype (f ed) = fa (altHaplotype ed) /\
                meanCoverage (f ed) = fc (meanCoverage ed) /\
                twin (f ed) = twin ed) /\
    (forall a b, fa a = fa b \/ (fa a = a /\ fa b = b)).

(** The invariant of both passes, relative to the graph [g0] they start
    from. *)
Definition twinInvariant (g0 g : RepeatGraph C) : Prop :=
  viewInvolutive g /\ lockstep g0 g.

Definition nodeInEmpty (g : RepeatGraph C) (n : node_ptr) : Prop :=
  exists nd, graphNodes g !! n = Some nd /\ inEdges nd = [].

Definition edgeLeft (g : RepeatGraph C) (e : edge_ptr) (n : node_ptr) : Prop :=
  exists ed, graphEdges g !! e = Some ed /\ nodeLeft ed = n.

(** The detection loop moves no edge and changes no adjacency list. *)
Definition sameTopology (g g' : RepeatGraph C) : Prop :=
  graphNodes g' = graphNodes g /\ forall e n, edgeLeft g e n -> edgeLeft g' e n.

End GraphRelations.

(** ** Further relations between graphs *)

Section FurtherRelations.
Context {C : Type} `{Coverage C}.

(** Same nodes and as many edges; an edge differs at most in
    [altHaplotype], and a flag that was set is still set. *)
Definition onlyFlagsSet (g g' : RepeatGraph C) : Prop :=
  graphNodes g' = graphNodes g /\
  List.length (graphEdges g') = List.length (graphEdges g) /\
  forall z ed, graphEdges g !! z = Some ed ->
    exists ed', graphEdges g' !! z = Some ed' /\
                ed' = setAltHaplotype (altHaplotype ed') ed /\
                (altHaplotype ed = true -> altHaplotype ed' = true).

End FurtherRelations.

Section TwinOf.
Context {C : Type} `{Coverage C}.

(** The twin of an edge as the graph records it. *)
Definition twinOf (g : RepeatGraph C) (e : edge_ptr) : edge_ptr :=
  match graphEdges g !! e with
  | Some ed => twin ed
  | None => e
  end.

(** Lines 94-97 as one write on an edge record. *)
Definition foldedEdge (c : C) (ed : GraphEdge C) : GraphEdge C :=
  setAltHaplotype false (addMeanCoverage c ed).

End TwinOf.

(** One edge that is its own twin. *)
Definition selfTwinGraph : RepeatGraph Q :=
  mkGraph [mkNode [] [0%nat]; mkNode [0%nat] []]
          [mkEdge 0 1 (FastaRecord.mkId 1 true) 100 (5 # 1) true true 0].

(** A set of ids that holds the reverse complement of each of its ids. *)
Definition closedUnderRc (s : gset FastaRecord.Id) : Prop :=
  forall i, i ∈ s -> FastaRecord.rc i ∈ s.

(** ** Measures for the groups of read paths *)

(** The total of the scores of a list of groups. *)
Definition scoreSum (l : list PathWithScore) : Z :=
  foldr (fun p acc => score p + acc) 0 l.

(** The order line 302 sorts by: the span does not grow. *)
Definition spanGe (a b : list EdgeAlignment) : Prop := alnSpan b <= alnSpan a.

(** The edge sequence of a group. *)
Definition groupEdges (p : PathWithScore) : list edge_ptr := alnEdges (pwsPath p).

(** The references of two groups disagree on their common prefix. *)
Definition apart (a b : list EdgeAlignment) : Prop := contained b a = false.

(** Two paths visit the same edges at the positions [0 .. k]. *)
Definition agreeTo (k : nat) (a b : list EdgeAlignment) : Prop :=
  forall i, (i <= k)%nat ->
    exists x y, a !! i = Some x /\ b !! i = Some y /\ edge x = edge y.

(** Four reads leave [s = 0]: two through [a = 2] to [e = 6] and [y = 8],
    two through [b = 4] to [e = 6]. *)
Definition plainAlignments : list (list EdgeAlignment) :=
  [alnOf [0; 2; 6; 8]%nat 100; alnOf [0; 2; 6; 8]%nat 90;
   alnOf [0; 4; 6]%nat 80; alnOf [0; 4; 6]%nat 70].

(** The groups of lines 315-345 for a start edge and its indexed reads. *)
Definition pathGroupsOf (startEdge : edge_ptr) (alns : list (list EdgeAlignment)) :
    list PathWithScore :=
  let outPaths := sortBySpan (extractOutPaths startEdge alns) in
  dropWeakGroups (minScore (List.length outPaths)) (groupPaths outPaths).

Definition plainRef : PathWithScore := mkPws (alnOf [0; 2; 6; 8]%nat 100) 2.
Definition plainOther : PathWithScore := mkPws (alnOf [0; 4; 6]%nat 80) 2.

(** Every edge pointer of the reads points into the edge arena. *)
Definition edgesKnownb {C : Type} (g : RepeatGraph C) (alns : list (list EdgeAlignment)) : bool :=
  forallb (fun aln => forallb (fun x => (edge x <? List.length (graphEdges g))%nat) aln) alns.

(** The branches of the bubble between [s = 0] and [e = 6] of [plainAlignments]. *)
Definition plainBranches : list PathWithScore :=
  [mkPws (alnOf [0; 2; 6]%nat 100) 2; plainOther].

Section Wiring.
Context {C : Type} `{Coverage C}.

(** Two edge records that are attached to the same nodes, carry the same
    id, length and self-complement mark and name the same twin: they differ
    at most in coverage and flag. *)
Definition sameWire (ed ed' : GraphEdge C) : Prop :=
  nodeLeft ed' = nodeLeft ed /\ nodeRight ed' = nodeRight ed /\
  edgeId ed' = edgeId ed /\ seqLength ed' = seqLength ed /\
  selfComplement ed' = selfComplement ed /\ twin ed' = twin ed.

(** Same nodes with the same adjacency lists, and edge by edge the same
    wiring. *)
Definition sameWiring (g g' : RepeatGraph C) : Prop :=
  graphNodes g' = graphNodes g /\ Forall2 sameWire (graphEdges g) (graphEdges g').

(** Two edge records of the same edge: id, length, self-complement mark and
    twin. *)
Definition sameIdentity (ed ed' : GraphEdge C) : Prop :=
  edgeId ed' = edgeId ed /\ seqLength ed' = seqLength ed /\
  selfComplement ed' = selfComplement ed /\ twin ed' = twin ed.

(** Every pointer an edge holds points into its arena: its two ends into
    the nodes, its twin into the edges. *)
Definition pointersValid (g : RepeatGraph C) : Prop :=
  forall e ed, graphEdges g !! e = Some ed ->
    (nodeLeft ed < List.length (graphNodes g))%nat /\
    (nodeRight ed < List.length (graphNodes g))%nat /\
    (twin ed < List.length (graphEdges g))%nat.

Definition pointersValidb (g : RepeatGraph C) : bool :=
  forallb (fun ed => (nodeLeft ed <? List.length (graphNodes g))%nat &&
                     (nodeRight ed <? List.length (graphNodes g))%nat &&
                     (twin ed <? List.length (graphEdges g))%nat)
          (graphEdges g).

End Wiring.

Section StagedPaths.
Context {C : Type} `{Coverage C}.

(** An id the bulge pass may stage.  Two entries of the path list, [a] at
    position [ia] and [b] at another position [ib], run between the same two
    different nodes [l] and [r], and no third entry of the list does; the id
    is the id, or the reverse complement of the id, of [a]; the ids of [a]
    and [b] are not reverse complements of each other; neither path is
    longer than the bound; and line 71 puts [a] first: when [a] is listed
    before [b] the comparison [b.meanCoverage < a.meanCoverage] fails, and
    when [a] is listed after [b] the comparison
    [a.meanCoverage < b.meanCoverage] holds. *)
Definition stagedBranch (MAX_BUBBLE_LEN : Z) (paths : list (UnbranchingPath.t C))
    (g : RepeatGraph C) (i : FastaRecord.Id) : Prop :=
  exists a b l r (ia ib : nat),
    ia <> ib /\ paths !! ia = Some a /\ paths !! ib = Some b /\
    (forall k q, paths !! k = Some q ->
       pathNodeLeft g q = Some l -> pathNodeRight g q = Some r -> k = ia \/ k = ib) /\
    (i = UnbranchingPath.id a \/ i = FastaRecord.rc (UnbranchingPath.id a)) /\
    UnbranchingPath.id a <> FastaRecord.rc (UnbranchingPath.id b) /\
    UnbranchingPath.length a <= MAX_BUBBLE_LEN /\
    UnbranchingPath.length b <= MAX_BUBBLE_LEN /\
    (if (ia <? ib)%nat
     then cltb (UnbranchingPath.meanCoverage b) (UnbranchingPath.meanCoverage a) = false
     else cltb (UnbranchingPath.meanCoverage a) (UnbranchingPath.meanCoverage b) = true) /\
    l <> r /\
    pathNodeLeft g a = Some l /\ pathNodeRight g a = Some r /\
    pathNodeLeft g b = Some l /\ pathNodeRight g b = Some r.

(** An id the loop pass may stage: the id, or the reverse complement of the
    id, of a listed forward path that starts and ends in one node with two
    incoming and two outgoing edges and whose first edge is not marked
    self-complement. *)
Definition stagedLoop (paths : list (UnbranchingPath.t C))
    (g : RepeatGraph C) (i : FastaRecord.Id) : Prop :=
  exists p node nd,
    p ∈ paths /\
    (i = UnbranchingPath.id p \/ i = FastaRecord.rc (UnbranchingPath.id p)) /\
    FastaRecord.strand (UnbranchingPath.id p) = true /\
    pathNodeLeft g p = Some node /\ pathNodeRight g p = Some node /\
    frontSelfComplement g p = Some false /\
    graphNodes g !! node = Some nd /\
    List.length (inEdges nd) = 2%nat /\ List.length (outEdges nd) = 2%nat.

End StagedPaths.

Section EdgeIdentity.
Context {C : Type} `{Coverage C}.

(** The second graph has the edges of the first, each with its id, length,
    self-complement mark and twin, and at least the nodes of the first. *)
Definition keepsEdges (g g' : RepeatGraph C) : Prop :=
  Forall2 sameIdentity (graphEdges g) (graphEdges g') /\
  (List.length (graphNodes g) <= List.length (graphNodes g'))%nat.

End EdgeIdentity.

(** Scenario 6 when the detection loop is through: the loop of coverage 5
    is flagged and staged for removal on both strands. *)
Definition stagedLightLoop : LoopState Q :=
  mkLoopState
    (twinGraph 3 [mkSpec 0 1 1000 (20 # 1) false;
                  mkSpec 1 1 500 (5 # 1) true;
                  mkSpec 1 2 1000 (20 # 1) false])
    ∅
    ({[FastaRecord.mkId 2 false]} ∪ ({[FastaRecord.mkId 2 true]} ∪ ∅))
    1.

Section SeparatedGraph.
Context {C : Type} `{Coverage C}.

(** What lines 110-117 leave of a node of the graph: the node the path left
    from, [l], no longer lists the first edge of the path as outgoing, and
    the node it arrived at, [r], no longer lists its last edge as incoming. *)
Definition separatedNode (front back : edge_ptr) (l r n : node_ptr) (nd : GraphNode) :
    GraphNode :=
  mkNode (if decide (n = r) then vecRemove (inEdges nd) back else inEdges nd)
         (if decide (n = l) then vecRemove (outEdges nd) front else outEdges nd).

(** What they leave of an edge: the first edge of the path starts at the
    fresh node [newLeft], its last edge ends at the fresh node behind it. *)
Definition separatedEdge (front back : edge_ptr) (newLeft : node_ptr) (e : edge_ptr)
    (ed : GraphEdge C) : GraphEdge C :=
  let ed1 := if decide (e = front) then setNodeLeft newLeft ed else ed in
  if decide (e = back) then setNodeRight (S newLeft) ed1 else ed1.

End SeparatedGraph.

Section Coherence.
Context {C : Type} `{Coverage C}.

(** What [listsCoherentb] decides. *)
Definition listsCoherent (g : RepeatGraph C) : Prop :=
  forall n nd, graphNodes g !! n = Some nd ->
    (forall e, e ∈ inEdges nd ->
       exists ed, graphEdges g !! e = Some ed /\ nodeRight ed = n) /\
    (forall e, e ∈ outEdges nd ->
       exists ed, graphEdges g !! e = Some ed /\ nodeLeft ed = n) /\
    NoDup (inEdges nd) /\ NoDup (outEdges nd).

(** What [edgesListedb] decides. *)
Definition edgesListed (g : RepeatGraph C) : Prop :=
  forall e ed, graphEdges g !! e = Some ed ->
    exists nl nr,
      graphNodes g !! nodeLeft ed = Some nl /\ graphNodes g !! nodeRight ed = Some nr /\
      e ∈ outEdges nl /\ e ∈ inEdges nr.

End Coherence.

Section UnrolledGraph.
Context {C : Type} `{Coverage C}.

(** What lines 209-218 leave of a node of the graph: the node of the loop,
    [l], no longer lists the first edge of the loop as outgoing nor the
    other incoming edge, [prev], as incoming. *)
Definition unrolledNode (front prev : edge_ptr) (l n : node_ptr) (nd : GraphNode) :
    GraphNode :=
  if decide (n = l)
  then mkNode (vecRemove (inEdges nd) prev) (vecRemove (outEdges nd) front)
  else nd.

(** What they leave of an edge: the first edge of the loop starts at the
    fresh node, and [prev] ends there. *)
Definition unrolledEdge (front prev : edge_ptr) (newNode : node_ptr) (e : edge_ptr)
    (ed : GraphEdge C) : GraphEdge C :=
  let ed1 := if decide (e = front) then setNodeLeft newNode ed else ed in
  if decide (e = prev) then setNodeRight newNode ed1 else ed1.

End UnrolledGraph.

(** No read visits an edge twice. *)
Definition noRevisitb (alns : list (list EdgeAlignment)) : bool :=
  forallb (fun aln => bool_decide (NoDup (alnEdges aln))) alns.

Section LoopsApart.
Context {C : Type} `{Coverage C}.








End LoopsApart.

(** * Properties *)

(** ** Arithmetic *)

#[global] Instance Q_CoverageOrder : CoverageOrder Q.
Proof.
  split; simpl.
  - intros a b c Hba Hbc.
    apply negb_false_iff, Qle_bool_iff in Hba.
    apply negb_true_iff in Hbc. apply negb_true_iff.
    destruct (Qle_bool c a) eqn:Hca; [|reflexivity].
    apply Qle_bool_iff in Hca.
    assert (Hcb : (c <= b)%Q) by lra.
    apply Qle_bool_iff in Hcb. congruence.
  - intros a b Hba.
    apply negb_false_iff, Qle_bool_iff in Hba.
    apply negb_false_iff, Qle_bool_iff. lra.
Qed.

Section Arithmetic.
Context {C : Type} `{CoverageOrder C}.

Lemma cmin_same (a : C) : cmin a a = a.
Proof. unfold cmin. destruct (cltb a a); reflexivity. Qed.

(** Scaling the smaller flank gives the smaller scaled flank, as far as a
    comparison from above can tell. *)
Lemma cmin_scaled (a b s : C) :
  cltb (cmul (cmin a b) c1_5) s = true ->
  cltb (cmin (cmul a c1_5) (cmul b c1_5)) s = true.
Proof.
  unfold cmin. intros Hs.
  destruct (cltb b a) eqn:Hba.
  - destruct (cltb (cmul b c1_5) (cmul a c1_5)) eqn:Hs15; [exact Hs|].
    exact (cltb_le_lt _ _ _ Hs15 Hs).
  - rewrite (cmul_mono _ _ Hba). exact Hs.
Qed.

End Arithmetic.

(** ** The bulge pass: the tests and the counter *)

Section BulgeTests.
Context {C : Type} `{CoverageOrder C}.
Variable MAX_BUBBLE_LEN : Z.

(** C2.  A candidate bubble with branches A and B whose entrance E and exit
    X were found is left alone (the loop state, that is the graph, the
    staged ids and the counter, is unchanged) whenever
    [A.meanCoverage + B.meanCoverage > min(E.meanCoverage, X.meanCoverage) * 1.5]. *)
Theorem bulge_coverage_test_rejects
    (removeAlternatives : bool) (paths : list (UnbranchingPath.t C))
    (st : BulgeState C) (p : UnbranchingPath.t C) (c : BulgeCandidate C)
    (en ex : UnbranchingPath.t C) :
  bulgeCandidate paths st p = Some (Some c) ->
  bulgeEntrance c = Some en ->
  bulgeExit c = Some ex ->
  cltb (cmul (cmin (UnbranchingPath.meanCoverage en) (UnbranchingPath.meanCoverage ex)) c1_5)
       (cadd (UnbranchingPath.meanCoverage (branch0 c))
             (UnbranchingPath.meanCoverage (branch1 c))) = true ->
  bulgeIter MAX_BUBBLE_LEN removeAlternatives paths st p = Some st.
Proof.
  intros Hc Hen Hex Hcov.
  unfold bulgeIter. rewrite Hc.
  unfold bulgeTests. destruct (MAX_BUBBLE_LEN <? bulgeMaxLen c); [reflexivity|].
  rewrite Hen, Hex.
  unfold bulgeCoverageRejects, covSum.
  rewrite (cmin_scaled _ _ _ Hcov). reflexivity.
Qed.

End BulgeTests.

Lemma bulge_coverage_test_rejects_witness :
  bulgeIter 50000 true (getUnbranchingPaths coverageRejectedBulge)
            (mkBulgeState coverageRejectedBulge ∅ 0) (branchA (20 # 1))
  = Some (mkBulgeState coverageRejectedBulge ∅ 0).
Proof.
  apply (bulge_coverage_test_rejects 50000 true _ _ _
           (mkBulgeCandidate (branchA (20 # 1)) (branchB (20 # 1))
                             (Some (flankE (10 # 1))) (Some (flankX (10 # 1))))
           (flankE (10 # 1)) (flankX (10 # 1)));
    vm_compute; reflexivity.
Defined.

Section BulgeCounter.
Context {C : Type} `{Coverage C}.

Lemma bulgeApply_masked (removeAlternatives : bool) (st st' : BulgeState C)
    (c : BulgeCandidate C) (fresh : bool) :
  bulgeNewlyMasked (bulgeGraph st) (fst (bulgeOrder c)) (snd (bulgeOrder c)) = Some fresh ->
  bulgeApply removeAlternatives st c = Some st' ->
  bulgeMasked st' = if fresh then bulgeMasked st + 1 else bulgeMasked st.
Proof.
  unfold bulgeApply. destruct (bulgeOrder c) as [a b]. simpl. intros ->.
  destruct (markPath true (bulgeGraph st) a) as [g1|]; [|discriminate].
  destruct (markPath true g1 b) as [g2|]; [|discriminate].
  destruct removeAlternatives.
  - destruct (foldM _ g2 _) as [g3|]; [|discriminate].
    intros [= <-]. reflexivity.
  - intros [= <-]. reflexivity.
Qed.

Lemma bulgeApply_newlyMasked (removeAlternatives : bool) (st st' : BulgeState C)
    (c : BulgeCandidate C) :
  bulgeApply removeAlternatives st c = Some st' ->
  exists fresh,
    bulgeNewlyMasked (bulgeGraph st) (fst (bulgeOrder c)) (snd (bulgeOrder c)) = Some fresh.
Proof.
  unfold bulgeApply. destruct (bulgeOrder c) as [a b]. simpl.
  destruct (bulgeNewlyMasked (bulgeGraph st) a b) as [fresh|]; [|discriminate].
  intros _. exists fresh. reflexivity.
Qed.

(** C3, as the code has it.  When a bubble is accepted, with [a] the branch
    of lower coverage and [b] the other one, the mask counter goes up by one
    exactly when the first edge of [a] or the first edge of [b] was not yet
    flagged, and stays as it is exactly when both were flagged; in mask mode
    the pass returns the counter the detection loop ends with. *)
Theorem bulge_mask_counter
    (removeAlternatives : bool) (st st' : BulgeState C) (c : BulgeCandidate C)
    (a b : UnbranchingPath.t C) :
  bulgeOrder c = (a, b) ->
  bulgeApply removeAlternatives st c = Some st' ->
  ((frontAltHaplotype (bulgeGraph st) a = Some true /\
    frontAltHaplotype (bulgeGraph st) b = Some true /\
    bulgeMasked st' = bulgeMasked st)
   \/
   ((frontAltHaplotype (bulgeGraph st) a = Some false \/
     frontAltHaplotype (bulgeGraph st) b = Some false) /\
    bulgeMasked st' = bulgeMasked st + 1))
  /\
  (forall MAX_BUBBLE_LEN paths g,
     collapseHeterozygousBulges MAX_BUBBLE_LEN false paths g =
     match foldM (bulgeIter MAX_BUBBLE_LEN false paths) (mkBulgeState g ∅ 0) paths with
     | Some final => Some (bulgeGraph final, bulgeMasked final)
     | None => None
     end).
Proof.
  intros Hord Happ. split.
  - destruct (bulgeApply_newlyMasked _ _ _ _ Happ) as [fresh Hfresh].
    pose proof (bulgeApply_masked _ _ _ _ _ Hfresh Happ) as Hm.
    rewrite Hord in Hfresh. simpl in Hfresh.
    unfold bulgeNewlyMasked in Hfresh.
    destruct (frontAltHaplotype (bulgeGraph st) a) as [[|]|]; [| |discriminate].
    + destruct (frontAltHaplotype (bulgeGraph st) b) as [[|]|]; [| |discriminate];
        injection Hfresh as <-; simpl in Hm.
      * left. auto.
      * right. auto.
    + injection Hfresh as <-. right. auto.
  - intros MAX paths g. unfold collapseHeterozygousBulges.
    destruct (foldM _ _ paths); reflexivity.
Qed.

End BulgeCounter.

Lemma bulge_mask_counter_witness :
  bulgeMasked (mkBulgeState maskedSimpleBulge ∅ 1) =
  bulgeMasked (mkBulgeState simpleBulge ∅ 0) + 1.
Proof.
  destruct (bulge_mask_counter false (mkBulgeState simpleBulge ∅ 0)
              (mkBulgeState maskedSimpleBulge ∅ 1)
              (mkBulgeCandidate (branchA (10 # 1)) (branchB (20 # 1))
                                (Some (flankE (30 # 1))) (Some (flankX (30 # 1))))
              (branchA (10 # 1)) (branchB (20 # 1)))
    as [[(Ha & _ & _)|[_ Hm]] _].
  - vm_compute. reflexivity.
  - vm_compute. reflexivity.
  - vm_compute in Ha. discriminate Ha.
  - exact Hm.
Defined.

(** C3 as the spec words it fails: in [flaggedBulge] the branch [A] is
    already flagged and [B] is not, so "neither branch was flagged" is
    false, and still the counter goes up and mask mode returns 1. *)
Lemma bulge_mask_counter_counterexample :
  frontAltHaplotype flaggedBulge (branchA (10 # 1)) = Some true /\
  frontAltHaplotype flaggedBulge (branchB (20 # 1)) = Some false /\
  bulgeCandidate (getUnbranchingPaths flaggedBulge) (mkBulgeState flaggedBulge ∅ 0)
                 (branchA (10 # 1))
  = Some (Some (mkBulgeCandidate (branchA (10 # 1)) (branchB (20 # 1))
                                 (Some (flankE (30 # 1))) (Some (flankX (30 # 1))))) /\
  option_map bulgeMasked
    (bulgeIter 50000 false (getUnbranchingPaths flaggedBulge)
               (mkBulgeState flaggedBulge ∅ 0) (branchA (10 # 1))) = Some 1 /\
  option_map snd
    (collapseHeterozygousBulges 50000 false (getUnbranchingPaths flaggedBulge) flaggedBulge)
  = Some 1.
Proof. vm_compute. repeat split; reflexivity. Qed.

(** ** The loop pass: the tests and the staging *)

Section LoopTests.
Context {C : Type} `{Coverage C}.


(** C5.  For a candidate self-loop L whose entrance E and exit X passed the
    checks before the coverage test, the loop is rejected by that test
    exactly when [L.meanCoverage > 1.5 * min(E.meanCoverage, E.meanCoverage)],
    which is [L.meanCoverage > 1.5 * E.meanCoverage]; the coverage of the
    exit is not consulted: putting any other coverage on the exit changes
    neither the outcome of the test nor whether the loop is accepted. *)
Theorem loop_coverage_test
    (g : RepeatGraph C) (loop en ex : UnbranchingPath.t C) :
  isLooped g en = Some false ->
  UnbranchingPath.id en <> FastaRecord.rc (UnbranchingPath.id ex) ->
  (cltb (cmul c1_5 (cmin (UnbranchingPath.meanCoverage en) (UnbranchingPath.meanCoverage en)))
        (UnbranchingPath.meanCoverage loop) = true ->
   loopTests g loop (Some en, Some ex) = Some None)
  /\
  (cltb (cmul c1_5 (cmin (UnbranchingPath.meanCoverage en) (UnbranchingPath.meanCoverage en)))
        (UnbranchingPath.meanCoverage loop) = false ->
   loopTests g loop (Some en, Some ex) =
   if loopLengthRejects loop en ex then Some None else Some (Some (en, ex)))
  /\
  cmin (UnbranchingPath.meanCoverage en) (UnbranchingPath.meanCoverage en)
  = UnbranchingPath.meanCoverage en
  /\
  (forall c' : C,
     let ex' := UnbranchingPath.mk (UnbranchingPath.path ex) (UnbranchingPath.id ex)
                                   (UnbranchingPath.length ex) c' in
     loopTests g loop (Some en, Some ex') =
     match loopTests g loop (Some en, Some ex) with
     | Some (Some (e, _)) => Some (Some (e, ex'))
     | Some None => Some None
     | None => None
     end).
Proof.
  intros Hloop Hid.
  assert (Hmin : cmin (UnbranchingPath.meanCoverage en) (UnbranchingPath.meanCoverage en)
                 = UnbranchingPath.meanCoverage en).
  { unfold cmin. destruct (cltb _ _); reflexivity. }
  split; [|split; [|split]].
  - intros Hcov. unfold loopTests. simpl. rewrite Hloop.
    destruct (decide _) as [Heq|_]; [contradiction|].
    unfold loopCoverageRejects. rewrite Hcov. reflexivity.
  - intros Hcov. unfold loopTests. simpl. rewrite Hloop.
    destruct (decide _) as [Heq|_]; [contradiction|].
    unfold loopCoverageRejects. rewrite Hcov. reflexivity.
  - exact Hmin.
  - intros c' ex'. unfold loopTests. simpl. rewrite Hloop.
    destruct (decide (UnbranchingPath.id en = FastaRecord.rc (UnbranchingPath.id ex)))
      as [Heq|_]; [contradiction|].
    destruct (loopCoverageRejects loop en); [reflexivity|].
    unfold loopLengthRejects. simpl.
    destruct (_ <? _); reflexivity.
Qed.

End LoopTests.

Lemma loop_coverage_test_witness :
  loopTests (loopGraphWith (40 # 1)) (loopL (40 # 1)) (Some loopEntrance, Some loopExit)
  = Some None.
Proof.
  refine (proj1 (loop_coverage_test (loopGraphWith (40 # 1)) (loopL (40 # 1))
                   loopEntrance loopExit _ _) _).
  - vm_compute. reflexivity.
  - vm_compute. discriminate.
  - vm_compute. reflexivity.
Defined.

(** ** Mask mode leaves the topology alone *)

Lemma foldM_invariant {A S : Type} (P : S -> Prop) (f : S -> A -> option S) :
  (forall s x s', P s -> f s x = Some s' -> P s') ->
  forall l s s', P s -> foldM f s l = Some s' -> P s'.
Proof.
  intros Hstep l. induction l as [|x l IH]; intros s s' Hs; simpl.
  - intros [= <-]. exact Hs.
  - destruct (f s x) as [s1|] eqn:Hf; [|discriminate].
    intros Hfold. exact (IH s1 s' (Hstep s x s1 Hs Hf) Hfold).
Qed.

Section MaskFrame.
Context {C : Type} `{Coverage C}.

Lemma sameButAlt_refl (ed : GraphEdge C) : sameButAlt ed ed.
Proof. destruct ed. reflexivity. Qed.

Lemma sameButAlt_trans (a b c : GraphEdge C) :
  sameButAlt a b -> sameButAlt b c -> sameButAlt a c.
Proof.
  unfold sameButAlt. destruct a, b, c. unfold setAltHaplotype. simpl.
  intros [= -> -> -> -> -> -> ->] [= -> -> -> -> -> -> ->]. reflexivity.
Qed.

Lemma maskFrame_refl (g : RepeatGraph C) : maskFrame g g.
Proof.
  split; [reflexivity|].
  apply Forall2_same_length_lookup. split; [reflexivity|].
  intros i x y Hx Hy. rewrite Hx in Hy. injection Hy as <-. apply sameButAlt_refl.
Qed.

Lemma maskFrame_trans (g1 g2 g3 : RepeatGraph C) :
  maskFrame g1 g2 -> maskFrame g2 g3 -> maskFrame g1 g3.
Proof.
  intros [Hn1 He1] [Hn2 He2]. split; [congruence|].
  revert He1 He2. generalize (graphEdges g1) (graphEdges g2) (graphEdges g3).
  intros l1 l2 l3 H12. revert l3.
  induction H12 as [|a b l1 l2 Hab _ IH]; intros l3 H23; inversion H23; subst;
    constructor; eauto using sameButAlt_trans.
Qed.

Lemma updateEdge_alt_frame (b : bool) (g g' : RepeatGraph C) (e : edge_ptr) :
  updateEdge (setAltHaplotype b) g e = Some g' -> maskFrame g g'.
Proof.
  unfold updateEdge. destruct (graphEdges g !! e) as [ed|] eqn:He; [|discriminate].
  intros [= <-]. split; [reflexivity|]. simpl.
  apply Forall2_same_length_lookup. split; [by rewrite length_insert|].
  intros i x y Hx Hy.
  destruct (decide (i = e)) as [->|Hne].
  - rewrite list_lookup_insert_eq in Hy by (eapply lookup_lt_Some; eauto).
    injection Hy as <-. rewrite He in Hx. injection Hx as <-.
    destruct ed. reflexivity.
  - rewrite list_lookup_insert_ne in Hy by auto.
    rewrite Hx in Hy. injection Hy as <-. apply sameButAlt_refl.
Qed.

Lemma markEdge_frame (b : bool) (g g' : RepeatGraph C) (e : edge_ptr) :
  markEdge b g e = Some g' -> maskFrame g g'.
Proof.
  unfold markEdge, updateBothStrands.
  destruct (updateEdge (setAltHaplotype b) g e) as [g1|] eqn:H1; [|discriminate].
  destruct (complementEdge g1 e) as [c|]; [|discriminate].
  intros H2. eapply maskFrame_trans; eauto using updateEdge_alt_frame.
Qed.

Lemma markPath_frame (b : bool) (p : UnbranchingPath.t C) (g g' : RepeatGraph C) :
  markPath b g p = Some g' -> maskFrame g g'.
Proof.
  unfold markPath.
  apply (foldM_invariant (maskFrame g)); [|apply maskFrame_refl].
  intros s x s' Hs Hm. eapply maskFrame_trans; eauto using markEdge_frame.
Qed.

Lemma bulgeIter_mask_frame (MAX_BUBBLE_LEN : Z) (paths : list (UnbranchingPath.t C))
    (st st' : BulgeState C) (p : UnbranchingPath.t C) :
  bulgeIter MAX_BUBBLE_LEN false paths st p = Some st' ->
  maskFrame (bulgeGraph st) (bulgeGraph st').
Proof.
  unfold bulgeIter.
  destruct (bulgeCandidate paths st p) as [[c|]|]; [| |discriminate].
  - destruct (bulgeTests MAX_BUBBLE_LEN c) as [[|]|]; [| |discriminate].
    + unfold bulgeApply. destruct (bulgeOrder c) as [a b].
      destruct (bulgeNewlyMasked _ a b); [|discriminate].
      destruct (markPath true (bulgeGraph st) a) as [g1|] eqn:H1; [|discriminate].
      destruct (markPath true g1 b) as [g2|] eqn:H2; [|discriminate].
      intros [= <-]. simpl.
      eapply maskFrame_trans; eauto using markPath_frame.
    + intros [= <-]. apply maskFrame_refl.
  - intros [= <-]. apply maskFrame_refl.
Qed.

(** C6.  In mask mode the bulge pass leaves every node with its [inEdges]
    and [outEdges] as they were and keeps the edges of the graph: the edge
    arena has the same length and every edge is the edge it was in every
    field except, possibly, [altHaplotype]. *)
Theorem bulge_mask_mode_frame (MAX_BUBBLE_LEN : Z) (paths : list (UnbranchingPath.t C))
    (g g' : RepeatGraph C) (n : Z) :
  collapseHeterozygousBulges MAX_BUBBLE_LEN false paths g = Some (g', n) ->
  graphNodes g' = graphNodes g /\
  List.length (graphEdges g') = List.length (graphEdges g) /\
  (forall e ed', graphEdges g' !! e = Some ed' ->
     exists ed, graphEdges g !! e = Some ed /\
       nodeLeft ed' = nodeLeft ed /\ nodeRight ed' = nodeRight ed /\
       edgeId ed' = edgeId ed /\ seqLength ed' = seqLength ed /\
       meanCoverage ed' = meanCoverage ed /\
       selfComplement ed' = selfComplement ed /\ twin ed' = twin ed).
Proof.
  unfold collapseHeterozygousBulges.
  destruct (foldM _ _ paths) as [st|] eqn:Hfold; [|discriminate].
  intros [= <- <-].
  assert (Hframe : maskFrame g (bulgeGraph st)).
  { refine (foldM_invariant (fun s => maskFrame g (bulgeGraph s)) _ _ paths _ _ _ Hfold).
    - intros s x s' Hs Hi.
      exact (maskFrame_trans _ _ _ Hs (bulgeIter_mask_frame _ _ _ _ _ Hi)).
    - apply maskFrame_refl. }
  destruct Hframe as [Hn He]. split; [exact Hn|]. split.
  - symmetry. eapply Forall2_length; eauto.
  - intros e ed' Hed'.
    destruct (Forall2_lookup_r _ _ _ _ _ He Hed') as (ed & Hed & Hsame).
    exists ed. split; [exact Hed|].
    unfold sameButAlt in Hsame. rewrite Hsame. destruct ed. simpl. repeat split.
Qed.

End MaskFrame.

Lemma bulge_mask_mode_frame_witness :
  graphNodes maskedSimpleBulge = graphNodes simpleBulge /\
  List.length (graphEdges maskedSimpleBulge) = List.length (graphEdges simpleBulge).
Proof.
  destruct (bulge_mask_mode_frame 50000 (getUnbranchingPaths simpleBulge)
              simpleBulge maskedSimpleBulge 1) as (Hn & Hl & _).
  - vm_compute. reflexivity.
  - split; [exact Hn | exact Hl].
Defined.

(** ** Twins are written in lockstep *)

Section Lockstep.
Context {C : Type} `{Coverage C}.

Lemma twinsInvolutive_view (g : RepeatGraph C) : twinsInvolutive g -> viewInvolutive g.
Proof.
  intros Hinv e a c t. unfold strandView.
  destruct (graphEdges g !! e) as [ed|] eqn:He; [|discriminate].
  intros [= <- <- <-].
  destruct (Hinv e ed He) as (ed' & -> & <-). eauto.
Qed.

Lemma viewEq_refl (g : RepeatGraph C) : viewEq g g.
Proof. intros e. reflexivity. Qed.

Lemma viewEq_trans (g1 g2 g3 : RepeatGraph C) : viewEq g1 g2 -> viewEq g2 g3 -> viewEq g1 g3.
Proof. intros H12 H23 e. rewrite H23. apply H12. Qed.

Lemma lockstep_refl (g : RepeatGraph C) : lockstep g g.
Proof.
  split; [auto|]. split; [eauto|].
  intros e a c t a2 c2 t2 a' c' a2' c2' H1 H2 H3 H4.
  rewrite H1 in H3. rewrite H2 in H4.
  injection H3 as <- <-. injection H4 as <- <-.
  split; auto.
Qed.

Lemma lockstep_trans (g1 g2 g3 : RepeatGraph C) :
  lockstep g1 g2 -> lockstep g2 g3 -> lockstep g1 g3.
Proof.
  intros (Hn1 & Hs1 & Hp1) (Hn2 & Hs2 & Hp2).
  split; [auto|]. split.
  - intros e a c t He. destruct (Hs1 _ _ _ _ He) as (a1 & c1 & He1). eauto.
  - intros e a c t a2 c2 t2 a' c' a2' c2' He Ht He3 Ht3.
    destruct (Hs1 _ _ _ _ He) as (am & cm & Hem).
    destruct (Hs1 _ _ _ _ Ht) as (a2m & c2m & Htm).
    destruct (Hp1 _ _ _ _ _ _ _ _ _ _ _ He Ht Hem Htm) as [Ha1 Hc1].
    destruct (Hp2 _ _ _ _ _ _ _ _ _ _ _ Hem Htm He3 Ht3) as [Ha2 Hc2].
    split; [|auto].
    destruct Ha2 as [->|[-> ->]]; [auto|]. exact Ha1.
Qed.

Lemma viewEq_lockstep (g g' : RepeatGraph C) : viewEq g g' -> lockstep g g'.
Proof.
  intros Hv. split; [|split].
  - intros e He. rewrite Hv. exact He.
  - intros e a c t He. rewrite <- Hv in He. eauto.
  - intros e a c t a2 c2 t2 a' c' a2' c2' H1 H2 H3 H4.
    rewrite Hv, H1 in H3. rewrite Hv, H2 in H4.
    injection H3 as <- <-. injection H4 as <- <-.
    split; auto.
Qed.

Lemma lockstep_involutive (g g' : RepeatGraph C) :
  lockstep g g' -> viewInvolutive g -> viewInvolutive g'.
Proof.
  intros (Hn & Hs & _) Hinv e a' c' t He'.
  destruct (strandView g e) as [[[a c] t0]|] eqn:He.
  - destruct (Hs _ _ _ _ He) as (a1 & c1 & He1).
    rewrite He1 in He'. injection He' as -> -> ->.
    destruct (Hinv _ _ _ _ He) as (a2 & c2 & Ht).
    destruct (Hs _ _ _ _ Ht) as (a3 & c3 & Ht'). eauto.
  - rewrite (Hn _ He) in He'. discriminate.
Qed.

Lemma strandView_updateEdge (f : GraphEdge C -> GraphEdge C) (g g' : RepeatGraph C)
    (e x : edge_ptr) :
  updateEdge f g e = Some g' ->
  strandView g' x =
  if decide (x = e) then
    match graphEdges g !! e with
    | Some ed => Some (altHaplotype (f ed), meanCoverage (f ed), twin (f ed))
    | None => None
    end
  else strandView g x.
Proof.
  unfold updateEdge, strandView.
  destruct (graphEdges g !! e) as [ed|] eqn:He; [|discriminate].
  intros [= <-]. simpl.
  destruct (decide (x = e)) as [->|Hne].
  - rewrite list_lookup_insert_eq by (eapply lookup_lt_Some; eauto). reflexivity.
  - rewrite list_lookup_insert_ne by auto. reflexivity.
Qed.

Lemma updateEdge_viewEq (f : GraphEdge C -> GraphEdge C) (g g' : RepeatGraph C)
    (e : edge_ptr) :
  (forall ed, altHaplotype (f ed) = altHaplotype ed /\
              meanCoverage (f ed) = meanCoverage ed /\ twin (f ed) = twin ed) ->
  updateEdge f g e = Some g' -> viewEq g g'.
Proof.
  intros Hf Hu x. rewrite (strandView_updateEdge _ _ _ _ _ Hu).
  destruct (decide (x = e)) as [->|]; [|reflexivity].
  unfold strandView. destruct (graphEdges g !! e) as [ed|]; [|reflexivity].
  destruct (Hf ed) as (-> & -> & ->). reflexivity.
Qed.

Lemma updateNode_viewEq (f : GraphNode -> GraphNode) (g g' : RepeatGraph C) (n : node_ptr) :
  updateNode f g n = Some g' -> viewEq g g'.
Proof.
  unfold updateNode. destruct (graphNodes g !! n); [|discriminate].
  intros [= <-] x. reflexivity.
Qed.

Lemma addNode_viewEq (g : RepeatGraph C) : viewEq g (fst (addNode g)).
Proof. intros x. reflexivity. Qed.

Lemma updateBothStrands_lockstep (f : GraphEdge C -> GraphEdge C) (g g' : RepeatGraph C)
    (e : edge_ptr) :
  uniformWrite f -> viewInvolutive g ->
  updateBothStrands f g e = Some g' -> lockstep g g'.
Proof.
  intros (fa & fc & Hf & Hfa) Hinv. unfold updateBothStrands.
  destruct (updateEdge f g e) as [g1|] eqn:H1; [|discriminate].
  unfold complementEdge.
  destruct (graphEdges g1 !! e) as [ed1|] eqn:He1; [|discriminate].
  intros H2.
  assert (Hv1 := fun x => strandView_updateEdge _ _ _ _ x H1).
  assert (Hv2 := fun x => strandView_updateEdge _ _ _ _ x H2).
  destruct (graphEdges g !! e) as [ed|] eqn:He;
    [|unfold updateEdge in H1; rewrite He in H1; discriminate].
  assert (Hed1 : ed1 = f ed).
  { unfold updateEdge in H1. rewrite He in H1. injection H1 as <-. simpl in He1.
    rewrite list_lookup_insert_eq in He1 by (eapply lookup_lt_Some; eauto). congruence. }
  destruct (Hf ed) as (Hfa_ed & Hfc_ed & Hft_ed).
  assert (Htw : twin ed1 = twin ed) by (rewrite Hed1; exact Hft_ed).
  rewrite Htw in *. set (t := twin ed) in *.
  assert (Hve : strandView g e = Some (altHaplotype ed, meanCoverage ed, t)).
  { unfold strandView. rewrite He. reflexivity. }
  destruct (Hinv _ _ _ _ Hve) as (at0 & ct0 & Hvt).
  assert (Hview : forall x,
    strandView g' x =
    if decide (x = e \/ x = t) then
      match strandView g x with
      | Some (a, c, tx) =>
          if decide (e = t) then Some (fa (fa a), fc (fc c), tx) else Some (fa a, fc c, tx)
      | None => None
      end
    else strandView g x).
  { intros x. rewrite Hv2.
    destruct (decide (x = t)) as [->|Hxt].
    - destruct (decide (t = e \/ t = t)) as [_|Hn]; [|exfalso; auto].
      rewrite Hvt.
      assert (Hvt1 := Hv1 t). unfold strandView in Hvt1 at 1.
      destruct (graphEdges g1 !! t) as [edt1|] eqn:Het1.
      + destruct (Hf edt1) as (-> & -> & ->).
        destruct (decide (t = e)) as [Hte|Hte].
        * injection Hvt1 as -> -> ->.
          destruct (decide (e = t)) as [_|Hn]; [|congruence].
          rewrite Hte, Hve in Hvt. injection Hvt as <- <- _.
          rewrite Hfa_ed, Hfc_ed, Hft_ed. congruence.
        * rewrite Hvt in Hvt1. injection Hvt1 as -> -> ->.
          destruct (decide (e = t)) as [Heq|_]; [congruence|]. reflexivity.
      + destruct (decide (t = e)) as [Hte|Hte].
        * rewrite Hte in Het1. congruence.
        * rewrite Hvt in Hvt1. discriminate.
    - rewrite Hv1.
      destruct (decide (x = e)) as [->|Hxe].
      + destruct (decide (e = e \/ e = t)) as [_|Hn]; [|exfalso; auto].
        rewrite Hve. destruct (decide (e = t)) as [Heq|_]; [congruence|].
        rewrite Hfa_ed, Hfc_ed, Hft_ed. reflexivity.
      + destruct (decide (x = e \/ x = t)) as [[?|?]|_]; [contradiction|contradiction|].
        reflexivity. }
  split; [|split].
  - intros x Hx. rewrite Hview, Hx. destruct (decide (x = e \/ x = t)); reflexivity.
  - intros x a c tx Hx. rewrite Hview, Hx.
    destruct (decide (x = e \/ x = t)); [destruct (decide (e = t))|]; eauto.
  - intros x a c tx a2 c2 t2 a' c' a2' c2' Hx Htx Hx' Htx'.
    rewrite Hview, Hx in Hx'. rewrite Hview, Htx in Htx'.
    destruct (Hinv _ _ _ _ Hx) as (a3 & c3 & Htx3).
    rewrite Htx in Htx3. injection Htx3 as <- <- ->.
    assert (Hin : (x = e \/ x = t) <-> (tx = e \/ tx = t)).
    { split; intros [->| ->].
      - right. rewrite Hve in Hx. congruence.
      - left. rewrite Hvt in Hx. congruence.
      - right. rewrite Hve in Htx. congruence.
      - left. rewrite Hvt in Htx. congruence. }
    destruct (decide (x = e \/ x = t)) as [Hxin|Hxout];
      destruct (decide (tx = e \/ tx = t)) as [Htin|Htout]; try tauto.
    + destruct (decide (e = t)); injection Hx' as <- <-; injection Htx' as <- <-;
        (split; [|congruence]).
      * destruct (Hfa a a2) as [->|[-> ->]]; auto.
      * apply Hfa.
    + injection Hx' as <- <-. injection Htx' as <- <-. split; auto.
Qed.

End Lockstep.

Section LockstepPasses.
Context {C : Type} `{Coverage C}.

Lemma twinInvariant_step (g0 g g' : RepeatGraph C) :
  twinInvariant g0 g -> lockstep g g' -> twinInvariant g0 g'.
Proof.
  intros [Hinv Hl] Hstep. split.
  - eapply lockstep_involutive; eauto.
  - eapply lockstep_trans; eauto.
Qed.

Lemma uniformWrite_setAltHaplotype (b : bool) : uniformWrite (setAltHaplotype (C := C) b).
Proof.
  exists (fun _ => b), (fun c => c). split.
  - intros ed. destruct ed. simpl. auto.
  - intros a a2. left. reflexivity.
Qed.

Lemma uniformWrite_addMeanCoverage (c : C) : uniformWrite (addMeanCoverage c).
Proof.
  exists (fun a => a), (fun x => cadd x c). split.
  - intros ed. destruct ed. simpl. auto.
  - intros a a2. right. auto.
Qed.

Lemma markEdge_invariant (b : bool) (g0 g g' : RepeatGraph C) (e : edge_ptr) :
  twinInvariant g0 g -> markEdge b g e = Some g' -> twinInvariant g0 g'.
Proof.
  intros Hinv Hm. eapply twinInvariant_step; [exact Hinv|].
  eapply updateBothStrands_lockstep; [apply uniformWrite_setAltHaplotype| |exact Hm].
  exact (proj1 Hinv).
Qed.

Lemma markPath_invariant (b : bool) (p : UnbranchingPath.t C) (g0 g g' : RepeatGraph C) :
  twinInvariant g0 g -> markPath b g p = Some g' -> twinInvariant g0 g'.
Proof.
  unfold markPath. apply (foldM_invariant (twinInvariant g0)).
  intros s x s'. apply markEdge_invariant.
Qed.

Lemma foldCoverageEdge_invariant (c : C) (g0 g g' : RepeatGraph C) (e : edge_ptr) :
  twinInvariant g0 g -> foldCoverageEdge c g e = Some g' -> twinInvariant g0 g'.
Proof.
  intros Hinv. unfold foldCoverageEdge.
  destruct (updateBothStrands (addMeanCoverage c) g e) as [g1|] eqn:H1; [|discriminate].
  apply markEdge_invariant.
  eapply twinInvariant_step; [exact Hinv|].
  eapply updateBothStrands_lockstep; [apply uniformWrite_addMeanCoverage| |exact H1].
  exact (proj1 Hinv).
Qed.

Lemma bulgeIter_invariant (MAX_BUBBLE_LEN : Z) (removeAlternatives : bool)
    (paths : list (UnbranchingPath.t C)) (g0 : RepeatGraph C)
    (st st' : BulgeState C) (p : UnbranchingPath.t C) :
  twinInvariant g0 (bulgeGraph st) ->
  bulgeIter MAX_BUBBLE_LEN removeAlternatives paths st p = Some st' ->
  twinInvariant g0 (bulgeGraph st').
Proof.
  intros Hinv. unfold bulgeIter.
  destruct (bulgeCandidate paths st p) as [[c|]|]; [| |discriminate].
  - destruct (bulgeTests MAX_BUBBLE_LEN c) as [[|]|]; [| |discriminate].
    + unfold bulgeApply. destruct (bulgeOrder c) as [a b].
      destruct (bulgeNewlyMasked _ a b); [|discriminate].
      destruct (markPath true (bulgeGraph st) a) as [g1|] eqn:H1; [|discriminate].
      destruct (markPath true g1 b) as [g2|] eqn:H2; [|discriminate].
      assert (Hinv2 : twinInvariant g0 g2) by eauto using markPath_invariant.
      destruct removeAlternatives.
      * destruct (foldM _ g2 _) as [g3|] eqn:H3; [|discriminate].
        intros [= <-]. simpl.
        refine (foldM_invariant (twinInvariant g0) _ _ _ _ _ Hinv2 H3).
        intros s x s'. apply foldCoverageEdge_invariant.
      * intros [= <-]. exact Hinv2.
    + intros [= <-]. exact Hinv.
  - intros [= <-]. exact Hinv.
Qed.

Lemma loopIter_invariant (paths : list (UnbranchingPath.t C)) (g0 : RepeatGraph C)
    (st st' : LoopState C) (p : UnbranchingPath.t C) :
  twinInvariant g0 (loopGraph st) ->
  loopIter paths st p = Some st' ->
  twinInvariant g0 (loopGraph st').
Proof.
  intros Hinv. unfold loopIter.
  destruct (loopCandidate paths (loopGraph st) p) as [[r|]|]; [| |discriminate].
  - destruct (loopTests (loopGraph st) p r) as [[[en ex]|]|]; [| |discriminate].
    + unfold loopApply.
      destruct (frontAltHaplotype (loopGraph st) p); [|discriminate].
      destruct (markPath true (loopGraph st) p) as [g1|] eqn:H1; [|discriminate].
      assert (Hinv1 : twinInvariant g0 g1) by eauto using markPath_invariant.
      destruct (loopIsRemoved p en ex); intros [= <-]; exact Hinv1.
    + intros [= <-]. exact Hinv.
  - intros [= <-]. exact Hinv.
Qed.

(** The structural edits touch neither flags nor coverages nor twins. *)
Lemma setNodeLeft_keeps (n : node_ptr) (ed : GraphEdge C) :
  altHaplotype (setNodeLeft n ed) = altHaplotype ed /\
  meanCoverage (setNodeLeft n ed) = meanCoverage ed /\
  twin (setNodeLeft n ed) = twin ed.
Proof. destruct ed. simpl. auto. Qed.

Lemma setNodeRight_keeps (n : node_ptr) (ed : GraphEdge C) :
  altHaplotype (setNodeRight n ed) = altHaplotype ed /\
  meanCoverage (setNodeRight n ed) = meanCoverage ed /\
  twin (setNodeRight n ed) = twin ed.
Proof. destruct ed. simpl. auto. Qed.

Ltac structural_steps :=
  repeat match goal with
  | |- (match ?x with Some _ => _ | None => None end = Some _) -> _ =>
      let E := fresh "E" in destruct x eqn:E; [|discriminate]
  end.

Ltac view_chain :=
  repeat match goal with
  | E : updateNode _ _ _ = Some _ |- _ => apply updateNode_viewEq in E
  | E : updateEdge (setNodeLeft _) _ _ = Some _ |- _ =>
      apply (updateEdge_viewEq _ _ _ _ (setNodeLeft_keeps _)) in E
  | E : updateEdge (setNodeRight _) _ _ = Some _ |- _ =>
      apply (updateEdge_viewEq _ _ _ _ (setNodeRight_keeps _)) in E
  end;
  let e := fresh "e" in
  intros e;
  repeat match goal with
  | Hv : viewEq _ ?g |- strandView ?g _ = _ => rewrite (Hv _); clear Hv
  end;
  reflexivity.

Lemma separatePath_viewEq (g g' : RepeatGraph C) (p : UnbranchingPath.t C) :
  separatePath g p = Some g' -> viewEq g g'.
Proof.
  unfold separatePath. simpl.
  destruct (pathFront p) as [front|]; [|discriminate].
  destruct (pathBack p) as [back|]; [|discriminate].
  structural_steps. intros Hlast. view_chain.
Qed.

Lemma unrollPath_viewEq (g g' : RepeatGraph C) (p : UnbranchingPath.t C) :
  unrollPath g p = Some g' -> viewEq g g'.
Proof.
  unfold unrollPath. simpl.
  destruct (pathFront p) as [front|]; [|discriminate].
  destruct (pathBack p) as [back|]; [|discriminate].
  structural_steps. intros Hlast. view_chain.
Qed.

Lemma removePath_viewEq (g g' : RepeatGraph C) (p : UnbranchingPath.t C) :
  removePath g p = Some g' -> viewEq g g'.
Proof.
  unfold removePath. simpl.
  destruct (pathFront p) as [front|]; [|discriminate].
  destruct (pathBack p) as [back|]; [|discriminate].
  structural_steps. intros Hlast. view_chain.
Qed.

Lemma separateIter_invariant (staged : gset FastaRecord.Id) (g0 g g' : RepeatGraph C)
    (p : UnbranchingPath.t C) :
  twinInvariant g0 g -> separateIter staged g p = Some g' -> twinInvariant g0 g'.
Proof.
  intros Hinv. unfold separateIter.
  destruct (decide _); [|intros [= <-]; exact Hinv].
  intros Hs. eapply twinInvariant_step; [exact Hinv|].
  apply viewEq_lockstep. eapply separatePath_viewEq; eauto.
Qed.

Lemma loopEditIter_invariant (unroll remove : gset FastaRecord.Id) (g0 g g' : RepeatGraph C)
    (p : UnbranchingPath.t C) :
  twinInvariant g0 g -> loopEditIter unroll remove g p = Some g' -> twinInvariant g0 g'.
Proof.
  intros Hinv. unfold loopEditIter.
  assert (H1 : forall g1,
    (if decide (UnbranchingPath.id p ∈ unroll) then unrollPath g p else Some g) = Some g1 ->
    twinInvariant g0 g1).
  { intros g1. destruct (decide _); [|intros [= <-]; exact Hinv].
    intros Hu. eapply twinInvariant_step; [exact Hinv|].
    apply viewEq_lockstep. eapply unrollPath_viewEq; eauto. }
  destruct (if decide (UnbranchingPath.id p ∈ unroll) then unrollPath g p else Some g)
    as [g1|]; [|discriminate].
  specialize (H1 g1 eq_refl).
  destruct (decide _); [|intros [= <-]; exact H1].
  intros Hr. eapply twinInvariant_step; [exact H1|].
  apply viewEq_lockstep. eapply removePath_viewEq; eauto.
Qed.

(** Both passes, both modes: the graph they leave is in lockstep with the
    graph they were given. *)
Lemma collapseHeterozygousBulges_lockstep (MAX_BUBBLE_LEN : Z) (removeAlternatives : bool)
    (paths : list (UnbranchingPath.t C)) (g g' : RepeatGraph C) (n : Z) :
  twinsInvolutive g ->
  collapseHeterozygousBulges MAX_BUBBLE_LEN removeAlternatives paths g = Some (g', n) ->
  lockstep g g'.
Proof.
  intros Hinv. unfold collapseHeterozygousBulges.
  destruct (foldM _ _ paths) as [st|] eqn:Hfold; [|discriminate].
  assert (H0 : twinInvariant g g).
  { split; [apply twinsInvolutive_view; exact Hinv | apply lockstep_refl]. }
  assert (H1 : twinInvariant g (bulgeGraph st)).
  { refine (foldM_invariant (fun s => twinInvariant g (bulgeGraph s)) _ _ paths _ _ _ Hfold).
    - intros s x s'. apply bulgeIter_invariant.
    - exact H0. }
  destruct removeAlternatives.
  - destruct (foldM (separateIter _) _ paths) as [g2|] eqn:Hsep; [|discriminate].
    intros [= <- <-].
    refine (proj2 (foldM_invariant (twinInvariant g) _ _ paths _ _ H1 Hsep)).
    intros s x s'. apply separateIter_invariant.
  - intros [= <- <-]. exact (proj2 H1).
Qed.

Lemma collapseHeterozygousLoops_lockstep (removeAlternatives : bool)
    (paths : list (UnbranchingPath.t C)) (g g' : RepeatGraph C) (n : Z) :
  twinsInvolutive g ->
  collapseHeterozygousLoops removeAlternatives paths g = Some (g', n) ->
  lockstep g g'.
Proof.
  intros Hinv. unfold collapseHeterozygousLoops.
  destruct (foldM _ _ paths) as [st|] eqn:Hfold; [|discriminate].
  assert (H0 : twinInvariant g g).
  { split; [apply twinsInvolutive_view; exact Hinv | apply lockstep_refl]. }
  assert (H1 : twinInvariant g (loopGraph st)).
  { refine (foldM_invariant (fun s => twinInvariant g (loopGraph s)) _ _ paths _ _ _ Hfold).
    - intros s x s'. apply loopIter_invariant.
    - exact H0. }
  destruct removeAlternatives.
  - destruct (foldM (loopEditIter _ _) _ paths) as [g2|] eqn:Hed; [|discriminate].
    intros [= <- <-].
    refine (proj2 (foldM_invariant (twinInvariant g) _ _ paths _ _ H1 Hed)).
    intros s x s'. apply loopEditIter_invariant.
  - intros [= <- <-]. exact (proj2 H1).
Qed.

End LockstepPasses.

Section TwinEquality.
Context {C : Type} `{Coverage C}.

Lemma twinsInvolutiveb_sound (g : RepeatGraph C) :
  twinsInvolutiveb g = true -> twinsInvolutive g.
Proof.
  unfold twinsInvolutiveb. rewrite forallb_forall. intros Hall e ed He.
  specialize (Hall e). rewrite He in Hall.
  assert (Hin : In e (seq 0 (List.length (graphEdges g)))).
  { apply in_seq. apply lookup_lt_Some in He. lia. }
  specialize (Hall Hin).
  destruct (graphEdges g !! twin ed) as [ed'|]; [|discriminate].
  exists ed'. split; [reflexivity|]. apply Nat.eqb_eq. exact Hall.
Qed.

Lemma strandView_lookup (g : RepeatGraph C) (e : edge_ptr) (ed : GraphEdge C) :
  graphEdges g !! e = Some ed ->
  strandView g e = Some (altHaplotype ed, meanCoverage ed, twin ed).
Proof. unfold strandView. intros ->. reflexivity. Qed.

Lemma strandView_inv (g : RepeatGraph C) (e : edge_ptr) (a : bool) (c : C) (t : nat) :
  strandView g e = Some (a, c, t) ->
  exists ed, graphEdges g !! e = Some ed /\
             altHaplotype ed = a /\ meanCoverage ed = c /\ twin ed = t.
Proof.
  unfold strandView. destruct (graphEdges g !! e) as [ed|]; [|discriminate].
  intros [= <- <- <-]. eauto.
Qed.

(** Given a graph whose twin links are an involution, after either pass in
    either mode: every edge whose [altHaplotype] the pass changed has a twin
    with the same [altHaplotype]; every edge whose twin carried the same
    [meanCoverage] before the pass has a twin with the same [meanCoverage]
    after it; and if all twins agreed on both fields before the pass, all
    twins agree after it. *)
Lemma twins_written_in_lockstep (MAX_BUBBLE_LEN : Z) (removeAlternatives : bool)
    (paths : list (UnbranchingPath.t C)) (g g' : RepeatGraph C) (n : Z) :
  twinsInvolutive g ->
  collapseHeterozygousBulges MAX_BUBBLE_LEN removeAlternatives paths g = Some (g', n) \/
  collapseHeterozygousLoops removeAlternatives paths g = Some (g', n) ->
  (forall e ed ed',
     graphEdges g !! e = Some ed -> graphEdges g' !! e = Some ed' ->
     altHaplotype ed' <> altHaplotype ed ->
     exists t', graphEdges g' !! twin ed' = Some t' /\
                altHaplotype t' = altHaplotype ed') /\
  (forall e ed t ed',
     graphEdges g !! e = Some ed -> graphEdges g !! twin ed = Some t ->
     meanCoverage t = meanCoverage ed ->
     graphEdges g' !! e = Some ed' ->
     exists t', graphEdges g' !! twin ed' = Some t' /\
                meanCoverage t' = meanCoverage ed') /\
  (twinsEqual g -> twinsEqual g').
Proof.
  intros Hinv Hrun.
  assert (Hlock : lockstep g g').
  { destruct Hrun as [Hb|Hl].
    - eapply collapseHeterozygousBulges_lockstep; eauto.
    - eapply collapseHeterozygousLoops_lockstep; eauto. }
  pose proof (twinsInvolutive_view _ Hinv) as Hvinv.
  destruct Hlock as (Hnone & Hsome & Hpair).
  assert (Hboth : forall e ed ed',
    graphEdges g !! e = Some ed -> graphEdges g' !! e = Some ed' ->
    exists t t', graphEdges g !! twin ed = Some t /\ twin ed' = twin ed /\
                 graphEdges g' !! twin ed = Some t' /\
                 pairLockstep (altHaplotype ed) (altHaplotype t)
                              (altHaplotype ed') (altHaplotype t')
                              (meanCoverage ed) (meanCoverage t)
                              (meanCoverage ed') (meanCoverage t')).
  { intros e ed ed' He He'.
    pose proof (strandView_lookup _ _ _ He) as Hv.
    pose proof (strandView_lookup _ _ _ He') as Hv'.
    destruct (Hvinv _ _ _ _ Hv) as (a2 & c2 & Hvt).
    destruct (Hsome _ _ _ _ Hv) as (a' & c' & Hv1).
    destruct (Hsome _ _ _ _ Hvt) as (a2' & c2' & Hvt').
    rewrite Hv' in Hv1. injection Hv1 as <- <- Htw.
    destruct (strandView_inv _ _ _ _ _ Hvt) as (t & Ht & <- & <- & _).
    destruct (strandView_inv _ _ _ _ _ Hvt') as (t' & Ht' & <- & <- & _).
    rewrite Htw in Hv'.
    exists t, t'. split; [exact Ht|]. split; [exact Htw|]. split; [exact Ht'|].
    exact (Hpair _ _ _ _ _ _ _ _ _ _ _ Hv Hvt Hv' Hvt'). }
  split; [|split].
  - intros e ed ed' He He' Hne.
    destruct (Hboth _ _ _ He He') as (t & t' & Ht & Htw & Ht' & [Ha _]).
    exists t'. rewrite Htw. split; [exact Ht'|].
    destruct Ha as [->|[Hsame _]]; [reflexivity|contradiction].
  - intros e ed t ed' He Ht Hc He'.
    destruct (Hboth _ _ _ He He') as (t0 & t' & Ht0 & Htw & Ht' & [_ Hcov]).
    rewrite Ht in Ht0. injection Ht0 as <-.
    exists t'. rewrite Htw. split; [exact Ht'|]. symmetry. apply Hcov. congruence.
  - intros Heq e ed' t' He' Ht'.
    destruct (graphEdges g !! e) as [ed|] eqn:He.
    + destruct (Hboth _ _ _ He He') as (t & t1 & Ht & Htw & Ht1 & [Ha Hcov]).
      rewrite Htw, Ht1 in Ht'. injection Ht' as <-.
      destruct (Heq _ _ _ He Ht) as [Halt Hc]. split.
      * destruct Ha as [->|[-> ->]]; [reflexivity|exact Halt].
      * symmetry. apply Hcov. congruence.
    + pose proof (Hnone e) as Hn. unfold strandView in Hn. rewrite He, He' in Hn.
      specialize (Hn eq_refl). discriminate.
Qed.


(** The twin links of the graph a pass leaves are those of the graph it was
    given. *)
Lemma lockstep_twinsInvolutive (g g' : RepeatGraph C) :
  twinsInvolutive g -> lockstep g g' -> twinsInvolutive g'.
Proof.
  intros Hinv (Hnone & Hsome & _) e ed' He'.
  pose proof (twinsInvolutive_view _ Hinv) as Hvinv.
  destruct (graphEdges g !! e) as [ed|] eqn:He.
  - pose proof (strandView_lookup _ _ _ He) as Hv.
    pose proof (strandView_lookup _ _ _ He') as Hv'.
    destruct (Hvinv _ _ _ _ Hv) as (a2 & c2 & Hvt).
    destruct (Hsome _ _ _ _ Hv) as (a' & c' & Hv1).
    rewrite Hv' in Hv1. injection Hv1 as _ _ Htw.
    destruct (Hsome _ _ _ _ Hvt) as (a2' & c2' & Hvt').
    destruct (strandView_inv _ _ _ _ _ Hvt') as (t' & Ht' & _ & _ & Htt).
    exists t'. rewrite Htw. split; [exact Ht'|exact Htt].
  - pose proof (Hnone e) as Hn. unfold strandView in Hn. rewrite He, He' in Hn.
    specialize (Hn eq_refl). discriminate.
Qed.

(** C1.  On a graph at rest (the twin links are an involution and twins
    agree on [altHaplotype] and [meanCoverage]), after
    [collapseHeterozygousBulges] or [collapseHeterozygousLoops] in either
    mode: every edge [e] whose [altHaplotype] or [meanCoverage] the pass
    changed has its twin in the graph, with the same [altHaplotype] and the
    same [meanCoverage] as [e]; and the graph is at rest again: twins agree
    on both fields for all edges, and the twin links are still an
    involution. *)
Theorem twins_stay_equal (MAX_BUBBLE_LEN : Z) (removeAlternatives : bool)
    (paths : list (UnbranchingPath.t C)) (g g' : RepeatGraph C) (n : Z) :
  twinsInvolutive g ->
  twinsEqual g ->
  collapseHeterozygousBulges MAX_BUBBLE_LEN removeAlternatives paths g = Some (g', n) \/
  collapseHeterozygousLoops removeAlternatives paths g = Some (g', n) ->
  (forall e ed ed',
     graphEdges g !! e = Some ed -> graphEdges g' !! e = Some ed' ->
     altHaplotype ed' <> altHaplotype ed \/ meanCoverage ed' <> meanCoverage ed ->
     exists t', graphEdges g' !! twin ed' = Some t' /\
                altHaplotype t' = altHaplotype ed' /\
                meanCoverage t' = meanCoverage ed') /\
  twinsEqual g' /\
  twinsInvolutive g'.
Proof.
  intros Hinv Heq Hrun.
  destruct (twins_written_in_lockstep _ _ _ _ _ _ Hinv Hrun) as (_ & _ & Hkeep).
  specialize (Hkeep Heq).
  assert (Hinv' : twinsInvolutive g').
  { apply (lockstep_twinsInvolutive g); [exact Hinv|].
    destruct Hrun as [Hb|Hl].
    - eapply collapseHeterozygousBulges_lockstep; eauto.
    - eapply collapseHeterozygousLoops_lockstep; eauto. }
  split; [|split; [exact Hkeep|exact Hinv']].
  intros e ed ed' _ He' _.
  destruct (Hinv' _ _ He') as (t' & Ht' & _).
  exists t'. split; [exact Ht'|]. exact (Hkeep _ _ _ He' Ht').
Qed.

End TwinEquality.

Lemma simpleBulge_at_rest : twinsInvolutive simpleBulge /\ twinsEqual simpleBulge.
Proof.
  split; [apply twinsInvolutiveb_sound; vm_compute; reflexivity|].
  intros e ed ed' He Ht.
  assert (Hlt : (e < 8)%nat) by (apply lookup_lt_Some in He; exact He).
  do 8 (destruct e as [|e];
        [vm_compute in He; injection He as <-; vm_compute in Ht; injection Ht as <-;
         split; reflexivity|]).
  lia.
Qed.

Lemma twins_stay_equal_witness :
  exists t', graphEdges collapsedSimpleBulge !! 3%nat = Some t' /\
             altHaplotype t' = true /\ meanCoverage t' = (10 # 1)%Q.
Proof.
  assert (Hrun : collapseHeterozygousBulges 50000 true (getUnbranchingPaths simpleBulge)
                   simpleBulge = Some (collapsedSimpleBulge, 1)).
  { vm_compute. reflexivity. }
  destruct (twins_stay_equal 50000 true _ _ _ _ (proj1 simpleBulge_at_rest)
              (proj2 simpleBulge_at_rest) (or_introl Hrun)) as (Hmut & _ & _).
  refine (Hmut 2%nat (mkEdge 1 2 (FastaRecord.mkId 2 true) 500 (10 # 1) false false 3)
               (mkEdge 8 9 (FastaRecord.mkId 2 true) 500 (10 # 1) true false 3) _ _ _).
  - vm_compute. reflexivity.
  - vm_compute. reflexivity.
  - left. simpl. discriminate.
Defined.

(** ** The entrance and exit lookups find a path *)

Section Lookups.
Context {C : Type} `{Coverage C}.

Lemma listsCoherentb_sound (g : RepeatGraph C) (n : node_ptr) (nd : GraphNode) :
  listsCoherentb g = true -> graphNodes g !! n = Some nd ->
  (forall e, e ∈ inEdges nd ->
     exists ed, graphEdges g !! e = Some ed /\ nodeRight ed = n) /\
  (forall e, e ∈ outEdges nd ->
     exists ed, graphEdges g !! e = Some ed /\ nodeLeft ed = n) /\
  NoDup (inEdges nd) /\ NoDup (outEdges nd).
Proof.
  unfold listsCoherentb. rewrite forallb_forall. intros Hall Hn.
  specialize (Hall n). rewrite Hn in Hall.
  assert (Hin : In n (seq 0 (List.length (graphNodes g)))).
  { apply in_seq. apply lookup_lt_Some in Hn. lia. }
  specialize (Hall Hin). unfold nodeCoherentb in Hall.
  apply andb_prop in Hall. destruct Hall as [Hall Hnd2].
  apply andb_prop in Hall. destruct Hall as [Hall Hnd1].
  apply andb_prop in Hall. destruct Hall as [Hi Ho].
  rewrite forallb_forall in Hi, Ho.
  apply bool_decide_eq_true in Hnd1, Hnd2.
  repeat split; auto.
  - intros e He. apply list_elem_of_In in He. specialize (Hi e He).
    destruct (graphEdges g !! e) as [ed|]; [|discriminate].
    exists ed. split; [reflexivity|]. apply Nat.eqb_eq. exact Hi.
  - intros e He. apply list_elem_of_In in He. specialize (Ho e He).
    destruct (graphEdges g !! e) as [ed|]; [|discriminate].
    exists ed. split; [reflexivity|]. apply Nat.eqb_eq. exact Ho.
Qed.

Lemma unbranchingCoverb_sound (g : RepeatGraph C) (paths : list (UnbranchingPath.t C)) :
  unbranchingCover g paths ->
  (forall e ed, graphEdges g !! e = Some ed ->
     exists p, p ∈ paths /\ e ∈ UnbranchingPath.path p) /\
  (forall p, p ∈ paths ->
     pathValidb g p = true /\ chainb g (UnbranchingPath.path p) = true) /\
  (forall p q, p ∈ paths -> q ∈ paths -> UnbranchingPath.id p = UnbranchingPath.id q ->
     UnbranchingPath.path p = UnbranchingPath.path q).
Proof.
  unfold unbranchingCover, unbranchingCoverb. intros Hall.
  apply andb_prop in Hall. destruct Hall as [Hall Hids].
  apply andb_prop in Hall. destruct Hall as [Hcov Hchain].
  rewrite forallb_forall in Hcov, Hchain, Hids.
  split; [|split].
  - intros e ed He.
    assert (Hin : In e (seq 0 (List.length (graphEdges g)))).
    { apply in_seq. apply lookup_lt_Some in He. lia. }
    specialize (Hcov e Hin). apply existsb_exists in Hcov.
    destruct Hcov as (p & Hp & Hep). apply bool_decide_eq_true in Hep.
    exists p. split; [apply list_elem_of_In; exact Hp | exact Hep].
  - intros p Hp. apply andb_prop. apply Hchain. apply list_elem_of_In. exact Hp.
  - intros p q Hp Hq Hid. apply list_elem_of_In in Hp, Hq.
    specialize (Hids p Hp). rewrite forallb_forall in Hids. specialize (Hids q Hq).
    apply orb_prop in Hids. destruct Hids as [Hne|Heq].
    + apply negb_true_iff, bool_decide_eq_false in Hne. contradiction.
    + apply bool_decide_eq_true in Heq. exact Heq.
Qed.

Lemma chainb_cons2 (g : RepeatGraph C) (e e' : edge_ptr) (rest : list edge_ptr) :
  chainb g (e :: e' :: rest) =
  match graphEdges g !! e, graphEdges g !! e' with
  | Some ed, Some ed' =>
      Nat.eqb (nodeRight ed) (nodeLeft ed') && nonBranching g (nodeRight ed) &&
      chainb g (e' :: rest)
  | _, _ => false
  end.
Proof. reflexivity. Qed.

(** An edge of a chain that ends in a branching node is the last one. *)
Lemma chainb_last (g : RepeatGraph C) (es : list edge_ptr) (x : edge_ptr) (ed : GraphEdge C) :
  chainb g es = true -> x ∈ es -> graphEdges g !! x = Some ed ->
  nonBranching g (nodeRight ed) = false -> last es = Some x.
Proof.
  intros Hch Hx Hed Hbr. induction es as [|e [|e' rest] IH].
  - inversion Hx.
  - apply list_elem_of_singleton in Hx. subst. reflexivity.
  - rewrite chainb_cons2 in Hch.
    destruct (graphEdges g !! e) as [ede|] eqn:He; [|discriminate].
    destruct (graphEdges g !! e') as [ede'|] eqn:He'; [|discriminate].
    apply andb_prop in Hch. destruct Hch as [Hch Hrest].
    apply andb_prop in Hch. destruct Hch as [_ Hnb].
    apply elem_of_cons in Hx. destruct Hx as [->|Hx].
    + rewrite Hed in He. injection He as <-. congruence.
    + change (last (e :: e' :: rest)) with (last (e' :: rest)). auto.
Qed.

(** An edge of a chain that starts in a branching node is the first one. *)
Lemma chainb_first (g : RepeatGraph C) (es : list edge_ptr) (x : edge_ptr) (ed : GraphEdge C) :
  chainb g es = true -> x ∈ es -> graphEdges g !! x = Some ed ->
  nonBranching g (nodeLeft ed) = false -> head es = Some x.
Proof.
  intros Hch Hx Hed Hbr. induction es as [|e [|e' rest] IH].
  - inversion Hx.
  - apply list_elem_of_singleton in Hx. subst. reflexivity.
  - rewrite chainb_cons2 in Hch.
    destruct (graphEdges g !! e) as [ede|] eqn:He; [|discriminate].
    destruct (graphEdges g !! e') as [ede'|] eqn:He'; [|discriminate].
    apply andb_prop in Hch. destruct Hch as [Hch Hrest].
    apply andb_prop in Hch. destruct Hch as [Hjoin Hnb].
    apply elem_of_cons in Hx. destruct Hx as [->|Hx]; [reflexivity|].
    specialize (IH Hrest Hx). simpl in IH. injection IH as ->.
    rewrite Hed in He'. injection He' as <-.
    apply Nat.eqb_eq in Hjoin. congruence.
Qed.

Lemma pathNodeRight_last (g : RepeatGraph C) (p : UnbranchingPath.t C)
    (x : edge_ptr) (ed : GraphEdge C) :
  last (UnbranchingPath.path p) = Some x -> graphEdges g !! x = Some ed ->
  pathNodeRight g p = Some (nodeRight ed).
Proof. unfold pathNodeRight, pathBack. intros -> ->. reflexivity. Qed.

Lemma pathNodeLeft_head (g : RepeatGraph C) (p : UnbranchingPath.t C)
    (x : edge_ptr) (ed : GraphEdge C) :
  head (UnbranchingPath.path p) = Some x -> graphEdges g !! x = Some ed ->
  pathNodeLeft g p = Some (nodeLeft ed).
Proof. unfold pathNodeLeft, pathFront. intros -> ->. reflexivity. Qed.

(** The path through an incoming edge of a branching node ends there, and
    the path through an outgoing edge starts there. *)
Lemma path_into_branching (g : RepeatGraph C) (paths : list (UnbranchingPath.t C))
    (n : node_ptr) (nd : GraphNode) (x : edge_ptr) :
  adjacencyCoherent g -> unbranchingCover g paths ->
  graphNodes g !! n = Some nd -> nonBranching g n = false -> x ∈ inEdges nd ->
  exists q, q ∈ paths /\ pathNodeRight g q = Some n /\ last (UnbranchingPath.path q) = Some x.
Proof.
  intros [Hco _] Hcover Hn Hbr Hx.
  destruct (listsCoherentb_sound _ _ _ Hco Hn) as (Hin & _ & _ & _).
  destruct (Hin x Hx) as (ed & Hed & Hr).
  destruct (unbranchingCoverb_sound _ _ Hcover) as (Hcov & Hchain & _).
  destruct (Hcov x ed Hed) as (q & Hq & Hxq).
  assert (Hlast : last (UnbranchingPath.path q) = Some x).
  { apply (chainb_last g _ x ed);
      [apply (Hchain q Hq) | exact Hxq | exact Hed | rewrite Hr; exact Hbr]. }
  exists q. split; [exact Hq|]. split; [|exact Hlast].
  rewrite <- Hr. eapply pathNodeRight_last; eauto.
Qed.

Lemma path_out_of_branching (g : RepeatGraph C) (paths : list (UnbranchingPath.t C))
    (n : node_ptr) (nd : GraphNode) (x : edge_ptr) :
  adjacencyCoherent g -> unbranchingCover g paths ->
  graphNodes g !! n = Some nd -> nonBranching g n = false -> x ∈ outEdges nd ->
  exists q, q ∈ paths /\ pathNodeLeft g q = Some n /\ head (UnbranchingPath.path q) = Some x.
Proof.
  intros [Hco _] Hcover Hn Hbr Hx.
  destruct (listsCoherentb_sound _ _ _ Hco Hn) as (_ & Hout & _ & _).
  destruct (Hout x Hx) as (ed & Hed & Hl).
  destruct (unbranchingCoverb_sound _ _ Hcover) as (Hcov & Hchain & _).
  destruct (Hcov x ed Hed) as (q & Hq & Hxq).
  assert (Hhead : head (UnbranchingPath.path q) = Some x).
  { apply (chainb_first g _ x ed);
      [apply (Hchain q Hq) | exact Hxq | exact Hed | rewrite Hl; exact Hbr]. }
  exists q. split; [exact Hq|]. split; [|exact Hhead].
  rewrite <- Hl. eapply pathNodeLeft_head; eauto.
Qed.

End Lookups.

Section LookupsFind.
Context {C : Type} `{Coverage C}.

Lemma bulgeLookup_entrance (g : RepeatGraph C) (l r : node_ptr)
    (paths : list (UnbranchingPath.t C)) :
  forall acc res,
    foldM (bulgeLookupStep g l r) acc paths = Some res ->
    is_Some (fst acc) \/ (exists q, q ∈ paths /\ pathNodeRight g q = Some l) ->
    is_Some (fst res).
Proof.
  induction paths as [|p paths IH]; intros acc res; simpl.
  - intros [= <-] [Hacc|(q & Hq & _)]; [exact Hacc|inversion Hq].
  - unfold bulgeLookupStep at 1.
    destruct (pathNodeRight g p) as [cr|] eqn:Hcr; [|discriminate].
    destruct (pathNodeLeft g p) as [cl|]; [|discriminate].
    intros Hfold Hor. apply (IH _ _ Hfold). simpl.
    destruct (Nat.eqb cr l) eqn:Heq; [left; eauto|].
    destruct Hor as [Hacc|(q & Hq & Hqr)]; [left; exact Hacc|].
    apply elem_of_cons in Hq. destruct Hq as [->|Hq].
    + rewrite Hcr in Hqr. injection Hqr as ->. rewrite Nat.eqb_refl in Heq. discriminate.
    + right. eauto.
Qed.

Lemma bulgeLookup_exit (g : RepeatGraph C) (l r : node_ptr)
    (paths : list (UnbranchingPath.t C)) :
  forall acc res,
    foldM (bulgeLookupStep g l r) acc paths = Some res ->
    is_Some (snd acc) \/ (exists q, q ∈ paths /\ pathNodeLeft g q = Some r) ->
    is_Some (snd res).
Proof.
  induction paths as [|p paths IH]; intros acc res; simpl.
  - intros [= <-] [Hacc|(q & Hq & _)]; [exact Hacc|inversion Hq].
  - unfold bulgeLookupStep at 1.
    destruct (pathNodeRight g p) as [cr|]; [|discriminate].
    destruct (pathNodeLeft g p) as [cl|] eqn:Hcl; [|discriminate].
    intros Hfold Hor. apply (IH _ _ Hfold). simpl.
    destruct (Nat.eqb cl r) eqn:Heq; [left; eauto|].
    destruct Hor as [Hacc|(q & Hq & Hql)]; [left; exact Hacc|].
    apply elem_of_cons in Hq. destruct Hq as [->|Hq].
    + rewrite Hcl in Hql. injection Hql as ->. rewrite Nat.eqb_refl in Heq. discriminate.
    + right. eauto.
Qed.

Lemma loopLookup_entrance (g : RepeatGraph C) (node : node_ptr) (loop : UnbranchingPath.t C)
    (paths : list (UnbranchingPath.t C)) :
  forall acc res,
    foldM (loopLookupStep g node loop) acc paths = Some res ->
    is_Some (fst acc) \/
    (exists q, q ∈ paths /\ pathNodeRight g q = Some node /\
               UnbranchingPath.id loop <> UnbranchingPath.id q) ->
    is_Some (fst res).
Proof.
  induction paths as [|p paths IH]; intros acc res; simpl.
  - intros [= <-] [Hacc|(q & Hq & _)]; [exact Hacc|inversion Hq].
  - unfold loopLookupStep at 1.
    destruct (pathNodeRight g p) as [cr|] eqn:Hcr; [|discriminate].
    destruct (pathNodeLeft g p) as [cl|]; [|discriminate].
    intros Hfold Hor. apply (IH _ _ Hfold). simpl.
    destruct (Nat.eqb cr node &&
              negb (bool_decide (UnbranchingPath.id loop = UnbranchingPath.id p))) eqn:Heq;
      [left; eauto|].
    destruct Hor as [Hacc|(q & Hq & Hqr & Hid)]; [left; exact Hacc|].
    apply elem_of_cons in Hq. destruct Hq as [->|Hq].
    + rewrite Hcr in Hqr. injection Hqr as ->. rewrite Nat.eqb_refl in Heq.
      simpl in Heq. apply negb_false_iff, bool_decide_eq_true in Heq. contradiction.
    + right. eauto.
Qed.

Lemma loopLookup_exit (g : RepeatGraph C) (node : node_ptr) (loop : UnbranchingPath.t C)
    (paths : list (UnbranchingPath.t C)) :
  forall acc res,
    foldM (loopLookupStep g node loop) acc paths = Some res ->
    is_Some (snd acc) \/
    (exists q, q ∈ paths /\ pathNodeLeft g q = Some node /\
               UnbranchingPath.id loop <> UnbranchingPath.id q) ->
    is_Some (snd res).
Proof.
  induction paths as [|p paths IH]; intros acc res; simpl.
  - intros [= <-] [Hacc|(q & Hq & _)]; [exact Hacc|inversion Hq].
  - unfold loopLookupStep at 1.
    destruct (pathNodeRight g p) as [cr|]; [|discriminate].
    destruct (pathNodeLeft g p) as [cl|] eqn:Hcl; [|discriminate].
    intros Hfold Hor. apply (IH _ _ Hfold). simpl.
    destruct (Nat.eqb cl node &&
              negb (bool_decide (UnbranchingPath.id loop = UnbranchingPath.id p))) eqn:Heq;
      [left; eauto|].
    destruct Hor as [Hacc|(q & Hq & Hql & Hid)]; [left; exact Hacc|].
    apply elem_of_cons in Hq. destruct Hq as [->|Hq].
    + rewrite Hcl in Hql. injection Hql as ->. rewrite Nat.eqb_refl in Heq.
      simpl in Heq. apply negb_false_iff, bool_decide_eq_true in Heq. contradiction.
    + right. eauto.
Qed.

(** What a candidate bubble went through. *)
Lemma bulgeCandidate_inv (paths : list (UnbranchingPath.t C)) (st : BulgeState C)
    (p : UnbranchingPath.t C) (c : BulgeCandidate C) :
  bulgeCandidate paths st p = Some (Some c) ->
  exists l r nl nr,
    graphNodes (bulgeGraph st) !! l = Some nl /\
    graphNodes (bulgeGraph st) !! r = Some nr /\
    bulgeDegreesOk nl nr = true /\
    bulgeLookup (bulgeGraph st) l r paths = Some (bulgeEntrance c, bulgeExit c).
Proof.
  unfold bulgeCandidate.
  destruct (isLooped (bulgeGraph st) p) as [[|]|]; try discriminate.
  destruct (pathNodeLeft (bulgeGraph st) p) as [l|]; [|discriminate].
  destruct (pathNodeRight (bulgeGraph st) p) as [r|]; [|discriminate].
  destruct (filterM _ paths) as [[|a [|b [|]]]|]; try discriminate.
  destruct (decide _); [discriminate|].
  destruct (decide _); [discriminate|].
  destruct (decide _); [discriminate|].
  destruct (graphNodes (bulgeGraph st) !! l) as [nl|] eqn:Hl; [|discriminate].
  destruct (negb _); [discriminate|].
  destruct (graphNodes (bulgeGraph st) !! r) as [nr|] eqn:Hr; [|discriminate].
  destruct (bulgeDegreesOk nl nr) eqn:Hdeg; [|discriminate]. simpl.
  destruct (bulgeLookup (bulgeGraph st) l r paths) as [[en ex]|] eqn:Hlook; [|discriminate].
  intros [= <-]. simpl. exists l, r, nl, nr. auto.
Qed.

(** What a candidate loop went through. *)
Lemma loopCandidate_inv (paths : list (UnbranchingPath.t C)) (g : RepeatGraph C)
    (loop : UnbranchingPath.t C)
    (r : option (UnbranchingPath.t C) * option (UnbranchingPath.t C)) :
  loopCandidate paths g loop = Some (Some r) ->
  exists node nd,
    graphNodes g !! node = Some nd /\
    List.length (inEdges nd) = 2%nat /\ List.length (outEdges nd) = 2%nat /\
    loopLookup g node loop paths = Some r.
Proof.
  unfold loopCandidate.
  destruct (negb _); [discriminate|].
  destruct (isLooped g loop) as [[|]|]; try discriminate.
  destruct (frontSelfComplement g loop) as [[|]|]; try discriminate.
  destruct (pathNodeLeft g loop) as [node|]; [|discriminate].
  destruct (graphNodes g !! node) as [nd|] eqn:Hn; [|discriminate].
  destruct (Nat.eqb (List.length (inEdges nd)) 2) eqn:Hi; [|discriminate].
  destruct (Nat.eqb (List.length (outEdges nd)) 2) eqn:Ho; [|discriminate]. simpl.
  destruct (loopLookup g node loop paths) as [r'|] eqn:Hlook; [|discriminate].
  intros [= <-]. exists node, nd.
  apply Nat.eqb_eq in Hi, Ho. auto.
Qed.

(** Two paths that end in different edges cannot both carry the id of
    [loop]. *)
Lemma one_differs (paths : list (UnbranchingPath.t C)) (g : RepeatGraph C)
    (loop q1 q2 : UnbranchingPath.t C) :
  unbranchingCover g paths -> q1 ∈ paths -> q2 ∈ paths ->
  UnbranchingPath.path q1 <> UnbranchingPath.path q2 ->
  UnbranchingPath.id loop <> UnbranchingPath.id q1 \/
  UnbranchingPath.id loop <> UnbranchingPath.id q2.
Proof.
  intros Hcover H1 H2 Hne.
  destruct (unbranchingCoverb_sound _ _ Hcover) as (_ & _ & Hids).
  destruct (decide (UnbranchingPath.id loop = UnbranchingPath.id q1)) as [E1|]; [|auto].
  destruct (decide (UnbranchingPath.id loop = UnbranchingPath.id q2)) as [E2|]; [|auto].
  exfalso. apply Hne. apply Hids; congruence.
Qed.

Lemma pathValidb_ends (g : RepeatGraph C) (p : UnbranchingPath.t C) :
  pathValidb g p = true -> is_Some (pathNodeLeft g p) /\ is_Some (pathNodeRight g p).
Proof.
  unfold pathValidb, pathNodeLeft, pathNodeRight, pathFront, pathBack.
  destruct (UnbranchingPath.path p) as [|e es] eqn:Hp; [discriminate|].
  rewrite forallb_forall. intros Hall. split.
  - simpl. specialize (Hall e (or_introl eq_refl)).
    destruct (graphEdges g !! e); [eauto|discriminate].
  - destruct (last (e :: es)) as [x|] eqn:Hlast.
    + assert (Hx : In x (e :: es)).
      { apply list_elem_of_In. apply last_Some_elem_of. exact Hlast. }
      specialize (Hall x Hx).
      destruct (graphEdges g !! x); [eauto|discriminate].
    + apply last_None in Hlast. discriminate.
Qed.

Lemma foldM_total {A S : Type} (f : S -> A -> option S) (l : list A) :
  (forall s x, x ∈ l -> is_Some (f s x)) -> forall s, is_Some (foldM f s l).
Proof.
  induction l as [|x l IH]; intros Hf s; simpl; [eauto|].
  destruct (Hf s x (list_elem_of_here _ _)) as [s' ->].
  apply IH. intros s0 y Hy. apply Hf. apply list_elem_of_further. exact Hy.
Qed.

Lemma bulgeLookup_total (g : RepeatGraph C) (l r : node_ptr)
    (paths : list (UnbranchingPath.t C)) :
  (forall p, p ∈ paths -> pathValidb g p = true) ->
  is_Some (bulgeLookup g l r paths).
Proof.
  intros Hvalid. apply foldM_total. intros acc p Hp.
  destruct (pathValidb_ends _ _ (Hvalid p Hp)) as [[cl Hl] [cr Hr]].
  unfold bulgeLookupStep. rewrite Hl, Hr. eauto.
Qed.

Lemma loopLookup_total (g : RepeatGraph C) (node : node_ptr) (loop : UnbranchingPath.t C)
    (paths : list (UnbranchingPath.t C)) :
  (forall p, p ∈ paths -> pathValidb g p = true) ->
  is_Some (loopLookup g node loop paths).
Proof.
  intros Hvalid. apply foldM_total. intros acc p Hp.
  destruct (pathValidb_ends _ _ (Hvalid p Hp)) as [[cl Hl] [cr Hr]].
  unfold loopLookupStep. rewrite Hl, Hr. eauto.
Qed.

(** C10.  On a graph whose adjacency lists are coherent, with a path list
    that holds a maximal unbranching path through every edge: for a left
    node with one incoming and two outgoing edges and a right node with two
    incoming and one outgoing edge, the lookup of the bulge pass returns an
    entrance and an exit path, so a candidate that passed the degree test
    has both and the coverage and length tests dereference no null pointer;
    and for a node with two incoming and two outgoing edges, the lookup of
    the loop pass returns an entrance and an exit path, so a loop candidate
    that passed its degree test has both. *)
Theorem lookups_find_entrance_and_exit (MAX_BUBBLE_LEN : Z)
    (paths : list (UnbranchingPath.t C)) (g : RepeatGraph C) :
  adjacencyCoherent g ->
  unbranchingCover g paths ->
  (forall l r nl nr,
     graphNodes g !! l = Some nl -> graphNodes g !! r = Some nr ->
     bulgeDegreesOk nl nr = true ->
     exists en ex, bulgeLookup g l r paths = Some (Some en, Some ex)) /\
  (forall st p c,
     bulgeGraph st = g -> bulgeCandidate paths st p = Some (Some c) ->
     is_Some (bulgeEntrance c) /\ is_Some (bulgeExit c) /\
     is_Some (bulgeTests MAX_BUBBLE_LEN c)) /\
  (forall node nd loop,
     graphNodes g !! node = Some nd ->
     List.length (inEdges nd) = 2%nat -> List.length (outEdges nd) = 2%nat ->
     exists en ex, loopLookup g node loop paths = Some (Some en, Some ex)) /\
  (forall loop r,
     loopCandidate paths g loop = Some (Some r) ->
     is_Some (fst r) /\ is_Some (snd r)).
Proof.
  intros Hco Hcover.
  assert (Hvalid : forall p, p ∈ paths -> pathValidb g p = true).
  { intros p Hp. destruct (unbranchingCoverb_sound _ _ Hcover) as (_ & Hch & _).
    exact (proj1 (Hch p Hp)). }
  assert (Hbulge : forall l r nl nr,
     graphNodes g !! l = Some nl -> graphNodes g !! r = Some nr ->
     bulgeDegreesOk nl nr = true ->
     exists en ex, bulgeLookup g l r paths = Some (Some en, Some ex)).
  { intros l r nl nr Hl Hr Hdeg.
    unfold bulgeDegreesOk in Hdeg.
    apply andb_prop in Hdeg. destruct Hdeg as [Hdeg Hri].
    apply andb_prop in Hdeg. destruct Hdeg as [Hdeg Hro].
    apply andb_prop in Hdeg. destruct Hdeg as [Hli Hlo].
    apply Nat.eqb_eq in Hli, Hlo, Hri, Hro.
    assert (Hlb : nonBranching g l = false).
    { unfold nonBranching. rewrite Hl, Hli, Hlo. reflexivity. }
    assert (Hrb : nonBranching g r = false).
    { unfold nonBranching. rewrite Hr, Hri, Hro. reflexivity. }
    destruct (bulgeLookup_total g l r paths Hvalid) as [[en ex] Hlook].
    assert (Hen : is_Some en).
    { destruct (inEdges nl) as [|x [|]] eqn:Hin; try discriminate.
      destruct (path_into_branching _ paths l nl x Hco Hcover Hl Hlb) as (q & Hq & Hqr & _).
      { rewrite Hin. apply list_elem_of_here. }
      apply (bulgeLookup_entrance _ _ _ _ _ _ Hlook). right. eauto. }
    assert (Hex : is_Some ex).
    { destruct (outEdges nr) as [|x [|]] eqn:Hout; try discriminate.
      destruct (path_out_of_branching _ paths r nr x Hco Hcover Hr Hrb) as (q & Hq & Hql & _).
      { rewrite Hout. apply list_elem_of_here. }
      apply (bulgeLookup_exit _ _ _ _ _ _ Hlook). right. eauto. }
    destruct Hen as [en' ->]. destruct Hex as [ex' ->]. eauto. }
  assert (Hloop : forall node nd loop,
     graphNodes g !! node = Some nd ->
     List.length (inEdges nd) = 2%nat -> List.length (outEdges nd) = 2%nat ->
     exists en ex, loopLookup g node loop paths = Some (Some en, Some ex)).
  { intros node nd loop Hn Hi Ho.
    assert (Hb : nonBranching g node = false).
    { unfold nonBranching. rewrite Hn, Hi. reflexivity. }
    destruct (listsCoherentb_sound _ _ _ (proj1 Hco) Hn) as (_ & _ & Hndi & Hndo).
    destruct (loopLookup_total g node loop paths Hvalid) as [[en ex] Hlook].
    assert (Hen : is_Some en).
    { destruct (inEdges nd) as [|x [|y [|]]] eqn:Hin; try discriminate.
      destruct (path_into_branching _ paths node nd x Hco Hcover Hn Hb) as (q1 & Hq1 & Hr1 & Hl1).
      { rewrite Hin. apply list_elem_of_here. }
      destruct (path_into_branching _ paths node nd y Hco Hcover Hn Hb) as (q2 & Hq2 & Hr2 & Hl2).
      { rewrite Hin. apply list_elem_of_further, list_elem_of_here. }
      assert (Hne : UnbranchingPath.path q1 <> UnbranchingPath.path q2).
      { intros Heq. rewrite Heq, Hl2 in Hl1. injection Hl1 as ->.
        apply NoDup_cons in Hndi. destruct Hndi as [Hnin _].
        apply Hnin. apply list_elem_of_here. }
      apply (loopLookup_entrance _ _ _ _ _ _ Hlook). right.
      destruct (one_differs _ _ loop _ _ Hcover Hq1 Hq2 Hne); eauto. }
    assert (Hex : is_Some ex).
    { destruct (outEdges nd) as [|x [|y [|]]] eqn:Hout; try discriminate.
      destruct (path_out_of_branching _ paths node nd x Hco Hcover Hn Hb) as (q1 & Hq1 & Hr1 & Hl1).
      { rewrite Hout. apply list_elem_of_here. }
      destruct (path_out_of_branching _ paths node nd y Hco Hcover Hn Hb) as (q2 & Hq2 & Hr2 & Hl2).
      { rewrite Hout. apply list_elem_of_further, list_elem_of_here. }
      assert (Hne : UnbranchingPath.path q1 <> UnbranchingPath.path q2).
      { intros Heq. rewrite Heq, Hl2 in Hl1. injection Hl1 as ->.
        apply NoDup_cons in Hndo. destruct Hndo as [Hnin _].
        apply Hnin. apply list_elem_of_here. }
      apply (loopLookup_exit _ _ _ _ _ _ Hlook). right.
      destruct (one_differs _ _ loop _ _ Hcover Hq1 Hq2 Hne); eauto. }
    destruct Hen as [en' ->]. destruct Hex as [ex' ->]. eauto. }
  split; [exact Hbulge|]. split; [|split; [exact Hloop|]].
  - intros st p c <- Hc.
    destruct (bulgeCandidate_inv _ _ _ _ Hc) as (l & r & nl & nr & Hl & Hr & Hdeg & Hlook).
    destruct (Hbulge l r nl nr Hl Hr Hdeg) as (en & ex & Hfound).
    rewrite Hfound in Hlook. injection Hlook as Hen Hex.
    rewrite <- Hen, <- Hex. split; [eauto|]. split; [eauto|].
    unfold bulgeTests. rewrite <- Hen, <- Hex.
    destruct (_ <? _); [eauto|].
    destruct (bulgeCoverageRejects c en ex); [eauto|].
    destruct (bulgeLengthRejects c en ex); eauto.
  - intros loop r Hc.
    destruct (loopCandidate_inv _ _ _ _ Hc) as (node & nd & Hn & Hi & Ho & Hlook).
    destruct (Hloop node nd loop Hn Hi Ho) as (en & ex & Hfound).
    rewrite Hfound in Hlook. injection Hlook as <-. simpl. eauto.
Qed.

End LookupsFind.

Lemma lookups_find_entrance_and_exit_witness :
  (exists en ex,
     bulgeLookup simpleBulge 1 2 (getUnbranchingPaths simpleBulge) = Some (Some en, Some ex)) /\
  (exists en ex,
     loopLookup (loopGraphWith (15 # 1)) 1 (loopL (15 # 1))
                (getUnbranchingPaths (loopGraphWith (15 # 1))) = Some (Some en, Some ex)).
Proof.
  split.
  - exact (proj1 (lookups_find_entrance_and_exit 50000
                    (getUnbranchingPaths simpleBulge) simpleBulge
                    (conj eq_refl eq_refl) eq_refl)
                 1%nat 2%nat (mkNode [0%nat] [2%nat; 4%nat]) (mkNode [2%nat; 4%nat] [6%nat])
                 eq_refl eq_refl eq_refl).
  - exact (proj1 (proj2 (proj2 (lookups_find_entrance_and_exit 50000
                    (getUnbranchingPaths (loopGraphWith (15 # 1))) (loopGraphWith (15 # 1))
                    (conj eq_refl eq_refl) eq_refl)))
                 1%nat (mkNode [0%nat; 2%nat] [2%nat; 4%nat]) (loopL (15 # 1))
                 eq_refl eq_refl eq_refl).
Defined.

(** ** The complex finder: trimming *)

Lemma scanBounds_fold (startE endE : edge_ptr) (aln : list EdgeAlignment) :
  forall gs ge i,
    fold_left
      (fun '(gs, ge, i) x =>
         (if Nat.eqb (edge x) startE then i else gs,
          if Nat.eqb (edge x) endE then i else ge,
          S i))
      aln (gs, ge, i)
    = (match lastOccurrence startE aln with Some k => (i + k)%nat | None => gs end,
       match lastOccurrence endE aln with Some k => (i + k)%nat | None => ge end,
       (i + List.length aln)%nat).
Proof.
  induction aln as [|x rest IH]; intros gs ge i; simpl.
  - rewrite Nat.add_0_r. reflexivity.
  - rewrite IH.
    destruct (lastOccurrence startE rest) as [k|];
      destruct (lastOccurrence endE rest) as [k'|];
      destruct (Nat.eqb (edge x) startE); destruct (Nat.eqb (edge x) endE);
      rewrite !pair_equal_spec; repeat split; lia.
Qed.

Lemma scanBounds_last (startE endE : edge_ptr) (aln : list EdgeAlignment) :
  scanBounds startE endE aln =
  (default 0%nat (lastOccurrence startE aln), default 0%nat (lastOccurrence endE aln)).
Proof.
  unfold scanBounds. rewrite scanBounds_fold. simpl.
  destruct (lastOccurrence startE aln); destruct (lastOccurrence endE aln); reflexivity.
Qed.

Lemma occurrences_cons (e : edge_ptr) (x : EdgeAlignment) (rest : list EdgeAlignment) :
  occurrences e (x :: rest) =
  if Nat.eqb (edge x) e then S (occurrences e rest) else occurrences e rest.
Proof.
  unfold occurrences. rewrite filter_cons.
  destruct (decide (edge x = e)) as [Heq|Hne].
  - apply Nat.eqb_eq in Heq. rewrite Heq. reflexivity.
  - apply Nat.eqb_neq in Hne. rewrite Hne. reflexivity.
Qed.

Lemma occurrences_none (e : edge_ptr) (aln : list EdgeAlignment) :
  occurrences e aln = 0%nat ->
  lastOccurrence e aln = None /\ firstOccurrence e aln = None.
Proof.
  induction aln as [|x rest IH]; [auto|].
  rewrite occurrences_cons. simpl.
  destruct (Nat.eqb (edge x) e); [discriminate|].
  intros H0. destruct (IH H0) as [-> ->]. auto.
Qed.






(** Whenever the diagnostic pass returns, it returns 0 and the graph it was
    given. *)
Lemma findComplexHaplotypes_returns_zero {C : Type} `{Coverage C}
    (alignments : list (list EdgeAlignment)) (paths : list (UnbranchingPath.t C))
    (g g' : RepeatGraph C) (n : Z) (log : list BubbleReport) :
  findComplexHaplotypes alignments paths g = Some (g', n, log) -> g' = g /\ n = 0.
Proof.
  unfold findComplexHaplotypes.
  destruct (findLoopedEdges g paths); [|discriminate].
  destruct (foldM _ _ paths); [|discriminate].
  intros [= <- <- _]. auto.
Qed.

(** C9 fails on [circularGraph] with [circularAlignments]: the start path
    [e y s] ends in [s = 0]; the surviving groups are [s a e y s] and
    [s b e]; the bubble runs from index 0 ([s]) to index 2 ([e = 6]) of the
    first; scanning the first group leaves [groupStart = 4] (the second
    [s]) and [groupEnd = 2], so the vector is built from the inverted range
    [begin + 4, begin + 3) and the pass does not return. *)
Theorem findComplexHaplotypes_inverted_range :
  let outPaths := sortBySpan (extractOutPaths 0 (default [] (buildAlnIndex circularAlignments !! 0%nat))) in
  let groups := dropWeakGroups (minScore (List.length outPaths)) (groupPaths outPaths) in
  let g0 := mkPws (alnOf [0; 2; 6; 8; 0]%nat 100) 2 in
  let g1 := mkPws (alnOf [0; 4; 6]%nat 80) 2 in
  let conv := convergence ∅ (findRepeats groups) g0 [g1] in
  adjacencyCoherent circularGraph /\
  unbranchingCover circularGraph (getUnbranchingPaths circularGraph) /\
  groups = [g0; g1] /\
  findBubbleStart 3 conv (pwsPath g0) [g1] 0 = Some 0%nat /\
  findBubbleEnd conv (drop 1 (pwsPath g0)) 1 = Some 2%nat /\
  scanBounds 0 6 (pwsPath g0) = (4%nat, 2%nat) /\
  trimGroup 0 6 g0 = None /\
  findComplexHaplotypes circularAlignments (getUnbranchingPaths circularGraph) circularGraph
  = None.
Proof. vm_compute. repeat split; reflexivity. Qed.

(** ** Collapse mode run twice *)

(** C7 fails on [chainedBulges]: the first call separates [A] and returns
    1; in the graph it leaves, [E], [B] and [M] form one unbranching path of
    length 1600, which is long enough an entrance for the bubble [C | D]
    that the first call rejected, so the second call separates [C], returns
    1 and changes the graph. *)
Lemma collapse_twice_counterexample :
  match collapseBulges chainedBulges with
  | Some (g1, n1) =>
      n1 = 1 /\
      adjacencyCoherent g1 /\ unbranchingCover g1 (getUnbranchingPaths g1) /\
      match collapseBulges g1 with
      | Some (g2, n2) => n2 = 1 /\ g2 <> g1
      | None => False
      end
  | None => False
  end.
Proof. vm_compute. repeat split; try reflexivity. discriminate. Qed.

Section DetachedBranch.
Context {C : Type} `{Coverage C}.

Lemma detachedLeft_iff (g : RepeatGraph C) (e : edge_ptr) :
  detachedLeft g e <-> exists n, edgeLeft g e n /\ nodeInEmpty g n.
Proof.
  unfold detachedLeft, leftInEdges, edgeLeft, nodeInEmpty. split.
  - destruct (graphEdges g !! e) as [ed|]; [|discriminate].
    destruct (graphNodes g !! nodeLeft ed) as [nd|] eqn:Hn; [|discriminate].
    intros [= Hin]. exists (nodeLeft ed). split; eauto.
  - intros (n & (ed & -> & <-) & (nd & -> & ->)). reflexivity.
Qed.

Lemma updateNode_nodeInEmpty (f : GraphNode -> GraphNode) (g g' : RepeatGraph C)
    (n' n : node_ptr) :
  updateNode f g n' = Some g' ->
  n <> n' \/ (forall nd, inEdges nd = [] -> inEdges (f nd) = []) ->
  nodeInEmpty g n -> nodeInEmpty g' n.
Proof.
  unfold updateNode. destruct (graphNodes g !! n') as [nd'|] eqn:Hn'; [|discriminate].
  intros [= <-] Hor (nd & Hn & Hin). unfold nodeInEmpty. simpl.
  destruct (decide (n = n')) as [->|Hne].
  - rewrite list_lookup_insert_eq by (eapply lookup_lt_Some; eauto).
    destruct Hor as [Hne|Hf]; [contradiction|].
    rewrite Hn in Hn'. injection Hn' as <-. eauto.
  - rewrite list_lookup_insert_ne by auto. eauto.
Qed.

Lemma updateNode_edgeLeft (f : GraphNode -> GraphNode) (g g' : RepeatGraph C)
    (n' : node_ptr) (e : edge_ptr) (n : node_ptr) :
  updateNode f g n' = Some g' -> edgeLeft g e n -> edgeLeft g' e n.
Proof.
  unfold updateNode. destruct (graphNodes g !! n'); [|discriminate].
  intros [= <-] He. exact He.
Qed.

Lemma updateEdge_nodeInEmpty (f : GraphEdge C -> GraphEdge C) (g g' : RepeatGraph C)
    (e' : edge_ptr) (n : node_ptr) :
  updateEdge f g e' = Some g' -> nodeInEmpty g n -> nodeInEmpty g' n.
Proof.
  unfold updateEdge. destruct (graphEdges g !! e'); [|discriminate].
  intros [= <-] Hn. exact Hn.
Qed.

Lemma updateEdge_edgeLeft (f : GraphEdge C -> GraphEdge C) (g g' : RepeatGraph C)
    (e' e : edge_ptr) (n : node_ptr) :
  updateEdge f g e' = Some g' ->
  e <> e' \/ (forall ed, nodeLeft (f ed) = nodeLeft ed) ->
  edgeLeft g e n -> edgeLeft g' e n.
Proof.
  unfold updateEdge. destruct (graphEdges g !! e') as [ed'|] eqn:He'; [|discriminate].
  intros [= <-] Hor (ed & He & Hl). unfold edgeLeft. simpl.
  destruct (decide (e = e')) as [->|Hne].
  - rewrite list_lookup_insert_eq by (eapply lookup_lt_Some; eauto).
    destruct Hor as [Hne|Hf]; [contradiction|].
    rewrite He in He'. injection He' as <-. exists (f ed). rewrite Hf. auto.
  - rewrite list_lookup_insert_ne by auto. eauto.
Qed.

Lemma updateEdge_setNodeLeft (g g' : RepeatGraph C) (e : edge_ptr) (n : node_ptr) :
  updateEdge (setNodeLeft n) g e = Some g' -> edgeLeft g' e n.
Proof.
  unfold updateEdge. destruct (graphEdges g !! e) as [ed|] eqn:He; [|discriminate].
  intros [= <-]. unfold edgeLeft. simpl.
  rewrite list_lookup_insert_eq by (eapply lookup_lt_Some; eauto).
  exists (setNodeLeft n ed). auto.
Qed.

Lemma addNode_nodeInEmpty (g : RepeatGraph C) (n : node_ptr) :
  nodeInEmpty g n -> nodeInEmpty (fst (addNode g)) n.
Proof.
  intros (nd & Hn & Hin). exists nd. split; [|exact Hin]. simpl.
  apply lookup_app_l_Some. exact Hn.
Qed.

Lemma addNode_fresh (g : RepeatGraph C) :
  nodeInEmpty (fst (addNode g)) (snd (addNode g)).
Proof.
  exists (mkNode [] []). split; [|reflexivity]. simpl.
  rewrite lookup_app_r by lia. rewrite Nat.sub_diag. reflexivity.
Qed.

Lemma nodeInEmpty_lt (g : RepeatGraph C) (n : node_ptr) :
  nodeInEmpty g n -> (n < List.length (graphNodes g))%nat.
Proof. intros (nd & Hn & _). eapply lookup_lt_Some; eauto. Qed.

Lemma vecRemove_nil (x : edge_ptr) : vecRemove [] x = [].
Proof. reflexivity. Qed.

Lemma removeOutEdge_in (x : edge_ptr) (nd : GraphNode) :
  inEdges nd = [] -> inEdges (removeOutEdge x nd) = [].
Proof. intros Hin. exact Hin. Qed.

Lemma removeInEdge_in (x : edge_ptr) (nd : GraphNode) :
  inEdges nd = [] -> inEdges (removeInEdge x nd) = [].
Proof. unfold removeInEdge. simpl. intros ->. reflexivity. Qed.

Lemma pushOutEdge_in (x : edge_ptr) (nd : GraphNode) :
  inEdges nd = [] -> inEdges (pushOutEdge x nd) = [].
Proof. intros Hin. exact Hin. Qed.

Lemma setNodeRight_left (n : node_ptr) (ed : GraphEdge C) :
  nodeLeft (setNodeRight n ed) = nodeLeft ed.
Proof. reflexivity. Qed.

Lemma separatePath_detachedLeft (g g' : RepeatGraph C) (p : UnbranchingPath.t C)
    (f e : edge_ptr) :
  separatePath g p = Some g' -> pathFront p = Some f ->
  e = f \/ detachedLeft g e -> detachedLeft g' e.
Proof.
  unfold separatePath. intros Hsep Hf. rewrite Hf in Hsep.
  destruct (addNode g) as [g1 newLeft] eqn:Ha1.
  destruct (addNode g1) as [g2 newRight] eqn:Ha2.
  destruct (pathBack p) as [back|]; [|discriminate].
  destruct (pathNodeLeft g2 p) as [l|]; [|discriminate].
  destruct (updateNode (removeOutEdge f) g2 l) as [g3|] eqn:H3; [|discriminate].
  destruct (pathNodeRight g3 p) as [r|]; [|discriminate].
  destruct (updateNode (removeInEdge back) g3 r) as [g4|] eqn:H4; [|discriminate].
  destruct (updateEdge (setNodeLeft newLeft) g4 f) as [g5|] eqn:H5; [|discriminate].
  destruct (updateEdge (setNodeRight newRight) g5 back) as [g6|] eqn:H6; [|discriminate].
  destruct (updateNode (pushOutEdge f) g6 newLeft) as [g7|] eqn:H7; [|discriminate].
  rename Hsep into H8.
  assert (Hg1 : g1 = fst (addNode g)) by (rewrite Ha1; reflexivity).
  assert (HnL : newLeft = snd (addNode g)) by (rewrite Ha1; reflexivity).
  assert (Hg2 : g2 = fst (addNode g1)) by (rewrite Ha2; reflexivity).
  assert (HnR : newRight = snd (addNode g1)) by (rewrite Ha2; reflexivity).
  assert (HlenL : newLeft = List.length (graphNodes g)) by (rewrite HnL; reflexivity).
  assert (HlenR : newRight = S (List.length (graphNodes g))).
  { rewrite HnR, Hg1. simpl. rewrite length_app. simpl. lia. }
  (* a node with no incoming edge, other than newRight, keeps none *)
  assert (Hkeep : forall n, n <> newRight -> nodeInEmpty g2 n -> nodeInEmpty g' n).
  { intros n Hne Hn.
    eapply updateNode_nodeInEmpty; [exact H8|left; exact Hne|].
    eapply updateNode_nodeInEmpty; [exact H7|right; apply pushOutEdge_in|].
    eapply updateEdge_nodeInEmpty; [exact H6|].
    eapply updateEdge_nodeInEmpty; [exact H5|].
    eapply updateNode_nodeInEmpty; [exact H4|right; apply removeInEdge_in|].
    eapply updateNode_nodeInEmpty; [exact H3|right; apply removeOutEdge_in|].
    exact Hn. }
  assert (HnewLeft : nodeInEmpty g' newLeft).
  { apply Hkeep; [lia|]. rewrite Hg2. apply addNode_nodeInEmpty.
    rewrite Hg1, HnL. apply addNode_fresh. }
  (* the front edge now leaves newLeft *)
  assert (Hfront : edgeLeft g' f newLeft).
  { eapply updateNode_edgeLeft; [exact H8|].
    eapply updateNode_edgeLeft; [exact H7|].
    eapply updateEdge_edgeLeft; [exact H6|right; apply setNodeRight_left|].
    eapply updateEdge_setNodeLeft; exact H5. }
  intros [->|Hdet].
  - apply detachedLeft_iff. eauto.
  - destruct (decide (e = f)) as [->|Hne]; [apply detachedLeft_iff; eauto|].
    apply detachedLeft_iff in Hdet. destruct Hdet as (m & Hem & Hm).
    apply detachedLeft_iff. exists m. split.
    + eapply updateNode_edgeLeft; [exact H8|].
      eapply updateNode_edgeLeft; [exact H7|].
      eapply updateEdge_edgeLeft; [exact H6|right; apply setNodeRight_left|].
      eapply updateEdge_edgeLeft; [exact H5|left; exact Hne|].
      eapply updateNode_edgeLeft; [exact H4|].
      eapply updateNode_edgeLeft; [exact H3|].
      rewrite Hg2, Hg1. exact Hem.
    + apply Hkeep.
      * apply nodeInEmpty_lt in Hm. lia.
      * rewrite Hg2. apply addNode_nodeInEmpty. rewrite Hg1. apply addNode_nodeInEmpty.
        exact Hm.
Qed.

Lemma separatePath_front (g g' : RepeatGraph C) (p : UnbranchingPath.t C) :
  separatePath g p = Some g' -> is_Some (pathFront p).
Proof.
  unfold separatePath.
  destruct (addNode g) as [g1 newLeft]. destruct (addNode g1) as [g2 newRight].
  destruct (pathFront p); [eauto|discriminate].
Qed.

(** After the separation loop every staged path of the list starts in a
    node that nothing enters, and so does every edge that did before. *)
Lemma separate_all_detached (staged : gset FastaRecord.Id)
    (paths : list (UnbranchingPath.t C)) :
  forall g g',
    foldM (separateIter staged) g paths = Some g' ->
    (forall e, detachedLeft g e -> detachedLeft g' e) /\
    (forall p, p ∈ paths -> UnbranchingPath.id p ∈ staged ->
       exists f, pathFront p = Some f /\ detachedLeft g' f).
Proof.
  induction paths as [|p paths IH]; intros g g'; simpl.
  - intros [= <-]. split; [auto|]. intros p Hp. inversion Hp.
  - destruct (separateIter staged g p) as [g1|] eqn:Hstep; [|discriminate].
    intros Hfold. destruct (IH _ _ Hfold) as [Hkeep Hall].
    unfold separateIter in Hstep.
    split.
    + intros e He. apply Hkeep.
      destruct (decide (UnbranchingPath.id p ∈ staged)); [|congruence].
      destruct (separatePath_front _ _ _ Hstep) as [f Hf].
      eapply separatePath_detachedLeft; eauto.
    + intros q Hq Hid. apply elem_of_cons in Hq. destruct Hq as [->|Hq]; [|auto].
      destruct (decide (UnbranchingPath.id p ∈ staged)); [|contradiction].
      destruct (separatePath_front _ _ _ Hstep) as [f Hf].
      exists f. split; [exact Hf|]. apply Hkeep.
      eapply separatePath_detachedLeft; eauto.
Qed.

Lemma sameTopology_refl (g : RepeatGraph C) : sameTopology g g.
Proof. split; auto. Qed.

Lemma sameTopology_trans (g1 g2 g3 : RepeatGraph C) :
  sameTopology g1 g2 -> sameTopology g2 g3 -> sameTopology g1 g3.
Proof. intros [Hn1 He1] [Hn2 He2]. split; [congruence|auto]. Qed.

Lemma sameTopology_detached (g g' : RepeatGraph C) (e : edge_ptr) :
  sameTopology g g' -> detachedLeft g e -> detachedLeft g' e.
Proof.
  intros [Hn He] Hd. apply detachedLeft_iff in Hd. destruct Hd as (n & Hen & Hnn).
  apply detachedLeft_iff. exists n. split; [auto|].
  unfold nodeInEmpty in *. rewrite Hn. exact Hnn.
Qed.

Lemma updateEdge_sameTopology (f : GraphEdge C -> GraphEdge C) (g g' : RepeatGraph C)
    (e : edge_ptr) :
  (forall ed, nodeLeft (f ed) = nodeLeft ed) ->
  updateEdge f g e = Some g' -> sameTopology g g'.
Proof.
  intros Hf Hu. split.
  - unfold updateEdge in Hu. destruct (graphEdges g !! e); [|discriminate].
    injection Hu as <-. reflexivity.
  - intros x n. eapply updateEdge_edgeLeft; eauto.
Qed.

Lemma updateBothStrands_sameTopology (f : GraphEdge C -> GraphEdge C) (g g' : RepeatGraph C)
    (e : edge_ptr) :
  (forall ed, nodeLeft (f ed) = nodeLeft ed) ->
  updateBothStrands f g e = Some g' -> sameTopology g g'.
Proof.
  intros Hf. unfold updateBothStrands.
  destruct (updateEdge f g e) as [g1|] eqn:H1; [|discriminate].
  destruct (complementEdge g1 e) as [c|]; [|discriminate].
  intros H2. eapply sameTopology_trans; eapply updateEdge_sameTopology; eauto.
Qed.

Lemma markPath_sameTopology (b : bool) (p : UnbranchingPath.t C) (g g' : RepeatGraph C) :
  markPath b g p = Some g' -> sameTopology g g'.
Proof.
  unfold markPath. apply (foldM_invariant (sameTopology g)); [|apply sameTopology_refl].
  intros s x s' Hs Hm. eapply sameTopology_trans; [exact Hs|].
  eapply updateBothStrands_sameTopology; [|exact Hm]. intros ed. destruct ed. reflexivity.
Qed.

Lemma foldCoverageEdge_sameTopology (c : C) (g g' : RepeatGraph C) (e : edge_ptr) :
  foldCoverageEdge c g e = Some g' -> sameTopology g g'.
Proof.
  unfold foldCoverageEdge, markEdge.
  destruct (updateBothStrands (addMeanCoverage c) g e) as [g1|] eqn:H1; [|discriminate].
  intros H2. eapply sameTopology_trans.
  - eapply updateBothStrands_sameTopology; [|exact H1]. intros ed. destruct ed. reflexivity.
  - eapply updateBothStrands_sameTopology; [|exact H2]. intros ed. destruct ed. reflexivity.
Qed.

Lemma bulgeIter_sameTopology (MAX_BUBBLE_LEN : Z) (removeAlternatives : bool)
    (paths : list (UnbranchingPath.t C)) (st st' : BulgeState C) (p : UnbranchingPath.t C) :
  bulgeIter MAX_BUBBLE_LEN removeAlternatives paths st p = Some st' ->
  sameTopology (bulgeGraph st) (bulgeGraph st').
Proof.
  unfold bulgeIter.
  destruct (bulgeCandidate paths st p) as [[c|]|]; [| |discriminate].
  - destruct (bulgeTests MAX_BUBBLE_LEN c) as [[|]|]; [| |discriminate].
    + unfold bulgeApply. destruct (bulgeOrder c) as [a b].
      destruct (bulgeNewlyMasked _ a b); [|discriminate].
      destruct (markPath true (bulgeGraph st) a) as [g1|] eqn:H1; [|discriminate].
      destruct (markPath true g1 b) as [g2|] eqn:H2; [|discriminate].
      assert (H12 : sameTopology (bulgeGraph st) g2).
      { eapply sameTopology_trans; eauto using markPath_sameTopology. }
      destruct removeAlternatives.
      * destruct (foldM _ g2 _) as [g3|] eqn:H3; [|discriminate].
        intros [= <-]. simpl.
        refine (foldM_invariant (sameTopology (bulgeGraph st)) _ _ _ _ _ H12 H3).
        intros s x s' Hs Hx. eapply sameTopology_trans; eauto using foldCoverageEdge_sameTopology.
      * intros [= <-]. exact H12.
    + intros [= <-]. apply sameTopology_refl.
  - intros [= <-]. apply sameTopology_refl.
Qed.

(** A path whose first edge leaves a node that nothing enters is no
    candidate: the degree test asks for exactly one incoming edge. *)
Lemma bulgeCandidate_detached (paths : list (UnbranchingPath.t C)) (st : BulgeState C)
    (q : UnbranchingPath.t C) (f : edge_ptr) (c : BulgeCandidate C) :
  detachedLeft (bulgeGraph st) f -> pathFront q = Some f ->
  bulgeCandidate paths st q <> Some (Some c).
Proof.
  intros Hd Hf. unfold detachedLeft, leftInEdges in Hd.
  unfold bulgeCandidate.
  destruct (isLooped (bulgeGraph st) q) as [[|]|]; try discriminate.
  unfold pathNodeLeft. rewrite Hf.
  destruct (graphEdges (bulgeGraph st) !! f) as [ed|]; [|discriminate].
  destruct (pathNodeRight (bulgeGraph st) q) as [r|]; [|discriminate].
  destruct (filterM _ paths) as [[|a [|b [|]]]|]; try discriminate.
  destruct (decide _); [discriminate|].
  destruct (decide _); [discriminate|].
  destruct (decide _); [discriminate|].
  destruct (graphNodes (bulgeGraph st) !! nodeLeft ed) as [nl|]; [|discriminate].
  injection Hd as ->. simpl. discriminate.
Qed.

End DetachedBranch.

Section CollapseTwice.
Context {C : Type} `{Coverage C}.

Lemma rc_neq (i : FastaRecord.Id) : FastaRecord.rc i <> i.
Proof. destruct i as [n [|]]; discriminate. Qed.

Lemma staged_pair_size (s : gset FastaRecord.Id) (i : FastaRecord.Id) :
  i ∈ s -> FastaRecord.rc i ∈ s -> (2 <= size s)%nat.
Proof.
  intros Hi Hr.
  assert (Hsub : ({[i]} ∪ {[FastaRecord.rc i]} : gset FastaRecord.Id) ⊆ s).
  { apply union_subseteq. split; apply singleton_subseteq_l; assumption. }
  apply subseteq_size in Hsub.
  rewrite size_union in Hsub.
  - rewrite !size_singleton in Hsub. exact Hsub.
  - apply disjoint_singleton_l. rewrite elem_of_singleton.
    intros Heq. exact (rc_neq i (eq_sym Heq)).
Qed.

(** Either nothing was accepted so far, or both strands of some id are
    staged. *)
Lemma bulgeIter_nothing_or_pair (MAX_BUBBLE_LEN : Z) (paths : list (UnbranchingPath.t C))
    (g : RepeatGraph C) (st st' : BulgeState C) (p : UnbranchingPath.t C) :
  (toSeparate st = ∅ /\ bulgeGraph st = g) \/
  (exists i, i ∈ toSeparate st /\ FastaRecord.rc i ∈ toSeparate st) ->
  bulgeIter MAX_BUBBLE_LEN true paths st p = Some st' ->
  (toSeparate st' = ∅ /\ bulgeGraph st' = g) \/
  (exists i, i ∈ toSeparate st' /\ FastaRecord.rc i ∈ toSeparate st').
Proof.
  intros Hinv. unfold bulgeIter.
  destruct (bulgeCandidate paths st p) as [[c|]|]; [| |discriminate].
  - destruct (bulgeTests MAX_BUBBLE_LEN c) as [[|]|]; [| |discriminate].
    + unfold bulgeApply. destruct (bulgeOrder c) as [a b].
      destruct (bulgeNewlyMasked _ a b); [|discriminate].
      destruct (markPath true (bulgeGraph st) a) as [g1|]; [|discriminate].
      destruct (markPath true g1 b) as [g2|]; [|discriminate].
      destruct (foldM _ g2 _) as [g3|]; [|discriminate].
      intros [= <-]. right. exists (UnbranchingPath.id a). simpl. split.
      * apply elem_of_union_r, elem_of_union_l, elem_of_singleton. reflexivity.
      * apply elem_of_union_l, elem_of_singleton. reflexivity.
    + intros [= <-]. exact Hinv.
  - intros [= <-]. exact Hinv.
Qed.

Lemma separate_nothing (paths : list (UnbranchingPath.t C)) (g : RepeatGraph C) :
  foldM (separateIter ∅) g paths = Some g.
Proof.
  induction paths as [|p paths IH]; [reflexivity|]. simpl.
  unfold separateIter at 1.
  destruct (decide (UnbranchingPath.id p ∈ (∅ : gset FastaRecord.Id))) as [Hin|_];
    [exfalso; exact (not_elem_of_empty _ Hin)|exact IH].
Qed.

Lemma collapse_zero_unchanged (MAX_BUBBLE_LEN : Z) (paths : list (UnbranchingPath.t C))
    (g g' : RepeatGraph C) :
  collapseHeterozygousBulges MAX_BUBBLE_LEN true paths g = Some (g', 0) -> g' = g.
Proof.
  unfold collapseHeterozygousBulges.
  destruct (foldM _ _ paths) as [st|] eqn:Hdet; [|discriminate].
  assert (Hinv : (toSeparate st = ∅ /\ bulgeGraph st = g) \/
                 (exists i, i ∈ toSeparate st /\ FastaRecord.rc i ∈ toSeparate st)).
  { refine (foldM_invariant
              (fun s => (toSeparate s = ∅ /\ bulgeGraph s = g) \/
                        (exists i, i ∈ toSeparate s /\ FastaRecord.rc i ∈ toSeparate s))
              _ _ paths _ _ _ Hdet).
    - intros s x s'. apply bulgeIter_nothing_or_pair.
    - left. auto. }
  destruct (foldM (separateIter _) _ paths) as [g2|] eqn:Hsep; [|discriminate].
  intros [= <- Hn].
  destruct Hinv as [[Hempty Hg]|(i & Hi & Hr)].
  - rewrite Hempty, Hg, separate_nothing in Hsep. congruence.
  - pose proof (staged_pair_size _ _ Hi Hr) as Hsize.
    assert (1 <= size (toSeparate st) / 2)%nat.
    { apply (Nat.div_le_lower_bound _ 2 1); lia. }
    assert (Hn' : Z.of_nat (size (toSeparate st) / 2) = 0) by exact Hn.
    clear Hn. lia.
Qed.
(** C7, as the code has it.  A call in collapse mode that returns 0 has
    left the graph as it was, and a call does not separate a branch twice:
    every path of the list that the call staged has its first edge leaving a
    node that nothing enters; in any later run, as long as that is so, an
    iteration of the detection loop keeps it so, and an iteration on a path
    that starts with that edge fails the degree test and leaves the graph,
    the staged ids and the counter as they are. *)
Theorem separated_branch_stays_separated (MAX_BUBBLE_LEN : Z)
    (paths : list (UnbranchingPath.t C)) (g g' : RepeatGraph C) (n : Z) :
  collapseHeterozygousBulges MAX_BUBBLE_LEN true paths g = Some (g', n) ->
  (n = 0 -> g' = g) /\
  (forall st p,
     foldM (bulgeIter MAX_BUBBLE_LEN true paths) (mkBulgeState g ∅ 0) paths = Some st ->
     p ∈ paths ->
     UnbranchingPath.id p ∈ toSeparate st ->
     exists f,
       pathFront p = Some f /\
       detachedLeft g' f /\
       forall MAX2 removeAlternatives paths2 st2 st2' q,
         detachedLeft (bulgeGraph st2) f ->
         bulgeIter MAX2 removeAlternatives paths2 st2 q = Some st2' ->
         detachedLeft (bulgeGraph st2') f /\
         (pathFront q = Some f -> st2' = st2)).
Proof.
  intros Hrun. split.
  - intros ->. eapply collapse_zero_unchanged; eauto.
  - intros st p Hdet Hp Hid.
    unfold collapseHeterozygousBulges in Hrun. rewrite Hdet in Hrun.
    destruct (foldM (separateIter (toSeparate st)) (bulgeGraph st) paths) as [g2|] eqn:Hsep;
      [|discriminate].
    injection Hrun as <- _.
    destruct (separate_all_detached _ _ _ _ Hsep) as [_ Hall].
    destruct (Hall p Hp Hid) as (f & Hf & Hd).
    exists f. split; [exact Hf|]. split; [exact Hd|].
    intros MAX2 rm paths2 st2 st2' q Hd2 Hiter. split.
    + eapply sameTopology_detached; [|exact Hd2].
      eapply bulgeIter_sameTopology; eauto.
    + intros Hq. unfold bulgeIter in Hiter.
      pose proof (fun c => bulgeCandidate_detached paths2 st2 q f c Hd2 Hq) as Hno.
      destruct (bulgeCandidate paths2 st2 q) as [[c|]|]; [| |discriminate].
      * exfalso. exact (Hno c eq_refl).
      * injection Hiter as <-. reflexivity.
Qed.

End CollapseTwice.

Lemma separated_branch_stays_separated_witness :
  exists f, pathFront (branchA (10 # 1)) = Some f /\ detachedLeft collapsedSimpleBulge f.
Proof.
  assert (Hrun : collapseHeterozygousBulges 50000 true (getUnbranchingPaths simpleBulge)
                   simpleBulge = Some (collapsedSimpleBulge, 1)).
  { vm_compute. reflexivity. }
  destruct (proj2 (separated_branch_stays_separated 50000 _ _ _ _ Hrun)
              stagedSimpleBulge (branchA (10 # 1)))
    as (f & Hf & Hd & _).
  - vm_compute. reflexivity.
  - vm_compute. do 2 apply list_elem_of_further. apply list_elem_of_here.
  - simpl. apply elem_of_union_r, elem_of_union_l, elem_of_singleton. reflexivity.
  - exists f. split; assumption.
Defined.

(** ** The complex finder: the search for the bubble start ends *)

Lemma agreement_bound (conv : gset nat) (ref : list EdgeAlignment) (gr : PathWithScore)
    (rest : list PathWithScore) (bubbleStartId : nat) :
  agreement conv ref (gr :: rest) bubbleStartId = Some true ->
  (bubbleStartId + 1 < List.length (pwsPath gr))%nat.
Proof.
  simpl. destruct (List.length (pwsPath gr) <=? bubbleStartId + 1)%nat eqn:Hlen;
    [discriminate|].
  intros _. apply Nat.leb_gt in Hlen. exact Hlen.
Qed.

(** With as many rounds as the first of the other groups is long, the
    search never runs out of rounds: it stops at an index, or an
    out-of-range access stopped it. *)
Lemma findBubbleStart_enough_fuel (conv : gset nat) (ref : list EdgeAlignment)
    (gr : PathWithScore) (rest : list PathWithScore) :
  forall fuel bubbleStartId,
    (List.length (pwsPath gr) <= bubbleStartId + fuel + 1)%nat ->
    findBubbleStart fuel conv ref (gr :: rest) bubbleStartId = None ->
    exists i, agreement conv ref (gr :: rest) i = None.
Proof.
  induction fuel as [|fuel IH]; intros bs Hlen; cbn [findBubbleStart].
  - destruct (agreement conv ref (gr :: rest) bs) as [[|]|] eqn:Hag.
    + apply agreement_bound in Hag. lia.
    + discriminate.
    + eauto.
  - destruct (agreement conv ref (gr :: rest) bs) as [[|]|] eqn:Hag.
    + apply IH. lia.
    + discriminate.
    + eauto.
Qed.

(** ** The end-to-end scenarios of the spec *)

Example scenario1_mask :
  collapseHeterozygousBulges 50000 false (getUnbranchingPaths simpleBulge) simpleBulge
  = Some (maskedSimpleBulge, 1).
Proof. vm_compute. reflexivity. Qed.

Example scenario1_collapse :
  collapseHeterozygousBulges 50000 true (getUnbranchingPaths simpleBulge) simpleBulge
  = Some (collapsedSimpleBulge, 1).
Proof. vm_compute. reflexivity. Qed.

Example scenario2_oversize (removeAlternatives : bool) :
  let g := twinGraph 4 [mkSpec 0 1 1000 (30 # 1) false;
                        mkSpec 1 2 60000 (10 # 1) false;
                        mkSpec 1 2 500 (20 # 1) false;
                        mkSpec 2 3 1000 (30 # 1) false] in
  collapseHeterozygousBulges 50000 removeAlternatives (getUnbranchingPaths g) g = Some (g, 0).
Proof. destruct removeAlternatives; vm_compute; reflexivity. Qed.

Example scenario3_coverage (removeAlternatives : bool) :
  collapseHeterozygousBulges 50000 removeAlternatives
    (getUnbranchingPaths coverageRejectedBulge) coverageRejectedBulge
  = Some (coverageRejectedBulge, 0).
Proof. destruct removeAlternatives; vm_compute; reflexivity. Qed.

Example scenario4_length (removeAlternatives : bool) :
  let g := twinGraph 4 [mkSpec 0 1 100 (30 # 1) false;
                        mkSpec 1 2 500 (10 # 1) false;
                        mkSpec 1 2 500 (20 # 1) false;
                        mkSpec 2 3 100 (30 # 1) false] in
  collapseHeterozygousBulges 50000 removeAlternatives (getUnbranchingPaths g) g = Some (g, 0).
Proof. destruct removeAlternatives; vm_compute; reflexivity. Qed.

Example scenario5_unroll :
  let g := loopGraphWith (15 # 1) in
  match collapseHeterozygousLoops true (getUnbranchingPaths g) g with
  | Some (g', n) =>
      n = 1 /\
      (* the loop now leaves the fresh node 6, which the entrance enters *)
      option_map (fun ed => (nodeLeft ed, nodeRight ed)) (graphEdges g' !! 2%nat)
        = Some (6%nat, 1%nat) /\
      option_map nodeRight (graphEdges g' !! 0%nat) = Some 6%nat /\
      graphNodes g' !! 1%nat = Some (mkNode [2%nat] [4%nat])
  | None => False
  end.
Proof. vm_compute. repeat split; reflexivity. Qed.

Example scenario6_remove :
  let g := loopGraphWith (5 # 1) in
  match collapseHeterozygousLoops true (getUnbranchingPaths g) g with
  | Some (g', n) =>
      n = 1 /\
      (* the node keeps its entrance and its exit only *)
      graphNodes g' !! 1%nat = Some (mkNode [0%nat] [4%nat]) /\
      option_map (fun ed => (nodeLeft ed, nodeRight ed)) (graphEdges g' !! 2%nat)
        = Some (6%nat, 7%nat)
  | None => False
  end.
Proof. vm_compute. repeat split; reflexivity. Qed.

(** * Further properties of the passes *)

(** ** Writes on both strands *)

Section BothStrands.
Context {C : Type} `{Coverage C}.

(** What a write on both strands leaves in the edge arena. *)
Lemma updateBothStrands_lookup (f : GraphEdge C -> GraphEdge C) (g g' : RepeatGraph C)
    (x : edge_ptr) :
  (forall ed, twin (f ed) = twin ed) ->
  updateBothStrands f g x = Some g' ->
  graphNodes g' = graphNodes g /\
  exists ed, graphEdges g !! x = Some ed /\
    forall z,
      graphEdges g' !! z =
      if decide (z = x \/ z = twin ed) then
        if decide (x = twin ed) then f <$> (f <$> graphEdges g !! z)
        else f <$> graphEdges g !! z
      else graphEdges g !! z.
Proof.
  intros Hf. unfold updateBothStrands, updateEdge, complementEdge.
  destruct (graphEdges g !! x) as [ed|] eqn:Hx; [|discriminate]. simpl.
  pose proof (lookup_lt_Some _ _ _ Hx) as Hlt.
  rewrite list_lookup_insert_eq by exact Hlt.
  rewrite Hf. set (t := twin ed).
  destruct (<[x:=f ed]> (graphEdges g) !! t) as [edt|] eqn:Ht; [|discriminate].
  intros [= <-]. split; [reflexivity|]. exists ed. split; [reflexivity|].
  intros z. simpl. fold t.
  pose proof (lookup_lt_Some _ _ _ Ht) as Hlt'.
  destruct (decide (z = t)) as [->|Hzt].
  - rewrite list_lookup_insert_eq by exact Hlt'.
    destruct (decide (t = x \/ t = t)) as [_|Hn]; [|exfalso; auto].
    destruct (decide (x = t)) as [Heq|Hne].
    + rewrite <- Heq in Ht |- *.
      rewrite list_lookup_insert_eq in Ht by exact Hlt.
      injection Ht as <-. rewrite Hx. reflexivity.
    + rewrite list_lookup_insert_ne in Ht by exact Hne. rewrite Ht. reflexivity.
  - rewrite list_lookup_insert_ne by auto.
    destruct (decide (z = x)) as [->|Hzx].
    + rewrite list_lookup_insert_eq by exact Hlt.
      destruct (decide (x = x \/ x = t)) as [_|Hn]; [|exfalso; auto].
      destruct (decide (x = t)) as [Heq|_]; [contradiction|].
      rewrite Hx. reflexivity.
    + rewrite list_lookup_insert_ne by auto.
      destruct (decide (z = x \/ z = t)) as [[?|?]|_]; [contradiction|contradiction|].
      reflexivity.
Qed.

Lemma setAltHaplotype_twin (b : bool) (ed : GraphEdge C) :
  twin (setAltHaplotype b ed) = twin ed.
Proof. reflexivity. Qed.

(** One marked edge: the edge and its twin carry the flag, every edge keeps
    its other fields, and a flag is either the new one or the old one. *)
Lemma markEdge_effect (b : bool) (g g' : RepeatGraph C) (x : edge_ptr) :
  markEdge b g x = Some g' ->
  (exists ed t, graphEdges g' !! x = Some ed /\ altHaplotype ed = b /\
                graphEdges g' !! twin ed = Some t /\ altHaplotype t = b) /\
  (forall z ed, graphEdges g !! z = Some ed ->
     exists ed', graphEdges g' !! z = Some ed' /\
                 ed' = setAltHaplotype (altHaplotype ed') ed /\
                 (altHaplotype ed' = b \/ altHaplotype ed' = altHaplotype ed)).
Proof.
  intros Hm. unfold markEdge in Hm.
  destruct (updateBothStrands_lookup _ _ _ _ (setAltHaplotype_twin b) Hm)
    as (_ & ed & Hx & Hlook).
  assert (Hall : forall z edz, graphEdges g !! z = Some edz ->
     exists ed', graphEdges g' !! z = Some ed' /\
                 ed' = setAltHaplotype (altHaplotype ed') edz /\
                 (altHaplotype ed' = b \/ altHaplotype ed' = altHaplotype edz) /\
                 (z = x \/ z = twin ed -> altHaplotype ed' = b)).
  { intros z edz Hz. rewrite Hlook, Hz.
    destruct (decide (z = x \/ z = twin ed)) as [Hin|Hout].
    - destruct (decide (x = twin ed)); simpl; eexists; (split; [reflexivity|]);
        destruct edz; simpl; repeat split; auto.
    - exists edz. split; [reflexivity|]. destruct edz. simpl. split; [reflexivity|].
      split; [auto|]. intros Hin. contradiction. }
  split.
  - destruct (Hall x ed Hx) as (ed' & Hx' & Heq & _ & Hb).
    assert (Htw : twin ed' = twin ed) by (rewrite Heq; reflexivity).
    assert (Ht : is_Some (graphEdges g !! twin ed)).
    { destruct (graphEdges g !! twin ed) as [edt|] eqn:Ht; [eauto|].
      exfalso. specialize (Hlook (twin ed)). rewrite Ht in Hlook.
      unfold updateBothStrands, updateEdge, complementEdge in Hm.
      rewrite Hx in Hm. simpl in Hm.
      rewrite list_lookup_insert_eq in Hm by (eapply lookup_lt_Some; eauto).
      simpl in Hm.
      destruct (decide (x = twin ed)) as [Heq'|Hne]; [congruence|].
      rewrite list_lookup_insert_ne in Hm by exact Hne. rewrite Ht in Hm. discriminate. }
    destruct Ht as [edt Ht].
    destruct (Hall (twin ed) edt Ht) as (t' & Ht' & _ & _ & Hbt).
    exists ed', t'. rewrite Htw.
    split; [exact Hx'|]. split; [apply Hb; auto|]. split; [exact Ht'|]. apply Hbt. auto.
  - intros z edz Hz. destruct (Hall z edz Hz) as (ed' & ? & ? & ? & _). eauto.
Qed.

(** After [markPath], every edge of the path and the twin of every edge
    of the path carry the flag that was written. *)
Theorem markPath_flags_both_strands (b : bool) (g g' : RepeatGraph C)
    (p : UnbranchingPath.t C) :
  markPath b g p = Some g' ->
  forall e, e ∈ UnbranchingPath.path p ->
    exists ed t, graphEdges g' !! e = Some ed /\ altHaplotype ed = b /\
                 graphEdges g' !! twin ed = Some t /\ altHaplotype t = b.
Proof.
  unfold markPath. generalize (UnbranchingPath.path p). clear p.
  intros es. revert g. induction es as [|x es IH]; intros g Hfold e He.
  - inversion He.
  - simpl in Hfold. destruct (markEdge b g x) as [g1|] eqn:Hm; [|discriminate].
    destruct (decide (e ∈ es)) as [Hin|Hnin]; [eauto|].
    apply elem_of_cons in He. destruct He as [->|He]; [|contradiction].
    destruct (markEdge_effect _ _ _ _ Hm) as [(ed & t & Hx & Ha & Ht & Hat) _].
    (* the later marks keep what this one wrote *)
    clear IH Hm Hnin. revert g1 Hfold ed t Hx Ha Ht Hat.
    induction es as [|y es IH]; intros g1 Hfold ed t Hx Ha Ht Hat.
    + injection Hfold as <-. exists ed, t. auto.
    + simpl in Hfold. destruct (markEdge b g1 y) as [g2|] eqn:Hm; [|discriminate].
      destruct (markEdge_effect _ _ _ _ Hm) as [_ Hkeep].
      destruct (Hkeep _ _ Hx) as (ed' & Hx' & Heq & Ha').
      destruct (Hkeep _ _ Ht) as (t' & Ht' & Heqt & Hat').
      assert (Htw : twin ed' = twin ed) by (rewrite Heq; reflexivity).
      apply (IH g2 Hfold ed' t').
      * exact Hx'.
      * destruct Ha' as [?|?]; congruence.
      * rewrite Htw. exact Ht'.
      * destruct Hat' as [?|?]; congruence.
Qed.
End BothStrands.

Lemma markPath_flags_both_strands_witness :
  exists ed t, graphEdges flaggedBulge !! 2%nat = Some ed /\ altHaplotype ed = true /\
               graphEdges flaggedBulge !! twin ed = Some t /\ altHaplotype t = true.
Proof.
  apply (markPath_flags_both_strands true simpleBulge flaggedBulge (branchA (10 # 1))).
  - vm_compute. reflexivity.
  - simpl. apply list_elem_of_here.
Defined.

(** ** Mask mode only sets flags *)

Section OnlyFlagsSet.
Context {C : Type} `{Coverage C}.

Lemma onlyFlagsSet_refl (g : RepeatGraph C) : onlyFlagsSet g g.
Proof.
  split; [reflexivity|]. split; [reflexivity|].
  intros z ed Hz. exists ed. split; [exact Hz|]. destruct ed. auto.
Qed.

Lemma onlyFlagsSet_trans (g1 g2 g3 : RepeatGraph C) :
  onlyFlagsSet g1 g2 -> onlyFlagsSet g2 g3 -> onlyFlagsSet g1 g3.
Proof.
  intros (Hn1 & Hl1 & He1) (Hn2 & Hl2 & He2).
  split; [congruence|]. split; [congruence|].
  intros z ed Hz.
  destruct (He1 _ _ Hz) as (ed2 & Hz2 & Heq2 & Hm2).
  destruct (He2 _ _ Hz2) as (ed3 & Hz3 & Heq3 & Hm3).
  exists ed3. split; [exact Hz3|]. split; [|auto].
  rewrite Heq3, Heq2. destruct ed. reflexivity.
Qed.

Lemma markEdge_onlyFlagsSet (g g' : RepeatGraph C) (x : edge_ptr) :
  markEdge true g x = Some g' -> onlyFlagsSet g g'.
Proof.
  intros Hm. destruct (markEdge_frame _ _ _ _ Hm) as [Hn Hf].
  split; [exact Hn|]. split; [symmetry; eapply Forall2_length; eauto|].
  intros z ed Hz.
  destruct (proj2 (markEdge_effect _ _ _ _ Hm) z ed Hz) as (ed' & Hz' & Heq & Halt).
  exists ed'. split; [exact Hz'|]. split; [exact Heq|].
  intros Ht. destruct Halt as [?|?]; congruence.
Qed.

Lemma markPath_onlyFlagsSet (p : UnbranchingPath.t C) (g g' : RepeatGraph C) :
  markPath true g p = Some g' -> onlyFlagsSet g g'.
Proof.
  unfold markPath.
  apply (foldM_invariant (onlyFlagsSet g)); [|apply onlyFlagsSet_refl].
  intros s x s' Hs Hm. eapply onlyFlagsSet_trans; eauto using markEdge_onlyFlagsSet.
Qed.

Lemma bulgeIter_onlyFlagsSet (MAX_BUBBLE_LEN : Z) (paths : list (UnbranchingPath.t C))
    (st st' : BulgeState C) (p : UnbranchingPath.t C) :
  bulgeIter MAX_BUBBLE_LEN false paths st p = Some st' ->
  onlyFlagsSet (bulgeGraph st) (bulgeGraph st').
Proof.
  unfold bulgeIter.
  destruct (bulgeCandidate paths st p) as [[c|]|]; [| |discriminate].
  - destruct (bulgeTests MAX_BUBBLE_LEN c) as [[|]|]; [| |discriminate].
    + unfold bulgeApply. destruct (bulgeOrder c) as [a b].
      destruct (bulgeNewlyMasked _ a b); [|discriminate].
      destruct (markPath true (bulgeGraph st) a) as [g1|] eqn:H1; [|discriminate].
      destruct (markPath true g1 b) as [g2|] eqn:H2; [|discriminate].
      intros [= <-]. simpl.
      eapply onlyFlagsSet_trans; eauto using markPath_onlyFlagsSet.
    + intros [= <-]. apply onlyFlagsSet_refl.
  - intros [= <-]. apply onlyFlagsSet_refl.
Qed.

Lemma loopIter_onlyFlagsSet (paths : list (UnbranchingPath.t C))
    (st st' : LoopState C) (p : UnbranchingPath.t C) :
  loopIter paths st p = Some st' -> onlyFlagsSet (loopGraph st) (loopGraph st').
Proof.
  unfold loopIter.
  destruct (loopCandidate paths (loopGraph st) p) as [[r|]|]; [| |discriminate].
  - destruct (loopTests (loopGraph st) p r) as [[[en ex]|]|]; [| |discriminate].
    + unfold loopApply.
      destruct (frontAltHaplotype (loopGraph st) p); [|discriminate].
      destruct (markPath true (loopGraph st) p) as [g1|] eqn:H1; [|discriminate].
      destruct (loopIsRemoved p en ex); intros [= <-]; simpl;
        eauto using markPath_onlyFlagsSet.
    + intros [= <-]. apply onlyFlagsSet_refl.
  - intros [= <-]. apply onlyFlagsSet_refl.
Qed.

(** The bulge pass in mask mode never clears a flag: an edge that was
    flagged when the pass started is flagged when it ends. *)
Theorem bulge_mask_mode_keeps_flags (MAX_BUBBLE_LEN : Z)
    (paths : list (UnbranchingPath.t C)) (g g' : RepeatGraph C) (n : Z) :
  collapseHeterozygousBulges MAX_BUBBLE_LEN false paths g = Some (g', n) ->
  forall e ed, graphEdges g !! e = Some ed -> altHaplotype ed = true ->
    exists ed', graphEdges g' !! e = Some ed' /\ altHaplotype ed' = true.
Proof.
  unfold collapseHeterozygousBulges.
  destruct (foldM _ _ paths) as [st|] eqn:Hfold; [|discriminate].
  intros [= <- _].
  assert (Hrel : onlyFlagsSet g (bulgeGraph st)).
  { refine (foldM_invariant (fun s => onlyFlagsSet g (bulgeGraph s)) _ _ paths _ _ _ Hfold).
    - intros s x s' Hs Hi.
      exact (onlyFlagsSet_trans _ _ _ Hs (bulgeIter_onlyFlagsSet _ _ _ _ _ Hi)).
    - apply onlyFlagsSet_refl. }
  intros e ed He Ht. destruct Hrel as (_ & _ & Hall).
  destruct (Hall e ed He) as (ed' & He' & _ & Hm). eauto.
Qed.

(** The loop pass in mask mode leaves every node with its adjacency lists,
    keeps the edge arena, changes no field of an edge but [altHaplotype],
    and never clears a flag. *)
Theorem loop_mask_mode_frame (paths : list (UnbranchingPath.t C))
    (g g' : RepeatGraph C) (n : Z) :
  collapseHeterozygousLoops false paths g = Some (g', n) ->
  graphNodes g' = graphNodes g /\
  List.length (graphEdges g') = List.length (graphEdges g) /\
  (forall e ed, graphEdges g !! e = Some ed ->
     exists ed', graphEdges g' !! e = Some ed' /\
       nodeLeft ed' = nodeLeft ed /\ nodeRight ed' = nodeRight ed /\
       edgeId ed' = edgeId ed /\ seqLength ed' = seqLength ed /\
       meanCoverage ed' = meanCoverage ed /\
       selfComplement ed' = selfComplement ed /\ twin ed' = twin ed /\
       (altHaplotype ed = true -> altHaplotype ed' = true)).
Proof.
  unfold collapseHeterozygousLoops.
  destruct (foldM _ _ paths) as [st|] eqn:Hfold; [|discriminate].
  intros [= <- _].
  assert (Hrel : onlyFlagsSet g (loopGraph st)).
  { refine (foldM_invariant (fun s => onlyFlagsSet g (loopGraph s)) _ _ paths _ _ _ Hfold).
    - intros s x s' Hs Hi.
      exact (onlyFlagsSet_trans _ _ _ Hs (loopIter_onlyFlagsSet _ _ _ _ Hi)).
    - apply onlyFlagsSet_refl. }
  destruct Hrel as (Hn & Hl & Hall). split; [exact Hn|]. split; [exact Hl|].
  intros e ed He. destruct (Hall e ed He) as (ed' & He' & Heq & Hm).
  exists ed'. split; [exact He'|]. rewrite Heq. destruct ed. simpl.
  repeat split. simpl in Hm. exact Hm.
Qed.

End OnlyFlagsSet.

Lemma bulge_mask_mode_keeps_flags_witness :
  exists ed', graphEdges maskedSimpleBulge !! 2%nat = Some ed' /\ altHaplotype ed' = true.
Proof.
  refine (bulge_mask_mode_keeps_flags 50000 (getUnbranchingPaths flaggedBulge)
            flaggedBulge maskedSimpleBulge 1 _ 2%nat
            (mkEdge 1 2 (FastaRecord.mkId 2 true) 500 (10 # 1) true false 3) _ _);
    vm_compute; reflexivity.
Defined.

Lemma loop_mask_mode_frame_witness :
  graphNodes (twinGraph 3 [mkSpec 0 1 1000 (20 # 1) false;
                           mkSpec 1 1 500 (15 # 1) true;
                           mkSpec 1 2 1000 (20 # 1) false])
  = graphNodes (loopGraphWith (15 # 1)).
Proof.
  refine (proj1 (loop_mask_mode_frame (getUnbranchingPaths (loopGraphWith (15 # 1)))
                   (loopGraphWith (15 # 1)) _ 1 _)).
  vm_compute. reflexivity.
Defined.

(** ** Collapse mode folds the coverage into the retained branch *)

Section CoverageFold.
Context {C : Type} `{Coverage C}.

Lemma addMeanCoverage_twin (c : C) (ed : GraphEdge C) :
  twin (addMeanCoverage c ed) = twin ed.
Proof. reflexivity. Qed.

(** Lines 94-97 on one edge [x] whose twin is another edge: both get the
    coverage added once and the flag cleared, nothing else changes. *)
Lemma foldCoverageEdge_lookup (c : C) (g g' : RepeatGraph C) (x : edge_ptr) (ed : GraphEdge C) :
  graphEdges g !! x = Some ed -> twin ed <> x ->
  foldCoverageEdge c g x = Some g' ->
  forall z,
    graphEdges g' !! z =
    if decide (z = x \/ z = twin ed)
    then (fun e => setAltHaplotype false (addMeanCoverage c e)) <$> graphEdges g !! z
    else graphEdges g !! z.
Proof.
  intros Hx Hne. unfold foldCoverageEdge, markEdge.
  destruct (updateBothStrands (addMeanCoverage c) g x) as [g1|] eqn:H1; [|discriminate].
  intros H2.
  destruct (updateBothStrands_lookup _ _ _ _ (addMeanCoverage_twin c) H1)
    as (_ & ed1 & Hx1 & Hl1).
  rewrite Hx in Hx1. injection Hx1 as <-.
  destruct (updateBothStrands_lookup _ _ _ _ (setAltHaplotype_twin false) H2)
    as (_ & ed2 & Hx2 & Hl2).
  assert (Htw : twin ed2 = twin ed).
  { rewrite Hl1 in Hx2.
    destruct (decide (x = x \/ x = twin ed)) as [_|Hn]; [|exfalso; auto].
    destruct (decide (x = twin ed)) as [Heq|_]; [congruence|].
    rewrite Hx in Hx2. injection Hx2 as <-. reflexivity. }
  rewrite Htw in Hl2.
  intros z. rewrite Hl2, Hl1.
  destruct (decide (z = x \/ z = twin ed)) as [Hin|Hout]; [|reflexivity].
  destruct (decide (x = twin ed)) as [Heq|_]; [congruence|].
  destruct (graphEdges g !! z); reflexivity.
Qed.

Lemma foldCoverageEdge_twinOf (c : C) (g g' : RepeatGraph C) (x : edge_ptr) (ed : GraphEdge C) :
  graphEdges g !! x = Some ed -> twin ed <> x ->
  foldCoverageEdge c g x = Some g' ->
  forall z, twinOf g' z = twinOf g z.
Proof.
  intros Hx Hne Hf z. unfold twinOf.
  rewrite (foldCoverageEdge_lookup _ _ _ _ _ Hx Hne Hf).
  destruct (decide (z = x \/ z = twin ed)); [|reflexivity].
  destruct (graphEdges g !! z) as [edz|]; [|reflexivity]. destruct edz. reflexivity.
Qed.

Lemma foldCoverageEdge_valid (c : C) (g g' : RepeatGraph C) (x : edge_ptr) :
  foldCoverageEdge c g x = Some g' -> is_Some (graphEdges g !! x).
Proof.
  unfold foldCoverageEdge, updateBothStrands, updateEdge.
  destruct (graphEdges g !! x); [eauto|discriminate].
Qed.

(** When the retained branch holds no edge twice and no edge together with
    its twin, every edge of the branch and every twin of one gets the
    coverage added exactly once and its flag cleared, and no other edge
    changes. *)
Theorem coverage_folded_once (c : C) (es : list edge_ptr) :
  forall g g',
    NoDup (es ++ map (twinOf g) es) ->
    foldM (foldCoverageEdge c) g es = Some g' ->
    forall z,
      graphEdges g' !! z =
      if decide (z ∈ es \/ z ∈ map (twinOf g) es)
      then foldedEdge c <$> graphEdges g !! z
      else graphEdges g !! z.
Proof.
  induction es as [|x es IH]; intros g g' Hnd Hfold z.
  - injection Hfold as <-.
    destruct (decide _) as [[Hin|Hin]|_]; [inversion Hin|inversion Hin|reflexivity].
  - simpl in Hfold.
    destruct (foldCoverageEdge c g x) as [g1|] eqn:Hstep; [|discriminate].
    destruct (foldCoverageEdge_valid _ _ _ _ Hstep) as [ed Hx].
    assert (Htx : twinOf g x = twin ed) by (unfold twinOf; rewrite Hx; reflexivity).
    simpl in Hnd. rewrite Htx in Hnd.
    apply NoDup_cons in Hnd. destruct Hnd as [Hxnin Hnd].
    assert (Hne : twin ed <> x).
    { intros Heq. apply Hxnin. apply elem_of_app. right. rewrite Heq.
      apply list_elem_of_here. }
    apply NoDup_app in Hnd. destruct Hnd as (Hnd1 & Hdisj & Hnd2).
    apply NoDup_cons in Hnd2. destruct Hnd2 as [Htnin Hnd2].
    pose proof (foldCoverageEdge_twinOf _ _ _ _ _ Hx Hne Hstep) as Htw.
    assert (Hmap : map (twinOf g1) es = map (twinOf g) es).
    { apply map_ext. exact Htw. }
    assert (Hnd' : NoDup (es ++ map (twinOf g1) es)).
    { rewrite Hmap. apply NoDup_app. split; [exact Hnd1|]. split; [|exact Hnd2].
      intros y Hy Hy'. apply (Hdisj y Hy). apply list_elem_of_further. exact Hy'. }
    rewrite (IH g1 g' Hnd' Hfold z), Hmap.
    rewrite (foldCoverageEdge_lookup _ _ _ _ _ Hx Hne Hstep z).
    simpl. rewrite Htx.
    destruct (decide (z = x \/ z = twin ed)) as [Hin|Hout].
    + destruct (decide (z ∈ es \/ z ∈ map (twinOf g) es)) as [[Hes|Hes]|_].
      * exfalso. destruct Hin as [->| ->].
        -- apply Hxnin. apply elem_of_app. left. exact Hes.
        -- apply (Hdisj _ Hes). apply list_elem_of_here.
      * exfalso. destruct Hin as [->| ->].
        -- apply Hxnin. apply elem_of_app. right. apply list_elem_of_further. exact Hes.
        -- contradiction.
      * destruct (decide (z ∈ x :: es \/ z ∈ twin ed :: map (twinOf g) es)) as [_|Hn];
          [reflexivity|].
        exfalso. apply Hn. destruct Hin as [->| ->];
          [left|right]; apply list_elem_of_here.
    + destruct (decide (z ∈ es \/ z ∈ map (twinOf g) es)) as [Hes|Hnes].
      * destruct (decide (z ∈ x :: es \/ z ∈ twin ed :: map (twinOf g) es)) as [_|Hn];
          [reflexivity|].
        exfalso. apply Hn. destruct Hes; [left|right]; apply list_elem_of_further; assumption.
      * destruct (decide (z ∈ x :: es \/ z ∈ twin ed :: map (twinOf g) es)) as [Hy|_];
          [|reflexivity].
        exfalso. destruct Hy as [Hy|Hy]; apply elem_of_cons in Hy;
          destruct Hy as [->|Hy]; auto.
Qed.

(** An edge that is its own twin gets the coverage added twice. *)
Theorem coverage_folded_twice_on_self_twin (c : C) (g g' : RepeatGraph C)
    (x : edge_ptr) (ed : GraphEdge C) :
  graphEdges g !! x = Some ed -> twin ed = x ->
  foldCoverageEdge c g x = Some g' ->
  graphEdges g' !! x =
  Some (setAltHaplotype false (addMeanCoverage c (addMeanCoverage c ed))).
Proof.
  intros Hx Htw. unfold foldCoverageEdge, markEdge.
  destruct (updateBothStrands (addMeanCoverage c) g x) as [g1|] eqn:H1; [|discriminate].
  intros H2.
  destruct (updateBothStrands_lookup _ _ _ _ (addMeanCoverage_twin c) H1)
    as (_ & ed1 & Hx1 & Hl1).
  rewrite Hx in Hx1. injection Hx1 as <-.
  destruct (updateBothStrands_lookup _ _ _ _ (setAltHaplotype_twin false) H2)
    as (_ & ed2 & Hx2 & Hl2).
  assert (Hed2 : ed2 = addMeanCoverage c (addMeanCoverage c ed)).
  { rewrite Hl1 in Hx2.
    destruct (decide (x = x \/ x = twin ed)) as [_|Hn]; [|exfalso; auto].
    destruct (decide (x = twin ed)) as [_|Hn]; [|congruence].
    rewrite Hx in Hx2. injection Hx2 as <-. reflexivity. }
  rewrite Hl2.
  assert (Htw2 : twin ed2 = x) by (rewrite Hed2; exact Htw).
  rewrite Htw2.
  destruct (decide (x = x \/ x = x)) as [_|Hn]; [|exfalso; auto].
  destruct (decide (x = x)) as [_|Hn]; [|contradiction].
  rewrite Hx2, Hed2. destruct ed. reflexivity.
Qed.

End CoverageFold.

Lemma coverage_folded_once_witness :
  graphEdges (bulgeGraph stagedSimpleBulge) !! 5%nat =
  if decide (5%nat ∈ [4%nat] \/ 5%nat ∈ map (twinOf maskedSimpleBulge) [4%nat])
  then foldedEdge (10 # 1)%Q <$> graphEdges maskedSimpleBulge !! 5%nat
  else graphEdges maskedSimpleBulge !! 5%nat.
Proof.
  apply (coverage_folded_once (10 # 1)%Q [4%nat] maskedSimpleBulge
           (bulgeGraph stagedSimpleBulge)).
  - vm_compute. apply NoDup_cons. split.
    + intros Hin. apply list_elem_of_singleton in Hin. discriminate.
    + apply NoDup_singleton.
  - vm_compute. reflexivity.
Defined.

Lemma coverage_folded_twice_on_self_twin_witness :
  graphEdges (mkGraph [mkNode [] [0%nat]; mkNode [0%nat] []]
                [mkEdge 0 1 (FastaRecord.mkId 1 true) 100 (11 # 1) false true 0]) !! 0%nat =
  Some (setAltHaplotype false
          (addMeanCoverage (3 # 1)%Q
             (addMeanCoverage (3 # 1)%Q
                (mkEdge 0 1 (FastaRecord.mkId 1 true) 100 (5 # 1) true true 0)))).
Proof.
  apply (coverage_folded_twice_on_self_twin (3 # 1)%Q selfTwinGraph _ 0%nat).
  - reflexivity.
  - reflexivity.
  - vm_compute. reflexivity.
Defined.

(** ** The staged ids come in strand pairs *)

Lemma rc_involutive (i : FastaRecord.Id) : FastaRecord.rc (FastaRecord.rc i) = i.
Proof. destruct i as [n [|]]; reflexivity. Qed.

Lemma rc_differs (i : FastaRecord.Id) : FastaRecord.rc i <> i.
Proof. destruct i as [n [|]]; discriminate. Qed.

Lemma stageBoth_closed (i : FastaRecord.Id) (s : gset FastaRecord.Id) :
  closedUnderRc s -> closedUnderRc (stageBoth i s).
Proof.
  unfold closedUnderRc, stageBoth. intros Hc j Hj.
  apply elem_of_union in Hj. destruct Hj as [Hj|Hj].
  - apply elem_of_singleton in Hj. subst j. rewrite rc_involutive.
    apply elem_of_union_r, elem_of_union_l, elem_of_singleton. reflexivity.
  - apply elem_of_union in Hj. destruct Hj as [Hj|Hj].
    + apply elem_of_singleton in Hj. subst j.
      apply elem_of_union_l, elem_of_singleton. reflexivity.
    + apply elem_of_union_r, elem_of_union_r. auto.
Qed.

(** Staging an id that is not staged yet adds exactly two ids; staging one
    that is adds none. *)
Lemma stageBoth_size (i : FastaRecord.Id) (s : gset FastaRecord.Id) :
  closedUnderRc s ->
  size (stageBoth i s) = if decide (i ∈ s) then size s else (size s + 2)%nat.
Proof.
  intros Hc. unfold stageBoth.
  destruct (decide (i ∈ s)) as [Hi|Hi].
  - f_equal. apply leibniz_equiv. apply set_equiv. intros j.
    rewrite !elem_of_union, !elem_of_singleton. split; [|auto].
    intros [->|[->|Hj]]; auto.
  - assert (Hr : FastaRecord.rc i ∉ s).
    { intros Hr. apply Hi. rewrite <- (rc_involutive i). apply Hc. exact Hr. }
    rewrite size_union.
    + rewrite size_singleton, size_union.
      * rewrite size_singleton. lia.
      * apply disjoint_singleton_l. exact Hi.
    + apply disjoint_singleton_l. rewrite elem_of_union, elem_of_singleton.
      intros [Heq|Hin]; [exact (rc_differs i Heq)|contradiction].
Qed.

Lemma closed_empty : closedUnderRc ∅.
Proof. intros i Hi. exfalso. exact (not_elem_of_empty _ Hi). Qed.

Section StagedPairs.
Context {C : Type} `{Coverage C}.

Lemma bulgeCandidate_unstaged (paths : list (UnbranchingPath.t C)) (st : BulgeState C)
    (p : UnbranchingPath.t C) (c : BulgeCandidate C) :
  bulgeCandidate paths st p = Some (Some c) ->
  (UnbranchingPath.id (branch0 c) ∉ toSeparate st) /\
  (UnbranchingPath.id (branch1 c) ∉ toSeparate st).
Proof.
  unfold bulgeCandidate.
  destruct (isLooped (bulgeGraph st) p) as [[|]|]; try discriminate.
  destruct (pathNodeLeft (bulgeGraph st) p) as [l|]; [|discriminate].
  destruct (pathNodeRight (bulgeGraph st) p) as [r|]; [|discriminate].
  destruct (filterM _ paths) as [[|a [|b [|]]]|]; try discriminate.
  destruct (decide _); [discriminate|].
  destruct (decide (UnbranchingPath.id a ∈ toSeparate st)) as [|Ha]; [discriminate|].
  destruct (decide (UnbranchingPath.id b ∈ toSeparate st)) as [|Hb]; [discriminate|].
  destruct (graphNodes (bulgeGraph st) !! l) as [nl|]; [|discriminate].
  destruct (negb _); [discriminate|].
  destruct (graphNodes (bulgeGraph st) !! r) as [nr|]; [|discriminate].
  destruct (negb _); [discriminate|].
  destruct (bulgeLookup (bulgeGraph st) l r paths) as [[en ex]|]; [|discriminate].
  intros [= <-]. simpl. auto.
Qed.

(** One iteration in collapse mode: the state is left alone or exactly the
    two strands of one id, neither staged before, are staged. *)
Lemma bulgeIter_stages_pair (MAX_BUBBLE_LEN : Z) (paths : list (UnbranchingPath.t C))
    (st st' : BulgeState C) (p : UnbranchingPath.t C) :
  closedUnderRc (toSeparate st) ->
  bulgeIter MAX_BUBBLE_LEN true paths st p = Some st' ->
  closedUnderRc (toSeparate st') /\
  (st' = st \/ size (toSeparate st') = (size (toSeparate st) + 2)%nat).
Proof.
  intros Hc. unfold bulgeIter.
  destruct (bulgeCandidate paths st p) as [[c|]|] eqn:Hcand; [| |discriminate].
  - destruct (bulgeTests MAX_BUBBLE_LEN c) as [[|]|]; [| |discriminate].
    + destruct (bulgeCandidate_unstaged _ _ _ _ Hcand) as [H0 H1].
      unfold bulgeApply, bulgeOrder.
      destruct (cltb _ _);
        (destruct (bulgeNewlyMasked _ _ _); [|discriminate];
         destruct (markPath true (bulgeGraph st) _) as [g1|]; [|discriminate];
         destruct (markPath true g1 _) as [g2|]; [|discriminate];
         destruct (foldM _ g2 _) as [g3|]; [|discriminate];
         intros [= <-]; simpl; split;
         [apply (stageBoth_closed _ _ Hc)
         |right; rewrite (stageBoth_size _ _ Hc : size ({[_]} ∪ ({[_]} ∪ _)) = _)]).
      * destruct (decide _); [contradiction|reflexivity].
      * destruct (decide _); [contradiction|reflexivity].
    + intros [= <-]. auto.
  - intros [= <-]. auto.
Qed.

(** In collapse mode the bulge pass stages ids in strand pairs: the staged
    set holds the reverse complement of each of its ids and has exactly
    twice as many ids as the value the pass returns. *)
Theorem bulge_count_is_pairs (MAX_BUBBLE_LEN : Z) (paths : list (UnbranchingPath.t C))
    (g g' : RepeatGraph C) (n : Z) :
  collapseHeterozygousBulges MAX_BUBBLE_LEN true paths g = Some (g', n) ->
  exists st,
    foldM (bulgeIter MAX_BUBBLE_LEN true paths) (mkBulgeState g ∅ 0) paths = Some st /\
    closedUnderRc (toSeparate st) /\
    Z.of_nat (size (toSeparate st)) = 2 * n.
Proof.
  unfold collapseHeterozygousBulges.
  destruct (foldM _ _ paths) as [st|] eqn:Hdet; [|discriminate].
  destruct (foldM (separateIter _) _ paths) as [g2|]; [|discriminate].
  intros Heq.
  assert (Hn : n = Z.of_nat (size (toSeparate st) / 2)) by congruence.
  clear Heq. exists st. split; [reflexivity|].
  assert (Hinv : closedUnderRc (toSeparate st) /\
                 exists k, size (toSeparate st) = (2 * k)%nat).
  { refine (foldM_invariant
              (fun s => closedUnderRc (toSeparate s) /\
                        exists k, size (toSeparate s) = (2 * k)%nat)
              _ _ paths _ _ _ Hdet).
    - intros s x s' [Hc [k Hk]] Hi.
      destruct (bulgeIter_stages_pair _ _ _ _ _ Hc Hi) as [Hc' [->|Hsz]].
      + eauto.
      + split; [exact Hc'|]. exists (S k). lia.
    - split; [apply closed_empty|]. exists 0%nat. cbn [toSeparate]. apply size_empty. }
  destruct Hinv as [Hc [k Hk]]. split; [exact Hc|].
  rewrite Hn, Hk. replace (2 * k / 2)%nat with k.
  - lia.
  - symmetry. rewrite Nat.mul_comm. apply Nat.div_mul. lia.
Qed.

(** In collapse mode the loop pass stages ids in strand pairs too: both
    sets hold the reverse complement of each of their ids, and together they
    have exactly twice as many ids as the value the pass returns. *)
Theorem loop_count_is_pairs (paths : list (UnbranchingPath.t C))
    (g g' : RepeatGraph C) (n : Z) :
  collapseHeterozygousLoops true paths g = Some (g', n) ->
  exists st,
    foldM (loopIter paths) (mkLoopState g ∅ ∅ 0) paths = Some st /\
    closedUnderRc (toRemove st) /\ closedUnderRc (toUnroll st) /\
    Z.of_nat (size (toRemove st) + size (toUnroll st)) = 2 * n.
Proof.
  unfold collapseHeterozygousLoops.
  destruct (foldM _ _ paths) as [st|] eqn:Hdet; [|discriminate].
  destruct (foldM (loopEditIter _ _) _ paths) as [g2|]; [|discriminate].
  intros Heq.
  assert (Hn : n = Z.of_nat ((size (toRemove st) + size (toUnroll st)) / 2)) by congruence.
  clear Heq. exists st. split; [reflexivity|].
  assert (Hinv : (closedUnderRc (toRemove st) /\
                  exists k, size (toRemove st) = (2 * k)%nat) /\
                 (closedUnderRc (toUnroll st) /\
                  exists k, size (toUnroll st) = (2 * k)%nat)).
  { refine (foldM_invariant
              (fun s => (closedUnderRc (toRemove s) /\
                         exists k, size (toRemove s) = (2 * k)%nat) /\
                        (closedUnderRc (toUnroll s) /\
                         exists k, size (toUnroll s) = (2 * k)%nat))
              _ _ paths _ _ _ Hdet).
    - intros s x s' [[Hcr [kr Hkr]] [Hcu [ku Hku]]]. unfold loopIter.
      destruct (loopCandidate paths (loopGraph s) x) as [[r|]|]; [| |discriminate].
      + destruct (loopTests (loopGraph s) x r) as [[[en ex]|]|]; [| |discriminate].
        * unfold loopApply.
          destruct (frontAltHaplotype (loopGraph s) x); [|discriminate].
          destruct (markPath true (loopGraph s) x) as [g1|]; [|discriminate].
          destruct (loopIsRemoved x en ex); intros [= <-]; simpl.
          -- split; [|split; [exact Hcu|exists ku; lia]].
             split; [apply stageBoth_closed; exact Hcr|].
             rewrite (stageBoth_size _ _ Hcr).
             destruct (decide _); [exists kr; lia|]. exists (S kr). lia.
          -- split; [split; [exact Hcr|exists kr; lia]|].
             split; [apply stageBoth_closed; exact Hcu|].
             rewrite (stageBoth_size _ _ Hcu).
             destruct (decide _); [exists ku; lia|]. exists (S ku). lia.
        * intros [= <-]. split; (split; [assumption|eauto]).
      + intros [= <-]. split; (split; [assumption|eauto]).
    - cbn [toRemove toUnroll]. rewrite size_empty.
      split; (split; [apply closed_empty|exists 0%nat; reflexivity]). }
  destruct Hinv as [[Hcr [kr Hkr]] [Hcu [ku Hku]]].
  split; [exact Hcr|]. split; [exact Hcu|].
  rewrite Hn, Hkr, Hku. replace ((2 * kr + 2 * ku) / 2)%nat with (kr + ku)%nat.
  - lia.
  - symmetry. replace (2 * kr + 2 * ku)%nat with ((kr + ku) * 2)%nat by lia.
    apply Nat.div_mul. lia.
Qed.

End StagedPairs.

Lemma bulge_count_is_pairs_witness :
  exists st,
    foldM (bulgeIter 50000 true (getUnbranchingPaths simpleBulge))
          (mkBulgeState simpleBulge ∅ 0) (getUnbranchingPaths simpleBulge) = Some st /\
    closedUnderRc (toSeparate st) /\
    Z.of_nat (size (toSeparate st)) = 2 * 1.
Proof.
  apply (bulge_count_is_pairs 50000 (getUnbranchingPaths simpleBulge)
           simpleBulge collapsedSimpleBulge 1).
  vm_compute. reflexivity.
Defined.

Lemma loop_count_is_pairs_witness :
  exists st,
    foldM (loopIter (getUnbranchingPaths (loopGraphWith (5 # 1))))
          (mkLoopState (loopGraphWith (5 # 1)) ∅ ∅ 0)
          (getUnbranchingPaths (loopGraphWith (5 # 1))) = Some st /\
    closedUnderRc (toRemove st) /\ closedUnderRc (toUnroll st) /\
    Z.of_nat (size (toRemove st) + size (toUnroll st)) = 2 * 1.
Proof.
  destruct (collapseHeterozygousLoops true (getUnbranchingPaths (loopGraphWith (5 # 1)))
              (loopGraphWith (5 # 1))) as [[g' n]|] eqn:Hrun.
  - assert (Hn : n = 1).
    { vm_compute in Hrun. injection Hrun as _ <-. reflexivity. }
    subst n. exact (loop_count_is_pairs _ _ _ _ Hrun).
  - vm_compute in Hrun. discriminate Hrun.
Defined.

(** * Properties of the read-path analysis *)

(** ** The index of reads by edge *)

Lemma index_edges_lookup (aln : list EdgeAlignment) (l : list nat)
    (idx : gmap nat (list (list EdgeAlignment))) (e : nat) :
  NoDup l ->
  default [] (foldr (fun e m => <[e := default [] (m !! e) ++ [aln]]> m) idx l !! e) =
  default [] (idx !! e) ++ (if decide (e ∈ l) then [aln] else []).
Proof.
  induction l as [|x l IH]; intros Hnd.
  - cbn [foldr]. destruct (decide (e ∈ [])) as [Hin|_].
    + exfalso. revert Hin. apply not_elem_of_nil.
    + rewrite app_nil_r. reflexivity.
  - apply NoDup_cons in Hnd as [Hx Hnd]. cbn [foldr].
    destruct (decide (x = e)) as [->|Hne].
    + rewrite lookup_insert_eq. cbn [default]. rewrite (IH Hnd).
      destruct (decide (e ∈ l)) as [Hin|_]; [contradiction|].
      destruct (decide (e ∈ e :: l)) as [_|Hnin].
      * rewrite app_nil_r. reflexivity.
      * exfalso. apply Hnin, list_elem_of_here.
    + rewrite lookup_insert_ne by exact Hne. rewrite (IH Hnd).
      destruct (decide (e ∈ l)) as [Hin|Hnin];
        destruct (decide (e ∈ x :: l)) as [Hin'|Hnin']; try reflexivity.
      * exfalso. apply Hnin', list_elem_of_further, Hin.
      * exfalso. apply elem_of_cons in Hin' as [Heq|Hin']; [congruence|contradiction].
Qed.

Lemma indexAlignment_lookup (idx : gmap nat (list (list EdgeAlignment)))
    (aln : list EdgeAlignment) (e : nat) :
  default [] (indexAlignment idx aln !! e) =
  default [] (idx !! e) ++
  (if decide ((1 < List.length aln)%nat /\ e ∈ alnEdges aln) then [aln] else []).
Proof.
  unfold indexAlignment.
  destruct (1 <? List.length aln)%nat eqn:Hlen.
  - apply Nat.ltb_lt in Hlen.
    rewrite index_edges_lookup by apply NoDup_elements.
    f_equal.
    destruct (decide (e ∈ elements (list_to_set (alnEdges aln) : gset nat))) as [Hin|Hnin].
    + rewrite decide_True; [reflexivity|].
      split; [exact Hlen|]. apply elem_of_elements, elem_of_list_to_set in Hin. exact Hin.
    + rewrite decide_False; [reflexivity|].
      intros [_ Hin]. apply Hnin. apply elem_of_elements, elem_of_list_to_set. exact Hin.
  - apply Nat.ltb_ge in Hlen.
    rewrite decide_False by lia. rewrite app_nil_r. reflexivity.
Qed.

Lemma buildAlnIndex_lookup (alignments : list (list EdgeAlignment)) (e : edge_ptr) :
  default [] (buildAlnIndex alignments !! e) =
  filter (fun aln => (1 < List.length aln)%nat /\ e ∈ alnEdges aln) alignments.
Proof.
  unfold buildAlnIndex.
  assert (Hgen : forall idx,
    default [] (fold_left indexAlignment alignments idx !! e) =
    default [] (idx !! e) ++
    filter (fun aln => (1 < List.length aln)%nat /\ e ∈ alnEdges aln) alignments).
  { induction alignments as [|aln rest IH]; intros idx.
    - simpl. rewrite app_nil_r. reflexivity.
    - simpl. rewrite IH, indexAlignment_lookup, filter_cons.
      destruct (decide _); rewrite <- app_assoc; reflexivity. }
  rewrite Hgen. rewrite lookup_empty. reflexivity.
Qed.

(** Lines 252-265 and the read at line 289: the index entry of an edge is
    the list of the reads of more than one edge that visit the edge, in the
    order of the reads and each read once, however often it visits. *)
Theorem index_lists_reads_through_edge (alignments : list (list EdgeAlignment)) (e : edge_ptr) :
  default [] (buildAlnIndex alignments !! e) =
  filter (fun aln => (1 < List.length aln)%nat /\ e ∈ alnEdges aln) alignments.
Proof. apply buildAlnIndex_lookup. Qed.

(** ** The paths that leave the start edge *)

Lemma suffixFrom_Some (e : edge_ptr) (aln p : list EdgeAlignment) :
  suffixFrom e aln = Some p ->
  exists pre x rest,
    aln = pre ++ x :: rest /\ p = x :: rest /\ edge x = e /\ e ∉ alnEdges pre.
Proof.
  revert p. induction aln as [|y aln IH]; intros p; [discriminate|].
  cbn [suffixFrom]. destruct (Nat.eqb (edge y) e) eqn:Heq.
  - intros [= <-]. apply Nat.eqb_eq in Heq.
    exists [], y, aln. repeat split; auto. apply not_elem_of_nil.
  - intros Hs. apply Nat.eqb_neq in Heq.
    destruct (IH _ Hs) as (pre & x & rest & -> & -> & Hx & Hpre).
    exists (y :: pre), x, rest. repeat split; auto.
    cbn. intros Hin. apply elem_of_cons in Hin as [Hin|Hin]; [congruence|contradiction].
Qed.

Lemma suffixFrom_None (e : edge_ptr) (aln : list EdgeAlignment) :
  suffixFrom e aln = None <-> e ∉ alnEdges aln.
Proof.
  induction aln as [|y aln IH]; cbn [suffixFrom].
  - split; [intros _; apply not_elem_of_nil|reflexivity].
  - destruct (Nat.eqb (edge y) e) eqn:Heq.
    + apply Nat.eqb_eq in Heq. split; [discriminate|].
      intros Hn. exfalso. apply Hn. cbn. rewrite Heq. apply list_elem_of_here.
    + apply Nat.eqb_neq in Heq. rewrite IH. cbn. rewrite elem_of_cons.
      split; [intros Hn [Hc|Hc]; [congruence|contradiction]|intros Hn Hc; apply Hn; auto].
Qed.

(** Lines 288-300: the out paths are, read by read and in the order of the
    reads, the suffix of every read that visits the start edge, taken from
    the first visit on; a read that does not visit it gives none. *)
Theorem out_paths_start_at_first_visit (startEdge : edge_ptr)
    (alns : list (list EdgeAlignment)) :
  Forall2 (fun aln p => exists pre x rest,
             aln = pre ++ x :: rest /\ p = x :: rest /\
             edge x = startEdge /\ startEdge ∉ alnEdges pre)
          (filter (fun aln => startEdge ∈ alnEdges aln) alns)
          (extractOutPaths startEdge alns).
Proof.
  unfold extractOutPaths. induction alns as [|aln alns IH].
  - constructor.
  - rewrite filter_cons. cbn [omap list_omap].
    destruct (suffixFrom startEdge aln) as [p|] eqn:Hs.
    + assert (Hin : startEdge ∈ alnEdges aln).
      { destruct (decide (startEdge ∈ alnEdges aln)) as [Hin|Hnin]; [exact Hin|].
        apply suffixFrom_None in Hnin. congruence. }
      rewrite decide_True by exact Hin.
      constructor; [|exact IH]. apply suffixFrom_Some. exact Hs.
    + apply suffixFrom_None in Hs. rewrite decide_False by exact Hs. exact IH.
Qed.

(** ** Sorting and grouping the out paths *)

Lemma StronglySorted_sublist {A : Type} (R : relation A) (l1 l2 : list A) :
  l1 `sublist_of` l2 -> StronglySorted R l2 -> StronglySorted R l1.
Proof.
  induction 1 as [|x l1 l2 Hsub IH|x l1 l2 Hsub IH]; intros Hs.
  - constructor.
  - apply StronglySorted_cons in Hs as [Hall Hs].
    apply StronglySorted_cons. split; [|auto].
    apply Forall_forall. intros y Hy.
    rewrite Forall_forall in Hall. apply Hall.
    apply (sublist_subseteq _ _ Hsub). exact Hy.
  - apply StronglySorted_cons in Hs as [_ Hs]. auto.
Qed.

Lemma insertBySpan_perm (a : list EdgeAlignment) (l : list (list EdgeAlignment)) :
  insertBySpan a l ≡ₚ a :: l.
Proof.
  induction l as [|b l IH]; [reflexivity|].
  cbn [insertBySpan]. destruct (alnSpan a <? alnSpan b); [|reflexivity].
  rewrite IH. apply Permutation_swap.
Qed.

Lemma sortBySpan_perm (l : list (list EdgeAlignment)) : sortBySpan l ≡ₚ l.
Proof.
  unfold sortBySpan. induction l as [|a l IH]; [reflexivity|].
  cbn [foldr]. rewrite insertBySpan_perm, IH. reflexivity.
Qed.

Lemma insertBySpan_sorted (a : list EdgeAlignment) (l : list (list EdgeAlignment)) :
  StronglySorted spanGe l -> StronglySorted spanGe (insertBySpan a l).
Proof.
  induction l as [|b l IH]; intros Hs.
  - cbn. apply StronglySorted_cons. split; constructor.
  - cbn [insertBySpan]. apply StronglySorted_cons in Hs as Hs'. destruct Hs' as [Hall Hl].
    destruct (alnSpan a <? alnSpan b) eqn:Hlt.
    + apply Z.ltb_lt in Hlt. apply StronglySorted_cons. split; [|auto].
      rewrite (insertBySpan_perm a l). constructor; [unfold spanGe; lia|exact Hall].
    + apply Z.ltb_ge in Hlt. apply StronglySorted_cons. split; [|exact Hs].
      constructor; [exact Hlt|].
      eapply Forall_impl; [exact Hall|]. unfold spanGe. intros c Hc. lia.
Qed.

Lemma sortBySpan_sorted (l : list (list EdgeAlignment)) :
  StronglySorted spanGe (sortBySpan l).
Proof.
  unfold sortBySpan. induction l as [|a l IH]; [constructor|].
  cbn [foldr]. apply insertBySpan_sorted, IH.
Qed.

Lemma contained_sym (a b : list EdgeAlignment) : contained a b = contained b a.
Proof.
  revert b. induction a as [|x a IH]; intros [|y b]; try reflexivity.
  cbn [contained]. rewrite (Nat.eqb_sym (edge y) (edge x)).
  destruct (Nat.eqb (edge x) (edge y)); [apply IH|reflexivity].
Qed.

(** Lines 318-341 for one path: it joins the first group whose reference
    agrees with it, or it opens a group of its own behind the others. *)
Lemma addToGroups_cases (trg : list EdgeAlignment) (groups : list PathWithScore) :
  (map pwsPath (addToGroups trg groups) = map pwsPath groups /\
   exists r, r ∈ groups /\ contained trg (pwsPath r) = true) \/
  (addToGroups trg groups = groups ++ [mkPws trg 1] /\
   Forall (fun r => contained trg (pwsPath r) = false) groups).
Proof.
  induction groups as [|r rest IH].
  - right. split; [reflexivity|constructor].
  - cbn [addToGroups]. destruct (contained trg (pwsPath r)) eqn:Hc.
    + left. split; [reflexivity|]. exists r. split; [apply list_elem_of_here|exact Hc].
    + destruct IH as [[Hmap [r' [Hin Hr']]]|[Heq Hall]].
      * left. split; [cbn; rewrite Hmap; reflexivity|].
        exists r'. split; [apply list_elem_of_further, Hin|exact Hr'].
      * right. split; [rewrite Heq; reflexivity|]. constructor; [exact Hc|exact Hall].
Qed.

Lemma addToGroups_scoreSum (trg : list EdgeAlignment) (groups : list PathWithScore) :
  scoreSum (addToGroups trg groups) = scoreSum groups + 1.
Proof.
  induction groups as [|r rest IH]; [reflexivity|].
  cbn [addToGroups]. destruct (contained trg (pwsPath r)).
  - unfold scoreSum. cbn. lia.
  - unfold scoreSum in *. cbn [foldr]. rewrite IH. lia.
Qed.

Lemma addToGroups_positive (trg : list EdgeAlignment) (groups : list PathWithScore) :
  Forall (fun r => 1 <= score r) groups ->
  Forall (fun r => 1 <= score r) (addToGroups trg groups).
Proof.
  induction groups as [|r rest IH]; intros Hall.
  - cbn. constructor; [cbn; lia|constructor].
  - apply Forall_cons in Hall as [Hr Hall]. cbn [addToGroups].
    destruct (contained trg (pwsPath r)).
    + constructor; [cbn; lia|exact Hall].
    + constructor; [exact Hr|auto].
Qed.

Lemma groupPaths_fold (l : list (list EdgeAlignment)) :
  forall groups,
    StronglySorted apart (map pwsPath groups) ->
    Forall (fun r => 1 <= score r) groups ->
    let out := fold_left (fun groups trg => addToGroups trg groups) l groups in
    scoreSum out = scoreSum groups + Z.of_nat (List.length l) /\
    (exists sub, map pwsPath out = map pwsPath groups ++ sub /\ sub `sublist_of` l) /\
    StronglySorted apart (map pwsPath out) /\
    Forall (fun r => 1 <= score r) out /\
    (forall p, p ∈ l -> exists r, r ∈ out /\ contained p (pwsPath r) = true).
Proof.
  induction l as [|trg l IH]; intros groups Hs Hpos; cbn zeta.
  - cbn [fold_left]. split; [cbn; lia|]. split.
    + exists []. rewrite app_nil_r. split; [reflexivity|constructor].
    + split; [exact Hs|]. split; [exact Hpos|].
      intros p Hp. exfalso. revert Hp. apply not_elem_of_nil.
  - cbn [fold_left].
    assert (Hs' : StronglySorted apart (map pwsPath (addToGroups trg groups))).
    { destruct (addToGroups_cases trg groups) as [[Hmap _]|[Heq Hall]].
      - rewrite Hmap. exact Hs.
      - rewrite Heq, map_app. apply StronglySorted_app. split; [|split].
        + intros a b Ha Hb. cbn in Hb. apply list_elem_of_singleton in Hb. subst b.
          apply list_elem_of_fmap in Ha as [r [-> Hr]].
          rewrite Forall_forall in Hall. apply Hall. exact Hr.
        + exact Hs.
        + cbn. apply StronglySorted_cons. split; constructor. }
    specialize (IH _ Hs' (addToGroups_positive trg groups Hpos)). cbn zeta in IH.
    destruct IH as (Hsum & (sub & Hmap & Hsub) & Hso & Hpo & Hcov).
    split; [rewrite Hsum, addToGroups_scoreSum; cbn [List.length]; lia|]. split.
    + destruct (addToGroups_cases trg groups) as [[Hm _]|[Heq _]].
      * exists sub. split; [rewrite Hmap, Hm; reflexivity|].
        apply sublist_cons. exact Hsub.
      * exists (trg :: sub). split.
        -- rewrite Hmap, Heq, map_app, <- app_assoc. reflexivity.
        -- apply sublist_skip. exact Hsub.
    + split; [exact Hso|]. split; [exact Hpo|].
      intros p Hp. apply elem_of_cons in Hp as [->|Hp]; [|auto].
      (* the group [trg] joined is still there, with the same reference *)
      assert (Hin : exists r, r ∈ addToGroups trg groups /\ contained trg (pwsPath r) = true).
      { destruct (addToGroups_cases trg groups) as [[Hm [r [Hr Hc]]]|[Heq _]].
        - assert (Hp : pwsPath r ∈ map pwsPath (addToGroups trg groups)).
          { rewrite Hm. apply list_elem_of_fmap. eauto. }
          apply list_elem_of_fmap in Hp as [r' [Hr' Hin']].
          exists r'. split; [exact Hin'|]. rewrite <- Hr'. exact Hc.
        - exists (mkPws trg 1). split.
          + rewrite Heq. apply elem_of_app. right. apply list_elem_of_here.
          + cbn. clear. induction trg as [|x t IHt]; [reflexivity|].
            cbn. rewrite Nat.eqb_refl. exact IHt. }
      destruct Hin as [r [Hr Hc]].
      assert (Hp : pwsPath r ∈ map pwsPath
                 (fold_left (fun groups trg => addToGroups trg groups) l
                            (addToGroups trg groups))).
      { rewrite Hmap. apply elem_of_app. left. apply list_elem_of_fmap. eauto. }
      apply list_elem_of_fmap in Hp as [r' [Hr' Hin']].
      exists r'. split; [exact Hin'|]. rewrite <- Hr'. exact Hc.
Qed.

Lemma StronglySorted_lookup {A : Type} (R : relation A) (l : list A) :
  StronglySorted R l ->
  forall i j a b, (i < j)%nat -> l !! i = Some a -> l !! j = Some b -> R a b.
Proof.
  induction 1 as [|x l Hs IH Hall]; intros i j a b Hij Hi Hj.
  - rewrite lookup_nil in Hi. discriminate.
  - destruct j as [|j]; [lia|]. destruct i as [|i].
    + cbn in Hi, Hj. injection Hi as <-.
      rewrite Forall_forall in Hall. apply Hall.
      apply list_elem_of_lookup. eauto.
    + cbn in Hi, Hj. apply (IH i j); [lia|exact Hi|exact Hj].
Qed.

Lemma groupPaths_spec (l : list (list EdgeAlignment)) :
  scoreSum (groupPaths l) = Z.of_nat (List.length l) /\
  map pwsPath (groupPaths l) `sublist_of` l /\
  StronglySorted apart (map pwsPath (groupPaths l)) /\
  Forall (fun r => 1 <= score r) (groupPaths l) /\
  (forall p, p ∈ l -> exists r, r ∈ groupPaths l /\ contained p (pwsPath r) = true).
Proof.
  unfold groupPaths.
  destruct (groupPaths_fold l [])
    as (Hsum & (sub & Hmap & Hsub) & Hso & Hpo & Hcov).
  - constructor.
  - constructor.
  - cbn zeta in *. split; [rewrite Hsum; cbn; lia|].
    split; [rewrite Hmap; exact Hsub|]. auto.
Qed.

(** Lines 316-342: every out path is counted in exactly one group, so the
    scores add up to the number of out paths; the reference of a group is
    one of the out paths, in their order; the references of two groups
    disagree on some edge of their common prefix; and every out path agrees
    with the reference of some group. *)
Theorem grouping_accounts_for_every_path (outPaths : list (list EdgeAlignment)) :
  scoreSum (groupPaths outPaths) = Z.of_nat (List.length outPaths) /\
  map pwsPath (groupPaths outPaths) `sublist_of` outPaths /\
  (forall i j gi gj, i <> j ->
     groupPaths outPaths !! i = Some gi -> groupPaths outPaths !! j = Some gj ->
     contained (pwsPath gi) (pwsPath gj) = false) /\
  (forall p, p ∈ outPaths ->
     exists r, r ∈ groupPaths outPaths /\ contained p (pwsPath r) = true).
Proof.
  destruct (groupPaths_spec outPaths) as (Hsum & Hsub & Hso & _ & Hcov).
  split; [exact Hsum|]. split; [exact Hsub|]. split; [|exact Hcov].
  intros i j gi gj Hij Hi Hj.
  assert (Hi' : map pwsPath (groupPaths outPaths) !! i = Some (pwsPath gi)).
  { rewrite list_lookup_fmap, Hi. reflexivity. }
  assert (Hj' : map pwsPath (groupPaths outPaths) !! j = Some (pwsPath gj)).
  { rewrite list_lookup_fmap, Hj. reflexivity. }
  destruct (Nat.lt_ge_cases i j) as [Hlt|Hge].
  - rewrite contained_sym.
    exact (StronglySorted_lookup _ _ Hso i j _ _ Hlt Hi' Hj').
  - assert (Hlt : (j < i)%nat) by lia.
    exact (StronglySorted_lookup _ _ Hso j i _ _ Hlt Hj' Hi').
Qed.

(** Lines 302-346: the groups that survive the score filter are in the
    order of their reference paths' spans, longest first, so that the
    reference path of line 365 is a longest one among them. *)
Theorem surviving_groups_longest_first (outPaths : list (list EdgeAlignment)) (minS : Z) :
  StronglySorted spanGe
    (map pwsPath (dropWeakGroups minS (groupPaths (sortBySpan outPaths)))).
Proof.
  destruct (groupPaths_spec (sortBySpan outPaths)) as (_ & Hsub & _).
  apply (StronglySorted_sublist _ _ (sortBySpan outPaths)); [|apply sortBySpan_sorted].
  etransitivity; [|exact Hsub].
  apply fmap_sublist. unfold dropWeakGroups. apply sublist_filter.
Qed.

(** ** Repeats and convergence edges *)

Lemma occurrences_visits (e : edge_ptr) (aln : list EdgeAlignment) :
  (1 <= occurrences e aln)%nat <-> e ∈ alnEdges aln.
Proof.
  induction aln as [|x aln IH].
  - cbn. split; [lia|]. intros Hin. exfalso. revert Hin. apply not_elem_of_nil.
  - rewrite occurrences_cons. cbn [alnEdges map]. rewrite elem_of_cons.
    destruct (Nat.eqb (edge x) e) eqn:Heq.
    + apply Nat.eqb_eq in Heq. split; [auto|lia].
    + apply Nat.eqb_neq in Heq. rewrite IH. unfold alnEdges.
      split; [auto|]. intros [Hc|Hin]; [congruence|exact Hin].
Qed.

Lemma groupRepeats_fold (e : edge_ptr) (aln : list EdgeAlignment) :
  forall seen rep : gset nat,
    e ∈ snd (fold_left (fun '(seen, rep) x =>
                          ((({[edge x]} : gset nat) ∪ seen),
                           if decide (edge x ∈ seen) then {[edge x]} ∪ rep else rep))
                       aln (seen, rep)) <->
    e ∈ rep \/ (e ∈ seen /\ e ∈ alnEdges aln) \/ (2 <= occurrences e aln)%nat.
Proof.
  induction aln as [|x aln IH]; intros seen rep.
  - cbn. split; [auto|]. intros [Hr|[[_ Hin]|Hocc]]; [exact Hr| |lia].
    exfalso. revert Hin. apply not_elem_of_nil.
  - cbn [fold_left]. rewrite IH. rewrite occurrences_cons.
    cbn [alnEdges map]. rewrite elem_of_cons, elem_of_union, elem_of_singleton.
    pose proof (occurrences_visits e aln) as Hvis. unfold alnEdges in *.
    destruct (Nat.eqb (edge x) e) eqn:Heq.
    + apply Nat.eqb_eq in Heq. subst e.
      destruct (decide (edge x ∈ seen)) as [Hs|Hs].
      * rewrite elem_of_union, elem_of_singleton. split; [|auto].
        intros _. right. left. auto.
      * split.
        -- intros [Hr|[[_ Hin]|Hocc]]; [auto| |].
           ++ right. right. apply Hvis in Hin. lia.
           ++ right. right. lia.
        -- intros [Hr|[[Hc _]|Hocc]]; [auto|contradiction|].
           right. left. split; [auto|]. apply Hvis. lia.
    + apply Nat.eqb_neq in Heq.
      assert (Hrep : e ∈ (if decide (edge x ∈ seen) then {[edge x]} ∪ rep else rep) <->
                     e ∈ rep).
      { destruct (decide (edge x ∈ seen)); [|reflexivity].
        rewrite elem_of_union, elem_of_singleton.
        split; [intros [Hc|Hr]; [congruence|exact Hr]|auto]. }
      rewrite Hrep. split.
      * intros [Hr|[[[Hc|Hs] Hin]|Hocc]]; [auto|congruence|auto|auto].
      * intros [Hr|[[Hs [Hc|Hin]]|Hocc]]; [auto|congruence|auto|auto].
Qed.

Lemma groupRepeats_spec (e : edge_ptr) (aln : list EdgeAlignment) (rep : gset nat) :
  e ∈ groupRepeats aln rep <-> e ∈ rep \/ (2 <= occurrences e aln)%nat.
Proof.
  unfold groupRepeats. rewrite groupRepeats_fold. split.
  - intros [Hr|[[Hc _]|Hocc]]; [auto| |auto]. exfalso. revert Hc. apply not_elem_of_empty.
  - intros [Hr|Hocc]; auto.
Qed.

Lemma findRepeats_elem (groups : list PathWithScore) (e : edge_ptr) :
  e ∈ findRepeats groups <->
  exists gr, gr ∈ groups /\ (2 <= occurrences e (pwsPath gr))%nat.
Proof.
  unfold findRepeats.
  assert (Hgen : forall rep : gset nat,
    e ∈ fold_left (fun rep gr => groupRepeats (pwsPath gr) rep) groups rep <->
    e ∈ rep \/ exists gr, gr ∈ groups /\ (2 <= occurrences e (pwsPath gr))%nat).
  { induction groups as [|g0 groups IH]; intros rep.
    - cbn. split; [auto|]. intros [Hr|[gr [Hin _]]]; [exact Hr|].
      exfalso. revert Hin. apply not_elem_of_nil.
    - cbn [fold_left]. rewrite IH, groupRepeats_spec. split.
      + intros [[Hr|Hocc]|[gr [Hin Hocc]]]; [auto| |].
        * right. exists g0. split; [apply list_elem_of_here|exact Hocc].
        * right. exists gr. split; [apply list_elem_of_further, Hin|exact Hocc].
      + intros [Hr|[gr [Hin Hocc]]]; [auto|].
        apply elem_of_cons in Hin as [->|Hin]; [auto|]. right. eauto. }
  rewrite Hgen. split.
  - intros [Hc|Hex]; [|exact Hex]. exfalso. revert Hc. apply not_elem_of_empty.
  - auto.
Qed.

(** Lines 349-361: the repeats are the edges that some group visits more
    than once. *)
Theorem repeats_are_revisited_edges (groups : list PathWithScore) (e : edge_ptr) :
  e ∈ findRepeats groups <->
  exists gr, gr ∈ groups /\ (2 <= occurrences e (pwsPath gr))%nat.
Proof. apply findRepeats_elem. Qed.

Lemma convergence_elem (loopedEdges repeats : gset nat)
    (ref : PathWithScore) (others : list PathWithScore) (e : edge_ptr) :
  e ∈ convergence loopedEdges repeats ref others <->
  e ∈ groupEdges ref /\ (e ∉ loopedEdges) /\ (e ∉ repeats) /\
  forall gr, gr ∈ others -> e ∈ groupEdges gr.
Proof.
  unfold convergence, groupEdges.
  assert (Hgen : forall conv : gset nat,
    e ∈ fold_left
          (fun conv gr =>
             list_to_set (filter (fun e => e ∈ conv) (alnEdges (pwsPath gr))))
          others conv <->
    e ∈ conv /\ forall gr, gr ∈ others -> e ∈ alnEdges (pwsPath gr)).
  { induction others as [|g0 others IH]; intros conv.
    - cbn. split; [|tauto]. intros Hc. split; [exact Hc|].
      intros gr Hin. exfalso. revert Hin. apply not_elem_of_nil.
    - cbn [fold_left]. rewrite IH, elem_of_list_to_set, list_elem_of_filter. split.
      + intros [[Hc H0] Hall]. split; [exact Hc|].
        intros gr Hin. apply elem_of_cons in Hin as [->|Hin]; auto.
      + intros [Hc Hall]. split; [split; [exact Hc|]|].
        * apply Hall, list_elem_of_here.
        * intros gr Hin. apply Hall, list_elem_of_further, Hin. }
  rewrite Hgen, elem_of_list_to_set, list_elem_of_filter. tauto.
Qed.

(** Lines 366-386: the convergence edges are the edges of the reference
    path that are neither looped nor repeats and that every other group
    visits as well. *)
Theorem convergence_edges_are_shared (loopedEdges repeats : gset nat)
    (ref : PathWithScore) (others : list PathWithScore) (e : edge_ptr) :
  e ∈ convergence loopedEdges repeats ref others <->
  e ∈ groupEdges ref /\ (e ∉ loopedEdges) /\ (e ∉ repeats) /\
  forall gr, gr ∈ others -> e ∈ groupEdges gr.
Proof. apply convergence_elem. Qed.

Lemma convergence_once (loopedEdges : gset nat)
    (ref : PathWithScore) (others : list PathWithScore) (e : edge_ptr) :
  e ∈ convergence loopedEdges (findRepeats (ref :: others)) ref others ->
  forall gr, gr ∈ ref :: others -> occurrences e (pwsPath gr) = 1%nat.
Proof.
  intros Hconv gr Hin.
  apply convergence_elem in Hconv as (Href & _ & Hrep & Hall).
  assert (Hvis : e ∈ alnEdges (pwsPath gr)).
  { apply elem_of_cons in Hin as [->|Hin]; [exact Href|apply Hall, Hin]. }
  apply occurrences_visits in Hvis.
  assert (Hle : ~ (2 <= occurrences e (pwsPath gr))%nat).
  { intros Hocc. apply Hrep. apply findRepeats_elem. eauto. }
  lia.
Qed.

(** Lines 349-386 together: a convergence edge is visited exactly once by
    the reference path and by every other group. *)
Theorem convergence_edges_visited_once (loopedEdges : gset nat)
    (ref : PathWithScore) (others : list PathWithScore) (e : edge_ptr) :
  e ∈ convergence loopedEdges (findRepeats (ref :: others)) ref others ->
  forall gr, gr ∈ ref :: others -> occurrences e (pwsPath gr) = 1%nat.
Proof. apply convergence_once. Qed.

(** ** The search for the start of the bubble *)

Lemma contained_refl (a : list EdgeAlignment) : contained a a = true.
Proof.
  induction a as [|x a IH]; [reflexivity|]. cbn. rewrite Nat.eqb_refl. exact IH.
Qed.

Lemma contained_false_nonempty (a b : list EdgeAlignment) :
  contained a b = false -> (0 < List.length a)%nat /\ (0 < List.length b)%nat.
Proof.
  destruct a as [|x a]; [discriminate|]. destruct b as [|y b]; [discriminate|].
  intros _. cbn. lia.
Qed.

(** Two paths that disagree somewhere on their common prefix and agree on
    the positions [0 .. k] both reach beyond position [k + 1]. *)
Lemma agreeTo_longer (a b : list EdgeAlignment) (k : nat) :
  contained a b = false -> agreeTo k a b ->
  (k + 1 < List.length a)%nat /\ (k + 1 < List.length b)%nat.
Proof.
  revert b k. induction a as [|x a IH]; intros b k; [discriminate|].
  destruct b as [|y b]; [discriminate|].
  intros Hc Hag.
  assert (Hxy : edge x = edge y).
  { destruct (Hag 0%nat) as (x' & y' & Hx & Hy & Heq); [lia|].
    cbn in Hx, Hy. congruence. }
  cbn [contained] in Hc. apply Nat.eqb_eq in Hxy. rewrite Hxy in Hc.
  destruct k as [|k].
  - apply contained_false_nonempty in Hc. cbn [List.length]. lia.
  - destruct (IH b k Hc) as [Ha Hb].
    + intros i Hi. destruct (Hag (S i)) as (x' & y' & Hx & Hy & Heq); [lia|].
      exists x', y'. auto.
    + cbn [List.length]. lia.
Qed.

Lemma agreement_true (conv : gset nat) (ref : list EdgeAlignment)
    (others : list PathWithScore) (k : nat) :
  agreement conv ref others k = Some true ->
  forall gr, gr ∈ others ->
    exists r x, ref !! (k + 1)%nat = Some r /\ pwsPath gr !! (k + 1)%nat = Some x /\
                edge r ∈ conv /\ edge x = edge r.
Proof.
  induction others as [|g0 others IH]; intros Hag gr Hin.
  - exfalso. revert Hin. apply not_elem_of_nil.
  - cbn [agreement] in Hag.
    destruct (List.length (pwsPath g0) <=? k + 1)%nat; [discriminate|].
    destruct (ref !! (k + 1)%nat) as [r|] eqn:Hr; [|discriminate].
    destruct (pwsPath g0 !! (k + 1)%nat) as [x|] eqn:Hx; [|discriminate].
    destruct (decide (edge r ∈ conv)) as [Hc|]; [|discriminate].
    destruct (Nat.eqb (edge x) (edge r)) eqn:Heq; [|discriminate].
    apply Nat.eqb_eq in Heq.
    apply elem_of_cons in Hin as [->|Hin].
    + exists r, x. auto.
    + apply IH; assumption.
Qed.

Lemma agreement_defined (conv : gset nat) (ref : list EdgeAlignment)
    (others : list PathWithScore) (k : nat) :
  (k + 1 < List.length ref)%nat -> is_Some (agreement conv ref others k).
Proof.
  intros Hlen. induction others as [|g0 others IH]; [cbn; eauto|].
  cbn [agreement].
  destruct (List.length (pwsPath g0) <=? k + 1)%nat eqn:Hl; [eauto|].
  apply Nat.leb_gt in Hl.
  destruct (lookup_lt_is_Some_2 ref (k + 1)%nat Hlen) as [r ->].
  destruct (lookup_lt_is_Some_2 (pwsPath g0) (k + 1)%nat Hl) as [x ->].
  destruct (decide (edge r ∈ conv)); [|eauto].
  destruct (Nat.eqb (edge x) (edge r)); [exact IH|eauto].
Qed.

(** Lines 389-406 on groups that start with the same edge and disagree
    with the reference somewhere: the search reads no position that is out
    of range, it stops, and it stops before the last position of the
    reference path. *)
Lemma findBubbleStart_safe (conv : gset nat) (ref : list EdgeAlignment)
    (other : PathWithScore) (rest : list PathWithScore) :
  (forall gr, gr ∈ other :: rest -> contained (pwsPath gr) ref = false) ->
  forall fuel k,
    (List.length (pwsPath other) <= k + fuel + 1)%nat ->
    (forall gr, gr ∈ other :: rest -> agreeTo k (pwsPath gr) ref) ->
    exists k',
      findBubbleStart fuel conv ref (other :: rest) k = Some k' /\
      (k <= k')%nat /\ (k' + 1 < List.length ref)%nat /\
      (forall gr, gr ∈ other :: rest -> agreeTo k' (pwsPath gr) ref) /\
      (forall i r, (k < i <= k')%nat -> ref !! i = Some r -> edge r ∈ conv) /\
      agreement conv ref (other :: rest) k' = Some false.
Proof.
  intros Hapart. induction fuel as [|fuel IH]; intros k Hfuel Hag.
  - destruct (agreeTo_longer (pwsPath other) ref k) as [Ho Hr].
    { apply Hapart, list_elem_of_here. }
    { apply Hag, list_elem_of_here. }
    lia.
  - destruct (agreeTo_longer (pwsPath other) ref k) as [Ho Hr].
    { apply Hapart, list_elem_of_here. }
    { apply Hag, list_elem_of_here. }
    cbn [findBubbleStart].
    destruct (agreement_defined conv ref (other :: rest) k Hr) as [[|] Hb]; rewrite Hb.
    + assert (Hag' : forall gr, gr ∈ other :: rest -> agreeTo (S k) (pwsPath gr) ref).
      { intros gr Hin i Hi.
        destruct (decide (i = S k)) as [->|Hne].
        - destruct (agreement_true _ _ _ _ Hb gr Hin) as (r & x & Href & Hx & _ & Heq).
          replace (S k) with (k + 1)%nat by lia. exists x, r. auto.
        - apply (Hag gr Hin). lia. }
      destruct (IH (S k)) as (k' & Hres & Hle & Hlt & Hagk & Hconv & Hstop).
      { lia. }
      { exact Hag'. }
      exists k'. split; [exact Hres|]. split; [lia|]. split; [exact Hlt|].
      split; [exact Hagk|]. split; [|exact Hstop].
      intros i r Hi Hri. destruct (decide (i = S k)) as [->|Hne].
      * destruct (agreement_true _ _ _ _ Hb other (list_elem_of_here _ _))
          as (r' & x & Href & _ & Hc & _).
        replace (k + 1)%nat with (S k) in Href by lia. congruence.
      * apply (Hconv i r); [lia|exact Hri].
    + exists k. split; [reflexivity|]. split; [lia|]. split; [exact Hr|].
      split; [exact Hag|]. split; [|exact Hb]. intros i r Hi. lia.
Qed.

Lemma extractOutPaths_head (startEdge : edge_ptr) (alns : list (list EdgeAlignment))
    (p : list EdgeAlignment) :
  p ∈ extractOutPaths startEdge alns ->
  exists x rest, p = x :: rest /\ edge x = startEdge.
Proof.
  unfold extractOutPaths. intros Hin.
  apply list_elem_of_omap in Hin as (aln & _ & Hs).
  apply suffixFrom_Some in Hs as (pre & x & rest & _ & -> & Hx & _). eauto.
Qed.

(** The groups of one start edge: their references are out paths, so they
    start with the start edge, and they disagree pairwise. *)
Lemma pathGroupsOf_spec (startEdge : edge_ptr) (alns : list (list EdgeAlignment)) :
  StronglySorted apart (map pwsPath (pathGroupsOf startEdge alns)) /\
  forall gr, gr ∈ pathGroupsOf startEdge alns ->
    exists x rest, pwsPath gr = x :: rest /\ edge x = startEdge.
Proof.
  unfold pathGroupsOf. cbn zeta.
  set (outPaths := sortBySpan (extractOutPaths startEdge alns)).
  destruct (groupPaths_spec outPaths) as (_ & Hsub & Hso & _).
  assert (Hfil : map pwsPath (dropWeakGroups (minScore (List.length outPaths))
                                             (groupPaths outPaths))
                 `sublist_of` map pwsPath (groupPaths outPaths)).
  { apply fmap_sublist. unfold dropWeakGroups. apply sublist_filter. }
  split.
  - exact (StronglySorted_sublist _ _ _ Hfil Hso).
  - intros gr Hin. apply (extractOutPaths_head startEdge alns).
    rewrite <- (sortBySpan_perm (extractOutPaths startEdge alns)).
    apply (sublist_subseteq _ _ Hsub). apply (sublist_subseteq _ _ Hfil).
    apply list_elem_of_fmap. eauto.
Qed.

(** Lines 389-406 on the groups of a start edge: the search for the start
    of the bubble reads no position out of range and stops, at a position
    the reference path continues beyond; up to that position every other
    group visits the edges the reference path visits. *)
Theorem bubble_start_search_is_safe (startEdge : edge_ptr)
    (alns : list (list EdgeAlignment)) (conv : gset nat)
    (ref other : PathWithScore) (rest : list PathWithScore) :
  pathGroupsOf startEdge alns = ref :: other :: rest ->
  exists k,
    findBubbleStart (List.length (pwsPath other)) conv (pwsPath ref) (other :: rest) 0
      = Some k /\
    (k + 1 < List.length (pwsPath ref))%nat /\
    (forall gr, gr ∈ other :: rest -> agreeTo k (pwsPath gr) (pwsPath ref)) /\
    agreement conv (pwsPath ref) (other :: rest) k = Some false.
Proof.
  intros Hgroups.
  destruct (pathGroupsOf_spec startEdge alns) as [Hso Hhead].
  rewrite Hgroups in Hso, Hhead.
  cbn [map] in Hso. apply StronglySorted_cons in Hso as [Hall _].
  assert (Hapart : forall gr, gr ∈ other :: rest ->
                     contained (pwsPath gr) (pwsPath ref) = false).
  { intros gr Hin. rewrite Forall_forall in Hall. apply (Hall (pwsPath gr)).
    change (pwsPath other :: map pwsPath rest) with (map pwsPath (other :: rest)).
    apply list_elem_of_fmap. eauto. }
  destruct (findBubbleStart_safe conv (pwsPath ref) other rest Hapart
              (List.length (pwsPath other)) 0%nat)
    as (k & Hres & _ & Hlt & Hag & _ & Hstop).
  - lia.
  - intros gr Hin i Hi. assert (i = 0%nat) as -> by lia.
    destruct (Hhead gr) as (x & xs & Hx & Hex); [apply list_elem_of_further, Hin|].
    destruct (Hhead ref) as (y & ys & Hy & Hey); [apply list_elem_of_here|].
    exists x, y. rewrite Hx, Hy. cbn. split; [reflexivity|].
    split; [reflexivity|congruence].
  - exists k. auto.
Qed.

(** ** The end of the bubble *)

Lemma findBubbleEnd_Some (conv : gset nat) (rest : list EdgeAlignment) :
  forall i j,
    findBubbleEnd conv rest i = Some j <->
    (i <= j)%nat /\
    (exists x, rest !! (j - i)%nat = Some x /\ edge x ∈ conv) /\
    (forall m x, (m < j - i)%nat -> rest !! m = Some x -> edge x ∉ conv).
Proof.
  induction rest as [|y rest IH]; intros i j; cbn [findBubbleEnd].
  - split; [discriminate|]. intros (_ & (x & Hx & _) & _).
    rewrite lookup_nil in Hx. discriminate.
  - destruct (decide (edge y ∈ conv)) as [Hy|Hy].
    + split.
      * intros [= <-]. split; [lia|]. rewrite Nat.sub_diag. split.
        -- exists y. auto.
        -- intros m x Hm. lia.
      * intros (Hij & (x & Hx & Hc) & Hmin).
        destruct (decide (j = i)) as [->|Hne]; [reflexivity|].
        exfalso. apply (Hmin 0%nat y); [lia|reflexivity|exact Hy].
    + rewrite IH. split.
      * intros (Hij & (x & Hx & Hc) & Hmin). split; [lia|]. split.
        -- exists x. replace (j - i)%nat with (S (j - S i)) by lia. auto.
        -- intros m z Hm Hz. destruct m as [|m].
           ++ cbn in Hz. injection Hz as <-. exact Hy.
           ++ cbn in Hz. apply (Hmin m z); [lia|exact Hz].
      * intros (Hij & (x & Hx & Hc) & Hmin).
        assert (Hne : j <> i).
        { intros ->. rewrite Nat.sub_diag in Hx. cbn in Hx. injection Hx as <-.
          contradiction. }
        split; [lia|]. split.
        -- exists x. replace (j - i)%nat with (S (j - S i)) in Hx by lia. auto.
        -- intros m z Hm Hz. apply (Hmin (S m) z); [lia|exact Hz].
Qed.

Lemma findBubbleEnd_None (conv : gset nat) (rest : list EdgeAlignment) :
  forall i,
    findBubbleEnd conv rest i = None <-> Forall (fun x => edge x ∉ conv) rest.
Proof.
  induction rest as [|y rest IH]; intros i; cbn [findBubbleEnd].
  - split; [constructor|reflexivity].
  - destruct (decide (edge y ∈ conv)) as [Hy|Hy].
    + split; [discriminate|]. intros Hall. apply Forall_cons in Hall as [Hc _].
      contradiction.
    + rewrite IH. split; [intros Hall; constructor; assumption|].
      intros Hall. apply Forall_cons in Hall as [_ Hall]. exact Hall.
Qed.

(** Lines 409-419: the end of the bubble is the first position behind the
    start at which the reference path visits a convergence edge, and the
    start edge is skipped when there is none. *)
Theorem bubble_end_is_first_convergence_edge (conv : gset nat)
    (ref : list EdgeAlignment) (bubbleStartId : nat) :
  (forall j,
     findBubbleEnd conv (drop (S bubbleStartId) ref) (S bubbleStartId) = Some j <->
     (bubbleStartId < j)%nat /\
     (exists x, ref !! j = Some x /\ edge x ∈ conv) /\
     (forall i x, (bubbleStartId < i < j)%nat -> ref !! i = Some x -> edge x ∉ conv)) /\
  (findBubbleEnd conv (drop (S bubbleStartId) ref) (S bubbleStartId) = None <->
   forall i x, (bubbleStartId < i)%nat -> ref !! i = Some x -> edge x ∉ conv).
Proof.
  split.
  - intros j. rewrite findBubbleEnd_Some. split.
    + intros (Hle & (x & Hx & Hc) & Hmin). split; [lia|]. split.
      * exists x. rewrite lookup_drop in Hx.
        replace (S bubbleStartId + (j - S bubbleStartId))%nat with j in Hx by lia. auto.
      * intros i x' Hi Hx'. apply (Hmin (i - S bubbleStartId)%nat x'); [lia|].
        rewrite lookup_drop.
        replace (S bubbleStartId + (i - S bubbleStartId))%nat with i by lia. exact Hx'.
    + intros (Hlt & (x & Hx & Hc) & Hmin). split; [lia|]. split.
      * exists x. rewrite lookup_drop.
        replace (S bubbleStartId + (j - S bubbleStartId))%nat with j by lia. auto.
      * intros m x' Hm Hx'. rewrite lookup_drop in Hx'.
        apply (Hmin (S bubbleStartId + m)%nat x'); [lia|exact Hx'].
  - rewrite findBubbleEnd_None, Forall_lookup. split.
    + intros Hall i x Hi Hx. apply (Hall (i - S bubbleStartId)%nat x).
      rewrite lookup_drop.
      replace (S bubbleStartId + (i - S bubbleStartId))%nat with i by lia. exact Hx.
    + intros Hall m x Hx. rewrite lookup_drop in Hx.
      apply (Hall (S bubbleStartId + m)%nat x); [lia|exact Hx].
Qed.

(** ** Trimming the groups into branches *)

Lemma sameEdges_iff (a b : list EdgeAlignment) :
  sameEdges a b = true <-> alnEdges a = alnEdges b.
Proof.
  unfold sameEdges. rewrite bool_decide_eq_true. reflexivity.
Qed.

Lemma addBranch_new (branches : list PathWithScore) (nb : PathWithScore) :
  groupEdges nb ∉ map groupEdges branches ->
  addBranch branches nb = branches ++ [nb].
Proof.
  intros Hnew. unfold addBranch.
  destruct (existsb _ branches) eqn:Hex; [|reflexivity].
  exfalso. apply existsb_exists in Hex as (b & Hin & Hsame).
  apply sameEdges_iff in Hsame. apply Hnew.
  apply list_elem_of_fmap. exists b. split; [exact Hsame|].
  apply list_elem_of_In. exact Hin.
Qed.

Lemma addBranch_old (branches : list PathWithScore) (nb : PathWithScore) :
  groupEdges nb ∈ map groupEdges branches ->
  addBranch branches nb =
  map (fun b => if sameEdges (pwsPath nb) (pwsPath b)
                then mkPws (pwsPath b) (score b + score nb) else b) branches.
Proof.
  intros Hold. unfold addBranch.
  destruct (existsb _ branches) eqn:Hex; [reflexivity|].
  exfalso. apply list_elem_of_fmap in Hold as (b & Heq & Hin).
  assert (Hex' : existsb (fun b => sameEdges (pwsPath nb) (pwsPath b)) branches = true).
  { apply existsb_exists. exists b. split; [apply list_elem_of_In, Hin|].
    apply sameEdges_iff. exact Heq. }
  congruence.
Qed.

Lemma addBranch_edges (branches : list PathWithScore) (nb : PathWithScore) :
  map groupEdges (addBranch branches nb) =
  if decide (groupEdges nb ∈ map groupEdges branches)
  then map groupEdges branches
  else map groupEdges branches ++ [groupEdges nb].
Proof.
  destruct (decide _) as [Hold|Hnew].
  - rewrite (addBranch_old _ _ Hold). clear Hold.
    induction branches as [|b branches IH]; [reflexivity|].
    cbn [map]. rewrite IH. f_equal.
    destruct (sameEdges (pwsPath nb) (pwsPath b)); reflexivity.
  - rewrite (addBranch_new _ _ Hnew), map_app. reflexivity.
Qed.

Lemma addBranch_scoreSum (branches : list PathWithScore) (nb : PathWithScore) :
  NoDup (map groupEdges branches) ->
  scoreSum (addBranch branches nb) = scoreSum branches + score nb.
Proof.
  intros Hnd.
  destruct (decide (groupEdges nb ∈ map groupEdges branches)) as [Hold|Hnew].
  - rewrite (addBranch_old _ _ Hold).
    induction branches as [|b branches IH]; [exfalso; revert Hold; apply not_elem_of_nil|].
    cbn [map] in Hnd. apply NoDup_cons in Hnd as [Hb Hnd].
    cbn [map]. unfold scoreSum in *. cbn [foldr].
    destruct (sameEdges (pwsPath nb) (pwsPath b)) eqn:Hsame.
    + apply sameEdges_iff in Hsame.
      assert (Hrest : map (fun b0 => if sameEdges (pwsPath nb) (pwsPath b0)
                                     then mkPws (pwsPath b0) (score b0 + score nb) else b0)
                          branches = branches).
      { clear IH Hold Hnd. induction branches as [|c branches IHb]; [reflexivity|].
        cbn [map]. 
        assert (Hc : sameEdges (pwsPath nb) (pwsPath c) = false).
        { destruct (sameEdges (pwsPath nb) (pwsPath c)) eqn:Hs; [|reflexivity].
          exfalso. apply sameEdges_iff in Hs. apply Hb. cbn [map].
          unfold groupEdges at 1. rewrite <- Hsame, Hs. apply list_elem_of_here. }
        rewrite Hc. f_equal. apply IHb.
        intros Hin. apply Hb. cbn [map]. apply list_elem_of_further. exact Hin. }
      rewrite Hrest. cbn [score]. lia.
    + rewrite IH; [lia|exact Hnd|].
      cbn [map] in Hold. apply elem_of_cons in Hold as [Heq|Hin]; [|exact Hin].
      exfalso. unfold groupEdges in Heq. apply sameEdges_iff in Heq. congruence.
  - rewrite (addBranch_new _ _ Hnew). unfold scoreSum. 
    rewrite foldr_app. cbn [foldr].
    generalize (score nb). clear. intros z.
    induction branches as [|b branches IH]; cbn [foldr]; [lia|]. rewrite IH. lia.
Qed.

Lemma addBranch_NoDup (branches : list PathWithScore) (nb : PathWithScore) :
  NoDup (map groupEdges branches) ->
  NoDup (map groupEdges (addBranch branches nb)).
Proof.
  intros Hnd. rewrite addBranch_edges.
  destruct (decide _) as [Hold|Hnew]; [exact Hnd|].
  apply NoDup_app. split; [exact Hnd|]. split.
  - intros x Hx Hx'. apply list_elem_of_singleton in Hx'. subst x. contradiction.
  - apply NoDup_singleton.
Qed.

Lemma trimGroup_score (startE endE : edge_ptr) (gr b : PathWithScore) :
  trimGroup startE endE gr = Some b -> score b = score gr.
Proof.
  unfold trimGroup. destruct (scanBounds startE endE (pwsPath gr)) as [gs ge].
  destruct (subPath (pwsPath gr) gs ge); [|discriminate].
  intros [= <-]. reflexivity.
Qed.

(** Lines 422-454: the branches of a bubble have pairwise different edge
    sequences, there are no more of them than groups, and their scores add
    up to the scores of the groups: every read of a group is counted in
    exactly one branch. *)
Theorem branches_distinct_and_scores_kept (startE endE : edge_ptr)
    (groups branches : list PathWithScore) :
  trimGroups startE endE groups = Some branches ->
  NoDup (map groupEdges branches) /\
  scoreSum branches = scoreSum groups /\
  (List.length branches <= List.length groups)%nat.
Proof.
  unfold trimGroups.
  assert (Hgen : forall bs0,
    NoDup (map groupEdges bs0) ->
    foldM (fun branches gr =>
             match trimGroup startE endE gr with
             | Some b => Some (addBranch branches b)
             | None => None
             end) bs0 groups = Some branches ->
    NoDup (map groupEdges branches) /\
    scoreSum branches = scoreSum bs0 + scoreSum groups /\
    (List.length branches <= List.length bs0 + List.length groups)%nat).
  { induction groups as [|gr groups IH]; intros bs0 Hnd.
    - cbn. intros [= <-]. split; [exact Hnd|]. split; [unfold scoreSum; cbn; lia|lia].
    - cbn [foldM]. destruct (trimGroup startE endE gr) as [b|] eqn:Htrim;
        [|discriminate].
      intros Hfold.
      destruct (IH _ (addBranch_NoDup bs0 b Hnd) Hfold) as (Hnd' & Hsum & Hlen).
      split; [exact Hnd'|]. split.
      + rewrite Hsum, (addBranch_scoreSum _ _ Hnd), (trimGroup_score _ _ _ _ Htrim).
        unfold scoreSum. cbn [foldr]. lia.
      + assert (Hab : (List.length (addBranch bs0 b) <= S (List.length bs0))%nat).
        { rewrite <- (length_map groupEdges), addBranch_edges.
          destruct (decide _); [rewrite length_map; lia|].
          rewrite length_app, length_map. cbn. lia. }
        cbn [List.length]. lia. }
  intros Hfold. destruct (Hgen [] (NoDup_nil_2) Hfold) as (Hnd & Hsum & Hlen).
  split; [exact Hnd|]. split; [rewrite Hsum; unfold scoreSum; cbn; lia|exact Hlen].
Qed.

(** ** What can go wrong in the analysis of a start edge *)

Lemma lastOccurrence_Some (e : edge_ptr) (aln : list EdgeAlignment) :
  forall i, lastOccurrence e aln = Some i ->
            exists x, aln !! i = Some x /\ edge x = e.
Proof.
  induction aln as [|y aln IH]; intros i; [discriminate|].
  cbn [lastOccurrence]. destruct (lastOccurrence e aln) as [k|].
  - intros [= <-]. destruct (IH k eq_refl) as (x & Hx & He). exists x. auto.
  - destruct (Nat.eqb (edge y) e) eqn:Heq; [|discriminate].
    intros [= <-]. apply Nat.eqb_eq in Heq. exists y. auto.
Qed.

Lemma lastOccurrence_visited (e : edge_ptr) (aln : list EdgeAlignment) :
  e ∈ alnEdges aln -> is_Some (lastOccurrence e aln).
Proof.
  induction aln as [|y aln IH]; intros Hin.
  - exfalso. revert Hin. apply not_elem_of_nil.
  - cbn [lastOccurrence]. destruct (lastOccurrence e aln) as [k|] eqn:Hl; [eauto|].
    cbn in Hin. apply elem_of_cons in Hin as [->|Hin].
    + rewrite Nat.eqb_refl. eauto.
    + destruct (IH Hin) as [k Hk]. discriminate.
Qed.

Lemma occurrences_at (e : edge_ptr) (aln : list EdgeAlignment) (i : nat) (x : EdgeAlignment) :
  aln !! i = Some x -> edge x = e -> (1 <= occurrences e aln)%nat.
Proof.
  intros Hx He. apply occurrences_visits. apply list_elem_of_fmap.
  exists x. split; [auto|]. apply list_elem_of_lookup. eauto.
Qed.

(** An edge that a path visits once is last visited where it is visited. *)
Lemma once_position (e : edge_ptr) (aln : list EdgeAlignment) :
  forall i x, occurrences e aln = 1%nat -> aln !! i = Some x -> edge x = e ->
              lastOccurrence e aln = Some i.
Proof.
  induction aln as [|y aln IH]; intros i x Hocc Hx He.
  - rewrite lookup_nil in Hx. discriminate.
  - rewrite occurrences_cons in Hocc. cbn [lastOccurrence].
    destruct (Nat.eqb (edge y) e) eqn:Heq.
    + injection Hocc as Hocc.
      destruct (occurrences_none _ _ Hocc) as [-> _].
      destruct i as [|i]; [reflexivity|]. cbn in Hx.
      pose proof (occurrences_at e aln i x Hx He). lia.
    + destruct i as [|i].
      * cbn in Hx. injection Hx as ->. apply Nat.eqb_neq in Heq. contradiction.
      * cbn in Hx. rewrite (IH i x Hocc Hx He). reflexivity.
Qed.

Lemma trimGroups_None (startE endE : edge_ptr) (groups : list PathWithScore) :
  trimGroups startE endE groups = None ->
  exists gr, gr ∈ groups /\ trimGroup startE endE gr = None.
Proof.
  unfold trimGroups. generalize (@nil PathWithScore).
  induction groups as [|gr groups IH]; intros bs; [discriminate|].
  cbn [foldM]. destruct (trimGroup startE endE gr) as [b|] eqn:Htrim.
  - intros Hf. destruct (IH _ Hf) as (gr' & Hin & Hnone).
    exists gr'. split; [apply list_elem_of_further, Hin|exact Hnone].
  - intros _. exists gr. split; [apply list_elem_of_here|exact Htrim].
Qed.

Lemma trimGroup_None (startE endE : edge_ptr) (gr : PathWithScore) :
  trimGroup startE endE gr = None ->
  let gs := default 0%nat (lastOccurrence startE (pwsPath gr)) in
  let ge := default 0%nat (lastOccurrence endE (pwsPath gr)) in
  (ge + 1 < gs)%nat \/ (List.length (pwsPath gr) < ge + 1)%nat.
Proof.
  unfold trimGroup. rewrite scanBounds_last. unfold subPath. cbn zeta.
  set (gs := default 0%nat (lastOccurrence startE (pwsPath gr))).
  set (ge := default 0%nat (lastOccurrence endE (pwsPath gr))).
  destruct (gs <=? ge + 1)%nat eqn:H1.
  - destruct (ge + 1 <=? List.length (pwsPath gr))%nat eqn:H2; [discriminate|].
    intros _. apply Nat.leb_gt in H2. right. exact H2.
  - intros _. apply Nat.leb_gt in H1. left. exact H1.
Qed.

(** The edges of a branch are edges of a group. *)
Lemma trimGroups_edges (startE endE : edge_ptr) (groups branches : list PathWithScore) :
  trimGroups startE endE groups = Some branches ->
  forall b x, b ∈ branches -> x ∈ pwsPath b ->
              exists gr, gr ∈ groups /\ x ∈ pwsPath gr.
Proof.
  unfold trimGroups.
  assert (Hgen : forall bs0,
    (forall b x, b ∈ bs0 -> x ∈ pwsPath b -> exists gr, gr ∈ groups /\ x ∈ pwsPath gr) ->
    forall gs, gs ⊆ groups ->
    foldM (fun branches gr =>
             match trimGroup startE endE gr with
             | Some b => Some (addBranch branches b)
             | None => None
             end) bs0 gs = Some branches ->
    forall b x, b ∈ branches -> x ∈ pwsPath b ->
                exists gr, gr ∈ groups /\ x ∈ pwsPath gr).
  { intros bs0 Hbs0 gs. revert bs0 Hbs0.
    induction gs as [|gr gs IH]; intros bs0 Hbs0 Hsub.
    - cbn. intros [= <-]. exact Hbs0.
    - cbn [foldM]. destruct (trimGroup startE endE gr) as [nb|] eqn:Htrim;
        [|discriminate].
      apply IH.
      + intros b x Hb Hx.
        assert (Hnb : forall y, y ∈ pwsPath nb -> y ∈ pwsPath gr).
        { revert Htrim. unfold trimGroup.
          destruct (scanBounds startE endE (pwsPath gr)) as [s e].
          unfold subPath. destruct (_ && _); [|discriminate].
          intros [= <-] y Hy. cbn in Hy.
          apply (sublist_subseteq _ _ (sublist_take _ _)) in Hy.
          apply (sublist_subseteq _ _ (sublist_drop _ _)) in Hy. exact Hy. }
        assert (Hcase : (exists b0, b0 ∈ bs0 /\ pwsPath b0 = pwsPath b) \/
                        pwsPath b = pwsPath nb).
        { revert Hb. unfold addBranch.
          destruct (existsb _ bs0).
          - intros Hb. apply list_elem_of_fmap in Hb as (b0 & -> & Hb0).
            left. exists b0. split; [exact Hb0|].
            destruct (sameEdges (pwsPath nb) (pwsPath b0)); reflexivity.
          - intros Hb. apply elem_of_app in Hb as [Hb|Hb].
            + left. eauto.
            + apply list_elem_of_singleton in Hb. right. congruence. }
        destruct Hcase as [(b0 & Hb0 & Heq)|Heq].
        * apply (Hbs0 b0 x Hb0). rewrite Heq. exact Hx.
        * exists gr. split; [apply Hsub, list_elem_of_here|].
          apply Hnb. rewrite <- Heq. exact Hx.
      + intros y Hy. apply Hsub, list_elem_of_further, Hy. }
  intros Hf. apply (Hgen [] ) with (gs := groups); [|reflexivity|exact Hf].
  intros b x Hb. exfalso. revert Hb. apply not_elem_of_nil.
Qed.

(** The edges of a group are edges of a read. *)
Lemma pathGroupsOf_edges (startEdge : edge_ptr) (alns : list (list EdgeAlignment))
    (gr : PathWithScore) (x : EdgeAlignment) :
  gr ∈ pathGroupsOf startEdge alns -> x ∈ pwsPath gr ->
  exists aln, aln ∈ alns /\ x ∈ aln.
Proof.
  unfold pathGroupsOf. cbn zeta.
  set (outPaths := sortBySpan (extractOutPaths startEdge alns)).
  intros Hin Hx.
  destruct (groupPaths_spec outPaths) as (_ & Hsub & _).
  assert (Hp : pwsPath gr ∈ extractOutPaths startEdge alns).
  { rewrite <- (sortBySpan_perm (extractOutPaths startEdge alns)).
    apply (sublist_subseteq _ _ Hsub). apply list_elem_of_fmap.
    exists gr. split; [reflexivity|].
    unfold dropWeakGroups in Hin. apply list_elem_of_filter in Hin as [_ Hin]. exact Hin. }
  unfold extractOutPaths in Hp. apply list_elem_of_omap in Hp as (aln & Haln & Hs).
  apply suffixFrom_Some in Hs as (pre & y & rest & -> & Hp & _).
  exists (pre ++ y :: rest). split; [exact Haln|].
  apply elem_of_app. right. rewrite <- Hp. exact Hx.
Qed.

Section AnalysisSafety.
Context {C : Type} `{Coverage C}.

Lemma edgesKnownb_elem (g : RepeatGraph C) (alns : list (list EdgeAlignment))
    (aln : list EdgeAlignment) (x : EdgeAlignment) :
  edgesKnownb g alns = true -> aln ∈ alns -> x ∈ aln ->
  is_Some (edgeSignedId g (edge x)).
Proof.
  unfold edgesKnownb. intros Hk Haln Hx.
  rewrite forallb_forall in Hk. specialize (Hk aln (proj1 (list_elem_of_In _ _) Haln)).
  rewrite forallb_forall in Hk. specialize (Hk x (proj1 (list_elem_of_In _ _) Hx)).
  apply Nat.ltb_lt in Hk. unfold edgeSignedId.
  destruct (lookup_lt_is_Some_2 (graphEdges g) (edge x) Hk) as [ed ->]. eauto.
Qed.

Lemma reportLine_known (g : RepeatGraph C) (p : PathWithScore) :
  (forall x, x ∈ pwsPath p -> is_Some (edgeSignedId g (edge x))) ->
  is_Some (reportLine g p).
Proof.
  intros Hk. unfold reportLine.
  assert (Hm : is_Some (mapM (edgeSignedId g) (alnEdges (pwsPath p)))).
  { apply mapM_is_Some_2. apply Forall_forall. intros e He.
    apply list_elem_of_fmap in He as (x & -> & Hx). apply Hk. exact Hx. }
  destruct Hm as [ids ->]. eauto.
Qed.

Lemma reportLines_known (g : RepeatGraph C) (l : list PathWithScore) :
  (forall p x, p ∈ l -> x ∈ pwsPath p -> is_Some (edgeSignedId g (edge x))) ->
  is_Some (mapM (reportLine g) l).
Proof.
  intros Hk. apply mapM_is_Some_2. apply Forall_forall. intros p Hp.
  apply reportLine_known. intros x Hx. exact (Hk p x Hp Hx).
Qed.

(** Lines 301-488 for one start edge whose reads point at edges of the
    graph: the analysis can go wrong in one way only, the inverted range of
    line 435, and only where a group comes back to the start edge itself
    more than one position behind its visit of the end edge. *)
Lemma analyseStart_None_returns_to_start (g : RepeatGraph C)
    (loopedEdges : gset nat) (startEdge : edge_ptr) (alns : list (list EdgeAlignment)) :
  (startEdge < List.length (graphEdges g))%nat ->
  edgesKnownb g alns = true ->
  analyseStart g loopedEdges startEdge (extractOutPaths startEdge alns) = None ->
  exists ref other rest j ea gr gs ge,
    pathGroupsOf startEdge alns = ref :: other :: rest /\
    findBubbleStart (List.length (pwsPath other))
      (convergence loopedEdges (findRepeats (ref :: other :: rest)) ref (other :: rest))
      (pwsPath ref) (other :: rest) 0 = Some 0%nat /\
    findBubbleEnd
      (convergence loopedEdges (findRepeats (ref :: other :: rest)) ref (other :: rest))
      (drop 1 (pwsPath ref)) 1 = Some j /\
    pwsPath ref !! j = Some ea /\
    gr ∈ ref :: other :: rest /\
    scanBounds startEdge (edge ea) (pwsPath gr) = (gs, ge) /\
    lastOccurrence startEdge (pwsPath gr) = Some gs /\
    lastOccurrence (edge ea) (pwsPath gr) = Some ge /\
    (ge + 1 < gs)%nat /\
    subPath (pwsPath gr) gs ge = None.
Proof.
  intros Hstart Hknown Hfail.
  unfold analyseStart in Hfail.
  destruct (extractOutPaths startEdge alns) as [|p0 ps] eqn:Hout; [discriminate|].
  rewrite <- Hout in Hfail. cbn zeta in Hfail.
  change (dropWeakGroups
            (minScore (List.length (sortBySpan (extractOutPaths startEdge alns))))
            (groupPaths (sortBySpan (extractOutPaths startEdge alns))))
    with (pathGroupsOf startEdge alns) in Hfail.
  destruct (pathGroupsOf_spec startEdge alns) as [Hso Hhead].
  pose proof (pathGroupsOf_edges startEdge alns) as Hedges.
  destruct (pathGroupsOf startEdge alns) as [|ref [|other rest]] eqn:Hgroups;
    [discriminate|discriminate|].
  set (conv := convergence loopedEdges (findRepeats (ref :: other :: rest)) ref
                           (other :: rest)) in Hfail.
  assert (Hknow : forall gr x, gr ∈ ref :: other :: rest -> x ∈ pwsPath gr ->
                    is_Some (edgeSignedId g (edge x))).
  { intros gr x Hgr Hx. destruct (Hedges gr x Hgr Hx) as (aln & Haln & Hxa).
    exact (edgesKnownb_elem g alns aln x Hknown Haln Hxa). }
  assert (Hapart : forall gr, gr ∈ other :: rest ->
                     contained (pwsPath gr) (pwsPath ref) = false).
  { cbn [map] in Hso. apply StronglySorted_cons in Hso as [Hall _].
    intros gr Hin. rewrite Forall_forall in Hall. apply (Hall (pwsPath gr)).
    change (pwsPath other :: map pwsPath rest) with (map pwsPath (other :: rest)).
    apply list_elem_of_fmap. eauto. }
  destruct (findBubbleStart_safe conv (pwsPath ref) other rest Hapart
              (List.length (pwsPath other)) 0%nat)
    as (k & Hres & _ & Hlt & Hag & Hconvk & _).
  { lia. }
  { intros gr Hin i Hi. assert (i = 0%nat) as -> by lia.
    destruct (Hhead gr) as (x & xs & Hx & Hex); [apply list_elem_of_further, Hin|].
    destruct (Hhead ref) as (y & ys & Hy & Hey); [apply list_elem_of_here|].
    exists x, y. rewrite Hx, Hy. cbn. split; [reflexivity|].
    split; [reflexivity|congruence]. }
  rewrite Hres in Hfail.
  destruct (findBubbleEnd conv (drop (S k) (pwsPath ref)) (S k)) as [j|] eqn:Hend;
    [|discriminate].
  pose proof Hend as Hend0.
  apply findBubbleEnd_Some in Hend as (Hle & (ea & Hea & Hc) & _).
  rewrite lookup_drop in Hea.
  replace (S k + (j - S k))%nat with j in Hea by lia.
  destruct (lookup_lt_is_Some_2 (pwsPath ref) k) as [sa Hsa]; [lia|].
  rewrite Hsa, Hea in Hfail.
  assert (Href : ref ∈ ref :: other :: rest) by apply list_elem_of_here.
  assert (HagAll : forall gr, gr ∈ ref :: other :: rest ->
                     agreeTo k (pwsPath gr) (pwsPath ref)).
  { intros gr Hin. apply elem_of_cons in Hin as [->|Hin]; [|apply Hag, Hin].
    intros i Hi. destruct (lookup_lt_is_Some_2 (pwsPath ref) i) as [x Hx]; [lia|].
    exists x, x. auto. }
  destruct (trimGroups (edge sa) (edge ea) (ref :: other :: rest)) as [bs|] eqn:Htrim.
  - exfalso.
    destruct (List.length bs <? 2)%nat; [discriminate|].
    destruct (lookup_lt_is_Some_2 (graphEdges g) startEdge Hstart) as [ed Hed].
    unfold edgeSignedId at 1 in Hfail. rewrite Hed in Hfail.
    destruct (reportLines_known g (ref :: other :: rest) Hknow) as [gl Hgl].
    rewrite Hgl in Hfail.
    destruct (reportLines_known g bs) as [bl Hbl].
    { intros b x Hb Hx.
      destruct (trimGroups_edges _ _ _ _ Htrim b x Hb Hx) as (gr & Hgr & Hxg).
      exact (Hknow gr x Hgr Hxg). }
    rewrite Hbl in Hfail.
    destruct (Hknow ref sa Href) as [b1 Hb1];
      [apply list_elem_of_lookup; eauto|].
    destruct (Hknow ref ea Href) as [b2 Hb2];
      [apply list_elem_of_lookup; eauto|].
    rewrite Hb1, Hb2 in Hfail. discriminate.
  - clear Hfail.
    destruct (trimGroups_None _ _ _ Htrim) as (gr & Hin & Hnone).
    pose proof Hnone as Hsub.
    apply trimGroup_None in Hnone. cbn zeta in Hnone.
    assert (Honce : forall gr', gr' ∈ ref :: other :: rest ->
                      occurrences (edge ea) (pwsPath gr') = 1%nat).
    { apply (convergence_once loopedEdges). exact Hc. }
    destruct (lastOccurrence_visited (edge ea) (pwsPath gr)) as [ge Hge].
    { apply occurrences_visits. rewrite (Honce gr Hin). lia. }
    destruct (lastOccurrence_Some _ _ _ Hge) as (y & Hy & Hye).
    pose proof (lookup_lt_Some _ _ _ Hy) as Hgelt.
    rewrite Hge in Hnone. cbn [default from_option id] in Hnone.
    destruct Hnone as [Hinv|Hbad]; [|lia].
    destruct (lastOccurrence (edge sa) (pwsPath gr)) as [gs|] eqn:Hgs;
      [|cbn in Hinv; lia].
    cbn [default from_option id] in Hinv.
    assert (Hk0 : k = 0%nat).
    { destruct k as [|k]; [reflexivity|]. exfalso.
      assert (Hsc : edge sa ∈ conv) by (apply (Hconvk (S k) sa); [lia|exact Hsa]).
      assert (Hs1 : occurrences (edge sa) (pwsPath gr) = 1%nat).
      { apply (convergence_once loopedEdges ref (other :: rest)); assumption. }
      destruct (HagAll gr Hin (S k)) as (x & x' & Hx & Hx' & Hxe); [lia|].
      assert (Hgsk : lastOccurrence (edge sa) (pwsPath gr) = Some (S k)).
      { apply (once_position _ _ _ x Hs1 Hx). congruence. }
      assert (gs = S k) by congruence. subst gs.
      destruct (HagAll gr Hin ge) as (z & z' & Hz & Hz' & Hze); [lia|].
      assert (Hj : lastOccurrence (edge ea) (pwsPath ref) = Some j).
      { apply (once_position _ _ _ ea (Honce ref Href) Hea). reflexivity. }
      assert (Hj' : lastOccurrence (edge ea) (pwsPath ref) = Some ge).
      { apply (once_position _ _ _ z' (Honce ref Href) Hz'). congruence. }
      assert (j = ge) by congruence. lia. }
    subst k.
    assert (Hs : edge sa = startEdge).
    { destruct (Hhead ref Href) as (x & xs & Hx & Hex).
      rewrite Hx in Hsa. cbn in Hsa. congruence. }
    rewrite Hs in Hgs, Hsub.
    assert (Hbounds : scanBounds startEdge (edge ea) (pwsPath gr) = (gs, ge)).
    { rewrite scanBounds_last, Hgs, Hge. reflexivity. }
    exists ref, other, rest, j, ea, gr, gs, ge.
    split; [reflexivity|]. split; [exact Hres|]. split; [exact Hend0|].
    split; [exact Hea|]. split; [exact Hin|]. split; [exact Hbounds|].
    split; [exact Hgs|]. split; [exact Hge|]. split; [exact Hinv|].
    unfold trimGroup in Hsub. rewrite Hbounds in Hsub.
    destruct (subPath (pwsPath gr) gs ge); [discriminate|reflexivity].
Qed.

End AnalysisSafety.

Lemma convergence_edges_visited_once_witness :
  6%nat ∈ convergence ∅ (findRepeats [plainRef; plainOther]) plainRef [plainOther] /\
  occurrences 6 (pwsPath plainOther) = 1%nat.
Proof.
  assert (H6 : 6%nat ∈ convergence ∅ (findRepeats [plainRef; plainOther])
                                   plainRef [plainOther]).
  { destruct (decide (6%nat ∈ convergence ∅ (findRepeats [plainRef; plainOther])
                                          plainRef [plainOther])) as [Hin|Hnin] eqn:Hd;
      [exact Hin|]. vm_compute in Hd. discriminate Hd. }
  split; [exact H6|].
  apply (convergence_edges_visited_once ∅ plainRef [plainOther] 6%nat H6).
  apply list_elem_of_further, list_elem_of_here.
Defined.

Lemma bubble_start_search_is_safe_witness :
  exists k, findBubbleStart 3 ∅ (pwsPath plainRef) [plainOther] 0 = Some k /\
            (k + 1 < 4)%nat.
Proof.
  destruct (bubble_start_search_is_safe 0%nat plainAlignments ∅ plainRef plainOther [])
    as (k & Hk & Hlt & _).
  - vm_compute. reflexivity.
  - exists k. split; [exact Hk|exact Hlt].
Defined.

Lemma branches_distinct_and_scores_kept_witness :
  NoDup (map groupEdges plainBranches) /\
  scoreSum plainBranches = scoreSum [plainRef; plainOther] /\
  (List.length plainBranches <= 2)%nat.
Proof.
  apply (branches_distinct_and_scores_kept 0%nat 6%nat [plainRef; plainOther] plainBranches).
  vm_compute. reflexivity.
Defined.


(** * The wiring of the graph under the two passes *)

Section WiringFacts.
Context {C : Type} `{Coverage C}.

Lemma sameWire_refl (ed : GraphEdge C) : sameWire ed ed.
Proof. repeat split. Qed.

Lemma sameWire_trans (a b c : GraphEdge C) :
  sameWire a b -> sameWire b c -> sameWire a c.
Proof.
  intros (H1 & H2 & H3 & H4 & H5 & H6) (K1 & K2 & K3 & K4 & K5 & K6).
  repeat split; congruence.
Qed.

Lemma sameWiring_refl (g : RepeatGraph C) : sameWiring g g.
Proof.
  split; [reflexivity|]. apply Forall2_same_length_lookup. split; [reflexivity|].
  intros i x y Hx Hy. rewrite Hx in Hy. injection Hy as <-. apply sameWire_refl.
Qed.

Lemma sameWiring_trans (g1 g2 g3 : RepeatGraph C) :
  sameWiring g1 g2 -> sameWiring g2 g3 -> sameWiring g1 g3.
Proof.
  intros [Hn1 He1] [Hn2 He2]. split; [congruence|].
  apply Forall2_same_length_lookup.
  pose proof (Forall2_length _ _ _ He1) as Hl1.
  pose proof (Forall2_length _ _ _ He2) as Hl2.
  split; [congruence|].
  intros i x z Hx Hz.
  destruct (lookup_lt_is_Some_2 (graphEdges g2) i) as [y Hy].
  { rewrite <- Hl1. eapply lookup_lt_Some; eauto. }
  apply (sameWire_trans x y z).
  - exact (Forall2_lookup_lr _ _ _ _ _ _ He1 Hx Hy).
  - exact (Forall2_lookup_lr _ _ _ _ _ _ He2 Hy Hz).
Qed.

Lemma sameWiring_lookup (g g' : RepeatGraph C) (e : edge_ptr) (ed : GraphEdge C) :
  sameWiring g g' -> graphEdges g !! e = Some ed ->
  exists ed', graphEdges g' !! e = Some ed' /\ sameWire ed ed'.
Proof.
  intros [_ Hall] He.
  destruct (Forall2_lookup_l _ _ _ _ _ Hall He) as (ed' & He' & Hw). eauto.
Qed.

Lemma sameWiring_lookup_None (g g' : RepeatGraph C) (e : edge_ptr) :
  sameWiring g g' -> graphEdges g !! e = None -> graphEdges g' !! e = None.
Proof.
  intros [_ Hall] He. apply lookup_ge_None in He. apply lookup_ge_None.
  rewrite <- (Forall2_length _ _ _ Hall). exact He.
Qed.

Lemma updateEdge_sameWiring (f : GraphEdge C -> GraphEdge C) (g g' : RepeatGraph C)
    (e : edge_ptr) :
  (forall ed, sameWire ed (f ed)) ->
  updateEdge f g e = Some g' -> sameWiring g g'.
Proof.
  intros Hf. unfold updateEdge.
  destruct (graphEdges g !! e) as [ed|] eqn:He; [|discriminate].
  intros [= <-]. split; [reflexivity|]. cbn.
  apply Forall2_same_length_lookup. split; [by rewrite length_insert|].
  intros i x y Hx Hy.
  destruct (decide (i = e)) as [->|Hne].
  - rewrite list_lookup_insert_eq in Hy by (eapply lookup_lt_Some; eauto).
    injection Hy as <-. rewrite He in Hx. injection Hx as <-. apply Hf.
  - rewrite list_lookup_insert_ne in Hy by auto.
    rewrite Hx in Hy. injection Hy as <-. apply sameWire_refl.
Qed.

Lemma updateBothStrands_sameWiring (f : GraphEdge C -> GraphEdge C)
    (g g' : RepeatGraph C) (e : edge_ptr) :
  (forall ed, sameWire ed (f ed)) ->
  updateBothStrands f g e = Some g' -> sameWiring g g'.
Proof.
  intros Hf. unfold updateBothStrands.
  destruct (updateEdge f g e) as [g1|] eqn:H1; [|discriminate].
  destruct (complementEdge g1 e) as [c|]; [|discriminate].
  intros H2. eapply sameWiring_trans; eauto using updateEdge_sameWiring.
Qed.

Lemma setAltHaplotype_sameWire (b : bool) (ed : GraphEdge C) :
  sameWire ed (setAltHaplotype b ed).
Proof. repeat split. Qed.

Lemma addMeanCoverage_sameWire (c : C) (ed : GraphEdge C) :
  sameWire ed (addMeanCoverage c ed).
Proof. repeat split. Qed.

Lemma markPath_sameWiring (b : bool) (p : UnbranchingPath.t C) (g g' : RepeatGraph C) :
  markPath b g p = Some g' -> sameWiring g g'.
Proof.
  unfold markPath.
  apply (foldM_invariant (sameWiring g)); [|apply sameWiring_refl].
  intros s x s' Hs Hm. eapply sameWiring_trans; [exact Hs|].
  exact (updateBothStrands_sameWiring _ _ _ _ (setAltHaplotype_sameWire b) Hm).
Qed.

Lemma foldCoverage_sameWiring (c : C) (es : list edge_ptr) (g g' : RepeatGraph C) :
  foldM (foldCoverageEdge c) g es = Some g' -> sameWiring g g'.
Proof.
  apply (foldM_invariant (sameWiring g)); [|apply sameWiring_refl].
  intros s x s' Hs. unfold foldCoverageEdge.
  destruct (updateBothStrands (addMeanCoverage c) s x) as [s1|] eqn:H1; [|discriminate].
  intros H2. eapply sameWiring_trans; [exact Hs|].
  eapply sameWiring_trans.
  - exact (updateBothStrands_sameWiring _ _ _ _ (addMeanCoverage_sameWire c) H1).
  - exact (updateBothStrands_sameWiring _ _ _ _ (setAltHaplotype_sameWire false) H2).
Qed.

(** Lines 22-100, either mode: one iteration of the detection loop of the
    bulge pass leaves the wiring alone. *)
Lemma bulgeIter_sameWiring (MAX_BUBBLE_LEN : Z) (removeAlternatives : bool)
    (paths : list (UnbranchingPath.t C)) (st st' : BulgeState C) (p : UnbranchingPath.t C) :
  bulgeIter MAX_BUBBLE_LEN removeAlternatives paths st p = Some st' ->
  sameWiring (bulgeGraph st) (bulgeGraph st').
Proof.
  unfold bulgeIter.
  destruct (bulgeCandidate paths st p) as [[c|]|]; [| |discriminate].
  - destruct (bulgeTests MAX_BUBBLE_LEN c) as [[|]|]; [| |discriminate].
    + unfold bulgeApply. destruct (bulgeOrder c) as [a b].
      destruct (bulgeNewlyMasked (bulgeGraph st) a b); [|discriminate].
      destruct (markPath true (bulgeGraph st) a) as [g1|] eqn:H1; [|discriminate].
      destruct (markPath true g1 b) as [g2|] eqn:H2; [|discriminate].
      pose proof (sameWiring_trans _ _ _ (markPath_sameWiring _ _ _ _ H1)
                    (markPath_sameWiring _ _ _ _ H2)) as H12.
      destruct removeAlternatives.
      * destruct (foldM _ g2 _) as [g3|] eqn:H3; [|discriminate].
        intros [= <-]. cbn. eapply sameWiring_trans; [exact H12|].
        exact (foldCoverage_sameWiring _ _ _ _ H3).
      * intros [= <-]. exact H12.
    + intros [= <-]. apply sameWiring_refl.
  - intros [= <-]. apply sameWiring_refl.
Qed.

Lemma loopIter_sameWiring (paths : list (UnbranchingPath.t C))
    (st st' : LoopState C) (p : UnbranchingPath.t C) :
  loopIter paths st p = Some st' -> sameWiring (loopGraph st) (loopGraph st').
Proof.
  unfold loopIter.
  destruct (loopCandidate paths (loopGraph st) p) as [[r|]|]; [| |discriminate].
  - destruct (loopTests (loopGraph st) p r) as [[[en ex]|]|]; [| |discriminate].
    + unfold loopApply.
      destruct (frontAltHaplotype (loopGraph st) p); [|discriminate].
      destruct (markPath true (loopGraph st) p) as [g1|] eqn:H1; [|discriminate].
      destruct (loopIsRemoved p en ex); intros [= <-]; cbn;
        exact (markPath_sameWiring _ _ _ _ H1).
    + intros [= <-]. apply sameWiring_refl.
  - intros [= <-]. apply sameWiring_refl.
Qed.

Lemma bulgeDetection_sameWiring (MAX_BUBBLE_LEN : Z) (removeAlternatives : bool)
    (paths ps : list (UnbranchingPath.t C)) (st st' : BulgeState C) :
  foldM (bulgeIter MAX_BUBBLE_LEN removeAlternatives paths) st ps = Some st' ->
  sameWiring (bulgeGraph st) (bulgeGraph st').
Proof.
  apply (foldM_invariant (fun s => sameWiring (bulgeGraph st) (bulgeGraph s)));
    [|apply sameWiring_refl].
  intros s x s' Hs Hi. eapply sameWiring_trans; [exact Hs|].
  exact (bulgeIter_sameWiring _ _ _ _ _ _ Hi).
Qed.

Lemma loopDetection_sameWiring (paths ps : list (UnbranchingPath.t C))
    (st st' : LoopState C) :
  foldM (loopIter paths) st ps = Some st' ->
  sameWiring (loopGraph st) (loopGraph st').
Proof.
  apply (foldM_invariant (fun s => sameWiring (loopGraph st) (loopGraph s)));
    [|apply sameWiring_refl].
  intros s x s' Hs Hi. eapply sameWiring_trans; [exact Hs|].
  exact (loopIter_sameWiring _ _ _ _ Hi).
Qed.

(** What the wiring determines. *)
Lemma sameWiring_pathNodeLeft (g g' : RepeatGraph C) (p : UnbranchingPath.t C) :
  sameWiring g g' -> pathNodeLeft g' p = pathNodeLeft g p.
Proof.
  intros Hw. unfold pathNodeLeft. destruct (pathFront p) as [e|]; [|reflexivity].
  destruct (graphEdges g !! e) as [ed|] eqn:He.
  - destruct (sameWiring_lookup _ _ _ _ Hw He) as (ed' & -> & Hl & _). congruence.
  - rewrite (sameWiring_lookup_None _ _ _ Hw He). reflexivity.
Qed.

Lemma sameWiring_pathNodeRight (g g' : RepeatGraph C) (p : UnbranchingPath.t C) :
  sameWiring g g' -> pathNodeRight g' p = pathNodeRight g p.
Proof.
  intros Hw. unfold pathNodeRight. destruct (pathBack p) as [e|]; [|reflexivity].
  destruct (graphEdges g !! e) as [ed|] eqn:He.
  - destruct (sameWiring_lookup _ _ _ _ Hw He) as (ed' & -> & _ & Hr & _). congruence.
  - rewrite (sameWiring_lookup_None _ _ _ Hw He). reflexivity.
Qed.


Lemma sameWiring_frontSelfComplement (g g' : RepeatGraph C) (p : UnbranchingPath.t C) :
  sameWiring g g' -> frontSelfComplement g' p = frontSelfComplement g p.
Proof.
  intros Hw. unfold frontSelfComplement. destruct (pathFront p) as [e|]; [|reflexivity].
  destruct (graphEdges g !! e) as [ed|] eqn:He.
  - destruct (sameWiring_lookup _ _ _ _ Hw He) as (ed' & -> & _ & _ & _ & _ & Hs & _).
    congruence.
  - rewrite (sameWiring_lookup_None _ _ _ Hw He). reflexivity.
Qed.

End WiringFacts.

(** ** Which paths get staged *)

Lemma foldM_invariant_in {A S : Type} (P : S -> Prop) (f : S -> A -> option S)
    (l : list A) :
  (forall s x s', x ∈ l -> P s -> f s x = Some s' -> P s') ->
  forall s s', P s -> foldM f s l = Some s' -> P s'.
Proof.
  induction l as [|x l IH]; intros Hstep s s' Hs; cbn [foldM].
  - intros [= <-]. exact Hs.
  - destruct (f s x) as [s1|] eqn:Hf; [|discriminate].
    apply IH.
    + intros s0 y s0' Hy. apply Hstep. apply list_elem_of_further. exact Hy.
    + exact (Hstep s x s1 (list_elem_of_here _ _) Hs Hf).
Qed.

Lemma filterM_elem {A : Type} (f : A -> option bool) (l r : list A) :
  filterM f l = Some r -> forall x, x ∈ r -> x ∈ l /\ f x = Some true.
Proof.
  revert r. induction l as [|y l IH]; intros r; cbn [filterM].
  - intros [= <-] x Hx. exfalso. revert Hx. apply not_elem_of_nil.
  - destruct (f y) as [b|] eqn:Hy; [|discriminate].
    destruct (filterM f l) as [r'|]; [|discriminate].
    intros [= <-] x Hx. destruct b.
    + apply elem_of_cons in Hx as [->|Hx].
      * split; [apply list_elem_of_here|exact Hy].
      * destruct (IH r' eq_refl x Hx) as [Hin Hfx].
        split; [apply list_elem_of_further, Hin|exact Hfx].
    + destruct (IH r' eq_refl x Hx) as [Hin Hfx].
      split; [apply list_elem_of_further, Hin|exact Hfx].
Qed.

Lemma filterM_nil_inv {A : Type} (f : A -> option bool) (l : list A) :
  filterM f l = Some [] ->
  forall k q, l !! k = Some q -> f q <> Some true.
Proof.
  induction l as [|x l IH]; cbn [filterM]; intros Hf k q Hk.
  - rewrite lookup_nil in Hk. discriminate.
  - destruct (f x) as [b|] eqn:Hx; [|discriminate].
    destruct (filterM f l) as [r|]; [|discriminate].
    destruct b; [discriminate|]. injection Hf as ->.
    destruct k as [|k]; cbn in Hk.
    + injection Hk as <-. rewrite Hx. discriminate.
    + exact (IH eq_refl k q Hk).
Qed.

Lemma filterM_one_inv {A : Type} (f : A -> option bool) (l : list A) (a : A) :
  filterM f l = Some [a] ->
  exists i, l !! i = Some a /\
    forall k q, l !! k = Some q -> f q = Some true -> k = i.
Proof.
  induction l as [|x l IH]; cbn [filterM]; intros Hf; [discriminate|].
  destruct (f x) as [b|] eqn:Hx; [|discriminate].
  destruct (filterM f l) as [r|] eqn:Hr; [|discriminate].
  destruct b.
  - injection Hf as -> ->. exists 0%nat. split; [reflexivity|].
    intros [|k] q Hk Hq; [reflexivity|]. cbn in Hk.
    exfalso. exact (filterM_nil_inv f l Hr k q Hk Hq).
  - injection Hf as ->. destruct (IH eq_refl) as (i & Hi & Honly).
    exists (S i). split; [exact Hi|].
    intros [|k] q Hk Hq; cbn in Hk.
    + injection Hk as <-. rewrite Hx in Hq. discriminate.
    + f_equal. exact (Honly k q Hk Hq).
Qed.

(** A filter that keeps exactly two entries keeps two entries at different
    positions of the list, in their order, and rejects every other
    position. *)
Lemma filterM_two_inv {A : Type} (f : A -> option bool) (l : list A) (a b : A) :
  filterM f l = Some [a; b] ->
  exists i j, (i < j)%nat /\ l !! i = Some a /\ l !! j = Some b /\
    forall k q, l !! k = Some q -> f q = Some true -> k = i \/ k = j.
Proof.
  induction l as [|x l IH]; cbn [filterM]; intros Hf; [discriminate|].
  destruct (f x) as [c|] eqn:Hx; [|discriminate].
  destruct (filterM f l) as [r|] eqn:Hr; [|discriminate].
  destruct c.
  - injection Hf as -> ->.
    destruct (filterM_one_inv f l b Hr) as (j & Hj & Honly).
    exists 0%nat, (S j). split; [lia|]. split; [reflexivity|]. split; [exact Hj|].
    intros [|k] q Hk Hq; [left; reflexivity|]. cbn in Hk.
    right. f_equal. exact (Honly k q Hk Hq).
  - injection Hf as ->. destruct (IH eq_refl) as (i & j & Hij & Hi & Hj & Honly).
    exists (S i), (S j). split; [lia|]. split; [exact Hi|]. split; [exact Hj|].
    intros [|k] q Hk Hq; cbn in Hk.
    + injection Hk as <-. rewrite Hx in Hq. discriminate.
    + destruct (Honly k q Hk Hq) as [->| ->]; auto.
Qed.

Section Staged.
Context {C : Type} `{Coverage C}.

Lemma sameEnds_true (g : RepeatGraph C) (l r : node_ptr) (cand : UnbranchingPath.t C) :
  sameEnds g l r cand = Some true ->
  pathNodeLeft g cand = Some l /\ pathNodeRight g cand = Some r.
Proof.
  unfold sameEnds. destruct (pathNodeLeft g cand) as [cl|]; [|discriminate].
  destruct (Nat.eqb cl l) eqn:Hl; [|discriminate].
  destruct (pathNodeRight g cand) as [cr|]; [|discriminate].
  intros [= Hr]. apply Nat.eqb_eq in Hl, Hr. subst. auto.
Qed.

(** Lines 24-34: the two branches of a candidate are listed paths that
    leave the same node and enter the same other node. *)
Lemma bulgeCandidate_branches (paths : list (UnbranchingPath.t C)) (st : BulgeState C)
    (p : UnbranchingPath.t C) (c : BulgeCandidate C) :
  bulgeCandidate paths st p = Some (Some c) ->
  exists l r, l <> r /\
    forall br, br = branch0 c \/ br = branch1 c ->
      br ∈ paths /\ pathNodeLeft (bulgeGraph st) br = Some l /\
      pathNodeRight (bulgeGraph st) br = Some r.
Proof.
  unfold bulgeCandidate.
  destruct (isLooped (bulgeGraph st) p) as [[|]|] eqn:Hloop; try discriminate.
  destruct (pathNodeLeft (bulgeGraph st) p) as [l|] eqn:Hl; [|discriminate].
  destruct (pathNodeRight (bulgeGraph st) p) as [r|] eqn:Hr; [|discriminate].
  destruct (filterM _ paths) as [[|a [|b [|]]]|] eqn:Hfil; try discriminate.
  destruct (decide _); [discriminate|].
  destruct (decide _); [discriminate|].
  destruct (decide _); [discriminate|].
  destruct (graphNodes (bulgeGraph st) !! l) as [nl|]; [|discriminate].
  destruct (negb _); [discriminate|].
  destruct (graphNodes (bulgeGraph st) !! r) as [nr|]; [|discriminate].
  destruct (negb _); [discriminate|].
  destruct (bulgeLookup _ _ _ _) as [[en ex]|]; [|discriminate].
  intros [= <-]. exists l, r. split.
  - unfold isLooped in Hloop. rewrite Hl, Hr in Hloop.
    injection Hloop as Hloop. apply Nat.eqb_neq in Hloop. exact Hloop.
  - cbn. intros br [->| ->].
    + destruct (filterM_elem _ _ _ Hfil a) as [Hin Hs]; [apply list_elem_of_here|].
      apply sameEnds_true in Hs. tauto.
    + destruct (filterM_elem _ _ _ Hfil b) as [Hin Hs];
        [apply list_elem_of_further, list_elem_of_here|].
      apply sameEnds_true in Hs. tauto.
Qed.

Lemma sameEnds_complete (g : RepeatGraph C) (l r : node_ptr) (cand : UnbranchingPath.t C) :
  pathNodeLeft g cand = Some l -> pathNodeRight g cand = Some r ->
  sameEnds g l r cand = Some true.
Proof.
  unfold sameEnds. intros -> ->. rewrite !Nat.eqb_refl. reflexivity.
Qed.

(** Lines 24-34: the two branches of a candidate sit at two different
    positions of the path list, the first before the second; they are the
    only entries of the list that run from the left node to the right node;
    and their ids are not reverse complements of each other. *)
Lemma bulgeCandidate_positions (paths : list (UnbranchingPath.t C)) (st : BulgeState C)
    (p : UnbranchingPath.t C) (c : BulgeCandidate C) :
  bulgeCandidate paths st p = Some (Some c) ->
  exists l r i j, l <> r /\ (i < j)%nat /\
    paths !! i = Some (branch0 c) /\ paths !! j = Some (branch1 c) /\
    UnbranchingPath.id (branch0 c) <> FastaRecord.rc (UnbranchingPath.id (branch1 c)) /\
    (forall k q, paths !! k = Some q ->
       pathNodeLeft (bulgeGraph st) q = Some l ->
       pathNodeRight (bulgeGraph st) q = Some r -> k = i \/ k = j) /\
    pathNodeLeft (bulgeGraph st) (branch0 c) = Some l /\
    pathNodeRight (bulgeGraph st) (branch0 c) = Some r /\
    pathNodeLeft (bulgeGraph st) (branch1 c) = Some l /\
    pathNodeRight (bulgeGraph st) (branch1 c) = Some r.
Proof.
  unfold bulgeCandidate.
  destruct (isLooped (bulgeGraph st) p) as [[|]|] eqn:Hloop; try discriminate.
  destruct (pathNodeLeft (bulgeGraph st) p) as [l|] eqn:Hl; [|discriminate].
  destruct (pathNodeRight (bulgeGraph st) p) as [r|] eqn:Hr; [|discriminate].
  destruct (filterM _ paths) as [[|a [|b [|]]]|] eqn:Hfil; try discriminate.
  destruct (decide _) as [|Hrc]; [discriminate|].
  destruct (decide _); [discriminate|].
  destruct (decide _); [discriminate|].
  destruct (graphNodes (bulgeGraph st) !! l) as [nl|]; [|discriminate].
  destruct (negb _); [discriminate|].
  destruct (graphNodes (bulgeGraph st) !! r) as [nr|]; [|discriminate].
  destruct (negb _); [discriminate|].
  destruct (bulgeLookup _ _ _ _) as [[en ex]|]; [|discriminate].
  intros [= <-]. cbn [branch0 branch1].
  destruct (filterM_two_inv _ _ _ _ Hfil) as (i & j & Hij & Hi & Hj & Honly).
  destruct (filterM_elem _ _ _ Hfil a) as [_ Ha]; [apply list_elem_of_here|].
  destruct (filterM_elem _ _ _ Hfil b) as [_ Hb];
    [apply list_elem_of_further, list_elem_of_here|].
  apply sameEnds_true in Ha, Hb. destruct Ha as [Hal Har]. destruct Hb as [Hbl Hbr].
  exists l, r, i, j. split.
  { unfold isLooped in Hloop. rewrite Hl, Hr in Hloop.
    injection Hloop as Hloop. apply Nat.eqb_neq in Hloop. exact Hloop. }
  repeat split; auto.
  intros k q Hk Hql Hqr. apply (Honly k q Hk). apply sameEnds_complete; assumption.
Qed.

Lemma bulgeTests_short (MAX_BUBBLE_LEN : Z) (c : BulgeCandidate C) :
  bulgeTests MAX_BUBBLE_LEN c = Some true ->
  UnbranchingPath.length (branch0 c) <= MAX_BUBBLE_LEN /\
  UnbranchingPath.length (branch1 c) <= MAX_BUBBLE_LEN.
Proof.
  unfold bulgeTests, bulgeMaxLen.
  destruct (MAX_BUBBLE_LEN <? _) eqn:Hmax; [discriminate|].
  intros _. apply Z.ltb_ge in Hmax. lia.
Qed.

(** Lines 22-100 in collapse mode: whatever the bulge pass stages for
    separation is the id, or the reverse complement of the id, of one of
    exactly two entries of the path list, at two different positions, that
    run between the same two different nodes of the graph the pass started
    from; their ids are not reverse complements of each other, neither of
    the two is longer than [MAX_BUBBLE_LEN], and the staged one is the one
    line 71 puts first: the later-listed one when its coverage compares
    below that of the earlier-listed one, the earlier-listed one otherwise. *)
Theorem bulge_stages_short_light_branches (MAX_BUBBLE_LEN : Z)
    (paths : list (UnbranchingPath.t C)) (g : RepeatGraph C) (st : BulgeState C) :
  foldM (bulgeIter MAX_BUBBLE_LEN true paths) (mkBulgeState g ∅ 0) paths = Some st ->
  forall i, i ∈ toSeparate st -> stagedBranch MAX_BUBBLE_LEN paths g i.
Proof.
  intros Hfold.
  assert (Hinv : sameWiring g (bulgeGraph st) /\
                 forall i, i ∈ toSeparate st -> stagedBranch MAX_BUBBLE_LEN paths g i).
  { refine (foldM_invariant
              (fun s => sameWiring g (bulgeGraph s) /\
                        forall i, i ∈ toSeparate s ->
                                  stagedBranch MAX_BUBBLE_LEN paths g i)
              _ _ paths _ _ _ Hfold).
    - intros s x s' [Hw Hst] Hi.
      split; [exact (sameWiring_trans _ _ _ Hw (bulgeIter_sameWiring _ _ _ _ _ _ Hi))|].
      revert Hi. unfold bulgeIter.
      destruct (bulgeCandidate paths s x) as [[c|]|] eqn:Hcand; [| |discriminate].
      + destruct (bulgeTests MAX_BUBBLE_LEN c) as [[|]|] eqn:Htests; [| |discriminate].
        * destruct (bulgeCandidate_positions _ _ _ _ Hcand)
            as (l & r & p0 & p1 & Hlr & Hlt & Hp0 & Hp1 & Hrc & Honly & Hl0 & Hr0 & Hl1 & Hr1).
          destruct (bulgeTests_short _ _ Htests) as [Hlen0 Hlen1].
          rewrite (sameWiring_pathNodeLeft _ _ _ Hw) in Hl0.
          rewrite (sameWiring_pathNodeLeft _ _ _ Hw) in Hl1.
          rewrite (sameWiring_pathNodeRight _ _ _ Hw) in Hr0.
          rewrite (sameWiring_pathNodeRight _ _ _ Hw) in Hr1.
          assert (Honly' : forall k q, paths !! k = Some q ->
                    pathNodeLeft g q = Some l -> pathNodeRight g q = Some r ->
                    k = p0 \/ k = p1).
          { intros k q Hk Hql Hqr. apply (Honly k q Hk).
            - rewrite (sameWiring_pathNodeLeft _ _ _ Hw). exact Hql.
            - rewrite (sameWiring_pathNodeRight _ _ _ Hw). exact Hqr. }
          unfold bulgeApply, bulgeOrder.
          destruct (cltb (UnbranchingPath.meanCoverage (branch1 c))
                         (UnbranchingPath.meanCoverage (branch0 c))) eqn:Hcov.
          -- destruct (bulgeNewlyMasked _ _ _); [|discriminate].
             destruct (markPath true (bulgeGraph s) (branch1 c)) as [g1|]; [|discriminate].
             destruct (markPath true g1 (branch0 c)) as [g2|]; [|discriminate].
             destruct (foldM _ g2 _) as [g3|]; [|discriminate].
             assert (Hnew : forall i,
                       i = UnbranchingPath.id (branch1 c) \/
                       i = FastaRecord.rc (UnbranchingPath.id (branch1 c)) ->
                       stagedBranch MAX_BUBBLE_LEN paths g i).
             { intros i Hi. exists (branch1 c), (branch0 c), l, r, p1, p0.
               split; [lia|]. split; [exact Hp1|]. split; [exact Hp0|].
               split; [intros k q Hk Hql Hqr;
                       destruct (Honly' k q Hk Hql Hqr); auto|].
               split; [exact Hi|].
               split; [intros Heq; apply Hrc; rewrite Heq; symmetry; apply rc_involutive|].
               split; [exact Hlen1|]. split; [exact Hlen0|].
               split; [replace (p1 <? p0)%nat with false
                         by (symmetry; apply Nat.ltb_ge; lia); exact Hcov|].
               repeat split; assumption. }
             intros [= <-] i. cbn [toSeparate].
             rewrite !elem_of_union, !elem_of_singleton.
             intros [Hi|[Hi|Hi]]; [apply Hnew; auto|apply Hnew; auto|exact (Hst i Hi)].
          -- destruct (bulgeNewlyMasked _ _ _); [|discriminate].
             destruct (markPath true (bulgeGraph s) (branch0 c)) as [g1|]; [|discriminate].
             destruct (markPath true g1 (branch1 c)) as [g2|]; [|discriminate].
             destruct (foldM _ g2 _) as [g3|]; [|discriminate].
             assert (Hnew : forall i,
                       i = UnbranchingPath.id (branch0 c) \/
                       i = FastaRecord.rc (UnbranchingPath.id (branch0 c)) ->
                       stagedBranch MAX_BUBBLE_LEN paths g i).
             { intros i Hi. exists (branch0 c), (branch1 c), l, r, p0, p1.
               split; [lia|]. split; [exact Hp0|]. split; [exact Hp1|].
               split; [exact Honly'|].
               split; [exact Hi|]. split; [exact Hrc|].
               split; [exact Hlen0|]. split; [exact Hlen1|].
               split; [replace (p0 <? p1)%nat with true
                         by (symmetry; apply Nat.ltb_lt; lia); exact Hcov|].
               repeat split; assumption. }
             intros [= <-] i. cbn [toSeparate].
             rewrite !elem_of_union, !elem_of_singleton.
             intros [Hi|[Hi|Hi]]; [apply Hnew; auto|apply Hnew; auto|exact (Hst i Hi)].
        * intros [= <-]. exact Hst.
      + intros [= <-]. exact Hst.
    - split; [apply sameWiring_refl|]. cbn [toSeparate]. intros i Hi.
      exfalso. revert Hi. apply not_elem_of_empty. }
  exact (proj2 Hinv).
Qed.

(** Lines 149-199: whatever the loop pass stages, for removal or for
    unrolling, is the id, or the reverse complement of the id, of a listed
    forward path that starts and ends in one node of the graph the pass
    started from, a node with two incoming and two outgoing edges, and whose
    first edge is not marked self-complement. *)
Theorem loop_stages_forward_loops (paths : list (UnbranchingPath.t C))
    (g : RepeatGraph C) (st : LoopState C) :
  foldM (loopIter paths) (mkLoopState g ∅ ∅ 0) paths = Some st ->
  forall i, i ∈ toRemove st ∪ toUnroll st -> stagedLoop paths g i.
Proof.
  intros Hfold.
  assert (Hinv : sameWiring g (loopGraph st) /\
                 forall i, i ∈ toRemove st ∪ toUnroll st -> stagedLoop paths g i).
  { refine (foldM_invariant_in
              (fun s => sameWiring g (loopGraph s) /\
                        forall i, i ∈ toRemove s ∪ toUnroll s -> stagedLoop paths g i)
              _ paths _ _ _ _ Hfold).
    - intros s x s' Hx [Hw Hst] Hi.
      split; [exact (sameWiring_trans _ _ _ Hw (loopIter_sameWiring _ _ _ _ Hi))|].
      revert Hi. unfold loopIter.
      destruct (loopCandidate paths (loopGraph s) x) as [[r|]|] eqn:Hcand;
        [| |discriminate].
      + destruct (loopTests (loopGraph s) x r) as [[[en ex]|]|]; [| |discriminate].
        * assert (Hnew : stagedLoop paths g (UnbranchingPath.id x) /\
                         stagedLoop paths g (FastaRecord.rc (UnbranchingPath.id x))).
          { revert Hcand. unfold loopCandidate.
            destruct (FastaRecord.strand (UnbranchingPath.id x)) eqn:Hstrand;
              [|discriminate]. cbn [negb].
            destruct (isLooped (loopGraph s) x) as [[|]|] eqn:Hloop; try discriminate.
            destruct (frontSelfComplement (loopGraph s) x) as [[|]|] eqn:Hself;
              try discriminate.
            destruct (pathNodeLeft (loopGraph s) x) as [node|] eqn:Hl; [|discriminate].
            destruct (graphNodes (loopGraph s) !! node) as [nd|] eqn:Hnd; [|discriminate].
            destruct (Nat.eqb (List.length (inEdges nd)) 2) eqn:Hin; [|discriminate].
            destruct (Nat.eqb (List.length (outEdges nd)) 2) eqn:Hout; [|discriminate].
            intros _. apply Nat.eqb_eq in Hin, Hout.
            assert (Hr : pathNodeRight (loopGraph s) x = Some node).
            { unfold isLooped in Hloop. rewrite Hl in Hloop.
              destruct (pathNodeRight (loopGraph s) x) as [r'|]; [|discriminate].
              injection Hloop as Hloop. apply Nat.eqb_eq in Hloop. congruence. }
            rewrite (sameWiring_pathNodeLeft _ _ _ Hw) in Hl.
            rewrite (sameWiring_pathNodeRight _ _ _ Hw) in Hr.
            rewrite (sameWiring_frontSelfComplement _ _ _ Hw) in Hself.
            rewrite (proj1 Hw) in Hnd.
            split; exists x, node, nd; repeat split; auto. }
          destruct Hnew as [Hid Hrc].
          unfold loopApply.
          destruct (frontAltHaplotype (loopGraph s) x); [|discriminate].
          destruct (markPath true (loopGraph s) x) as [g1|]; [|discriminate].
          unfold stageBoth.
          destruct (loopIsRemoved x en ex); intros [= <-] i; cbn [toRemove toUnroll];
            rewrite !elem_of_union, !elem_of_singleton;
            intros Hi; decompose [or] Hi; subst; auto;
            apply Hst; rewrite elem_of_union; auto.
        * intros [= <-]. exact Hst.
      + intros [= <-]. exact Hst.
    - split; [apply sameWiring_refl|]. cbn [toRemove toUnroll]. intros i Hi.
      exfalso. revert Hi. rewrite elem_of_union.
      intros [Hi|Hi]; revert Hi; apply not_elem_of_empty. }
  exact (proj2 Hinv).
Qed.

End Staged.

Lemma bulge_stages_short_light_branches_witness :
  stagedBranch 50000 (getUnbranchingPaths simpleBulge) simpleBulge (FastaRecord.mkId 2 true).
Proof.
  apply (bulge_stages_short_light_branches 50000 (getUnbranchingPaths simpleBulge)
           simpleBulge stagedSimpleBulge).
  - vm_compute. reflexivity.
  - simpl. apply elem_of_union_r, elem_of_union_l, elem_of_singleton. reflexivity.
Defined.

Lemma loop_stages_forward_loops_witness :
  stagedLoop (getUnbranchingPaths (loopGraphWith (5 # 1))) (loopGraphWith (5 # 1))
             (FastaRecord.mkId 2 true).
Proof.
  apply (loop_stages_forward_loops (getUnbranchingPaths (loopGraphWith (5 # 1)))
           (loopGraphWith (5 # 1)) stagedLightLoop).
  - vm_compute. reflexivity.
  - simpl. apply elem_of_union_l, elem_of_union_r, elem_of_union_l, elem_of_singleton.
    reflexivity.
Defined.

(** ** The edges keep their identity *)

Section KeepsEdges.
Context {C : Type} `{Coverage C}.

Lemma sameIdentity_refl (ed : GraphEdge C) : sameIdentity ed ed.
Proof. repeat split. Qed.

Lemma sameIdentity_trans (a b c : GraphEdge C) :
  sameIdentity a b -> sameIdentity b c -> sameIdentity a c.
Proof.
  intros (H1 & H2 & H3 & H4) (K1 & K2 & K3 & K4). repeat split; congruence.
Qed.

Lemma keepsEdges_refl (g : RepeatGraph C) : keepsEdges g g.
Proof.
  split; [|lia]. apply Forall2_same_length_lookup. split; [reflexivity|].
  intros i x y Hx Hy. rewrite Hx in Hy. injection Hy as <-. apply sameIdentity_refl.
Qed.

Lemma keepsEdges_trans (g1 g2 g3 : RepeatGraph C) :
  keepsEdges g1 g2 -> keepsEdges g2 g3 -> keepsEdges g1 g3.
Proof.
  intros [He1 Hn1] [He2 Hn2]. split; [|lia].
  apply Forall2_same_length_lookup.
  pose proof (Forall2_length _ _ _ He1) as Hl1.
  pose proof (Forall2_length _ _ _ He2) as Hl2.
  split; [congruence|].
  intros i x z Hx Hz.
  destruct (lookup_lt_is_Some_2 (graphEdges g2) i) as [y Hy].
  { rewrite <- Hl1. eapply lookup_lt_Some; eauto. }
  apply (sameIdentity_trans x y z).
  - exact (Forall2_lookup_lr _ _ _ _ _ _ He1 Hx Hy).
  - exact (Forall2_lookup_lr _ _ _ _ _ _ He2 Hy Hz).
Qed.

Lemma sameWiring_keepsEdges (g g' : RepeatGraph C) : sameWiring g g' -> keepsEdges g g'.
Proof.
  intros [Hn He]. split; [|rewrite Hn; lia].
  eapply Forall2_impl; [exact He|].
  intros x y (_ & _ & H3 & H4 & H5 & H6). repeat split; assumption.
Qed.

Lemma updateEdge_keepsEdges (f : GraphEdge C -> GraphEdge C) (g g' : RepeatGraph C)
    (e : edge_ptr) :
  (forall ed, sameIdentity ed (f ed)) ->
  updateEdge f g e = Some g' -> keepsEdges g g'.
Proof.
  intros Hf. unfold updateEdge.
  destruct (graphEdges g !! e) as [ed|] eqn:He; [|discriminate].
  intros [= <-]. split; [|cbn; lia]. cbn.
  apply Forall2_same_length_lookup. split; [by rewrite length_insert|].
  intros i x y Hx Hy.
  destruct (decide (i = e)) as [->|Hne].
  - rewrite list_lookup_insert_eq in Hy by (eapply lookup_lt_Some; eauto).
    injection Hy as <-. rewrite He in Hx. injection Hx as <-. apply Hf.
  - rewrite list_lookup_insert_ne in Hy by auto.
    rewrite Hx in Hy. injection Hy as <-. apply sameIdentity_refl.
Qed.

Lemma updateNode_keepsEdges (f : GraphNode -> GraphNode) (g g' : RepeatGraph C)
    (n : node_ptr) :
  updateNode f g n = Some g' -> keepsEdges g g'.
Proof.
  unfold updateNode. destruct (graphNodes g !! n); [|discriminate].
  intros [= <-]. split; [exact (proj1 (keepsEdges_refl g))|].
  cbn. rewrite length_insert. lia.
Qed.

Lemma addNode_keepsEdges (g : RepeatGraph C) : keepsEdges g (fst (addNode g)).
Proof.
  split; [exact (proj1 (keepsEdges_refl g))|]. cbn. rewrite length_app. lia.
Qed.

Lemma setNodeLeft_sameIdentity (n : node_ptr) (ed : GraphEdge C) :
  sameIdentity ed (setNodeLeft n ed).
Proof. repeat split. Qed.

Lemma setNodeRight_sameIdentity (n : node_ptr) (ed : GraphEdge C) :
  sameIdentity ed (setNodeRight n ed).
Proof. repeat split. Qed.

Ltac keeps_step :=
  match goal with
  | |- match ?x with Some _ => _ | None => _ end = Some _ -> _ =>
      let Hx := fresh "Hstep" in
      destruct x eqn:Hx; [|discriminate]
  end.

Ltac keeps_chain :=
  repeat match goal with
  | H : updateNode _ ?a _ = Some ?b |- keepsEdges ?g _ =>
      apply updateNode_keepsEdges in H
  | H : updateEdge (setNodeLeft _) ?a _ = Some ?b |- _ =>
      apply (updateEdge_keepsEdges _ _ _ _ (setNodeLeft_sameIdentity _)) in H
  | H : updateEdge (setNodeRight _) ?a _ = Some ?b |- _ =>
      apply (updateEdge_keepsEdges _ _ _ _ (setNodeRight_sameIdentity _)) in H
  end.

Lemma separatePath_keepsEdges (g g' : RepeatGraph C) (p : UnbranchingPath.t C) :
  separatePath g p = Some g' -> keepsEdges g g'.
Proof.
  unfold separatePath.
  pose proof (addNode_keepsEdges g) as K1.
  pose proof (addNode_keepsEdges (fst (addNode g))) as K2.
  destruct (addNode g) as [g1 newLeft]. cbn [fst] in *.
  destruct (addNode g1) as [g2 newRight]. cbn [fst] in *.
  destruct (pathFront p) as [front|]; [|discriminate].
  destruct (pathBack p) as [back|]; [|discriminate].
  repeat keeps_step. intros Hlast. keeps_chain.
  repeat (eapply keepsEdges_trans; [eassumption|]). apply keepsEdges_refl.
Qed.

Lemma unrollPath_keepsEdges (g g' : RepeatGraph C) (p : UnbranchingPath.t C) :
  unrollPath g p = Some g' -> keepsEdges g g'.
Proof.
  unfold unrollPath.
  pose proof (addNode_keepsEdges g) as K1.
  destruct (addNode g) as [g1 newNode]. cbn [fst] in *.
  destruct (pathFront p) as [front|]; [|discriminate].
  destruct (pathBack p) as [back|]; [|discriminate].
  repeat keeps_step. intros Hlast. keeps_chain.
  repeat (eapply keepsEdges_trans; [eassumption|]). apply keepsEdges_refl.
Qed.

Lemma removePath_keepsEdges (g g' : RepeatGraph C) (p : UnbranchingPath.t C) :
  removePath g p = Some g' -> keepsEdges g g'.
Proof.
  unfold removePath.
  pose proof (addNode_keepsEdges g) as K1.
  pose proof (addNode_keepsEdges (fst (addNode g))) as K2.
  destruct (addNode g) as [g1 newLeft]. cbn [fst] in *.
  destruct (addNode g1) as [g2 newRight]. cbn [fst] in *.
  destruct (pathFront p) as [front|]; [|discriminate].
  destruct (pathBack p) as [back|]; [|discriminate].
  repeat keeps_step. intros Hlast. keeps_chain.
  repeat (eapply keepsEdges_trans; [eassumption|]). apply keepsEdges_refl.
Qed.

(** Lines 12-133, either mode: the bulge pass neither adds nor drops an
    edge, no edge changes its id, its length, its self-complement mark or
    its twin, and no node is dropped. *)
Theorem bulge_pass_keeps_edges (MAX_BUBBLE_LEN : Z) (removeAlternatives : bool)
    (paths : list (UnbranchingPath.t C)) (g g' : RepeatGraph C) (n : Z) :
  collapseHeterozygousBulges MAX_BUBBLE_LEN removeAlternatives paths g = Some (g', n) ->
  Forall2 sameIdentity (graphEdges g) (graphEdges g') /\
  (List.length (graphNodes g) <= List.length (graphNodes g'))%nat.
Proof.
  unfold collapseHeterozygousBulges.
  destruct (foldM _ _ paths) as [st|] eqn:Hdet; [|discriminate].
  apply bulgeDetection_sameWiring, sameWiring_keepsEdges in Hdet. cbn in Hdet.
  destruct removeAlternatives.
  - destruct (foldM (separateIter _) _ paths) as [g2|] eqn:Hsep; [|discriminate].
    intros [= <- _].
    refine (foldM_invariant (keepsEdges g) _ _ paths _ _ Hdet Hsep).
    intros s x s' Hs. unfold separateIter.
    destruct (decide _); [|intros [= <-]; exact Hs].
    intros Hsp. exact (keepsEdges_trans _ _ _ Hs (separatePath_keepsEdges _ _ _ Hsp)).
  - intros [= <- _]. exact Hdet.
Qed.

(** Lines 139-246, either mode: the loop pass neither adds nor drops an
    edge, no edge changes its id, its length, its self-complement mark or
    its twin, and no node is dropped. *)
Theorem loop_pass_keeps_edges (removeAlternatives : bool)
    (paths : list (UnbranchingPath.t C)) (g g' : RepeatGraph C) (n : Z) :
  collapseHeterozygousLoops removeAlternatives paths g = Some (g', n) ->
  Forall2 sameIdentity (graphEdges g) (graphEdges g') /\
  (List.length (graphNodes g) <= List.length (graphNodes g'))%nat.
Proof.
  unfold collapseHeterozygousLoops.
  destruct (foldM _ _ paths) as [st|] eqn:Hdet; [|discriminate].
  apply loopDetection_sameWiring, sameWiring_keepsEdges in Hdet. cbn in Hdet.
  destruct removeAlternatives.
  - destruct (foldM (loopEditIter _ _) _ paths) as [g2|] eqn:Hed; [|discriminate].
    intros [= <- _].
    refine (foldM_invariant (keepsEdges g) _ _ paths _ _ Hdet Hed).
    intros s x s' Hs. unfold loopEditIter.
    destruct (decide (UnbranchingPath.id x ∈ toUnroll st)).
    + destruct (unrollPath s x) as [s1|] eqn:Hun; [|discriminate].
      pose proof (keepsEdges_trans _ _ _ Hs (unrollPath_keepsEdges _ _ _ Hun)) as Hs1.
      destruct (decide _); [|intros [= <-]; exact Hs1].
      intros Hrm. exact (keepsEdges_trans _ _ _ Hs1 (removePath_keepsEdges _ _ _ Hrm)).
    + destruct (decide _); [|intros [= <-]; exact Hs].
      intros Hrm. exact (keepsEdges_trans _ _ _ Hs (removePath_keepsEdges _ _ _ Hrm)).
  - intros [= <- _]. exact Hdet.
Qed.

End KeepsEdges.

Lemma bulge_pass_keeps_edges_witness :
  Forall2 sameIdentity (graphEdges simpleBulge) (graphEdges collapsedSimpleBulge) /\
  (List.length (graphNodes simpleBulge) <= List.length (graphNodes collapsedSimpleBulge))%nat.
Proof.
  apply (bulge_pass_keeps_edges 50000 true (getUnbranchingPaths simpleBulge)
           simpleBulge collapsedSimpleBulge 1).
  vm_compute. reflexivity.
Defined.


Lemma loop_pass_keeps_edges_witness :
  match collapseHeterozygousLoops true (getUnbranchingPaths (loopGraphWith (5 # 1)))
          (loopGraphWith (5 # 1)) with
  | Some (g', _) =>
      Forall2 sameIdentity (graphEdges (loopGraphWith (5 # 1))) (graphEdges g') /\
      (List.length (graphNodes (loopGraphWith (5 # 1))) <= List.length (graphNodes g'))%nat
  | None => False
  end.
Proof.
  destruct (collapseHeterozygousLoops true (getUnbranchingPaths (loopGraphWith (5 # 1)))
              (loopGraphWith (5 # 1))) as [[g' n]|] eqn:Hrun.
  - exact (loop_pass_keeps_edges true _ _ _ _ Hrun).
  - vm_compute in Hrun. discriminate Hrun.
Defined.

(** * Separating a path *)

Section Separation.
Context {C : Type} `{Coverage C}.

Lemma updateNode_Some (f : GraphNode -> GraphNode) (g : RepeatGraph C) (n : node_ptr)
    (nd : GraphNode) :
  graphNodes g !! n = Some nd ->
  updateNode f g n = Some (mkGraph (<[n := f nd]> (graphNodes g)) (graphEdges g)).
Proof. intros Hn. unfold updateNode. rewrite Hn. reflexivity. Qed.

Lemma updateEdge_Some (f : GraphEdge C -> GraphEdge C) (g : RepeatGraph C) (e : edge_ptr)
    (ed : GraphEdge C) :
  graphEdges g !! e = Some ed ->
  updateEdge f g e = Some (mkGraph (graphNodes g) (<[e := f ed]> (graphEdges g))).
Proof. intros He. unfold updateEdge. rewrite He. reflexivity. Qed.

Lemma pathNodeLeft_Some (g : RepeatGraph C) (p : UnbranchingPath.t C)
    (front : edge_ptr) (ed : GraphEdge C) :
  pathFront p = Some front -> graphEdges g !! front = Some ed ->
  pathNodeLeft g p = Some (nodeLeft ed).
Proof. intros Hf He. unfold pathNodeLeft. rewrite Hf, He. reflexivity. Qed.

Lemma pathNodeRight_Some (g : RepeatGraph C) (p : UnbranchingPath.t C)
    (back : edge_ptr) (ed : GraphEdge C) :
  pathBack p = Some back -> graphEdges g !! back = Some ed ->
  pathNodeRight g p = Some (nodeRight ed).
Proof. intros Hb He. unfold pathNodeRight. rewrite Hb, He. reflexivity. Qed.

Lemma list_lookup_insert_case {A : Type} (l : list A) (i j : nat) (x : A) :
  (i < List.length l)%nat ->
  <[i := x]> l !! j = if decide (j = i) then Some x else l !! j.
Proof.
  intros Hi. destruct (decide (j = i)) as [->|Hne].
  - apply list_lookup_insert_eq. exact Hi.
  - apply list_lookup_insert_ne. auto.
Qed.

Lemma separatePath_lookup (g : RepeatGraph C) (p : UnbranchingPath.t C)
    (front back : edge_ptr) (edF edB : GraphEdge C) :
  pathFront p = Some front -> pathBack p = Some back ->
  graphEdges g !! front = Some edF -> graphEdges g !! back = Some edB ->
  (nodeLeft edF < List.length (graphNodes g))%nat ->
  (nodeRight edB < List.length (graphNodes g))%nat ->
  exists g',
    separatePath g p = Some g' /\
    (forall n,
       graphNodes g' !! n =
       if decide (n = List.length (graphNodes g)) then Some (mkNode [] [front])
       else if decide (n = S (List.length (graphNodes g))) then Some (mkNode [back] [])
       else separatedNode front back (nodeLeft edF) (nodeRight edB) n
              <$> graphNodes g !! n) /\
    (forall e,
       graphEdges g' !! e =
       separatedEdge front back (List.length (graphNodes g)) e <$> graphEdges g !! e).
Proof.
  intros Hf Hb HeF HeB Hl Hr.
  set (N := List.length (graphNodes g)) in *.
  set (l := nodeLeft edF) in *. set (r := nodeRight edB) in *.
  unfold separatePath. cbn [addNode]. rewrite Hf, Hb.
  cbn [graphNodes graphEdges].
  replace (List.length (graphNodes g ++ [mkNode [] []])) with (S N)
    by (rewrite length_app; cbn; lia).
  fold N.
  set (nodes2 := (graphNodes g ++ [mkNode [] []]) ++ [mkNode [] []]).
  assert (Hlen2 : List.length nodes2 = S (S N)).
  { unfold nodes2. rewrite !length_app. cbn. lia. }
  assert (Hold : forall n, (n < N)%nat -> nodes2 !! n = graphNodes g !! n).
  { intros n Hn. unfold nodes2.
    rewrite lookup_app_l by (rewrite length_app; cbn; lia).
    rewrite lookup_app_l by exact Hn. reflexivity. }
  assert (HN : nodes2 !! N = Some (mkNode [] [])).
  { unfold nodes2. rewrite lookup_app_l by (rewrite length_app; cbn; lia).
    rewrite lookup_app_r by lia. fold N. rewrite Nat.sub_diag. reflexivity. }
  assert (HN1 : nodes2 !! S N = Some (mkNode [] [])).
  { unfold nodes2. rewrite lookup_app_r by (rewrite length_app; cbn; lia).
    rewrite length_app. cbn. fold N. replace (S N - (N + 1))%nat with 0%nat by lia.
    reflexivity. }
  assert (Hbig : forall n, (N <= n)%nat -> graphNodes g !! n = None).
  { intros n Hn. apply lookup_ge_None. exact Hn. }
  rewrite (pathNodeLeft_Some (mkGraph nodes2 (graphEdges g)) p front edF Hf HeF).
  fold l.
  destruct (lookup_lt_is_Some_2 (graphNodes g) l Hl) as [ndL HndL].
  rewrite (updateNode_Some _ (mkGraph nodes2 (graphEdges g)) l ndL)
    by (cbn; rewrite Hold; auto).
  cbn [graphNodes graphEdges].
  set (nodes3 := <[l := removeOutEdge front ndL]> nodes2).
  assert (Hlen3 : List.length nodes3 = S (S N)).
  { unfold nodes3. rewrite length_insert. exact Hlen2. }
  assert (H3 : forall n, nodes3 !! n =
                 if decide (n = l) then Some (removeOutEdge front ndL) else nodes2 !! n).
  { intros n. unfold nodes3. apply list_lookup_insert_case. lia. }
  rewrite (pathNodeRight_Some (mkGraph nodes3 (graphEdges g)) p back edB Hb HeB).
  fold r.
  destruct (lookup_lt_is_Some_2 nodes3 r) as [ndR3 HndR3]; [lia|].
  rewrite (updateNode_Some _ (mkGraph nodes3 (graphEdges g)) r ndR3 HndR3).
  cbn [graphNodes graphEdges].
  set (nodes4 := <[r := removeInEdge back ndR3]> nodes3).
  assert (Hlen4 : List.length nodes4 = S (S N)).
  { unfold nodes4. rewrite length_insert. exact Hlen3. }
  assert (H4 : forall n, nodes4 !! n =
                 if decide (n = r) then Some (removeInEdge back ndR3) else nodes3 !! n).
  { intros n. unfold nodes4. apply list_lookup_insert_case. lia. }
  rewrite (updateEdge_Some _ (mkGraph nodes4 (graphEdges g)) front edF HeF).
  cbn [graphNodes graphEdges].
  set (edges5 := <[front := setNodeLeft N edF]> (graphEdges g)).
  assert (Hfront : (front < List.length (graphEdges g))%nat)
    by (eapply lookup_lt_Some; eauto).
  assert (H5 : forall e, edges5 !! e =
                 if decide (e = front) then Some (setNodeLeft N edF)
                 else graphEdges g !! e).
  { intros e. unfold edges5. apply list_lookup_insert_case. exact Hfront. }
  assert (Hback : (back < List.length edges5)%nat).
  { unfold edges5. rewrite length_insert. eapply lookup_lt_Some; eauto. }
  destruct (lookup_lt_is_Some_2 edges5 back Hback) as [edB5 HedB5].
  rewrite (updateEdge_Some _ (mkGraph nodes4 edges5) back edB5 HedB5).
  cbn [graphNodes graphEdges].
  assert (H4N : nodes4 !! N = Some (mkNode [] [])).
  { rewrite H4, decide_False by lia. rewrite H3, decide_False by lia. exact HN. }
  rewrite (updateNode_Some _ (mkGraph nodes4 _) N _ H4N).
  cbn [graphNodes graphEdges].
  set (nodes7 := <[N := pushOutEdge front (mkNode [] [])]> nodes4).
  assert (H7 : forall n, nodes7 !! n =
                 if decide (n = N) then Some (pushOutEdge front (mkNode [] []))
                 else nodes4 !! n).
  { intros n. unfold nodes7. apply list_lookup_insert_case. lia. }
  assert (H7N : nodes7 !! S N = Some (mkNode [] [])).
  { rewrite H7, decide_False by lia. rewrite H4, decide_False by lia.
    rewrite H3, decide_False by lia. exact HN1. }
  rewrite (updateNode_Some _ (mkGraph nodes7 _) (S N) _ H7N).
  eexists. split; [reflexivity|]. cbn [graphNodes graphEdges]. split.
  - intros n.
    rewrite list_lookup_insert_case by (unfold nodes7; rewrite length_insert; lia).
    destruct (decide (n = N)) as [->|HnN].
    + rewrite decide_False by lia. rewrite H7, decide_True by reflexivity. reflexivity.
    + destruct (decide (n = S N)) as [->|HnN1]; [reflexivity|].
      rewrite H7, decide_False by exact HnN. rewrite H4.
      unfold separatedNode.
      destruct (decide (n = r)) as [->|Hnr].
      * rewrite H3 in HndR3. rewrite Hold in HndR3 by exact Hr.
        destruct (decide (r = l)) as [Hrl|Hrl].
        -- injection HndR3 as <-. rewrite <- Hrl in HndL. rewrite HndL. reflexivity.
        -- rewrite HndR3. reflexivity.
      * rewrite H3. destruct (decide (n = l)) as [->|Hnl].
        -- rewrite HndL. reflexivity.
        -- destruct (decide (n < N)%nat) as [Hlt|Hge].
           ++ rewrite Hold by exact Hlt. destruct (graphNodes g !! n) as [nd|];
                [destruct nd|]; reflexivity.
           ++ rewrite Hbig by lia. apply lookup_ge_None. lia.
  - intros e. unfold separatedEdge.
    rewrite list_lookup_insert_case by exact Hback.
    rewrite H5 in HedB5.
    destruct (decide (e = back)) as [->|Hne].
    + destruct (decide (back = front)) as [Hbf|Hbf].
      * injection HedB5 as <-. rewrite Hbf in HeB |- *. rewrite HeF. reflexivity.
      * rewrite HedB5. reflexivity.
    + rewrite H5. destruct (decide (e = front)) as [->|Hnf].
      * rewrite HeF. reflexivity.
      * destruct (graphEdges g !! e); reflexivity.
Qed.

(** ** Coherent adjacency lists *)

Lemma vecRemove_subset (v : list edge_ptr) (x y : edge_ptr) :
  x ∈ vecRemove v y -> x ∈ v.
Proof.
  induction v as [|z v IH]; cbn [vecRemove]; [auto|].
  destruct (Nat.eqb z y).
  - intros Hx. apply list_elem_of_further. exact Hx.
  - intros Hx. apply elem_of_cons in Hx as [->|Hx];
      [apply list_elem_of_here|apply list_elem_of_further; auto].
Qed.

Lemma vecRemove_keeps (v : list edge_ptr) (x y : edge_ptr) :
  x ∈ v -> x <> y -> x ∈ vecRemove v y.
Proof.
  intros Hx Hne. induction v as [|z v IH]; cbn [vecRemove]; [exact Hx|].
  apply elem_of_cons in Hx as [->|Hx].
  - destruct (Nat.eqb z y) eqn:Heq; [apply Nat.eqb_eq in Heq; congruence|].
    apply list_elem_of_here.
  - destruct (Nat.eqb z y); [exact Hx|]. apply list_elem_of_further. auto.
Qed.

Lemma vecRemove_NoDup (v : list edge_ptr) (y : edge_ptr) :
  NoDup v -> NoDup (vecRemove v y) /\ y ∉ vecRemove v y.
Proof.
  induction v as [|z v IH]; cbn [vecRemove]; intros Hnd.
  - split; [constructor|apply not_elem_of_nil].
  - apply NoDup_cons in Hnd as [Hz Hnd]. destruct (Nat.eqb z y) eqn:Heq.
    + apply Nat.eqb_eq in Heq. subst z. auto.
    + apply Nat.eqb_neq in Heq. destruct (IH Hnd) as [Hnd' Hy]. split.
      * apply NoDup_cons. split; [|exact Hnd'].
        intros Hin. apply Hz. exact (vecRemove_subset _ _ _ Hin).
      * intros Hin. apply elem_of_cons in Hin as [Hc|Hin]; [congruence|contradiction].
Qed.

Lemma listsCoherentb_complete (g : RepeatGraph C) :
  listsCoherent g -> listsCoherentb g = true.
Proof.
  intros Hco. unfold listsCoherentb. apply forallb_forall. intros n Hn.
  destruct (graphNodes g !! n) as [nd|] eqn:Hnd; [|reflexivity].
  destruct (Hco n nd Hnd) as (Hin & Hout & Hndi & Hndo).
  unfold nodeCoherentb. rewrite !andb_true_iff. repeat split.
  - apply forallb_forall. intros e He. apply list_elem_of_In in He.
    destruct (Hin e He) as (ed & -> & Hr). apply Nat.eqb_eq. exact Hr.
  - apply forallb_forall. intros e He. apply list_elem_of_In in He.
    destruct (Hout e He) as (ed & -> & Hl). apply Nat.eqb_eq. exact Hl.
  - apply bool_decide_eq_true. exact Hndi.
  - apply bool_decide_eq_true. exact Hndo.
Qed.

Lemma listsCoherentb_iff (g : RepeatGraph C) :
  listsCoherentb g = true <-> listsCoherent g.
Proof.
  split; [|apply listsCoherentb_complete].
  intros Hb n nd Hn. exact (listsCoherentb_sound g n nd Hb Hn).
Qed.

Lemma edgesListedb_iff (g : RepeatGraph C) :
  edgesListedb g = true <-> edgesListed g.
Proof.
  unfold edgesListedb, edgesListed. rewrite forallb_forall. split.
  - intros Hall e ed He. specialize (Hall e).
    rewrite He in Hall. unfold edgeListedb in Hall.
    assert (Hin : In e (seq 0 (List.length (graphEdges g)))).
    { apply in_seq. apply lookup_lt_Some in He. lia. }
    specialize (Hall Hin).
    destruct (graphNodes g !! nodeLeft ed) as [nl|]; [|discriminate].
    destruct (graphNodes g !! nodeRight ed) as [nr|]; [|discriminate].
    apply andb_prop in Hall as [H1 H2].
    apply bool_decide_eq_true in H1, H2. exists nl, nr. auto.
  - intros Hall e _. destruct (graphEdges g !! e) as [ed|] eqn:He; [|reflexivity].
    destruct (Hall e ed He) as (nl & nr & Hl & Hr & Ho & Hi).
    unfold edgeListedb. rewrite Hl, Hr. apply andb_true_intro.
    split; apply bool_decide_eq_true; assumption.
Qed.

Lemma adjacencyCoherent_iff (g : RepeatGraph C) :
  adjacencyCoherent g <-> listsCoherent g /\ edgesListed g.
Proof.
  unfold adjacencyCoherent. rewrite listsCoherentb_iff, edgesListedb_iff. reflexivity.
Qed.

Lemma sameWiring_coherent (g g' : RepeatGraph C) :
  sameWiring g g' -> listsCoherent g /\ edgesListed g ->
  listsCoherent g' /\ edgesListed g'.
Proof.
  intros Hw [Hco Hli]. pose proof (proj1 Hw) as Hn. split.
  - intros n nd Hnd. rewrite Hn in Hnd.
    destruct (Hco n nd Hnd) as (Hin & Hout & Hndi & Hndo).
    split; [|split; [|auto]].
    + intros e He. destruct (Hin e He) as (ed & Hed & Hr).
      destruct (sameWiring_lookup _ _ _ _ Hw Hed) as (ed' & Hed' & _ & Hr' & _).
      exists ed'. split; [exact Hed'|congruence].
    + intros e He. destruct (Hout e He) as (ed & Hed & Hl).
      destruct (sameWiring_lookup _ _ _ _ Hw Hed) as (ed' & Hed' & Hl' & _).
      exists ed'. split; [exact Hed'|congruence].
  - intros e ed' Hed'.
    destruct (graphEdges g !! e) as [ed|] eqn:Hed.
    + destruct (sameWiring_lookup _ _ _ _ Hw Hed) as (ed2 & Hed2 & Hl & Hr & _).
      rewrite Hed' in Hed2. injection Hed2 as <-.
      destruct (Hli e ed Hed) as (nl & nr & Hnl & Hnr & Ho & Hi).
      exists nl, nr. rewrite Hn, Hl, Hr. auto.
    + rewrite (sameWiring_lookup_None _ _ _ Hw Hed) in Hed'. discriminate.
Qed.

Lemma separatePath_inv (g g' : RepeatGraph C) (p : UnbranchingPath.t C) :
  separatePath g p = Some g' ->
  exists front back edF edB,
    pathFront p = Some front /\ pathBack p = Some back /\
    graphEdges g !! front = Some edF /\ graphEdges g !! back = Some edB.
Proof.
  unfold separatePath. cbn [addNode].
  destruct (pathFront p) as [front|] eqn:Hf; [|discriminate].
  destruct (pathBack p) as [back|] eqn:Hb; [|discriminate].
  unfold pathNodeLeft at 1. rewrite Hf. cbn [graphEdges].
  destruct (graphEdges g !! front) as [edF|] eqn:HeF; [|discriminate].
  destruct (updateNode _ _ _) as [g3|] eqn:H3; [|discriminate].
  unfold pathNodeRight at 1. rewrite Hb.
  assert (He3 : graphEdges g3 = graphEdges g).
  { unfold updateNode in H3. destruct (_ !! _) in H3; [|discriminate].
    injection H3 as <-. reflexivity. }
  rewrite He3.
  destruct (graphEdges g !! back) as [edB|] eqn:HeB; [|discriminate].
  intros _. exists front, back, edF, edB. auto.
Qed.

(** Lines 110-117 keep the adjacency lists coherent. *)
Lemma separatePath_coherent (g g' : RepeatGraph C) (p : UnbranchingPath.t C) :
  listsCoherent g /\ edgesListed g ->
  separatePath g p = Some g' ->
  listsCoherent g' /\ edgesListed g'.
Proof.
  intros [Hco Hli] Hsep.
  destruct (separatePath_inv _ _ _ Hsep) as (front & back & edF & edB & Hf & Hb & HeF & HeB).
  destruct (Hli front edF HeF) as (nlF & nrF & HnlF & _ & HoF & _).
  destruct (Hli back edB HeB) as (nlB & nrB & _ & HnrB & _ & HiB).
  pose proof (lookup_lt_Some _ _ _ HnlF) as Hl.
  pose proof (lookup_lt_Some _ _ _ HnrB) as Hr.
  destruct (separatePath_lookup g p front back edF edB Hf Hb HeF HeB Hl Hr)
    as (g2 & Hsep2 & Hnodes & Hedges).
  rewrite Hsep in Hsep2. injection Hsep2 as <-.
  set (N := List.length (graphNodes g)) in *.
  set (l := nodeLeft edF) in *. set (r := nodeRight edB) in *.
  assert (HedgeF : exists ed', graphEdges g' !! front = Some ed' /\ nodeLeft ed' = N).
  { rewrite Hedges, HeF. cbn. eexists. split; [reflexivity|].
    unfold separatedEdge. rewrite (decide_True (P := front = front)) by reflexivity.
    destruct (decide (front = back)); reflexivity. }
  assert (HedgeB : exists ed', graphEdges g' !! back = Some ed' /\ nodeRight ed' = S N).
  { rewrite Hedges, HeB. cbn. eexists. split; [reflexivity|].
    unfold separatedEdge. rewrite (decide_True (P := back = back)) by reflexivity.
    reflexivity. }
  split.
  - intros n nd' Hnd'. rewrite Hnodes in Hnd'.
    destruct (decide (n = N)) as [->|HnN].
    { injection Hnd' as <-. cbn. split; [|split; [|split]].
      - intros e He. exfalso. revert He. apply not_elem_of_nil.
      - intros e He. apply list_elem_of_singleton in He. subst e. exact HedgeF.
      - constructor.
      - apply NoDup_singleton. }
    destruct (decide (n = S N)) as [->|HnN1].
    { injection Hnd' as <-. cbn. split; [|split; [|split]].
      - intros e He. apply list_elem_of_singleton in He. subst e. exact HedgeB.
      - intros e He. exfalso. revert He. apply not_elem_of_nil.
      - apply NoDup_singleton.
      - constructor. }
    destruct (graphNodes g !! n) as [nd|] eqn:Hnd; [|discriminate].
    cbn in Hnd'. injection Hnd' as <-.
    destruct (Hco n nd Hnd) as (Hin & Hout & Hndi & Hndo).
    unfold separatedNode. cbn [inEdges outEdges]. split; [|split; [|split]].
    + intros e He.
      assert (He' : e ∈ inEdges nd /\ (n = r -> e <> back)).
      { destruct (decide (n = r)) as [Hnr|Hnr].
        - split; [exact (vecRemove_subset _ _ _ He)|].
          intros _ ->. exact (proj2 (vecRemove_NoDup _ back Hndi) He).
        - split; [exact He|contradiction]. }
      destruct He' as [He1 He2].
      destruct (Hin e He1) as (ed & Hed & Hright).
      assert (Hneb : e <> back).
      { intros ->. rewrite HeB in Hed. injection Hed as <-. apply He2; [|reflexivity].
        symmetry. exact Hright. }
      exists (separatedEdge front back N e ed). split; [rewrite Hedges, Hed; reflexivity|].
      unfold separatedEdge. rewrite (decide_False (P := e = back)) by exact Hneb.
      destruct (decide (e = front)); exact Hright.
    + intros e He.
      assert (He' : e ∈ outEdges nd /\ (n = l -> e <> front)).
      { destruct (decide (n = l)) as [Hnl|Hnl].
        - split; [exact (vecRemove_subset _ _ _ He)|].
          intros _ ->. exact (proj2 (vecRemove_NoDup _ front Hndo) He).
        - split; [exact He|contradiction]. }
      destruct He' as [He1 He2].
      destruct (Hout e He1) as (ed & Hed & Hleft).
      assert (Hnef : e <> front).
      { intros ->. rewrite HeF in Hed. injection Hed as <-. apply He2; [|reflexivity].
        symmetry. exact Hleft. }
      exists (separatedEdge front back N e ed). split; [rewrite Hedges, Hed; reflexivity|].
      unfold separatedEdge. rewrite (decide_False (P := e = front)) by exact Hnef.
      destruct (decide (e = back)); exact Hleft.
    + destruct (decide (n = r)); [exact (proj1 (vecRemove_NoDup _ back Hndi))|exact Hndi].
    + destruct (decide (n = l)); [exact (proj1 (vecRemove_NoDup _ front Hndo))|exact Hndo].
  - intros e ed' Hed'. rewrite Hedges in Hed'.
    destruct (graphEdges g !! e) as [ed|] eqn:Hed; [|discriminate].
    cbn in Hed'. injection Hed' as <-.
    destruct (Hli e ed Hed) as (nl & nr & Hnl & Hnr & Ho & Hi).
    pose proof (lookup_lt_Some _ _ _ Hnl) as Hnl_lt.
    pose proof (lookup_lt_Some _ _ _ Hnr) as Hnr_lt.
    fold N in Hnl_lt, Hnr_lt.
    assert (Hleft : exists nl', graphNodes g' !! nodeLeft (separatedEdge front back N e ed)
                                = Some nl' /\ e ∈ outEdges nl').
    { destruct (decide (e = front)) as [->|Hnf].
      - exists (mkNode [] [front]). split; [|cbn; apply list_elem_of_here].
        replace (nodeLeft (separatedEdge front back N front ed)) with N.
        + rewrite Hnodes, decide_True by reflexivity. reflexivity.
        + unfold separatedEdge. rewrite (decide_True (P := front = front)) by reflexivity.
          destruct (decide (front = back)); reflexivity.
      - replace (nodeLeft (separatedEdge front back N e ed)) with (nodeLeft ed).
        + rewrite Hnodes, decide_False by lia. rewrite decide_False by lia.
          rewrite Hnl. cbn. eexists. split; [reflexivity|].
          unfold separatedNode. cbn [outEdges].
          destruct (decide (nodeLeft ed = l)); [|exact Ho].
          apply vecRemove_keeps; assumption.
        + unfold separatedEdge. rewrite (decide_False (P := e = front)) by exact Hnf.
          destruct (decide (e = back)); reflexivity. }
    assert (Hright : exists nr', graphNodes g' !! nodeRight (separatedEdge front back N e ed)
                                 = Some nr' /\ e ∈ inEdges nr').
    { destruct (decide (e = back)) as [->|Hnb].
      - exists (mkNode [back] []). split; [|cbn; apply list_elem_of_here].
        replace (nodeRight (separatedEdge front back N back ed)) with (S N).
        + rewrite Hnodes, decide_False by lia. rewrite decide_True by reflexivity.
          reflexivity.
        + unfold separatedEdge. rewrite (decide_True (P := back = back)) by reflexivity.
          reflexivity.
      - replace (nodeRight (separatedEdge front back N e ed)) with (nodeRight ed).
        + rewrite Hnodes, decide_False by lia. rewrite decide_False by lia.
          rewrite Hnr. cbn. eexists. split; [reflexivity|].
          unfold separatedNode. cbn [inEdges].
          destruct (decide (nodeRight ed = r)); [|exact Hi].
          apply vecRemove_keeps; assumption.
        + unfold separatedEdge. rewrite (decide_False (P := e = back)) by exact Hnb.
          destruct (decide (e = front)); reflexivity. }
    destruct Hleft as (nl' & Hnl' & Ho'). destruct Hright as (nr' & Hnr' & Hi').
    exists nl', nr'. auto.
Qed.

(** ** The bulge pass on a well-formed graph *)

Lemma foldM_total_inv {A S : Type} (P : S -> Prop) (f : S -> A -> option S)
    (l : list A) :
  (forall s x, x ∈ l -> P s -> exists s', f s x = Some s' /\ P s') ->
  forall s, P s -> exists s', foldM f s l = Some s' /\ P s'.
Proof.
  induction l as [|x l IH]; intros Hstep s Hs; cbn [foldM]; [eauto|].
  destruct (Hstep s x (list_elem_of_here _ _) Hs) as (s1 & -> & Hs1).
  apply IH; [|exact Hs1].
  intros t y Hy. apply Hstep. apply list_elem_of_further. exact Hy.
Qed.

Lemma foldM_ext {A S : Type} (f f' : S -> A -> option S) (l : list A) :
  (forall s x, x ∈ l -> f s x = f' s x) ->
  forall s, foldM f s l = foldM f' s l.
Proof.
  induction l as [|x l IH]; intros Hext s; cbn [foldM]; [reflexivity|].
  rewrite (Hext s x (list_elem_of_here _ _)).
  destruct (f' s x); [|reflexivity].
  apply IH. intros t y Hy. apply Hext. apply list_elem_of_further. exact Hy.
Qed.

Lemma filterM_total {A : Type} (f : A -> option bool) (l : list A) :
  (forall x, x ∈ l -> is_Some (f x)) -> is_Some (filterM f l).
Proof.
  induction l as [|x l IH]; intros Hf; cbn [filterM]; [eauto|].
  destruct (Hf x (list_elem_of_here _ _)) as [b ->].
  destruct IH as [r ->]; [|eauto].
  intros y Hy. apply Hf. apply list_elem_of_further. exact Hy.
Qed.

Lemma sameWiring_is_Some (g g' : RepeatGraph C) (e : edge_ptr) :
  sameWiring g g' -> is_Some (graphEdges g !! e) -> is_Some (graphEdges g' !! e).
Proof.
  intros Hw [ed Hed]. destruct (sameWiring_lookup _ _ _ _ Hw Hed) as (ed' & -> & _). eauto.
Qed.

Lemma sameWiring_twins (g g' : RepeatGraph C) :
  sameWiring g g' -> twinsInvolutive g ->
  forall e ed, graphEdges g' !! e = Some ed -> is_Some (graphEdges g' !! twin ed).
Proof.
  intros Hw Htw e ed' Hed'.
  destruct (graphEdges g !! e) as [ed|] eqn:Hed.
  - destruct (sameWiring_lookup _ _ _ _ Hw Hed) as (ed2 & Hed2 & _ & _ & _ & _ & _ & Ht).
    rewrite Hed' in Hed2. injection Hed2 as <-. rewrite Ht.
    destruct (Htw e ed Hed) as (t & Ht' & _).
    apply (sameWiring_is_Some _ _ _ Hw). eauto.
  - rewrite (sameWiring_lookup_None _ _ _ Hw Hed) in Hed'. discriminate.
Qed.

Lemma updateBothStrands_total (f : GraphEdge C -> GraphEdge C) (g : RepeatGraph C)
    (e : edge_ptr) :
  (forall ed, twin (f ed) = twin ed) ->
  is_Some (graphEdges g !! e) ->
  (forall x ed, graphEdges g !! x = Some ed -> is_Some (graphEdges g !! twin ed)) ->
  is_Some (updateBothStrands f g e).
Proof.
  intros Hf [ed Hed] Htw. unfold updateBothStrands.
  rewrite (updateEdge_Some f g e ed Hed).
  unfold complementEdge. cbn [graphEdges].
  rewrite list_lookup_insert_eq by (eapply lookup_lt_Some; eauto).
  rewrite Hf. unfold updateEdge. cbn [graphEdges].
  destruct (Htw e ed Hed) as [t Ht].
  assert (Hlt : (twin ed < List.length (<[e := f ed]> (graphEdges g)))%nat).
  { rewrite length_insert. eapply lookup_lt_Some; eauto. }
  destruct (lookup_lt_is_Some_2 _ _ Hlt) as [t' ->]. eauto.
Qed.

Lemma markPath_total (g0 : RepeatGraph C) (b : bool) (p : UnbranchingPath.t C)
    (g : RepeatGraph C) :
  twinsInvolutive g0 -> sameWiring g0 g ->
  (forall e, e ∈ UnbranchingPath.path p -> is_Some (graphEdges g0 !! e)) ->
  exists g', markPath b g p = Some g' /\ sameWiring g0 g'.
Proof.
  intros Htw Hw Hp. unfold markPath.
  apply (foldM_total_inv (sameWiring g0)); [|exact Hw].
  intros s x Hx Hs.
  destruct (updateBothStrands_total (setAltHaplotype b) s x) as [s' Hs'].
  - reflexivity.
  - apply (sameWiring_is_Some _ _ _ Hs). apply Hp. exact Hx.
  - exact (sameWiring_twins _ _ Hs Htw).
  - exists s'. split; [exact Hs'|].
    eapply sameWiring_trans; [exact Hs|].
    exact (updateBothStrands_sameWiring _ _ _ _ (setAltHaplotype_sameWire b) Hs').
Qed.

Lemma foldCoverage_total (g0 : RepeatGraph C) (c : C) (p : UnbranchingPath.t C)
    (g : RepeatGraph C) :
  twinsInvolutive g0 -> sameWiring g0 g ->
  (forall e, e ∈ UnbranchingPath.path p -> is_Some (graphEdges g0 !! e)) ->
  exists g', foldM (foldCoverageEdge c) g (UnbranchingPath.path p) = Some g' /\
             sameWiring g0 g'.
Proof.
  intros Htw Hw Hp.
  apply (foldM_total_inv (sameWiring g0)); [|exact Hw].
  intros s x Hx Hs. unfold foldCoverageEdge.
  destruct (updateBothStrands_total (addMeanCoverage c) s x) as [s1 Hs1].
  - reflexivity.
  - apply (sameWiring_is_Some _ _ _ Hs). apply Hp. exact Hx.
  - exact (sameWiring_twins _ _ Hs Htw).
  - rewrite Hs1.
    assert (Hw1 : sameWiring g0 s1).
    { eapply sameWiring_trans; [exact Hs|].
      exact (updateBothStrands_sameWiring _ _ _ _ (addMeanCoverage_sameWire c) Hs1). }
    unfold markEdge.
    destruct (updateBothStrands_total (setAltHaplotype false) s1 x) as [s2 Hs2].
    + reflexivity.
    + apply (sameWiring_is_Some _ _ _ Hw1). apply Hp. exact Hx.
    + exact (sameWiring_twins _ _ Hw1 Htw).
    + exists s2. split; [exact Hs2|].
      eapply sameWiring_trans; [exact Hw1|].
      exact (updateBothStrands_sameWiring _ _ _ _ (setAltHaplotype_sameWire false) Hs2).
Qed.

Lemma pathValidb_edges (g : RepeatGraph C) (p : UnbranchingPath.t C) :
  pathValidb g p = true ->
  (exists front back, pathFront p = Some front /\ pathBack p = Some back) /\
  forall e, e ∈ UnbranchingPath.path p -> is_Some (graphEdges g !! e).
Proof.
  unfold pathValidb, pathFront, pathBack.
  destruct (UnbranchingPath.path p) as [|e0 es] eqn:Hp; [discriminate|].
  rewrite forallb_forall. intros Hall. split.
  - exists e0. destruct (last (e0 :: es)) as [b|] eqn:Hlast; [eauto|].
    apply last_None in Hlast. discriminate.
  - intros e He. apply list_elem_of_In in He. specialize (Hall e He).
    destruct (graphEdges g !! e); [eauto|discriminate].
Qed.

Lemma bulgeLookup_finds (g : RepeatGraph C) (paths : list (UnbranchingPath.t C))
    (l r : node_ptr) (nl nr : GraphNode) :
  adjacencyCoherent g -> unbranchingCover g paths ->
  graphNodes g !! l = Some nl -> graphNodes g !! r = Some nr ->
  bulgeDegreesOk nl nr = true ->
  exists en ex, bulgeLookup g l r paths = Some (Some en, Some ex).
Proof.
  intros Hco Hcover Hl Hr Hdeg.
  assert (Hvalid : forall p, p ∈ paths -> pathValidb g p = true).
  { intros p Hp. destruct (unbranchingCoverb_sound _ _ Hcover) as (_ & Hch & _).
    exact (proj1 (Hch p Hp)). }
  unfold bulgeDegreesOk in Hdeg.
  apply andb_prop in Hdeg. destruct Hdeg as [Hdeg Hri].
  apply andb_prop in Hdeg. destruct Hdeg as [Hdeg Hro].
  apply andb_prop in Hdeg. destruct Hdeg as [Hli Hlo].
  apply Nat.eqb_eq in Hli, Hlo, Hri, Hro.
  assert (Hlb : nonBranching g l = false).
  { unfold nonBranching. rewrite Hl, Hli, Hlo. reflexivity. }
  assert (Hrb : nonBranching g r = false).
  { unfold nonBranching. rewrite Hr, Hri, Hro. reflexivity. }
  destruct (bulgeLookup_total g l r paths Hvalid) as [[en ex] Hlook].
  assert (Hen : is_Some en).
  { destruct (inEdges nl) as [|x [|]] eqn:Hin; try discriminate.
    destruct (path_into_branching _ paths l nl x Hco Hcover Hl Hlb) as (q & Hq & Hqr & _).
    { rewrite Hin. apply list_elem_of_here. }
    apply (bulgeLookup_entrance _ _ _ _ _ _ Hlook). right. eauto. }
  assert (Hex : is_Some ex).
  { destruct (outEdges nr) as [|x [|]] eqn:Hout; try discriminate.
    destruct (path_out_of_branching _ paths r nr x Hco Hcover Hr Hrb) as (q & Hq & Hql & _).
    { rewrite Hout. apply list_elem_of_here. }
    apply (bulgeLookup_exit _ _ _ _ _ _ Hlook). right. eauto. }
  destruct Hen as [en' ->]. destruct Hex as [ex' ->]. eauto.
Qed.

Lemma sameWiring_bulgeLookup (g g' : RepeatGraph C) (l r : node_ptr)
    (paths : list (UnbranchingPath.t C)) :
  sameWiring g g' -> bulgeLookup g' l r paths = bulgeLookup g l r paths.
Proof.
  intros Hw. unfold bulgeLookup. apply foldM_ext. intros acc q _.
  unfold bulgeLookupStep.
  rewrite (sameWiring_pathNodeLeft _ _ _ Hw), (sameWiring_pathNodeRight _ _ _ Hw).
  reflexivity.
Qed.

Section WellFormedInput.

Variable MAX_BUBBLE_LEN : Z.
Variable removeAlternatives : bool.
Variable paths : list (UnbranchingPath.t C).
Variable g : RepeatGraph C.
Hypothesis Hco : adjacencyCoherent g.
Hypothesis Hcover : unbranchingCover g paths.
Hypothesis Htw : twinsInvolutive g.

Lemma wf_valid (p : UnbranchingPath.t C) : p ∈ paths -> pathValidb g p = true.
Proof.
  intros Hp. destruct (unbranchingCoverb_sound _ _ Hcover) as (_ & Hch & _).
  exact (proj1 (Hch p Hp)).
Qed.

Lemma wf_ends (gc : RepeatGraph C) (p : UnbranchingPath.t C) :
  sameWiring g gc -> p ∈ paths ->
  exists l r nl nr,
    pathNodeLeft gc p = Some l /\ pathNodeRight gc p = Some r /\
    graphNodes gc !! l = Some nl /\ graphNodes gc !! r = Some nr.
Proof.
  intros Hw Hp.
  rewrite (sameWiring_pathNodeLeft _ _ _ Hw), (sameWiring_pathNodeRight _ _ _ Hw).
  rewrite (proj1 Hw).
  destruct (pathValidb_edges _ _ (wf_valid p Hp)) as [(front & back & Hf & Hb) Hall].
  destruct (Hall front) as [edF HeF].
  { unfold pathFront in Hf. apply head_Some_elem_of. exact Hf. }
  destruct (Hall back) as [edB HeB].
  { unfold pathBack in Hb. apply last_Some_elem_of. exact Hb. }
  apply adjacencyCoherent_iff in Hco as [_ Hli].
  destruct (Hli front edF HeF) as (nl & _ & Hnl & _).
  destruct (Hli back edB HeB) as (_ & nr & _ & Hnr & _).
  exists (nodeLeft edF), (nodeRight edB), nl, nr.
  rewrite (pathNodeLeft_Some g p front edF Hf HeF).
  rewrite (pathNodeRight_Some g p back edB Hb HeB). auto.
Qed.

Lemma wf_front (gc : RepeatGraph C) (p : UnbranchingPath.t C) :
  sameWiring g gc -> p ∈ paths -> is_Some (frontAltHaplotype gc p).
Proof.
  intros Hw Hp.
  destruct (pathValidb_edges _ _ (wf_valid p Hp)) as [(front & back & Hf & Hb) Hall].
  unfold frontAltHaplotype. rewrite Hf.
  destruct (sameWiring_is_Some _ _ front Hw) as [ed ->]; [|eauto].
  apply Hall. unfold pathFront in Hf. apply head_Some_elem_of. exact Hf.
Qed.

Lemma bulgeApply_total (st : BulgeState C) (c : BulgeCandidate C) :
  sameWiring g (bulgeGraph st) ->
  branch0 c ∈ paths -> branch1 c ∈ paths ->
  is_Some (bulgeApply removeAlternatives st c).
Proof.
  intros Hw H0 H1. unfold bulgeApply.
  destruct (bulgeOrder c) as [a b] eqn:Hord.
  assert (Hab : a ∈ paths /\ b ∈ paths).
  { unfold bulgeOrder in Hord. destruct (cltb _ _); injection Hord as <- <-; auto. }
  destruct Hab as [Ha Hb].
  destruct (wf_front _ a Hw Ha) as [fa Hfa]. destruct (wf_front _ b Hw Hb) as [fb Hfb].
  unfold bulgeNewlyMasked. rewrite Hfa, Hfb.
  assert (Hfresh : exists fresh, (if fa then Some (negb fb) else Some true) = Some fresh)
    by (destruct fa; eauto).
  destruct Hfresh as [fresh Hfresh].
  replace (match fa with true => Some (negb fb) | false => Some true end)
    with (Some fresh) by (destruct fa; exact (eq_sym Hfresh)).
  destruct (markPath_total g true a (bulgeGraph st) Htw Hw) as (g1 & -> & Hw1).
  { exact (proj2 (pathValidb_edges _ _ (wf_valid a Ha))). }
  destruct (markPath_total g true b g1 Htw Hw1) as (g2 & -> & Hw2).
  { exact (proj2 (pathValidb_edges _ _ (wf_valid b Hb))). }
  destruct removeAlternatives; [|eauto].
  destruct (foldCoverage_total g (UnbranchingPath.meanCoverage a) b g2 Htw Hw2)
    as (g3 & -> & _).
  { exact (proj2 (pathValidb_edges _ _ (wf_valid b Hb))). }
  eauto.
Qed.

Lemma bulgeIter_total (st : BulgeState C) (p : UnbranchingPath.t C) :
  sameWiring g (bulgeGraph st) -> p ∈ paths ->
  is_Some (bulgeIter MAX_BUBBLE_LEN removeAlternatives paths st p).
Proof.
  intros Hw Hp. unfold bulgeIter.
  destruct (bulgeCandidate paths st p) as [[c|]|] eqn:Hcand; [| eauto |].
  - destruct (bulgeCandidate_inv _ _ _ _ Hcand)
      as (l & r & nl & nr & Hl & Hr & Hdeg & Hlook).
    destruct (bulgeCandidate_branches _ _ _ _ Hcand) as (l' & r' & _ & Hbr).
    destruct (Hbr (branch0 c) (or_introl eq_refl)) as (H0 & _).
    destruct (Hbr (branch1 c) (or_intror eq_refl)) as (H1 & _).
    rewrite (sameWiring_bulgeLookup _ _ _ _ _ Hw) in Hlook.
    rewrite (proj1 Hw) in Hl, Hr.
    destruct (bulgeLookup_finds g paths l r nl nr Hco Hcover Hl Hr Hdeg)
      as (en & ex & Hfound).
    rewrite Hfound in Hlook. injection Hlook as Hen Hex.
    assert (Htests : is_Some (bulgeTests MAX_BUBBLE_LEN c)).
    { unfold bulgeTests. rewrite <- Hen, <- Hex.
      destruct (_ <? _); [eauto|].
      destruct (bulgeCoverageRejects c en ex); [eauto|].
      destruct (bulgeLengthRejects c en ex); eauto. }
    destruct Htests as [[|] ->]; [|eauto].
    exact (bulgeApply_total st c Hw H0 H1).
  - exfalso. revert Hcand. unfold bulgeCandidate.
    destruct (wf_ends _ p Hw Hp) as (l & r & nl & nr & Hl & Hr & Hnl & Hnr).
    unfold isLooped. rewrite Hl, Hr.
    destruct (Nat.eqb l r); [discriminate|].
    destruct (filterM_total (sameEnds (bulgeGraph st) l r) paths) as [res ->].
    { intros q Hq. destruct (wf_ends _ q Hw Hq) as (ql & qr & _ & _ & Hql & Hqr & _).
      unfold sameEnds. rewrite Hql, Hqr. destruct (Nat.eqb ql l); eauto. }
    destruct res as [|a [|b [|]]]; try discriminate.
    destruct (decide _); [discriminate|].
    destruct (decide _); [discriminate|].
    destruct (decide _); [discriminate|].
    rewrite Hnl. destruct (negb _); [discriminate|].
    rewrite Hnr. destruct (negb _); [discriminate|].
    destruct (bulgeLookup_total (bulgeGraph st) l r paths) as [[en ex] ->];
      [|discriminate].
    intros q Hq. destruct (wf_ends _ q Hw Hq) as (ql & qr & _ & _ & Hql & Hqr & _).
    unfold pathValidb.
    destruct (pathValidb_edges _ _ (wf_valid q Hq)) as [_ Hall].
    pose proof (wf_valid q Hq) as Hv. unfold pathValidb in Hv.
    destruct (UnbranchingPath.path q) as [|e0 es]; [discriminate|].
    apply forallb_forall. intros e He. apply list_elem_of_In in He.
    destruct (sameWiring_is_Some _ _ e Hw (Hall e He)) as [ed ->]. reflexivity.
Qed.

End WellFormedInput.

(** Lines 110-117 on a path whose first and last edge are edges of the
    graph attached to nodes of the graph: the separation goes through, the
    two fresh nodes list the first edge of the path as the only outgoing
    edge of the one and its last edge as the only incoming edge of the
    other, the node the path left from and the node it arrived at lose
    these entries and nothing else, the first edge now starts at the one
    fresh node and the last edge ends at the other, and no other node or
    edge changes. *)
Theorem separation_rewires_the_path (g : RepeatGraph C) (p : UnbranchingPath.t C)
    (front back : edge_ptr) (edF edB : GraphEdge C) :
  pathFront p = Some front -> pathBack p = Some back ->
  graphEdges g !! front = Some edF -> graphEdges g !! back = Some edB ->
  (nodeLeft edF < List.length (graphNodes g))%nat ->
  (nodeRight edB < List.length (graphNodes g))%nat ->
  exists g',
    separatePath g p = Some g' /\
    (forall n,
       graphNodes g' !! n =
       if decide (n = List.length (graphNodes g)) then Some (mkNode [] [front])
       else if decide (n = S (List.length (graphNodes g))) then Some (mkNode [back] [])
       else separatedNode front back (nodeLeft edF) (nodeRight edB) n
              <$> graphNodes g !! n) /\
    (forall e,
       graphEdges g' !! e =
       separatedEdge front back (List.length (graphNodes g)) e <$> graphEdges g !! e).
Proof. apply separatePath_lookup. Qed.

(** Lines 12-133, either mode: on a graph whose adjacency lists are
    coherent the bulge pass leaves a graph whose adjacency lists are
    coherent. *)
Theorem bulge_pass_keeps_adjacency_coherent (MAX_BUBBLE_LEN : Z)
    (removeAlternatives : bool) (paths : list (UnbranchingPath.t C))
    (g g' : RepeatGraph C) (n : Z) :
  adjacencyCoherent g ->
  collapseHeterozygousBulges MAX_BUBBLE_LEN removeAlternatives paths g = Some (g', n) ->
  adjacencyCoherent g'.
Proof.
  intros Hco. apply adjacencyCoherent_iff in Hco.
  unfold collapseHeterozygousBulges.
  destruct (foldM _ _ paths) as [st|] eqn:Hdet; [|discriminate].
  apply bulgeDetection_sameWiring in Hdet. cbn [bulgeGraph] in Hdet.
  pose proof (sameWiring_coherent _ _ Hdet Hco) as Hco1.
  destruct removeAlternatives.
  - destruct (foldM (separateIter _) _ paths) as [g2|] eqn:Hsep; [|discriminate].
    intros [= <- _]. apply adjacencyCoherent_iff.
    refine (foldM_invariant (fun s => listsCoherent s /\ edgesListed s)
              _ _ paths _ _ Hco1 Hsep).
    intros s x s' Hs. unfold separateIter.
    destruct (decide _); [|intros [= <-]; exact Hs].
    apply separatePath_coherent. exact Hs.
  - intros [= <- _]. apply adjacencyCoherent_iff. exact Hco1.
Qed.

(** Lines 12-133, either mode: on a graph whose adjacency lists are
    coherent and whose twins are involutive, with a path list that holds a
    maximal unbranching path through every edge, the bulge pass returns: it
    dereferences no null entrance or exit, indexes no vector out of range
    and follows no pointer out of the graph. *)
Theorem bulge_pass_returns (MAX_BUBBLE_LEN : Z) (removeAlternatives : bool)
    (paths : list (UnbranchingPath.t C)) (g : RepeatGraph C) :
  adjacencyCoherent g -> unbranchingCover g paths -> twinsInvolutive g ->
  is_Some (collapseHeterozygousBulges MAX_BUBBLE_LEN removeAlternatives paths g).
Proof.
  intros Hco Hcover Htw. unfold collapseHeterozygousBulges.
  destruct (foldM_total_inv (fun st => sameWiring g (bulgeGraph st))
              (bulgeIter MAX_BUBBLE_LEN removeAlternatives paths) paths)
    with (s := mkBulgeState g ∅ 0) as (st & Hdet & Hw).
  { intros s x Hx Hs.
    destruct (bulgeIter_total MAX_BUBBLE_LEN removeAlternatives paths g
                Hco Hcover Htw s x Hs Hx) as [s' Hs'].
    exists s'. split; [exact Hs'|].
    exact (sameWiring_trans _ _ _ Hs (bulgeIter_sameWiring _ _ _ _ _ _ Hs')). }
  { apply sameWiring_refl. }
  rewrite Hdet. destruct removeAlternatives; [|eauto].
  destruct (foldM_total_inv
              (fun s => (listsCoherent s /\ edgesListed s) /\
                        forall e, is_Some (graphEdges g !! e) ->
                                  is_Some (graphEdges s !! e))
              (separateIter (toSeparate st)) paths)
    with (s := bulgeGraph st) as (g2 & -> & _); [| |eauto].
  - intros s x Hx [Hs Hedges]. unfold separateIter.
    destruct (decide _); [|eauto].
    destruct (pathValidb_edges _ _ (wf_valid paths g Hcover x Hx))
      as [(front & back & Hf & Hb) Hall].
    destruct (Hedges front) as [edF HeF].
    { apply Hall. unfold pathFront in Hf. apply head_Some_elem_of. exact Hf. }
    destruct (Hedges back) as [edB HeB].
    { apply Hall. unfold pathBack in Hb. apply last_Some_elem_of. exact Hb. }
    destruct (proj2 Hs front edF HeF) as (nl & _ & Hnl & _).
    destruct (proj2 Hs back edB HeB) as (_ & nr & _ & Hnr & _).
    destruct (separatePath_lookup s x front back edF edB Hf Hb HeF HeB)
      as (s' & Hsep & _ & Hlook).
    { eapply lookup_lt_Some; eauto. }
    { eapply lookup_lt_Some; eauto. }
    exists s'. split; [exact Hsep|]. split.
    + exact (separatePath_coherent _ _ _ Hs Hsep).
    + intros z Hz. rewrite Hlook. destruct (Hedges z Hz) as [ed ->]. cbn. eauto.
  - split.
    + apply (sameWiring_coherent _ _ Hw). apply adjacencyCoherent_iff. exact Hco.
    + intros z. apply sameWiring_is_Some. exact Hw.
Qed.

End Separation.

Lemma separation_rewires_the_path_witness :
  exists g',
    separatePath simpleBulge (branchA (10 # 1)) = Some g' /\
    graphNodes g' !! 8%nat = Some (mkNode [] [2%nat]) /\
    graphNodes g' !! 9%nat = Some (mkNode [2%nat] []) /\
    graphEdges g' !! 2%nat =
    Some (mkEdge 8 9 (FastaRecord.mkId 2 true) 500 (10 # 1) false false 3).
Proof.
  destruct (separation_rewires_the_path simpleBulge (branchA (10 # 1)) 2%nat 2%nat
              (mkEdge 1 2 (FastaRecord.mkId 2 true) 500 (10 # 1) false false 3)
              (mkEdge 1 2 (FastaRecord.mkId 2 true) 500 (10 # 1) false false 3))
    as (g' & Hsep & Hnodes & Hedges).
  - reflexivity.
  - reflexivity.
  - vm_compute. reflexivity.
  - vm_compute. reflexivity.
  - vm_compute. lia.
  - vm_compute. lia.
  - exists g'. split; [exact Hsep|]. split; [|split].
    + rewrite Hnodes. reflexivity.
    + rewrite Hnodes. reflexivity.
    + rewrite Hedges. reflexivity.
Defined.

Lemma bulge_pass_keeps_adjacency_coherent_witness :
  adjacencyCoherent collapsedSimpleBulge.
Proof.
  apply (bulge_pass_keeps_adjacency_coherent 50000 true (getUnbranchingPaths simpleBulge)
           simpleBulge collapsedSimpleBulge 1).
  - split; vm_compute; reflexivity.
  - vm_compute. reflexivity.
Defined.

Lemma bulge_pass_returns_witness :
  is_Some (collapseHeterozygousBulges 50000 true (getUnbranchingPaths simpleBulge)
             simpleBulge).
Proof.
  apply bulge_pass_returns.
  - split; vm_compute; reflexivity.
  - vm_compute. reflexivity.
  - apply twinsInvolutiveb_sound. vm_compute. reflexivity.
Defined.

(** * Unrolling and removing a loop *)

Section LoopEdits.
Context {C : Type} `{Coverage C}.

Lemma unrollPath_lookup (g : RepeatGraph C) (p : UnbranchingPath.t C)
    (front back e0 prev : edge_ptr) (edF : GraphEdge C) (ndL : GraphNode) :
  pathFront p = Some front -> pathBack p = Some back ->
  graphEdges g !! front = Some edF ->
  graphNodes g !! nodeLeft edF = Some ndL ->
  inEdges ndL !! 0%nat = Some e0 ->
  inEdges ndL !! (if Nat.eqb e0 back then 1%nat else 0%nat) = Some prev ->
  is_Some (graphEdges g !! prev) ->
  exists g',
    unrollPath g p = Some g' /\
    (forall n,
       graphNodes g' !! n =
       if decide (n = List.length (graphNodes g)) then Some (mkNode [prev] [front])
       else unrolledNode front prev (nodeLeft edF) n <$> graphNodes g !! n) /\
    (forall e,
       graphEdges g' !! e =
       unrolledEdge front prev (List.length (graphNodes g)) e <$> graphEdges g !! e).
Proof.
  intros Hf Hb HeF HndL He0 Hprev [edP HeP].
  set (N := List.length (graphNodes g)) in *.
  set (l := nodeLeft edF) in *.
  assert (Hl : (l < N)%nat) by (eapply lookup_lt_Some; eauto).
  unfold unrollPath. cbn [addNode]. rewrite Hf, Hb.
  fold N.
  set (nodes1 := graphNodes g ++ [mkNode [] []]).
  assert (Hlen1 : List.length nodes1 = S N).
  { unfold nodes1. rewrite length_app. cbn. lia. }
  assert (Hold : forall n, (n < N)%nat -> nodes1 !! n = graphNodes g !! n).
  { intros n Hn. unfold nodes1. rewrite lookup_app_l by exact Hn. reflexivity. }
  assert (HN : nodes1 !! N = Some (mkNode [] [])).
  { unfold nodes1. rewrite lookup_app_r by lia. fold N. rewrite Nat.sub_diag. reflexivity. }
  rewrite (pathNodeLeft_Some (mkGraph nodes1 (graphEdges g)) p front edF Hf HeF).
  fold l. cbn [graphNodes graphEdges].
  rewrite (Hold l Hl), HndL, He0, Hprev.
  rewrite (updateNode_Some _ (mkGraph nodes1 (graphEdges g)) l ndL)
    by (cbn; rewrite Hold; auto).
  cbn [graphNodes graphEdges].
  set (nodes2 := <[l := removeOutEdge front ndL]> nodes1).
  assert (H2 : forall n, nodes2 !! n =
                 if decide (n = l) then Some (removeOutEdge front ndL) else nodes1 !! n).
  { intros n. unfold nodes2. apply list_lookup_insert_case. lia. }
  assert (Hlen2 : List.length nodes2 = S N).
  { unfold nodes2. rewrite length_insert. exact Hlen1. }
  rewrite (updateNode_Some _ (mkGraph nodes2 (graphEdges g)) l (removeOutEdge front ndL))
    by (cbn; rewrite H2, decide_True by reflexivity; reflexivity).
  cbn [graphNodes graphEdges].
  set (nodes3 := <[l := removeInEdge prev (removeOutEdge front ndL)]> nodes2).
  assert (H3 : forall n, nodes3 !! n =
                 if decide (n = l) then Some (removeInEdge prev (removeOutEdge front ndL))
                 else nodes2 !! n).
  { intros n. unfold nodes3. apply list_lookup_insert_case. lia. }
  assert (Hlen3 : List.length nodes3 = S N).
  { unfold nodes3. rewrite length_insert. exact Hlen2. }
  rewrite (updateEdge_Some _ (mkGraph nodes3 (graphEdges g)) front edF HeF).
  cbn [graphNodes graphEdges].
  set (edges4 := <[front := setNodeLeft N edF]> (graphEdges g)).
  assert (Hfront : (front < List.length (graphEdges g))%nat)
    by (eapply lookup_lt_Some; eauto).
  assert (H4 : forall e, edges4 !! e =
                 if decide (e = front) then Some (setNodeLeft N edF)
                 else graphEdges g !! e).
  { intros e. unfold edges4. apply list_lookup_insert_case. exact Hfront. }
  assert (H3N : nodes3 !! N = Some (mkNode [] [])).
  { rewrite H3, decide_False by lia. rewrite H2, decide_False by lia. exact HN. }
  rewrite (updateNode_Some _ (mkGraph nodes3 edges4) N _ H3N).
  cbn [graphNodes graphEdges].
  set (nodes5 := <[N := pushOutEdge front (mkNode [] [])]> nodes3).
  assert (H5 : forall n, nodes5 !! n =
                 if decide (n = N) then Some (pushOutEdge front (mkNode [] []))
                 else nodes3 !! n).
  { intros n. unfold nodes5. apply list_lookup_insert_case. lia. }
  assert (Hprevlt : (prev < List.length edges4)%nat).
  { unfold edges4. rewrite length_insert. eapply lookup_lt_Some; eauto. }
  destruct (lookup_lt_is_Some_2 edges4 prev Hprevlt) as [edP4 HedP4].
  rewrite (updateEdge_Some _ (mkGraph nodes5 edges4) prev edP4 HedP4).
  cbn [graphNodes graphEdges].
  rewrite (updateNode_Some _ (mkGraph nodes5 _) N (pushOutEdge front (mkNode [] [])))
    by (cbn; rewrite H5, decide_True by reflexivity; reflexivity).
  eexists. split; [reflexivity|]. cbn [graphNodes graphEdges]. split.
  - intros n.
    rewrite list_lookup_insert_case by (unfold nodes5; rewrite length_insert; lia).
    destruct (decide (n = N)) as [->|HnN]; [reflexivity|].
    rewrite H5, decide_False by exact HnN. rewrite H3. unfold unrolledNode.
    destruct (decide (n = l)) as [->|Hnl].
    + rewrite HndL. reflexivity.
    + rewrite H2, decide_False by exact Hnl.
      destruct (decide (n < N)%nat) as [Hlt|Hge].
      * rewrite Hold by exact Hlt. destruct (graphNodes g !! n); reflexivity.
      * rewrite (proj2 (lookup_ge_None (graphNodes g) n)) by (fold N; lia).
        apply lookup_ge_None. lia.
  - intros e. unfold unrolledEdge.
    rewrite list_lookup_insert_case by exact Hprevlt.
    rewrite H4 in HedP4.
    destruct (decide (e = prev)) as [->|Hne].
    + destruct (decide (prev = front)) as [Hpf|Hpf].
      * injection HedP4 as <-. rewrite Hpf. rewrite HeF. reflexivity.
      * rewrite HedP4. reflexivity.
    + rewrite H4. destruct (decide (e = front)) as [->|Hnf].
      * rewrite HeF. reflexivity.
      * destruct (graphEdges g !! e); reflexivity.
Qed.

Lemma removePath_lookup (g : RepeatGraph C) (p : UnbranchingPath.t C)
    (front back : edge_ptr) (edF edB : GraphEdge C) :
  pathFront p = Some front -> pathBack p = Some back ->
  graphEdges g !! front = Some edF -> graphEdges g !! back = Some edB ->
  (nodeLeft edF < List.length (graphNodes g))%nat ->
  exists g',
    removePath g p = Some g' /\
    (forall n,
       graphNodes g' !! n =
       if decide (n = List.length (graphNodes g)) then Some (mkNode [] [front])
       else if decide (n = S (List.length (graphNodes g))) then Some (mkNode [back] [])
       else separatedNode front back (nodeLeft edF) (nodeLeft edF) n
              <$> graphNodes g !! n) /\
    (forall e,
       graphEdges g' !! e =
       separatedEdge front back (List.length (graphNodes g)) e <$> graphEdges g !! e).
Proof.
  intros Hf Hb HeF HeB Hl.
  set (N := List.length (graphNodes g)) in *.
  set (l := nodeLeft edF) in *.
  unfold removePath. cbn [addNode]. rewrite Hf, Hb.
  cbn [graphNodes graphEdges].
  replace (List.length (graphNodes g ++ [mkNode [] []])) with (S N)
    by (rewrite length_app; cbn; lia).
  fold N.
  set (nodes2 := (graphNodes g ++ [mkNode [] []]) ++ [mkNode [] []]).
  assert (Hlen2 : List.length nodes2 = S (S N)).
  { unfold nodes2. rewrite !length_app. cbn. lia. }
  assert (Hold : forall n, (n < N)%nat -> nodes2 !! n = graphNodes g !! n).
  { intros n Hn. unfold nodes2.
    rewrite lookup_app_l by (rewrite length_app; cbn; lia).
    rewrite lookup_app_l by exact Hn. reflexivity. }
  assert (HN : nodes2 !! N = Some (mkNode [] [])).
  { unfold nodes2. rewrite lookup_app_l by (rewrite length_app; cbn; lia).
    rewrite lookup_app_r by lia. fold N. rewrite Nat.sub_diag. reflexivity. }
  assert (HN1 : nodes2 !! S N = Some (mkNode [] [])).
  { unfold nodes2. rewrite lookup_app_r by (rewrite length_app; cbn; lia).
    rewrite length_app. cbn. fold N. replace (S N - (N + 1))%nat with 0%nat by lia.
    reflexivity. }
  rewrite (pathNodeLeft_Some (mkGraph nodes2 (graphEdges g)) p front edF Hf HeF).
  fold l.
  destruct (lookup_lt_is_Some_2 (graphNodes g) l Hl) as [ndL HndL].
  rewrite (updateNode_Some _ (mkGraph nodes2 (graphEdges g)) l ndL)
    by (cbn; rewrite Hold; auto).
  cbn [graphNodes graphEdges].
  set (nodes3 := <[l := removeOutEdge front ndL]> nodes2).
  assert (Hlen3 : List.length nodes3 = S (S N)).
  { unfold nodes3. rewrite length_insert. exact Hlen2. }
  assert (H3 : forall n, nodes3 !! n =
                 if decide (n = l) then Some (removeOutEdge front ndL) else nodes2 !! n).
  { intros n. unfold nodes3. apply list_lookup_insert_case. lia. }
  rewrite (updateNode_Some _ (mkGraph nodes3 (graphEdges g)) l (removeOutEdge front ndL))
    by (cbn; rewrite H3, decide_True by reflexivity; reflexivity).
  cbn [graphNodes graphEdges].
  set (nodes4 := <[l := removeInEdge back (removeOutEdge front ndL)]> nodes3).
  assert (Hlen4 : List.length nodes4 = S (S N)).
  { unfold nodes4. rewrite length_insert. exact Hlen3. }
  assert (H4 : forall n, nodes4 !! n =
                 if decide (n = l) then Some (removeInEdge back (removeOutEdge front ndL))
                 else nodes3 !! n).
  { intros n. unfold nodes4. apply list_lookup_insert_case. lia. }
  rewrite (updateEdge_Some _ (mkGraph nodes4 (graphEdges g)) front edF HeF).
  cbn [graphNodes graphEdges].
  set (edges5 := <[front := setNodeLeft N edF]> (graphEdges g)).
  assert (Hfront : (front < List.length (graphEdges g))%nat)
    by (eapply lookup_lt_Some; eauto).
  assert (H5 : forall e, edges5 !! e =
                 if decide (e = front) then Some (setNodeLeft N edF)
                 else graphEdges g !! e).
  { intros e. unfold edges5. apply list_lookup_insert_case. exact Hfront. }
  assert (H4N1 : nodes4 !! S N = Some (mkNode [] [])).
  { rewrite H4, decide_False by lia. rewrite H3, decide_False by lia. exact HN1. }
  rewrite (updateNode_Some _ (mkGraph nodes4 edges5) (S N) _ H4N1).
  cbn [graphNodes graphEdges].
  set (nodes6 := <[S N := pushInEdge back (mkNode [] [])]> nodes4).
  assert (H6 : forall n, nodes6 !! n =
                 if decide (n = S N) then Some (pushInEdge back (mkNode [] []))
                 else nodes4 !! n).
  { intros n. unfold nodes6. apply list_lookup_insert_case. lia. }
  assert (Hback : (back < List.length edges5)%nat).
  { unfold edges5. rewrite length_insert. eapply lookup_lt_Some; eauto. }
  destruct (lookup_lt_is_Some_2 edges5 back Hback) as [edB5 HedB5].
  rewrite (updateEdge_Some _ (mkGraph nodes6 edges5) back edB5 HedB5).
  cbn [graphNodes graphEdges].
  assert (H6N : nodes6 !! N = Some (mkNode [] [])).
  { rewrite H6, decide_False by lia. rewrite H4, decide_False by lia.
    rewrite H3, decide_False by lia. exact HN. }
  rewrite (updateNode_Some _ (mkGraph nodes6 _) N _ H6N).
  eexists. split; [reflexivity|]. cbn [graphNodes graphEdges]. split.
  - intros n.
    rewrite list_lookup_insert_case by (unfold nodes6; rewrite length_insert; lia).
    destruct (decide (n = N)) as [->|HnN]; [reflexivity|].
    rewrite H6. destruct (decide (n = S N)) as [->|HnN1]; [reflexivity|].
    rewrite H4. unfold separatedNode.
    destruct (decide (n = l)) as [->|Hnl].
    + rewrite HndL. reflexivity.
    + rewrite H3, decide_False by exact Hnl.
      destruct (decide (n < N)%nat) as [Hlt|Hge].
      * rewrite Hold by exact Hlt. destruct (graphNodes g !! n) as [nd|];
          [destruct nd|]; reflexivity.
      * rewrite (proj2 (lookup_ge_None (graphNodes g) n)) by (fold N; lia).
        apply lookup_ge_None. lia.
  - intros e. unfold separatedEdge.
    rewrite list_lookup_insert_case by exact Hback.
    rewrite H5 in HedB5.
    destruct (decide (e = back)) as [->|Hne].
    + destruct (decide (back = front)) as [Hbf|Hbf].
      * injection HedB5 as <-. rewrite Hbf in HeB |- *. rewrite HeF. reflexivity.
      * rewrite HedB5. reflexivity.
    + rewrite H5. destruct (decide (e = front)) as [->|Hnf].
      * rewrite HeF. reflexivity.
      * destruct (graphEdges g !! e); reflexivity.
Qed.

Lemma graph_eq (g1 g2 : RepeatGraph C) :
  (forall n, graphNodes g1 !! n = graphNodes g2 !! n) ->
  (forall e, graphEdges g1 !! e = graphEdges g2 !! e) ->
  g1 = g2.
Proof.
  intros Hn He. destruct g1 as [n1 e1], g2 as [n2 e2]. cbn in *.
  f_equal; apply list_eq; assumption.
Qed.

(** Lines 224-232 against lines 110-117: on a path that starts and ends in
    one node, removing the loop is separating the path; the statements come
    in another order and leave the same graph. *)
Theorem removing_a_loop_is_separating_it (g : RepeatGraph C) (p : UnbranchingPath.t C)
    (front back : edge_ptr) (edF edB : GraphEdge C) :
  pathFront p = Some front -> pathBack p = Some back ->
  graphEdges g !! front = Some edF -> graphEdges g !! back = Some edB ->
  nodeRight edB = nodeLeft edF ->
  (nodeLeft edF < List.length (graphNodes g))%nat ->
  is_Some (removePath g p) /\ removePath g p = separatePath g p.
Proof.
  intros Hf Hb HeF HeB Hloop Hl.
  destruct (removePath_lookup g p front back edF edB Hf Hb HeF HeB Hl)
    as (g1 & Hrem & Hn1 & He1).
  destruct (separatePath_lookup g p front back edF edB Hf Hb HeF HeB Hl)
    as (g2 & Hsep & Hn2 & He2); [rewrite Hloop; exact Hl|].
  rewrite Hrem, Hsep. split; [eauto|]. f_equal. apply graph_eq.
  - intros n. rewrite Hn1, Hn2, Hloop. reflexivity.
  - intros e. rewrite He1, He2. reflexivity.
Qed.

(** Lines 209-218 keep the adjacency lists coherent. *)
Lemma unrollPath_coherent (g g' : RepeatGraph C) (front prev : edge_ptr)
    (edF : GraphEdge C) (ndL : GraphNode) :
  listsCoherent g -> edgesListed g ->
  graphEdges g !! front = Some edF ->
  graphNodes g !! nodeLeft edF = Some ndL ->
  prev ∈ inEdges ndL ->
  (forall n,
     graphNodes g' !! n =
     if decide (n = List.length (graphNodes g)) then Some (mkNode [prev] [front])
     else unrolledNode front prev (nodeLeft edF) n <$> graphNodes g !! n) ->
  (forall e,
     graphEdges g' !! e =
     unrolledEdge front prev (List.length (graphNodes g)) e <$> graphEdges g !! e) ->
  listsCoherent g' /\ edgesListed g'.
Proof.
  intros Hco Hli HeF HndL Hprev Hnodes Hedges.
  set (N := List.length (graphNodes g)) in *.
  set (l := nodeLeft edF) in *.
  destruct (Hco l ndL HndL) as (HinL & HoutL & HndiL & HndoL).
  destruct (HinL prev Hprev) as (edP & HeP & HrP).
  assert (HedgeF : exists ed', graphEdges g' !! front = Some ed' /\ nodeLeft ed' = N).
  { rewrite Hedges, HeF. cbn. eexists. split; [reflexivity|].
    unfold unrolledEdge. rewrite (decide_True (P := front = front)) by reflexivity.
    destruct (decide (front = prev)); reflexivity. }
  assert (HedgeP : exists ed', graphEdges g' !! prev = Some ed' /\ nodeRight ed' = N).
  { rewrite Hedges, HeP. cbn. eexists. split; [reflexivity|].
    unfold unrolledEdge. rewrite (decide_True (P := prev = prev)) by reflexivity.
    reflexivity. }
  split.
  - intros n nd' Hnd'. rewrite Hnodes in Hnd'.
    destruct (decide (n = N)) as [->|HnN].
    { injection Hnd' as <-. cbn. split; [|split; [|split]].
      - intros e He. apply list_elem_of_singleton in He. subst e. exact HedgeP.
      - intros e He. apply list_elem_of_singleton in He. subst e. exact HedgeF.
      - apply NoDup_singleton.
      - apply NoDup_singleton. }
    destruct (graphNodes g !! n) as [nd|] eqn:Hnd; [|discriminate].
    cbn in Hnd'. injection Hnd' as <-.
    destruct (Hco n nd Hnd) as (Hin & Hout & Hndi & Hndo).
    unfold unrolledNode. destruct (decide (n = l)) as [Hnl|Hnl]; cbn [inEdges outEdges].
    + split; [|split; [|split]].
      * intros e He. pose proof (vecRemove_subset _ _ _ He) as He1.
        assert (Hne : e <> prev).
        { intros ->. exact (proj2 (vecRemove_NoDup _ prev Hndi) He). }
        destruct (Hin e He1) as (ed & Hed & Hright).
        exists (unrolledEdge front prev N e ed).
        split; [rewrite Hedges, Hed; reflexivity|].
        unfold unrolledEdge. rewrite (decide_False (P := e = prev)) by exact Hne.
        destruct (decide (e = front)); exact Hright.
      * intros e He. pose proof (vecRemove_subset _ _ _ He) as He1.
        assert (Hne : e <> front).
        { intros ->. exact (proj2 (vecRemove_NoDup _ front Hndo) He). }
        destruct (Hout e He1) as (ed & Hed & Hleft).
        exists (unrolledEdge front prev N e ed).
        split; [rewrite Hedges, Hed; reflexivity|].
        unfold unrolledEdge. rewrite (decide_False (P := e = front)) by exact Hne.
        destruct (decide (e = prev)); exact Hleft.
      * exact (proj1 (vecRemove_NoDup _ prev Hndi)).
      * exact (proj1 (vecRemove_NoDup _ front Hndo)).
    + split; [|split; [|auto]].
      * intros e He. destruct (Hin e He) as (ed & Hed & Hright).
        assert (Hne : e <> prev).
        { intros ->. rewrite HeP in Hed. injection Hed as <-. congruence. }
        exists (unrolledEdge front prev N e ed).
        split; [rewrite Hedges, Hed; reflexivity|].
        unfold unrolledEdge. rewrite (decide_False (P := e = prev)) by exact Hne.
        destruct (decide (e = front)); exact Hright.
      * intros e He. destruct (Hout e He) as (ed & Hed & Hleft).
        assert (Hne : e <> front).
        { intros ->. rewrite HeF in Hed. injection Hed as <-. apply Hnl.
          symmetry. exact Hleft. }
        exists (unrolledEdge front prev N e ed).
        split; [rewrite Hedges, Hed; reflexivity|].
        unfold unrolledEdge. rewrite (decide_False (P := e = front)) by exact Hne.
        destruct (decide (e = prev)); exact Hleft.
  - intros e ed' Hed'. rewrite Hedges in Hed'.
    destruct (graphEdges g !! e) as [ed|] eqn:Hed; [|discriminate].
    cbn in Hed'. injection Hed' as <-.
    destruct (Hli e ed Hed) as (nl & nr & Hnl & Hnr & Ho & Hi).
    pose proof (lookup_lt_Some _ _ _ Hnl) as Hnl_lt.
    pose proof (lookup_lt_Some _ _ _ Hnr) as Hnr_lt.
    fold N in Hnl_lt, Hnr_lt.
    assert (Hleft : exists nl', graphNodes g' !! nodeLeft (unrolledEdge front prev N e ed)
                                = Some nl' /\ e ∈ outEdges nl').
    { destruct (decide (e = front)) as [->|Hnf].
      - exists (mkNode [prev] [front]). split; [|cbn; apply list_elem_of_here].
        replace (nodeLeft (unrolledEdge front prev N front ed)) with N.
        + rewrite Hnodes, decide_True by reflexivity. reflexivity.
        + unfold unrolledEdge. rewrite (decide_True (P := front = front)) by reflexivity.
          destruct (decide (front = prev)); reflexivity.
      - replace (nodeLeft (unrolledEdge front prev N e ed)) with (nodeLeft ed).
        + rewrite Hnodes, decide_False by lia. rewrite Hnl. cbn.
          eexists. split; [reflexivity|]. unfold unrolledNode.
          destruct (decide (nodeLeft ed = l)); [|exact Ho]. cbn [outEdges].
          apply vecRemove_keeps; assumption.
        + unfold unrolledEdge. rewrite (decide_False (P := e = front)) by exact Hnf.
          destruct (decide (e = prev)); reflexivity. }
    assert (Hright : exists nr', graphNodes g' !! nodeRight (unrolledEdge front prev N e ed)
                                 = Some nr' /\ e ∈ inEdges nr').
    { destruct (decide (e = prev)) as [->|Hnp].
      - exists (mkNode [prev] [front]). split; [|cbn; apply list_elem_of_here].
        replace (nodeRight (unrolledEdge front prev N prev ed)) with N.
        + rewrite Hnodes, decide_True by reflexivity. reflexivity.
        + unfold unrolledEdge. rewrite (decide_True (P := prev = prev)) by reflexivity.
          reflexivity.
      - replace (nodeRight (unrolledEdge front prev N e ed)) with (nodeRight ed).
        + rewrite Hnodes, decide_False by lia. rewrite Hnr. cbn.
          eexists. split; [reflexivity|]. unfold unrolledNode.
          destruct (decide (nodeRight ed = l)); [|exact Hi]. cbn [inEdges].
          apply vecRemove_keeps; assumption.
        + unfold unrolledEdge. rewrite (decide_False (P := e = prev)) by exact Hnp.
          destruct (decide (e = front)); reflexivity. }
    destruct Hleft as (nl' & Hnl' & Ho'). destruct Hright as (nr' & Hnr' & Hi').
    exists nl', nr'. auto.
Qed.

(** Lines 209-218 on a path that starts and ends in one node with two
    incoming edges, in a graph with coherent adjacency lists: the unrolling
    goes through; the incoming edge it moves is the one that is not the
    last edge of the path; afterwards the path starts at the fresh node and
    still ends at the old one, so it is a loop no longer; the fresh node
    has the moved edge as its only incoming and the first edge of the path
    as its only outgoing edge; and the adjacency lists are coherent. *)
Theorem unrolling_opens_the_loop (g : RepeatGraph C) (p : UnbranchingPath.t C)
    (front back : edge_ptr) (edF edB : GraphEdge C) (nd : GraphNode) :
  adjacencyCoherent g ->
  pathFront p = Some front -> pathBack p = Some back ->
  graphEdges g !! front = Some edF -> graphEdges g !! back = Some edB ->
  nodeRight edB = nodeLeft edF ->
  graphNodes g !! nodeLeft edF = Some nd ->
  List.length (inEdges nd) = 2%nat ->
  exists g' prev,
    unrollPath g p = Some g' /\
    prev ∈ inEdges nd /\ prev <> back /\
    pathNodeLeft g' p = Some (List.length (graphNodes g)) /\
    pathNodeRight g' p = Some (nodeLeft edF) /\
    isLooped g' p = Some false /\
    graphNodes g' !! List.length (graphNodes g) = Some (mkNode [prev] [front]) /\
    (exists ed, graphEdges g' !! prev = Some ed /\
                nodeRight ed = List.length (graphNodes g)) /\
    adjacencyCoherent g'.
Proof.
  intros Hadj Hf Hb HeF HeB Hloop Hnd Hlen.
  apply adjacencyCoherent_iff in Hadj as [Hco Hli].
  set (N := List.length (graphNodes g)) in *.
  set (l := nodeLeft edF) in *.
  assert (Hl : (l < N)%nat) by (eapply lookup_lt_Some; eauto).
  destruct (Hco l nd Hnd) as (Hin & _ & Hndi & _).
  assert (Hbin : back ∈ inEdges nd).
  { destruct (Hli back edB HeB) as (_ & nr & _ & Hnr & _ & Hi).
    rewrite Hloop in Hnr. fold l in Hnr. rewrite Hnd in Hnr. injection Hnr as <-.
    exact Hi. }
  destruct (inEdges nd) as [|a [|b [|]]] eqn:Hlist; try discriminate.
  assert (Hab : a <> b).
  { apply NoDup_cons in Hndi as [Ha _]. intros ->. apply Ha, list_elem_of_here. }
  set (prev := if Nat.eqb a back then b else a).
  assert (Hprev : [a; b] !! (if Nat.eqb a back then 1%nat else 0%nat) = Some prev).
  { unfold prev. destruct (Nat.eqb a back); reflexivity. }
  assert (Hpin : prev ∈ [a; b]).
  { unfold prev. destruct (Nat.eqb a back);
      [apply list_elem_of_further|]; apply list_elem_of_here. }
  assert (Hpb : prev <> back).
  { unfold prev. destruct (Nat.eqb a back) eqn:Heq.
    - apply Nat.eqb_eq in Heq. congruence.
    - apply Nat.eqb_neq in Heq. exact Heq. }
  destruct (Hin prev Hpin) as (edP & HeP & HrP).
  destruct (unrollPath_lookup g p front back a prev edF nd Hf Hb HeF Hnd)
    as (g' & Hun & Hnodes & Hedges).
  { rewrite Hlist. reflexivity. }
  { rewrite Hlist. exact Hprev. }
  { eauto. }
  fold N in Hnodes, Hedges. fold l in Hnodes.
  exists g', prev. split; [exact Hun|]. split; [exact Hpin|]. split; [exact Hpb|].
  assert (HL : pathNodeLeft g' p = Some N).
  { unfold pathNodeLeft. rewrite Hf, Hedges, HeF. cbn. f_equal.
    unfold unrolledEdge. rewrite (decide_True (P := front = front)) by reflexivity.
    destruct (decide (front = prev)); reflexivity. }
  assert (HR : pathNodeRight g' p = Some l).
  { unfold pathNodeRight. rewrite Hb, Hedges, HeB. cbn. f_equal.
    unfold unrolledEdge. rewrite (decide_False (P := back = prev)) by congruence.
    destruct (decide (back = front)); exact Hloop. }
  split; [exact HL|]. split; [exact HR|]. split.
  { unfold isLooped. rewrite HL, HR. f_equal. apply Nat.eqb_neq. lia. }
  split.
  { rewrite Hnodes, decide_True by reflexivity. reflexivity. }
  split.
  { rewrite Hedges, HeP. cbn. eexists. split; [reflexivity|].
    unfold unrolledEdge. rewrite (decide_True (P := prev = prev)) by reflexivity.
    reflexivity. }
  apply adjacencyCoherent_iff.
  apply (unrollPath_coherent g g' front prev edF nd Hco Hli HeF Hnd); try assumption.
  rewrite Hlist. exact Hpin.
Qed.

End LoopEdits.

Lemma removing_a_loop_is_separating_it_witness :
  is_Some (removePath (loopGraphWith (5 # 1)) (loopL (5 # 1))) /\
  removePath (loopGraphWith (5 # 1)) (loopL (5 # 1)) =
  separatePath (loopGraphWith (5 # 1)) (loopL (5 # 1)).
Proof.
  apply (removing_a_loop_is_separating_it (loopGraphWith (5 # 1)) (loopL (5 # 1))
           2%nat 2%nat
           (mkEdge 1 1 (FastaRecord.mkId 2 true) 500 (5 # 1) false false 3)
           (mkEdge 1 1 (FastaRecord.mkId 2 true) 500 (5 # 1) false false 3)).
  - reflexivity.
  - reflexivity.
  - vm_compute. reflexivity.
  - vm_compute. reflexivity.
  - reflexivity.
  - vm_compute. lia.
Defined.

Lemma unrolling_opens_the_loop_witness :
  exists g' prev,
    unrollPath (loopGraphWith (30 # 1)) (loopL (30 # 1)) = Some g' /\
    prev <> 2%nat /\
    isLooped g' (loopL (30 # 1)) = Some false /\
    graphNodes g' !! 6%nat = Some (mkNode [prev] [2%nat]) /\
    adjacencyCoherent g'.
Proof.
  destruct (unrolling_opens_the_loop (loopGraphWith (30 # 1)) (loopL (30 # 1))
              2%nat 2%nat
              (mkEdge 1 1 (FastaRecord.mkId 2 true) 500 (30 # 1) false false 3)
              (mkEdge 1 1 (FastaRecord.mkId 2 true) 500 (30 # 1) false false 3)
              (mkNode [0%nat; 2%nat] [2%nat; 4%nat]))
    as (g' & prev & Hun & _ & Hpb & _ & _ & Hloop & HN & _ & Hco).
  - split; vm_compute; reflexivity.
  - reflexivity.
  - reflexivity.
  - vm_compute. reflexivity.
  - vm_compute. reflexivity.
  - reflexivity.
  - vm_compute. reflexivity.
  - reflexivity.
  - exists g', prev. auto.
Defined.

(** * The diagnostic pass on a well-formed graph *)

Lemma foldM_None {A S : Type} (f : S -> A -> option S) (l : list A) :
  forall s, foldM f s l = None -> exists s' x, x ∈ l /\ f s' x = None.
Proof.
  induction l as [|x l IH]; intros s; cbn [foldM]; [discriminate|].
  destruct (f s x) as [s1|] eqn:Hf.
  - intros Hfold. destruct (IH s1 Hfold) as (s' & y & Hy & Hnone).
    exists s', y. split; [apply list_elem_of_further, Hy|exact Hnone].
  - intros _. exists s, x. split; [apply list_elem_of_here|exact Hf].
Qed.

Section DiagnosticPass.
Context {C : Type} `{Coverage C}.

Lemma edgesKnownb_filter (g : RepeatGraph C) (P : list EdgeAlignment -> Prop)
    `{forall x, Decision (P x)} (alns : list (list EdgeAlignment)) :
  edgesKnownb g alns = true -> edgesKnownb g (filter P alns) = true.
Proof.
  unfold edgesKnownb. rewrite !forallb_forall. intros Hall aln Hin.
  apply Hall. apply list_elem_of_In. apply list_elem_of_In in Hin.
  apply list_elem_of_filter in Hin. tauto.
Qed.

Lemma findComplexHaplotypes_None
    (alignments : list (list EdgeAlignment)) (paths : list (UnbranchingPath.t C))
    (g : RepeatGraph C) :
  adjacencyCoherent g -> unbranchingCover g paths ->
  edgesKnownb g alignments = true ->
  findComplexHaplotypes alignments paths g = None ->
  exists startPath startEdge looped ref other rest j ea gr gs ge,
    startPath ∈ paths /\ pathBack startPath = Some startEdge /\
    findLoopedEdges g paths = Some looped /\
    pathGroupsOf startEdge (default [] (buildAlnIndex alignments !! startEdge))
      = ref :: other :: rest /\
    findBubbleStart (List.length (pwsPath other))
      (convergence looped (findRepeats (ref :: other :: rest)) ref (other :: rest))
      (pwsPath ref) (other :: rest) 0 = Some 0%nat /\
    findBubbleEnd
      (convergence looped (findRepeats (ref :: other :: rest)) ref (other :: rest))
      (drop 1 (pwsPath ref)) 1 = Some j /\
    pwsPath ref !! j = Some ea /\
    gr ∈ ref :: other :: rest /\
    scanBounds startEdge (edge ea) (pwsPath gr) = (gs, ge) /\
    lastOccurrence startEdge (pwsPath gr) = Some gs /\
    lastOccurrence (edge ea) (pwsPath gr) = Some ge /\
    (ge + 1 < gs)%nat /\
    subPath (pwsPath gr) gs ge = None.
Proof.
  intros Hco Hcover Hknown. unfold findComplexHaplotypes.
  assert (Hvalid : forall p, p ∈ paths -> pathValidb g p = true).
  { intros p Hp. destruct (unbranchingCoverb_sound _ _ Hcover) as (_ & Hch & _).
    exact (proj1 (Hch p Hp)). }
  assert (Hlooped : is_Some (findLoopedEdges g paths)).
  { unfold findLoopedEdges. apply foldM_total. intros acc p Hp.
    destruct (pathValidb_ends _ _ (Hvalid p Hp)) as [[l Hl] [r Hr]].
    unfold isLooped. rewrite Hl, Hr. destruct (Nat.eqb l r); eauto. }
  destruct Hlooped as [looped Hlooped].
  rewrite Hlooped.
  destruct (foldM _ _ paths) as [log|] eqn:Hfold; [discriminate|]. intros _.
  destruct (foldM_None _ _ _ Hfold) as (log & p & Hp & Hnone).
  revert Hnone. unfold complexIter.
  destruct (negb _); [discriminate|].
  destruct (pathValidb_edges _ _ (Hvalid p Hp)) as [(front & back & Hf & Hb) Hall].
  destruct (Hall back) as [edB HeB].
  { unfold pathBack in Hb. apply last_Some_elem_of. exact Hb. }
  rewrite (pathNodeRight_Some g p back edB Hb HeB).
  apply adjacencyCoherent_iff in Hco as [_ Hli].
  destruct (Hli back edB HeB) as (_ & nr & _ & -> & _).
  destruct (_ <? _)%nat; [discriminate|].
  rewrite Hb. destruct (decide _); [discriminate|].
  destruct (analyseStart _ _ _ _) as [[r|]|] eqn:Han; try discriminate.
  intros _.
  destruct (analyseStart_None_returns_to_start g looped back
              (default [] (buildAlnIndex alignments !! back)))
    as (ref & other & rest & j & ea & gr & gs & ge & Hrest).
  - eapply lookup_lt_Some; eauto.
  - rewrite buildAlnIndex_lookup. apply edgesKnownb_filter. exact Hknown.
  - exact Han.
  - exists p, back, looped, ref, other, rest, j, ea, gr, gs, ge.
    split; [exact Hp|]. split; [exact Hb|]. split; [reflexivity|]. exact Hrest.
Qed.

(** Lines 250-491 on a graph with coherent adjacency lists, with listed
    paths that are chains of edges of the graph and reads that point at
    edges of the graph: the pass can go wrong in one way only, the inverted
    iterator range of line 435.  When it goes wrong there is a start edge
    (the last edge of a listed path) whose groups of reads are a reference
    group and at least one other; the bubble start found on the reference
    group is its first position, the start edge itself; the search of lines
    409-419 found a bubble end at position [j] of the reference group, the
    edge of [ea]; and for one of the groups the scan of lines 425-434 with
    the start edge and that bubble end edge left [groupStart = gs] and
    [groupEnd = ge], the last visits of the group to the start edge and to
    the bubble end edge, with [ge + 1 < gs]: the group comes back to the
    start edge more than one position behind its last visit of the bubble
    end edge, and the range [begin + gs, begin + ge + 1) of line 435 is
    inverted. *)
Theorem complex_finder_fails_only_on_return_to_start
    (alignments : list (list EdgeAlignment)) (paths : list (UnbranchingPath.t C))
    (g : RepeatGraph C) :
  adjacencyCoherent g -> unbranchingCover g paths ->
  edgesKnownb g alignments = true ->
  findComplexHaplotypes alignments paths g = None ->
  exists startPath startEdge looped ref other rest j ea gr gs ge,
    startPath ∈ paths /\ pathBack startPath = Some startEdge /\
    findLoopedEdges g paths = Some looped /\
    pathGroupsOf startEdge (default [] (buildAlnIndex alignments !! startEdge))
      = ref :: other :: rest /\
    findBubbleStart (List.length (pwsPath other))
      (convergence looped (findRepeats (ref :: other :: rest)) ref (other :: rest))
      (pwsPath ref) (other :: rest) 0 = Some 0%nat /\
    findBubbleEnd
      (convergence looped (findRepeats (ref :: other :: rest)) ref (other :: rest))
      (drop 1 (pwsPath ref)) 1 = Some j /\
    pwsPath ref !! j = Some ea /\
    gr ∈ ref :: other :: rest /\
    scanBounds startEdge (edge ea) (pwsPath gr) = (gs, ge) /\
    lastOccurrence startEdge (pwsPath gr) = Some gs /\
    lastOccurrence (edge ea) (pwsPath gr) = Some ge /\
    (ge + 1 < gs)%nat /\
    subPath (pwsPath gr) gs ge = None.
Proof. apply findComplexHaplotypes_None. Qed.

Lemma pathGroupsOf_suffix (startEdge : edge_ptr) (alns : list (list EdgeAlignment))
    (gr : PathWithScore) :
  gr ∈ pathGroupsOf startEdge alns ->
  exists aln pre x rest,
    aln ∈ alns /\ aln = pre ++ x :: rest /\ pwsPath gr = x :: rest /\
    edge x = startEdge.
Proof.
  unfold pathGroupsOf. cbn zeta.
  set (outPaths := sortBySpan (extractOutPaths startEdge alns)).
  intros Hin.
  destruct (groupPaths_spec outPaths) as (_ & Hsub & _).
  assert (Hp : pwsPath gr ∈ extractOutPaths startEdge alns).
  { rewrite <- (sortBySpan_perm (extractOutPaths startEdge alns)).
    apply (sublist_subseteq _ _ Hsub). apply list_elem_of_fmap.
    exists gr. split; [reflexivity|].
    unfold dropWeakGroups in Hin. apply list_elem_of_filter in Hin as [_ Hin]. exact Hin. }
  unfold extractOutPaths in Hp. apply list_elem_of_omap in Hp as (aln & Haln & Hs).
  apply suffixFrom_Some in Hs as (pre & x & rest & Heq & Hp & Hx & _).
  exists aln, pre, x, rest. auto.
Qed.

(** Lines 250-491 under the same conditions, when moreover no read visits
    an edge twice: the pass returns. *)
Theorem complex_finder_returns_without_revisits
    (alignments : list (list EdgeAlignment)) (paths : list (UnbranchingPath.t C))
    (g : RepeatGraph C) :
  adjacencyCoherent g -> unbranchingCover g paths ->
  edgesKnownb g alignments = true -> noRevisitb alignments = true ->
  is_Some (findComplexHaplotypes alignments paths g).
Proof.
  intros Hco Hcover Hknown Hnorev.
  destruct (findComplexHaplotypes alignments paths g) as [res|] eqn:Hrun; [eauto|].
  exfalso.
  destruct (findComplexHaplotypes_None _ _ _ Hco Hcover Hknown Hrun)
    as (p & startEdge & looped & ref & other & rest & j & ea & gr & gs & ge &
        _ & _ & _ & Hgroups & _ & _ & _ & Hgr & _ & Hgs & _ & Hlt & _).
  rewrite <- Hgroups in Hgr.
  destruct (pathGroupsOf_suffix _ _ _ Hgr) as (aln & pre & x & tl & Haln & Heq & Hpath & Hx).
  rewrite buildAlnIndex_lookup in Haln. apply list_elem_of_filter in Haln as [_ Haln].
  unfold noRevisitb in Hnorev. rewrite forallb_forall in Hnorev.
  specialize (Hnorev aln (proj1 (list_elem_of_In _ _) Haln)).
  apply bool_decide_eq_true in Hnorev.
  rewrite Heq in Hnorev. unfold alnEdges in Hnorev. rewrite map_app in Hnorev.
  apply NoDup_app in Hnorev as (_ & _ & Hnd). cbn [map] in Hnd.
  apply NoDup_cons in Hnd as [Hnotin _].
  destruct (lastOccurrence_Some _ _ _ Hgs) as (y & Hy & Hye).
  rewrite Hpath in Hy. destruct gs as [|gs]; [lia|]. cbn in Hy.
  apply Hnotin. rewrite Hx, <- Hye. apply list_elem_of_fmap.
  exists y. split; [reflexivity|]. apply list_elem_of_lookup. eauto.
Qed.

End DiagnosticPass.

Lemma complex_finder_fails_only_on_return_to_start_witness :
  exists startPath startEdge looped ref other rest j ea gr gs ge,
    startPath ∈ getUnbranchingPaths circularGraph /\
    pathBack startPath = Some startEdge /\
    findLoopedEdges circularGraph (getUnbranchingPaths circularGraph) = Some looped /\
    pathGroupsOf startEdge (default [] (buildAlnIndex circularAlignments !! startEdge))
      = ref :: other :: rest /\
    findBubbleStart (List.length (pwsPath other))
      (convergence looped (findRepeats (ref :: other :: rest)) ref (other :: rest))
      (pwsPath ref) (other :: rest) 0 = Some 0%nat /\
    findBubbleEnd
      (convergence looped (findRepeats (ref :: other :: rest)) ref (other :: rest))
      (drop 1 (pwsPath ref)) 1 = Some j /\
    pwsPath ref !! j = Some ea /\
    gr ∈ ref :: other :: rest /\
    scanBounds startEdge (edge ea) (pwsPath gr) = (gs, ge) /\
    lastOccurrence startEdge (pwsPath gr) = Some gs /\
    lastOccurrence (edge ea) (pwsPath gr) = Some ge /\
    (ge + 1 < gs)%nat /\
    subPath (pwsPath gr) gs ge = None.
Proof.
  apply (complex_finder_fails_only_on_return_to_start circularAlignments
           (getUnbranchingPaths circularGraph) circularGraph).
  - split; vm_compute; reflexivity.
  - vm_compute. reflexivity.
  - vm_compute. reflexivity.
  - vm_compute. reflexivity.
Defined.

Lemma complex_finder_returns_without_revisits_witness :
  is_Some (findComplexHaplotypes plainAlignments (getUnbranchingPaths circularGraph)
             circularGraph).
Proof.
  apply complex_finder_returns_without_revisits.
  - split; vm_compute; reflexivity.
  - vm_compute. reflexivity.
  - vm_compute. reflexivity.
  - vm_compute. reflexivity.
Defined.

(** * The loop pass on a well-formed graph *)

Section LoopDetection.
Context {C : Type} `{Coverage C}.

Lemma loopLookup_finds (g : RepeatGraph C) (paths : list (UnbranchingPath.t C))
    (node : node_ptr) (nd : GraphNode) (loop : UnbranchingPath.t C) :
  adjacencyCoherent g -> unbranchingCover g paths ->
  graphNodes g !! node = Some nd ->
  List.length (inEdges nd) = 2%nat -> List.length (outEdges nd) = 2%nat ->
  exists en ex, loopLookup g node loop paths = Some (Some en, Some ex).
Proof.
  intros Hco Hcover Hn Hi Ho.
  assert (Hvalid : forall p, p ∈ paths -> pathValidb g p = true).
  { intros p Hp. destruct (unbranchingCoverb_sound _ _ Hcover) as (_ & Hch & _).
    exact (proj1 (Hch p Hp)). }
  assert (Hb : nonBranching g node = false).
  { unfold nonBranching. rewrite Hn, Hi. reflexivity. }
  destruct (listsCoherentb_sound _ _ _ (proj1 Hco) Hn) as (_ & _ & Hndi & Hndo).
  destruct (loopLookup_total g node loop paths Hvalid) as [[en ex] Hlook].
  assert (Hen : is_Some en).
  { destruct (inEdges nd) as [|x [|y [|]]] eqn:Hin; try discriminate.
    destruct (path_into_branching _ paths node nd x Hco Hcover Hn Hb) as (q1 & Hq1 & Hr1 & Hl1).
    { rewrite Hin. apply list_elem_of_here. }
    destruct (path_into_branching _ paths node nd y Hco Hcover Hn Hb) as (q2 & Hq2 & Hr2 & Hl2).
    { rewrite Hin. apply list_elem_of_further, list_elem_of_here. }
    assert (Hne : UnbranchingPath.path q1 <> UnbranchingPath.path q2).
    { intros Heq. rewrite Heq, Hl2 in Hl1. injection Hl1 as ->.
      apply NoDup_cons in Hndi. destruct Hndi as [Hnin _].
      apply Hnin. apply list_elem_of_here. }
    apply (loopLookup_entrance _ _ _ _ _ _ Hlook). right.
    destruct (one_differs _ _ loop _ _ Hcover Hq1 Hq2 Hne); eauto. }
  assert (Hex : is_Some ex).
  { destruct (outEdges nd) as [|x [|y [|]]] eqn:Hout; try discriminate.
    destruct (path_out_of_branching _ paths node nd x Hco Hcover Hn Hb) as (q1 & Hq1 & Hr1 & Hl1).
    { rewrite Hout. apply list_elem_of_here. }
    destruct (path_out_of_branching _ paths node nd y Hco Hcover Hn Hb) as (q2 & Hq2 & Hr2 & Hl2).
    { rewrite Hout. apply list_elem_of_further, list_elem_of_here. }
    assert (Hne : UnbranchingPath.path q1 <> UnbranchingPath.path q2).
    { intros Heq. rewrite Heq, Hl2 in Hl1. injection Hl1 as ->.
      apply NoDup_cons in Hndo. destruct Hndo as [Hnin _].
      apply Hnin. apply list_elem_of_here. }
    apply (loopLookup_exit _ _ _ _ _ _ Hlook). right.
    destruct (one_differs _ _ loop _ _ Hcover Hq1 Hq2 Hne); eauto. }
  destruct Hen as [en' ->]. destruct Hex as [ex' ->]. eauto.
Qed.

Lemma loopLookup_members (g : RepeatGraph C) (node : node_ptr) (loop : UnbranchingPath.t C)
    (paths : list (UnbranchingPath.t C))
    (r : option (UnbranchingPath.t C) * option (UnbranchingPath.t C)) :
  loopLookup g node loop paths = Some r ->
  (forall q, fst r = Some q -> q ∈ paths) /\ (forall q, snd r = Some q -> q ∈ paths).
Proof.
  unfold loopLookup.
  apply (foldM_invariant_in
           (fun acc => (forall q, fst acc = Some q -> q ∈ paths) /\
                       (forall q, snd acc = Some q -> q ∈ paths))).
  - intros acc x acc' Hx [Hfst Hsnd]. unfold loopLookupStep.
    destruct (pathNodeRight g x); [|discriminate].
    destruct (pathNodeLeft g x); [|discriminate].
    intros [= <-]. cbn [fst snd]. split.
    + intros q. destruct (_ && _); [intros [= <-]; exact Hx|apply Hfst].
    + intros q. destruct (_ && _); [intros [= <-]; exact Hx|apply Hsnd].
  - cbn. split; intros q Hq; discriminate.
Qed.

Lemma sameWiring_loopLookup (g g' : RepeatGraph C) (node : node_ptr)
    (loop : UnbranchingPath.t C) (paths : list (UnbranchingPath.t C)) :
  sameWiring g g' -> loopLookup g' node loop paths = loopLookup g node loop paths.
Proof.
  intros Hw. unfold loopLookup. apply foldM_ext. intros acc q _.
  unfold loopLookupStep.
  rewrite (sameWiring_pathNodeLeft _ _ _ Hw), (sameWiring_pathNodeRight _ _ _ Hw).
  reflexivity.
Qed.

Lemma loopIter_total (paths : list (UnbranchingPath.t C)) (g : RepeatGraph C)
    (st : LoopState C) (p : UnbranchingPath.t C) :
  adjacencyCoherent g -> unbranchingCover g paths -> twinsInvolutive g ->
  sameWiring g (loopGraph st) -> p ∈ paths ->
  is_Some (loopIter paths st p).
Proof.
  intros Hco Hcover Htw Hw Hp. unfold loopIter.
  destruct (loopCandidate paths (loopGraph st) p) as [[r|]|] eqn:Hcand; [| eauto |].
  - destruct (loopCandidate_inv _ _ _ _ Hcand) as (node & nd & Hn & Hi & Ho & Hlook).
    rewrite (sameWiring_loopLookup _ _ _ _ _ Hw) in Hlook.
    rewrite (proj1 Hw) in Hn.
    destruct (loopLookup_finds g paths node nd p Hco Hcover Hn Hi Ho)
      as (en & ex & Hfound).
    rewrite Hfound in Hlook. injection Hlook as <-.
    destruct (loopLookup_members _ _ _ _ _ Hfound) as [Hen _].
    specialize (Hen en eq_refl). cbn [fst] in Hen.
    unfold loopTests. cbn [fst snd].
    destruct (wf_ends paths g Hco Hcover _ en Hw Hen) as (l & r & _ & _ & Hl & Hr & _).
    unfold isLooped. rewrite Hl, Hr.
    destruct (Nat.eqb l r); [eauto|].
    destruct (decide _); [eauto|].
    destruct (loopCoverageRejects p en); [eauto|].
    destruct (loopLengthRejects p en ex); [eauto|].
    unfold loopApply.
    destruct (wf_front paths g Hcover _ p Hw Hp) as [alt ->].
    destruct (markPath_total g true p (loopGraph st) Htw Hw) as (g1 & -> & _).
    { exact (proj2 (pathValidb_edges _ _ (wf_valid paths g Hcover p Hp))). }
    destruct (loopIsRemoved p en ex); eauto.
  - exfalso. revert Hcand. unfold loopCandidate.
    destruct (negb _); [discriminate|].
    destruct (wf_ends paths g Hco Hcover _ p Hw Hp) as (l & r & nl & nr & Hl & Hr & Hnl & Hnr).
    unfold isLooped. rewrite Hl, Hr.
    destruct (Nat.eqb l r); [|discriminate].
    destruct (pathValidb_edges _ _ (wf_valid paths g Hcover p Hp))
      as [(front & back & Hf & Hb) Hall].
    unfold frontSelfComplement. rewrite Hf.
    destruct (sameWiring_is_Some _ _ front Hw) as [ed ->].
    { apply Hall. unfold pathFront in Hf. apply head_Some_elem_of. exact Hf. }
    destruct (selfComplement ed); [discriminate|].
    rewrite Hnl. destruct (negb _); [discriminate|].
    destruct (loopLookup_total (loopGraph st) l p paths) as [res ->]; [|discriminate].
    intros q Hq.
    destruct (pathValidb_edges _ _ (wf_valid paths g Hcover q Hq)) as [_ Hallq].
    pose proof (wf_valid paths g Hcover q Hq) as Hv. unfold pathValidb in Hv |- *.
    destruct (UnbranchingPath.path q) as [|e0 es]; [discriminate|].
    apply forallb_forall. intros e He. apply list_elem_of_In in He.
    destruct (sameWiring_is_Some _ _ e Hw (Hallq e He)) as [ed' ->]. reflexivity.
Qed.

(** Lines 139-246: on a graph whose adjacency lists are coherent and whose
    twins are involutive, with a path list that holds a maximal unbranching
    path through every edge, the detection loop of the loop pass runs
    through, and the pass returns in mask mode: no null entrance or exit is
    dereferenced and no pointer is followed out of the graph. *)
Theorem loop_detection_returns (paths : list (UnbranchingPath.t C)) (g : RepeatGraph C) :
  adjacencyCoherent g -> unbranchingCover g paths -> twinsInvolutive g ->
  is_Some (foldM (loopIter paths) (mkLoopState g ∅ ∅ 0) paths) /\
  is_Some (collapseHeterozygousLoops false paths g).
Proof.
  intros Hco Hcover Htw.
  destruct (foldM_total_inv (fun st => sameWiring g (loopGraph st))
              (loopIter paths) paths)
    with (s := mkLoopState g ∅ ∅ 0) as (st & Hdet & _).
  { intros s x Hx Hs.
    destruct (loopIter_total paths g s x Hco Hcover Htw Hs Hx) as [s' Hs'].
    exists s'. split; [exact Hs'|].
    exact (sameWiring_trans _ _ _ Hs (loopIter_sameWiring _ _ _ _ Hs')). }
  { apply sameWiring_refl. }
  unfold collapseHeterozygousLoops. rewrite Hdet. eauto.
Qed.

End LoopDetection.

Lemma loop_detection_returns_witness :
  is_Some (foldM (loopIter (getUnbranchingPaths (loopGraphWith (5 # 1))))
                 (mkLoopState (loopGraphWith (5 # 1)) ∅ ∅ 0)
                 (getUnbranchingPaths (loopGraphWith (5 # 1)))) /\
  is_Some (collapseHeterozygousLoops false (getUnbranchingPaths (loopGraphWith (5 # 1)))
             (loopGraphWith (5 # 1))).
Proof.
  apply loop_detection_returns.
  - split; vm_compute; reflexivity.
  - vm_compute. reflexivity.
  - apply twinsInvolutiveb_sound. vm_compute. reflexivity.
Defined.

(** * The loop pass in collapse mode *)


Section CollapseLoops.
Context {C : Type} `{Coverage C}.







(** ** The edits of lines 203-234 run through *)











End CollapseLoops.

